(** * The level iterator of Pebble ([level_iter.go])

    A shallow embedding of [levelIter]: the iterator that presents the
    sstables of one LSM level as a single ordered stream of point keys, and
    that pauses at sstable boundaries while a range-deletion iterator of the
    current file is still in use by the merging iterator above it.

    The Go code is a struct mutated by its methods.  Here the struct is the
    record [levelIter], every method is a function in the monad [M] (state
    passing, with panics and assertion failures as a separate outcome), and
    the collaborators the file does not define (the sstable iterators, the
    table opener, the cursor over the level's file metadata) are interfaces:
    type classes and section variables, with one executable instance at the
    end of the file. *)

From Stdlib Require Import ZArith List String Ascii Bool Lia.
Import ListNotations.
Open Scope string_scope.
Open Scope Z_scope.

Set Implicit Arguments.

(** ** User keys, internal keys and comparers *)

(** A Go [[]byte]; a nil slice is [None] of [option bytes]. *)
Definition bytes := string.

Definition error := string.

(** Modelled from the spec: [firstError] of the enclosing package, "first
    error wins". *)
Definition firstError (err0 err1 : option error) : option error :=
  match err0 with
  | Some e => Some e
  | None => err1
  end.

(** [base.Compare]: negative, zero or positive. *)
Definition Compare := bytes -> bytes -> Z.

(** [base.Split]: the length of the prefix portion of a user key. *)
Definition Split := bytes -> nat.

(** [key[:n]] *)
Definition slice_to (key : bytes) (n : nat) : bytes := substring 0 n key.

(** Modelled from the spec: the internal key of package [base], a user key
    and a trailer packing a sequence number (high 56 bits) and a kind (low 8
    bits). *)
Record InternalKey := mkInternalKey {
  UserKey : bytes;
  Trailer : Z
}.

Definition InternalKeyKindRangeDelete : Z := 15.
Definition InternalKeyKindRangeKeyDelete : Z := 19.
Definition InternalKeyKindRangeKeyUnset : Z := 20.
Definition InternalKeyKindRangeKeySet : Z := 21.
Definition InternalKeySeqNumMax : Z := Z.shiftl 1 56 - 1.

Definition MakeTrailer (seqNum kind : Z) : Z := Z.lor (Z.shiftl seqNum 8) kind.

Definition InternalKeyRangeDeleteSentinel : Z :=
  MakeTrailer InternalKeySeqNumMax InternalKeyKindRangeDelete.

Definition Kind (k : InternalKey) : Z := Z.land (Trailer k) 255.
Definition SeqNum (k : InternalKey) : Z := Z.shiftr (Trailer k) 8.

Definition MakeRangeDeleteSentinelKey (userKey : bytes) : InternalKey :=
  {| UserKey := userKey; Trailer := InternalKeyRangeDeleteSentinel |}.

(** Modelled from the spec: the "exclusive sentinel" bit of a bound. *)
Definition IsExclusiveSentinel (k : InternalKey) : bool :=
  if Kind k =? InternalKeyKindRangeDelete then
    Trailer k =? InternalKeyRangeDeleteSentinel
  else if (Kind k =? InternalKeyKindRangeKeyDelete)
          || (Kind k =? InternalKeyKindRangeKeyUnset)
          || (Kind k =? InternalKeyKindRangeKeySet) then
    SeqNum k =? InternalKeySeqNumMax
  else false.

(** [base.InternalKV]; the lazy value is its bytes, empty for [LazyValue{}]. *)
Record InternalKV := mkInternalKV {
  K : InternalKey;
  V : bytes
}.

(** ** Seek flags: small bit sets *)

Definition SeekGEFlags := Z.
Definition SeekLTFlags := Z.

Definition seekGEFlagTrySeekUsingNext : Z := 0.
Definition seekGEFlagRelativeSeek : Z := 1.
Definition seekLTFlagRelativeSeek : Z := 0.

Definition SeekGEFlagsNone : SeekGEFlags := 0.
Definition SeekLTFlagsNone : SeekLTFlags := 0.

Definition TrySeekUsingNext (s : SeekGEFlags) : bool :=
  Z.testbit s seekGEFlagTrySeekUsingNext.
Definition RelativeSeek (s : SeekGEFlags) : bool :=
  Z.testbit s seekGEFlagRelativeSeek.
Definition EnableTrySeekUsingNext (s : SeekGEFlags) : SeekGEFlags :=
  Z.setbit s seekGEFlagTrySeekUsingNext.
Definition DisableTrySeekUsingNext (s : SeekGEFlags) : SeekGEFlags :=
  Z.clearbit s seekGEFlagTrySeekUsingNext.
Definition EnableRelativeSeek (s : SeekGEFlags) : SeekGEFlags :=
  Z.setbit s seekGEFlagRelativeSeek.
Definition LTRelativeSeek (s : SeekLTFlags) : bool :=
  Z.testbit s seekLTFlagRelativeSeek.

(** The kinds of iterators asked of the table opener. *)
Definition iterKinds := Z.
Definition iterPointKeys : iterKinds := 1.
Definition iterRangeDeletions : iterKinds := 2.

(** ** File metadata and the cursor over a level *)

Record TableStats := mkTableStats {
  NumRangeKeySets : Z
}.

(** [manifest.FileMetadata], the fields the level iterator reads.  A
    [*fileMetadata] is an [option fileMetadata]; two pointers are the same
    pointer when they name the same file number. *)
Record fileMetadata := mkFileMetadata {
  FileNum : Z;
  HasPointKeys : bool;
  HasRangeKeys : bool;
  SmallestPointKey : InternalKey;
  LargestPointKey : InternalKey;
  SmallestRangeKey : InternalKey;
  LargestRangeKey : InternalKey;
  StatsValid : bool;
  Stats : TableStats
}.

Definition file_ptr_eqb (a b : option fileMetadata) : bool :=
  match a, b with
  | None, None => true
  | Some f, Some g => FileNum f =? FileNum g
  | _, _ => false
  end.

(** The overall bounds of a file: the extremes of its point and range keys. *)
Definition fileSmallestUser (cmp : Compare) (f : fileMetadata) : bytes :=
  if HasPointKeys f && HasRangeKeys f then
    if cmp (UserKey (SmallestRangeKey f)) (UserKey (SmallestPointKey f)) <? 0
    then UserKey (SmallestRangeKey f) else UserKey (SmallestPointKey f)
  else if HasRangeKeys f then UserKey (SmallestRangeKey f)
  else UserKey (SmallestPointKey f).

Definition fileLargestUser (cmp : Compare) (f : fileMetadata) : bytes :=
  if HasPointKeys f && HasRangeKeys f then
    if cmp (UserKey (LargestPointKey f)) (UserKey (LargestRangeKey f)) <? 0
    then UserKey (LargestRangeKey f) else UserKey (LargestPointKey f)
  else if HasRangeKeys f then UserKey (LargestRangeKey f)
  else UserKey (LargestPointKey f).

(** Modelled from the spec: the level metadata cursor
    ([manifest.LevelIterator]), an ordered list of files and a position in
    it; position [-1] is before the first file and [length] is past the last
    one.  [seek_ge] lands on the first file whose largest user key is at or
    after the key, [seek_lt] on the last file whose smallest user key is
    before it. *)
Record LevelIterator := mkLevelIterator {
  lfiles : list fileMetadata;
  lpos : Z
}.

Definition li_len (it : LevelIterator) : Z := Z.of_nat (List.length (lfiles it)).

Definition li_at (it : LevelIterator) (p : Z) : option fileMetadata :=
  if p <? 0 then None else nth_error (lfiles it) (Z.to_nat p).

Definition li_move (it : LevelIterator) (p : Z)
  : option fileMetadata * LevelIterator :=
  (li_at it p, {| lfiles := lfiles it; lpos := p |}).

Definition li_Current (it : LevelIterator) : option fileMetadata :=
  li_at it (lpos it).

Fixpoint find_index {A : Type} (p : A -> bool) (l : list A) : nat :=
  match l with
  | [] => O
  | x :: r => if p x then O else S (find_index p r)
  end.

Definition li_First (it : LevelIterator) := li_move it 0.
Definition li_Last (it : LevelIterator) := li_move it (li_len it - 1).
Definition li_Next (it : LevelIterator) :=
  li_move it (Z.min (lpos it + 1) (li_len it)).
Definition li_Prev (it : LevelIterator) :=
  li_move it (Z.max (lpos it - 1) (-1)).
Definition li_SeekGE (cmp : Compare) (key : bytes) (it : LevelIterator) :=
  li_move it
    (Z.of_nat (find_index (fun f => cmp (fileLargestUser cmp f) key >=? 0)
                          (lfiles it))).
Definition li_SeekLT (cmp : Compare) (key : bytes) (it : LevelIterator) :=
  li_move it
    (Z.of_nat (find_index (fun f => cmp (fileSmallestUser cmp f) key >=? 0)
                          (lfiles it)) - 1).

(** ** The collaborators of the level iterator *)

(** The bounds of [IterOptions] that the level iterator computes per table;
    the filter handles it only passes along are left out. *)
Record IterOptions := mkIterOptions {
  LowerBound : option bytes;
  UpperBound : option bytes
}.

(** The [internalIterator] interface: the point iterator of one sstable.
    Each positioning method returns the pair it is positioned at, or [None],
    and the iterator in its new state. *)
Class InternalIterator (I : Type) := {
  iterSeekGE : bytes -> SeekGEFlags -> I -> option InternalKV * I;
  iterSeekPrefixGE : bytes -> bytes -> SeekGEFlags -> I -> option InternalKV * I;
  iterSeekLT : bytes -> SeekLTFlags -> I -> option InternalKV * I;
  iterFirst : I -> option InternalKV * I;
  iterLast : I -> option InternalKV * I;
  iterNext : I -> option InternalKV * I;
  iterNextPrefix : bytes -> I -> option InternalKV * I;
  iterPrev : I -> option InternalKV * I;
  iterError : I -> option error;
  iterClose : I -> option error;
  iterSetBounds : option bytes -> option bytes -> I -> I
}.

(** [keyspan.FragmentIterator]: the level iterator only ever closes it. *)
Class FragmentIterator (F : Type) := {
  fragClose : F -> option error
}.

(** What the table opener returns. *)
Record iterSet (I F : Type) := mkIterSet {
  point : option I;
  rangeDeletion : option F
}.

(** [tableNewIters]: file, per-table options and the kinds asked for. *)
Definition tableNewIters (I F : Type) :=
  fileMetadata -> IterOptions -> iterKinds -> iterSet I F * option error.

(** A [*base.InternalKV] handed to the caller points either into the memory
    of the inner iterator or at the [syntheticBoundary] field of the level
    iterator. *)
Inductive kvPtr :=
| InnerKV (kv : InternalKV)
| SyntheticKV.

(** Pointer equality: the pause registers only ever hold the address of
    [syntheticBoundary], which no inner iterator hands out. *)
Definition kvPtr_eqb (a b : option kvPtr) : bool :=
  match a, b with
  | None, None => true
  | Some SyntheticKV, Some SyntheticKV => true
  | _, _ => false
  end.

Record combinedIterStateT := mkCombinedIterState {
  initialized : bool;
  triggered : bool;
  key : bytes
}.

(** The ways a call stops without returning. *)
Inductive panic :=
| AssertSyntheticBoundary
| AssertSeekGELowerBound
| AssertSeekLTUpperBound
| AssertFirstLowerBound
| AssertLastUpperBound
| FatalLowerBoundViolation
| FatalUpperBoundViolation
| NilDereference.

(** Calls on the cursor, tagged in the trace by the source line making them. *)
Inductive filesCall :=
| CFirst
| CLast
| CNext
| CPrev
| CSeekGE (k : bytes)
| CSeekLT (k : bytes).

Inductive event (I F : Type) :=
| EvFiles (line : Z) (c : filesCall)
| EvNewIters (f : fileMetadata) (opts : IterOptions) (kinds : iterKinds)
| EvIterClose (it : I)
| EvRangeDelClose (t : F)
| EvFindFileGE (k : bytes) (flags : SeekGEFlags)
| EvFindFileLT (k : bytes) (flags : SeekLTFlags).

Arguments EvFiles {I F} line c.
Arguments EvNewIters {I F} f opts kinds.
Arguments EvIterClose {I F} it.
Arguments EvRangeDelClose {I F} t.
Arguments EvFindFileGE {I F} k flags.
Arguments EvFindFileLT {I F} k flags.

(** ** The state of a level iterator *)

Record levelIter (I F : Type) := mkLevelIter {
  (** the bounds of the iteration, from creation or the last [SetBounds] *)
  lower : option bytes;
  upper : option bytes;
  (** the bounds handed to the currently open table; [None] when the
      bound does not lie within the table *)
  tableOpts : IterOptions;
  (** the pause registers: non-nil while paused at a boundary reached
      with [Prev] (smallest) or [Next] (largest) *)
  smallestBoundary : option kvPtr;
  largestBoundary : option kvPtr;
  (** the cell every synthetic boundary pointer points to *)
  syntheticBoundary : InternalKV;
  (** shared with the enclosing iterator; nil when not registered *)
  combinedIterState : option combinedIterStateT;
  (** the point iterator of the current file *)
  iter : option I;
  (** the current file *)
  iterFile : option fileMetadata;
  (** the slot shared with the merging iterator: [None] when no slot was
      registered, [Some c] for a slot holding [c] *)
  rangeDelIterPtr : option (option F);
  (** the private copy of the handle written to the slot *)
  rangeDelIterCopy : option F;
  (** the cursor over the files of the level *)
  files : LevelIterator;
  (** the sticky error *)
  err : option error;
  (** [+1] or [-1] once exhausted forward or backward, else [0] *)
  exhaustedDir : Z;
  (** set by tests that build impossible situations *)
  disableInvariants : bool;
  (** ghost: the calls made to the collaborators, most recent first *)
  trace : list (event I F)
}.

(** Field updates, one per field: [l.x = v]. *)
Definition set_lower {I F : Type} (v : option bytes) (l : levelIter I F)
  : levelIter I F :=
  {| lower := v; upper := upper l; tableOpts := tableOpts l;
     smallestBoundary := smallestBoundary l;
     largestBoundary := largestBoundary l;
     syntheticBoundary := syntheticBoundary l;
     combinedIterState := combinedIterState l; iter := iter l;
     iterFile := iterFile l; rangeDelIterPtr := rangeDelIterPtr l;
     rangeDelIterCopy := rangeDelIterCopy l; files := files l; err := err l;
     exhaustedDir := exhaustedDir l;
     disableInvariants := disableInvariants l; trace := trace l |}.
Definition set_upper {I F : Type} (v : option bytes) (l : levelIter I F)
  : levelIter I F :=
  {| lower := lower l; upper := v; tableOpts := tableOpts l;
     smallestBoundary := smallestBoundary l;
     largestBoundary := largestBoundary l;
     syntheticBoundary := syntheticBoundary l;
     combinedIterState := combinedIterState l; iter := iter l;
     iterFile := iterFile l; rangeDelIterPtr := rangeDelIterPtr l;
     rangeDelIterCopy := rangeDelIterCopy l; files := files l; err := err l;
     exhaustedDir := exhaustedDir l;
     disableInvariants := disableInvariants l; trace := trace l |}.
Definition set_tableOpts {I F : Type} (v : IterOptions) (l : levelIter I F)
  : levelIter I F :=
  {| lower := lower l; upper := upper l; tableOpts := v;
     smallestBoundary := smallestBoundary l;
     largestBoundary := largestBoundary l;
     syntheticBoundary := syntheticBoundary l;
     combinedIterState := combinedIterState l; iter := iter l;
     iterFile := iterFile l; rangeDelIterPtr := rangeDelIterPtr l;
     rangeDelIterCopy := rangeDelIterCopy l; files := files l; err := err l;
     exhaustedDir := exhaustedDir l;
     disableInvariants := disableInvariants l; trace := trace l |}.
Definition set_smallestBoundary {I F : Type} (v : option kvPtr) (l : levelIter I F)
  : levelIter I F :=
  {| lower := lower l; upper := upper l; tableOpts := tableOpts l;
     smallestBoundary := v; largestBoundary := largestBoundary l;
     syntheticBoundary := syntheticBoundary l;
     combinedIterState := combinedIterState l; iter := iter l;
     iterFile := iterFile l; rangeDelIterPtr := rangeDelIterPtr l;
     rangeDelIterCopy := rangeDelIterCopy l; files := files l; err := err l;
     exhaustedDir := exhaustedDir l;
     disableInvariants := disableInvariants l; trace := trace l |}.
Definition set_largestBoundary {I F : Type} (v : option kvPtr) (l : levelIter I F)
  : levelIter I F :=
  {| lower := lower l; upper := upper l; tableOpts := tableOpts l;
     smallestBoundary := smallestBoundary l; largestBoundary := v;
     syntheticBoundary := syntheticBoundary l;
     combinedIterState := combinedIterState l; iter := iter l;
     iterFile := iterFile l; rangeDelIterPtr := rangeDelIterPtr l;
     rangeDelIterCopy := rangeDelIterCopy l; files := files l; err := err l;
     exhaustedDir := exhaustedDir l;
     disableInvariants := disableInvariants l; trace := trace l |}.
Definition set_syntheticBoundary {I F : Type} (v : InternalKV) (l : levelIter I F)
  : levelIter I F :=
  {| lower := lower l; upper := upper l; tableOpts := tableOpts l;
     smallestBoundary := smallestBoundary l;
     largestBoundary := largestBoundary l; syntheticBoundary := v;
     combinedIterState := combinedIterState l; iter := iter l;
     iterFile := iterFile l; rangeDelIterPtr := rangeDelIterPtr l;
     rangeDelIterCopy := rangeDelIterCopy l; files := files l; err := err l;
     exhaustedDir := exhaustedDir l;
     disableInvariants := disableInvariants l; trace := trace l |}.
Definition set_combinedIterState {I F : Type} (v : option combinedIterStateT) (l : levelIter I F)
  : levelIter I F :=
  {| lower := lower l; upper := upper l; tableOpts := tableOpts l;
     smallestBoundary := smallestBoundary l;
     largestBoundary := largestBoundary l;
     syntheticBoundary := syntheticBoundary l; combinedIterState := v;
     iter := iter l; iterFile := iterFile l;
     rangeDelIterPtr := rangeDelIterPtr l;
     rangeDelIterCopy := rangeDelIterCopy l; files := files l; err := err l;
     exhaustedDir := exhaustedDir l;
     disableInvariants := disableInvariants l; trace := trace l |}.
Definition set_iter {I F : Type} (v : option I) (l : levelIter I F)
  : levelIter I F :=
  {| lower := lower l; upper := upper l; tableOpts := tableOpts l;
     smallestBoundary := smallestBoundary l;
     largestBoundary := largestBoundary l;
     syntheticBoundary := syntheticBoundary l;
     combinedIterState := combinedIterState l; iter := v;
     iterFile := iterFile l; rangeDelIterPtr := rangeDelIterPtr l;
     rangeDelIterCopy := rangeDelIterCopy l; files := files l; err := err l;
     exhaustedDir := exhaustedDir l;
     disableInvariants := disableInvariants l; trace := trace l |}.
Definition set_iterFile {I F : Type} (v : option fileMetadata) (l : levelIter I F)
  : levelIter I F :=
  {| lower := lower l; upper := upper l; tableOpts := tableOpts l;
     smallestBoundary := smallestBoundary l;
     largestBoundary := largestBoundary l;
     syntheticBoundary := syntheticBoundary l;
     combinedIterState := combinedIterState l; iter := iter l; iterFile := v;
     rangeDelIterPtr := rangeDelIterPtr l;
     rangeDelIterCopy := rangeDelIterCopy l; files := files l; err := err l;
     exhaustedDir := exhaustedDir l;
     disableInvariants := disableInvariants l; trace := trace l |}.
Definition set_rangeDelIterPtr {I F : Type} (v : option (option F)) (l : levelIter I F)
  : levelIter I F :=
  {| lower := lower l; upper := upper l; tableOpts := tableOpts l;
     smallestBoundary := smallestBoundary l;
     largestBoundary := largestBoundary l;
     syntheticBoundary := syntheticBoundary l;
     combinedIterState := combinedIterState l; iter := iter l;
     iterFile := iterFile l; rangeDelIterPtr := v;
     rangeDelIterCopy := rangeDelIterCopy l; files := files l; err := err l;
     exhaustedDir := exhaustedDir l;
     disableInvariants := disableInvariants l; trace := trace l |}.
Definition set_rangeDelIterCopy {I F : Type} (v : option F) (l : levelIter I F)
  : levelIter I F :=
  {| lower := lower l; upper := upper l; tableOpts := tableOpts l;
     smallestBoundary := smallestBoundary l;
     largestBoundary := largestBoundary l;
     syntheticBoundary := syntheticBoundary l;
     combinedIterState := combinedIterState l; iter := iter l;
     iterFile := iterFile l; rangeDelIterPtr := rangeDelIterPtr l;
     rangeDelIterCopy := v; files := files l; err := err l;
     exhaustedDir := exhaustedDir l;
     disableInvariants := disableInvariants l; trace := trace l |}.
Definition set_files {I F : Type} (v : LevelIterator) (l : levelIter I F)
  : levelIter I F :=
  {| lower := lower l; upper := upper l; tableOpts := tableOpts l;
     smallestBoundary := smallestBoundary l;
     largestBoundary := largestBoundary l;
     syntheticBoundary := syntheticBoundary l;
     combinedIterState := combinedIterState l; iter := iter l;
     iterFile := iterFile l; rangeDelIterPtr := rangeDelIterPtr l;
     rangeDelIterCopy := rangeDelIterCopy l; files := v; err := err l;
     exhaustedDir := exhaustedDir l;
     disableInvariants := disableInvariants l; trace := trace l |}.
Definition set_err {I F : Type} (v : option error) (l : levelIter I F)
  : levelIter I F :=
  {| lower := lower l; upper := upper l; tableOpts := tableOpts l;
     smallestBoundary := smallestBoundary l;
     largestBoundary := largestBoundary l;
     syntheticBoundary := syntheticBoundary l;
     combinedIterState := combinedIterState l; iter := iter l;
     iterFile := iterFile l; rangeDelIterPtr := rangeDelIterPtr l;
     rangeDelIterCopy := rangeDelIterCopy l; files := files l; err := v;
     exhaustedDir := exhaustedDir l;
     disableInvariants := disableInvariants l; trace := trace l |}.
Definition set_exhaustedDir {I F : Type} (v : Z) (l : levelIter I F)
  : levelIter I F :=
  {| lower := lower l; upper := upper l; tableOpts := tableOpts l;
     smallestBoundary := smallestBoundary l;
     largestBoundary := largestBoundary l;
     syntheticBoundary := syntheticBoundary l;
     combinedIterState := combinedIterState l; iter := iter l;
     iterFile := iterFile l; rangeDelIterPtr := rangeDelIterPtr l;
     rangeDelIterCopy := rangeDelIterCopy l; files := files l; err := err l;
     exhaustedDir := v; disableInvariants := disableInvariants l;
     trace := trace l |}.
Definition set_disableInvariants {I F : Type} (v : bool) (l : levelIter I F)
  : levelIter I F :=
  {| lower := lower l; upper := upper l; tableOpts := tableOpts l;
     smallestBoundary := smallestBoundary l;
     largestBoundary := largestBoundary l;
     syntheticBoundary := syntheticBoundary l;
     combinedIterState := combinedIterState l; iter := iter l;
     iterFile := iterFile l; rangeDelIterPtr := rangeDelIterPtr l;
     rangeDelIterCopy := rangeDelIterCopy l; files := files l; err := err l;
     exhaustedDir := exhaustedDir l; disableInvariants := v;
     trace := trace l |}.
Definition set_trace {I F : Type} (v : list (event I F)) (l : levelIter I F)
  : levelIter I F :=
  {| lower := lower l; upper := upper l; tableOpts := tableOpts l;
     smallestBoundary := smallestBoundary l;
     largestBoundary := largestBoundary l;
     syntheticBoundary := syntheticBoundary l;
     combinedIterState := combinedIterState l; iter := iter l;
     iterFile := iterFile l; rangeDelIterPtr := rangeDelIterPtr l;
     rangeDelIterCopy := rangeDelIterCopy l; files := files l; err := err l;
     exhaustedDir := exhaustedDir l;
     disableInvariants := disableInvariants l; trace := v |}.

Definition loadFileReturnIndicator := Z.
Definition noFileLoaded : loadFileReturnIndicator := 0.
Definition fileAlreadyLoaded : loadFileReturnIndicator := 1.
Definition newFileLoaded : loadFileReturnIndicator := 2.

(** ** Outcomes and the monad of the methods *)

Inductive outcome (S A : Type) :=
| Ok (a : A) (s : S)
| Panic (p : panic)
| OutOfFuel.

Arguments Ok {S A} a s.
Arguments Panic {S A} p.
Arguments OutOfFuel {S A}.

Definition M (S A : Type) := S -> outcome S A.

Definition ret {S A : Type} (a : A) : M S A := fun s => Ok a s.

Definition bind {S A B : Type} (m : M S A) (k : A -> M S B) : M S B :=
  fun s =>
    match m s with
    | Ok a s' => k a s'
    | Panic p => Panic p
    | OutOfFuel => OutOfFuel
    end.

Definition modify {S : Type} (f : S -> S) : M S unit := fun s => Ok tt (f s).
Definition gets {S A : Type} (f : S -> A) : M S A := fun s => Ok (f s) s.
Definition throw {S A : Type} (p : panic) : M S A := fun _ => Panic p.

Notation "x <- c1 ;; c2" := (bind c1 (fun x => c2))
  (at level 61, c1 at next level, right associativity).
Notation "c1 ;; c2" := (bind c1 (fun _ => c2))
  (at level 61, right associativity).

(** ** The methods of [levelIter] *)

Section LevelIter.

Context {I F : Type} {HI : InternalIterator I} {HF : FragmentIterator F}.

(** [invariants.Enabled], a constant of the build. *)
Variable invariants_Enabled : bool.
(** [l.cmp], [l.split] and [l.newIters], bound once by [init]. *)
Variable cmp : Compare.
Variable split : Split.
Variable newIters : tableNewIters I F.

Local Abbreviation L := (levelIter I F).
Local Abbreviation Op := (M (levelIter I F)).

Definition log (e : event I F) : Op unit :=
  modify (fun l => set_trace (e :: trace l) l).

(** A call on [l.files] made at [line]. *)
Definition files_call (line : Z) (c : filesCall)
  (f : LevelIterator -> option fileMetadata * LevelIterator)
  : Op (option fileMetadata) :=
  fun l =>
    let (m, it) := f (files l) in
    Ok m (set_trace (EvFiles line c :: trace l) (set_files it l)).

Definition files_First (line : Z) := files_call line CFirst li_First.
Definition files_Last (line : Z) := files_call line CLast li_Last.
Definition files_Next (line : Z) := files_call line CNext li_Next.
Definition files_Prev (line : Z) := files_call line CPrev li_Prev.
Definition files_SeekGE (line : Z) (k : bytes) :=
  files_call line (CSeekGE k) (li_SeekGE cmp k).
Definition files_SeekLT (line : Z) (k : bytes) :=
  files_call line (CSeekLT k) (li_SeekLT cmp k).

(** A positioning call on [l.iter]; a nil [l.iter] is a nil dereference. *)
Definition iter_call (f : I -> option InternalKV * I) : Op (option InternalKV) :=
  fun l =>
    match iter l with
    | None => Panic NilDereference
    | Some it => let (kv, it') := f it in Ok kv (set_iter (Some it') l)
    end.

Definition iter_Error : Op (option error) :=
  fun l =>
    match iter l with
    | None => Panic NilDereference
    | Some it => Ok (iterError it) l
    end.

(** [l.iterFile.X] *)
Definition iterFile_deref : Op fileMetadata :=
  fun l =>
    match iterFile l with
    | None => Panic NilDereference
    | Some f => Ok f l
    end.

Definition deref (l : L) (p : kvPtr) : InternalKV :=
  match p with
  | InnerKV kv => kv
  | SyntheticKV => syntheticBoundary l
  end.

Definition initRangeDel (rangeDelIter : option (option F)) (l : L) : L :=
  set_rangeDelIterPtr rangeDelIter l.

Definition initCombinedIterState (state : option combinedIterStateT) (l : L) : L :=
  set_combinedIterState state l.

Definition emitSyntheticBoundaries (l : L) : bool :=
  match rangeDelIterPtr l with
  | Some (Some _) => true
  | _ => false
  end.

Definition makeSyntheticBoundary (userKey : bytes) : Op kvPtr :=
  fun l =>
    if invariants_Enabled && negb (emitSyntheticBoundaries l) then
      Panic AssertSyntheticBoundary
    else
      Ok SyntheticKV
         (set_syntheticBoundary
            {| K := MakeRangeDeleteSentinelKey userKey; V := "" |} l).

Definition maybeTriggerCombinedIteration (file : option fileMetadata) (dir : Z)
  (l : L) : L :=
  match file, combinedIterState l with
  | Some f, Some cs =>
    if HasRangeKeys f && negb (initialized cs)
       && match upper l with
          | None => true
          | Some u => cmp (UserKey (SmallestRangeKey f)) u <? 0
          end
       && match lower l with
          | None => true
          | Some lo => cmp (UserKey (LargestRangeKey f)) lo >? 0
          end
       && (negb (StatsValid f) || (NumRangeKeySets (Stats f) >? 0))
    then
      if dir =? 1 then
        if negb (triggered cs) then
          set_combinedIterState
            (Some {| initialized := initialized cs; triggered := true;
                     key := UserKey (SmallestRangeKey f) |}) l
        else if cmp (key cs) (UserKey (SmallestRangeKey f)) >? 0 then
          set_combinedIterState
            (Some {| initialized := initialized cs; triggered := triggered cs;
                     key := UserKey (SmallestRangeKey f) |}) l
        else l
      else if dir =? -1 then
        if negb (triggered cs) then
          set_combinedIterState
            (Some {| initialized := initialized cs; triggered := true;
                     key := UserKey (LargestRangeKey f) |}) l
        else if cmp (key cs) (UserKey (LargestRangeKey f)) <? 0 then
          set_combinedIterState
            (Some {| initialized := initialized cs; triggered := triggered cs;
                     key := UserKey (LargestRangeKey f) |}) l
        else l
      else l
    else l
  | _, _ => l
  end.

(** The bound on the iterations of a loop over the files of the level: each
    loop of the source moves the cursor one way, or seeks it once. *)
Definition loopFuel (l : L) : nat :=
  (2 * List.length (lfiles (files l)) + 4)%nat.

Definition combinedIterUninitialized (l : L) : bool :=
  match combinedIterState l with
  | Some cs => negb (initialized cs)
  | None => false
  end.

(** The loop of [findFileGE], from the file [m] with the two local
    variables [nextInsteadOfSeek] and [nextsUntilSeek]. *)
Fixpoint findFileGE_loop (fuel : nat) (k : bytes) (m : option fileMetadata)
  (nextInsteadOfSeek : bool) (nextsUntilSeek : Z) : Op (option fileMetadata) :=
  match m with
  | None => ret None
  | Some f =>
    match fuel with
    | O => fun _ => OutOfFuel
    | S fuel' =>
      (if HasRangeKeys f
       then modify (maybeTriggerCombinedIteration m 1) else ret tt) ;;
      if HasRangeKeys f && negb (HasPointKeys f) then
        m' <- files_Next 358 ;;
        findFileGE_loop fuel' k m' nextInsteadOfSeek nextsUntilSeek
      else if (HasRangeKeys f || nextInsteadOfSeek)
              && (cmp (UserKey (LargestPointKey f)) k <? 0) then
        if nextInsteadOfSeek && (nextsUntilSeek =? 0) then
          m' <- files_SeekGE 382 k ;;
          findFileGE_loop fuel' k m' false nextsUntilSeek
        else
          m' <- files_Next 387 ;;
          findFileGE_loop fuel' k m' nextInsteadOfSeek
            (if nextsUntilSeek >? 0 then nextsUntilSeek - 1 else nextsUntilSeek)
      else if IsExclusiveSentinel (LargestPointKey f)
              && (cmp (UserKey (LargestPointKey f)) k =? 0) then
        m' <- files_Next 402 ;;
        findFileGE_loop fuel' k m' nextInsteadOfSeek nextsUntilSeek
      else ret m
    end
  end.

Definition findFileGE (k : bytes) (flags : SeekGEFlags)
  : Op (option fileMetadata) :=
  log (EvFindFileGE k flags) ;;
  fun l =>
    let nextInsteadOfSeek :=
      TrySeekUsingNext flags
      || (RelativeSeek flags && combinedIterUninitialized l) in
    let nextsUntilSeek :=
      if RelativeSeek flags && combinedIterUninitialized l then -1
      else if TrySeekUsingNext flags then 4 else 0 in
    (m <- (if nextInsteadOfSeek then gets (@iterFile I F)
           else files_SeekGE 342 k) ;;
     findFileGE_loop (loopFuel l) k m nextInsteadOfSeek nextsUntilSeek) l.

Fixpoint findFileLT_loop (fuel : nat) (k : bytes) (m : option fileMetadata)
  (prevInsteadOfSeek : bool) : Op (option fileMetadata) :=
  match m with
  | None => ret None
  | Some f =>
    match fuel with
    | O => fun _ => OutOfFuel
    | S fuel' =>
      (if HasRangeKeys f
       then modify (maybeTriggerCombinedIteration m (-1)) else ret tt) ;;
      if HasRangeKeys f && negb (HasPointKeys f) then
        m' <- files_Prev 449 ;;
        findFileLT_loop fuel' k m' prevInsteadOfSeek
      else if (HasRangeKeys f || prevInsteadOfSeek)
              && (cmp (UserKey (SmallestPointKey f)) k >=? 0) then
        m' <- files_Prev 467 ;;
        findFileLT_loop fuel' k m' prevInsteadOfSeek
      else ret m
    end
  end.

Definition findFileLT (k : bytes) (flags : SeekLTFlags)
  : Op (option fileMetadata) :=
  log (EvFindFileLT k flags) ;;
  fun l =>
    let prevInsteadOfSeek :=
      LTRelativeSeek flags && combinedIterUninitialized l in
    (m <- (if prevInsteadOfSeek then gets (@iterFile I F)
           else files_SeekLT 433 k) ;;
     findFileLT_loop (loopFuel l) k m prevInsteadOfSeek) l.

Definition set_tableLower (v : option bytes) (l : L) : L :=
  set_tableOpts {| LowerBound := v; UpperBound := UpperBound (tableOpts l) |} l.

Definition set_tableUpper (v : option bytes) (l : L) : L :=
  set_tableOpts {| LowerBound := LowerBound (tableOpts l); UpperBound := v |} l.

(** The second half of [initTableBounds], after the lower bound. *)
Definition initTableBounds_upper (file : option fileMetadata) : Op Z :=
  fun l =>
    let l1 := set_tableUpper (upper l) l in
    match upper l, file with
    | None, _ => Ok 0 l1
    | Some _, None => Panic NilDereference
    | Some up, Some f =>
      if cmp (UserKey (SmallestPointKey f)) up >=? 0 then Ok 1 l1
      else if cmp up (UserKey (LargestPointKey f)) >? 0
           then Ok 0 (set_tableUpper None l1)
           else Ok 0 l1
    end.

Definition initTableBounds (file : option fileMetadata) : Op Z :=
  fun l =>
    let l1 := set_tableLower (lower l) l in
    match lower l, file with
    | None, _ => initTableBounds_upper file l1
    | Some _, None => Panic NilDereference
    | Some lo, Some f =>
      if cmp (UserKey (LargestPointKey f)) lo <? 0 then Ok (-1) l1
      else if cmp lo (UserKey (SmallestPointKey f)) <=? 0
           then initTableBounds_upper file (set_tableLower None l1)
           else initTableBounds_upper file l1
    end.

(** [*l.rangeDelIterPtr = v], under [l.rangeDelIterPtr != nil]. *)
Definition store_rangeDelIter (v : option F) (l : L) : L :=
  match rangeDelIterPtr l with
  | Some _ => set_rangeDelIterPtr (Some v) l
  | None => l
  end.

Definition Close : Op (option error) :=
  fun l =>
    let l1 :=
      match iter l with
      | Some it =>
        set_iter None
          (set_err (iterClose it) (set_trace (EvIterClose it :: trace l) l))
      | None => l
      end in
    let l2 :=
      match rangeDelIterPtr l1 with
      | Some _ =>
        let l' :=
          match rangeDelIterCopy l1 with
          | Some t =>
            set_err (firstError (err l1) (fragClose t))
              (set_trace (EvRangeDelClose t :: trace l1) l1)
          | None => l1
          end in
        set_rangeDelIterCopy None (set_rangeDelIterPtr (Some None) l')
      | None => l1
      end in
    Ok (err l2) l2.

(** Opening the table of [l.iterFile]: the tail of the loop of [loadFile]. *)
Definition openTable : Op loadFileReturnIndicator :=
  fun l =>
    match iterFile l with
    | None => Panic NilDereference
    | Some f =>
      let iterKinds :=
        match rangeDelIterPtr l with
        | Some _ => Z.lor iterPointKeys iterRangeDeletions
        | None => iterPointKeys
        end in
      let (iters, e) := newIters f (tableOpts l) iterKinds in
      let l1 :=
        set_err e (set_trace (EvNewIters f (tableOpts l) iterKinds :: trace l) l) in
      match e with
      | Some _ => Ok noFileLoaded l1
      | None =>
        let l2 := set_iter (point iters) l1 in
        match rangeDelIterPtr l2 with
        | Some _ =>
          Ok newFileLoaded
             (set_rangeDelIterCopy (rangeDeletion iters)
                (set_rangeDelIterPtr (Some (rangeDeletion iters)) l2))
        | None => Ok newFileLoaded l2
        end
      end
    end.

Fixpoint loadFile_loop (fuel : nat) (file : option fileMetadata) (dir : Z)
  : Op loadFileReturnIndicator :=
  modify (set_iterFile file) ;;
  match file with
  | None => ret noFileLoaded
  | Some f =>
    match fuel with
    | O => fun _ => OutOfFuel
    | S fuel' =>
      modify (maybeTriggerCombinedIteration file dir) ;;
      if negb (HasPointKeys f) && (dir =? 1) then
        file' <- files_Next 569 ;; loadFile_loop fuel' file' dir
      else if negb (HasPointKeys f) && (dir =? -1) then
        file' <- files_Prev 572 ;; loadFile_loop fuel' file' dir
      else
        r <- initTableBounds file ;;
        if r =? -1 then
          if dir <? 0 then ret noFileLoaded
          else file' <- files_Next 583 ;; loadFile_loop fuel' file' dir
        else if r =? 1 then
          if dir >? 0 then ret noFileLoaded
          else file' <- files_Prev 591 ;; loadFile_loop fuel' file' dir
        else openTable
    end
  end.

Definition loadFile (file : option fileMetadata) (dir : Z)
  : Op loadFileReturnIndicator :=
  modify (fun l => set_largestBoundary None (set_smallestBoundary None l)) ;;
  fun l =>
    if file_ptr_eqb (iterFile l) file
       && match err l with Some _ => true | None => false end
    then Ok noFileLoaded l
    else if file_ptr_eqb (iterFile l) file
            && match iter l with Some _ => true | None => false end
    then
      Ok fileAlreadyLoaded
         (maybeTriggerCombinedIteration file dir
            (store_rangeDelIter (rangeDelIterCopy l) l))
    else
      (e <- Close ;;
       match e with
       | Some _ => ret noFileLoaded
       | None => fun l' => loadFile_loop (loopFuel l') file dir l'
       end) l.

(** In race builds the keys returned are checked against [[lower, upper)]. *)
Definition verify (kv : option kvPtr) : Op (option kvPtr) :=
  fun l =>
    match kv with
    | None => Ok kv l
    | Some p =>
      if invariants_Enabled && negb (disableInvariants l) then
        let uk := UserKey (K (deref l p)) in
        if match lower l with
           | Some lo => negb (kvPtr_eqb kv (smallestBoundary l)) && (cmp uk lo <? 0)
           | None => false
           end
        then Panic FatalLowerBoundViolation
        else if match upper l with
                | Some up =>
                  negb (kvPtr_eqb kv (largestBoundary l)) && (cmp uk up >? 0)
                | None => false
                end
        then Panic FatalUpperBoundViolation
        else Ok kv l
      else Ok kv l
    end.

Definition verify_inner (kv : InternalKV) : Op (option kvPtr) :=
  verify (Some (InnerKV kv)).

(** [l.largestBoundary = l.makeSyntheticBoundary(userKey)], then the pointer. *)
Definition pauseLargest (userKey : bytes) : Op (option kvPtr) :=
  p <- makeSyntheticBoundary userKey ;;
  modify (set_largestBoundary (Some p)) ;;
  ret (Some p).

Definition pauseSmallest (userKey : bytes) : Op (option kvPtr) :=
  p <- makeSyntheticBoundary userKey ;;
  modify (set_smallestBoundary (Some p)) ;;
  ret (Some p).

Fixpoint skipEmptyFileForward_loop (fuel : nat) : Op (option kvPtr) :=
  match fuel with
  | O => fun _ => OutOfFuel
  | S fuel' =>
    e <- iter_Error ;;
    match e with
    | Some _ => ret None
    | None =>
      let advance : Op (option kvPtr) :=
        file <- files_Next 979 ;;
        r <- loadFile file 1 ;;
        if r =? noFileLoaded then
          modify (set_exhaustedDir 1) ;; ret None
        else
          kv <- iter_call iterFirst ;;
          match kv with
          | Some kv => ret (Some (InnerKV kv))
          | None => skipEmptyFileForward_loop fuel'
          end in
      fun l =>
        match rangeDelIterPtr l, UpperBound (tableOpts l) with
        | Some slot, Some ub =>
          let l1 := set_exhaustedDir 1 l in
          match slot with
          | Some _ => pauseLargest ub l1
          | None => Ok None l1
          end
        | Some (Some _), None =>
          (f <- iterFile_deref ;; pauseLargest (UserKey (LargestPointKey f))) l
        | _, _ => advance l
        end
    end
  end.

Definition skipEmptyFileForward : Op (option kvPtr) :=
  fun l => skipEmptyFileForward_loop (loopFuel l) l.

Fixpoint skipEmptyFileBackward_loop (fuel : nat) : Op (option kvPtr) :=
  match fuel with
  | O => fun _ => OutOfFuel
  | S fuel' =>
    e <- iter_Error ;;
    match e with
    | Some _ => ret None
    | None =>
      let retreat : Op (option kvPtr) :=
        file <- files_Prev 1043 ;;
        r <- loadFile file (-1) ;;
        if r =? noFileLoaded then
          modify (set_exhaustedDir (-1)) ;; ret None
        else
          kv <- iter_call iterLast ;;
          match kv with
          | Some kv => ret (Some (InnerKV kv))
          | None => skipEmptyFileBackward_loop fuel'
          end in
      fun l =>
        match rangeDelIterPtr l, LowerBound (tableOpts l) with
        | Some slot, Some lb =>
          let l1 := set_exhaustedDir (-1) l in
          match slot with
          | Some _ => pauseSmallest lb l1
          | None => Ok None l1
          end
        | Some (Some _), None =>
          (f <- iterFile_deref ;; pauseSmallest (UserKey (SmallestPointKey f))) l
        | _, _ => retreat l
        end
    end
  end.

Definition skipEmptyFileBackward : Op (option kvPtr) :=
  fun l => skipEmptyFileBackward_loop (loopFuel l) l.

(** [if kv := <call>; kv != nil { return l.verify(kv) }; return
    l.verify(<skip>)] *)
Definition verifyOrSkip (call : Op (option InternalKV)) (skip : Op (option kvPtr))
  : Op (option kvPtr) :=
  kv <- call ;;
  match kv with
  | Some kv => verify_inner kv
  | None => r <- skip ;; verify r
  end.

Definition below (k : bytes) (bound : option bytes) : bool :=
  match bound with
  | Some b => cmp k b <? 0
  | None => false
  end.

Definition above (k : bytes) (bound : option bytes) : bool :=
  match bound with
  | Some b => cmp k b >? 0
  | None => false
  end.

Definition is_some {A : Type} (o : option A) : bool :=
  match o with
  | Some _ => true
  | None => false
  end.

(** [l.err = nil; l.exhaustedDir = 0] *)
Definition resetPosition : Op unit :=
  modify (fun l => set_exhaustedDir 0 (set_err None l)).

(** The opening of [SeekGE] and of [SeekPrefixGE], which is the same code:
    clear the error and the exhaustion, find and load the file.  It returns
    the flags for the seek of the inner iterator, or [None] when no file was
    loaded. *)
Definition seekFile (k : bytes) (flags : SeekGEFlags) : Op (option SeekGEFlags) :=
  resetPosition ;;
  m <- findFileGE k flags ;;
  loadFileIndicator <- loadFile m 1 ;;
  if loadFileIndicator =? noFileLoaded then
    modify (set_exhaustedDir 1) ;; ret None
  else
    ret (Some (if loadFileIndicator =? newFileLoaded
               then DisableTrySeekUsingNext flags else flags)).

Definition SeekGE (k : bytes) (flags : SeekGEFlags) : Op (option kvPtr) :=
  fun l =>
    if invariants_Enabled && below k (lower l) then Panic AssertSeekGELowerBound
    else
      (fl <- seekFile k flags ;;
       match fl with
       | None => ret None
       | Some flags' =>
         verifyOrSkip (iter_call (iterSeekGE k flags')) skipEmptyFileForward
       end) l.

(** The end of [SeekPrefixGE], reached when the inner iterator found no key
    with the prefix in the current file. *)
Definition prefixMiss (prefix : bytes) : Op (option kvPtr) :=
  e <- iter_Error ;;
  match e with
  | Some _ => ret None
  | None =>
    fun l =>
      if emitSyntheticBoundaries l then
        match UpperBound (tableOpts l) with
        | Some ub =>
          (b <- pauseLargest ub ;;
           modify (set_exhaustedDir 1) ;;
           verify b) l
        | None =>
          (f <- iterFile_deref ;;
           b <- pauseLargest (UserKey (LargestPointKey f)) ;;
           verify b) l
        end
      else
        (f <- iterFile_deref ;;
         let n := split (UserKey (LargestPointKey f)) in
         if cmp prefix (slice_to (UserKey (LargestPointKey f)) n) <? 0
         then modify (set_exhaustedDir 1) ;; ret None
         else r <- skipEmptyFileForward ;; verify r) l
  end.

Definition SeekPrefixGE (prefix k : bytes) (flags : SeekGEFlags)
  : Op (option kvPtr) :=
  fun l =>
    if invariants_Enabled && below k (lower l) then Panic AssertSeekGELowerBound
    else
      (fl <- seekFile k flags ;;
       match fl with
       | None => ret None
       | Some flags' =>
         kv <- iter_call (iterSeekPrefixGE prefix k flags') ;;
         match kv with
         | Some kv => verify_inner kv
         | None => prefixMiss prefix
         end
       end) l.

Definition SeekLT (k : bytes) (flags : SeekLTFlags) : Op (option kvPtr) :=
  fun l =>
    if invariants_Enabled && above k (upper l) then Panic AssertSeekLTUpperBound
    else
      (resetPosition ;;
       m <- findFileLT k flags ;;
       r <- loadFile m (-1) ;;
       if r =? noFileLoaded then
         modify (set_exhaustedDir (-1)) ;; ret None
       else
         verifyOrSkip (iter_call (iterSeekLT k flags)) skipEmptyFileBackward) l.

Definition First : Op (option kvPtr) :=
  fun l =>
    if invariants_Enabled && is_some (lower l) then Panic AssertFirstLowerBound
    else
      (resetPosition ;;
       m <- files_First 747 ;;
       r <- loadFile m 1 ;;
       if r =? noFileLoaded then
         modify (set_exhaustedDir 1) ;; ret None
       else verifyOrSkip (iter_call iterFirst) skipEmptyFileForward) l.

Definition Last : Op (option kvPtr) :=
  fun l =>
    if invariants_Enabled && is_some (upper l) then Panic AssertLastUpperBound
    else
      (resetPosition ;;
       m <- files_Last 767 ;;
       r <- loadFile m (-1) ;;
       if r =? noFileLoaded then
         modify (set_exhaustedDir (-1)) ;; ret None
       else verifyOrSkip (iter_call iterLast) skipEmptyFileBackward) l.

Definition Next : Op (option kvPtr) :=
  fun l =>
    if exhaustedDir l =? -1 then
      match lower l with
      | Some lo => SeekGE lo SeekGEFlagsNone l
      | None => First l
      end
    else if is_some (err l) || negb (is_some (iter l)) then Ok None l
    else if is_some (largestBoundary l) then
      if is_some (UpperBound (tableOpts l)) then
        Ok None (set_exhaustedDir 1 (store_rangeDelIter None l))
      else
        (m <- files_Next 803 ;;
         r <- loadFile m 1 ;;
         if negb (r =? noFileLoaded) then
           verifyOrSkip (iter_call iterFirst) skipEmptyFileForward
         else
           modify (set_exhaustedDir 1) ;; ret None) l
    else
      (modify (set_smallestBoundary None) ;;
       verifyOrSkip (iter_call iterNext) skipEmptyFileForward) l.

Definition NextPrefix (succKey : bytes) : Op (option kvPtr) :=
  fun l =>
    if is_some (err l) || negb (is_some (iter l)) then Ok None l
    else
      let seekLater : Op (option kvPtr) :=
        let metadataSeekFlags :=
          EnableRelativeSeek (EnableTrySeekUsingNext SeekGEFlagsNone) in
        m <- findFileGE succKey metadataSeekFlags ;;
        r <- loadFile m 1 ;;
        if negb (r =? noFileLoaded) then
          verifyOrSkip (iter_call (iterSeekGE succKey SeekGEFlagsNone))
                       skipEmptyFileForward
        else
          modify (set_exhaustedDir 1) ;; ret None in
      if is_some (largestBoundary l) then
        if is_some (UpperBound (tableOpts l)) then
          Ok None (store_rangeDelIter None l)
        else seekLater l
      else
        (modify (set_smallestBoundary None) ;;
         kv <- iter_call (iterNextPrefix succKey) ;;
         match kv with
         | Some kv => verify_inner kv
         | None =>
           e <- iter_Error ;;
           match e with
           | Some _ => ret None
           | None => seekLater
           end
         end) l.

Definition Prev : Op (option kvPtr) :=
  fun l =>
    if exhaustedDir l =? 1 then
      match upper l with
      | Some up => SeekLT up SeekLTFlagsNone l
      | None => Last l
      end
    else if is_some (err l) || negb (is_some (iter l)) then Ok None l
    else if is_some (smallestBoundary l) then
      if is_some (LowerBound (tableOpts l)) then
        Ok None (set_exhaustedDir (-1) (store_rangeDelIter None l))
      else
        (m <- files_Prev 898 ;;
         r <- loadFile m (-1) ;;
         if negb (r =? noFileLoaded) then
           verifyOrSkip (iter_call iterLast) skipEmptyFileBackward
         else
           modify (set_exhaustedDir (-1)) ;; ret None) l
    else
      (modify (set_largestBoundary None) ;;
       verifyOrSkip (iter_call iterPrev) skipEmptyFileBackward) l.

Definition Error (l : L) : option error :=
  if is_some (err l) || negb (is_some (iter l)) then err l
  else
    match iter l with
    | Some it => iterError it
    | None => err l
    end.

Definition SetBounds (lo up : option bytes) : Op unit :=
  modify (fun l => set_upper up (set_lower lo l)) ;;
  fun l =>
    match iter l with
    | None => Ok tt l
    | Some _ =>
      (r <- initTableBounds (iterFile l) ;;
       if negb (r =? 0) then _ <- Close ;; ret tt
       else
         fun l' =>
           match iter l' with
           | None => Panic NilDereference
           | Some it =>
             Ok tt
                (set_iter
                   (Some (iterSetBounds (LowerBound (tableOpts l'))
                                        (UpperBound (tableOpts l')) it)) l')
           end) l
    end.

(** [newLevelIter]: the state after [init]. *)
Definition newLevelIter (lo up : option bytes) (fs : list fileMetadata) : L :=
  {| lower := lo; upper := up;
     tableOpts := {| LowerBound := None; UpperBound := None |};
     smallestBoundary := None; largestBoundary := None;
     syntheticBoundary := {| K := {| UserKey := ""; Trailer := 0 |}; V := "" |};
     combinedIterState := None; iter := None; iterFile := None;
     rangeDelIterPtr := None; rangeDelIterCopy := None;
     files := {| lfiles := fs; lpos := -1 |};
     err := None; exhaustedDir := 0; disableInvariants := false;
     trace := [] |}.

End LevelIter.

(** ** An executable sstable iterator and table opener *)

(** Modelled from the spec: the sstable point iterator, a black box
    "producing sorted key/value pairs" within the bounds it was opened with.
    It is a sorted list of pairs and a position in it; [-1] is before the
    first pair and [length] past the last one.  A table may be damaged
    ([sErr]): its iterator then yields nothing and reports the error. *)
Record sstIter := mkSstIter {
  sKeys : list InternalKV;
  sPos : Z;
  sLower : option bytes;
  sUpper : option bytes;
  sErr : option error;
  sCloseErr : option error
}.

(** Modelled from the spec: the range-deletion iterator of a file, a list of
    tombstones [[start, end)]. *)
Record rangeDelIter := mkRangeDelIter {
  rdSpans : list (bytes * bytes);
  rdCloseErr : option error
}.

#[global] Instance rangeDelIterOps : FragmentIterator rangeDelIter := {
  fragClose := rdCloseErr
}.

Section SstIter.

Variable cmp : Compare.
Variable split : Split.

Definition inLower (lo : option bytes) (kv : InternalKV) : bool :=
  match lo with
  | Some b => cmp (UserKey (K kv)) b >=? 0
  | None => true
  end.

Definition inUpper (up : option bytes) (kv : InternalKV) : bool :=
  match up with
  | Some b => cmp (UserKey (K kv)) b <? 0
  | None => true
  end.

Definition sst_move (it : sstIter) (p : Z) : sstIter :=
  {| sKeys := sKeys it; sPos := p; sLower := sLower it; sUpper := sUpper it;
     sErr := sErr it; sCloseErr := sCloseErr it |}.

(** The pair at position [p], if there is one within the bounds. *)
Definition sst_at (it : sstIter) (p : Z) : option InternalKV :=
  if p <? 0 then None
  else
    match nth_error (sKeys it) (Z.to_nat p) with
    | Some kv => if inLower (sLower it) kv && inUpper (sUpper it) kv
                 then Some kv else None
    | None => None
    end.

Definition sst_goto (it : sstIter) (p : Z) : option InternalKV * sstIter :=
  match sErr it with
  | Some _ => (None, it)
  | None => (sst_at it p, sst_move it p)
  end.

Definition sst_len (it : sstIter) : Z := Z.of_nat (List.length (sKeys it)).

Definition sst_SeekGE (k : bytes) (flags : SeekGEFlags) (it : sstIter) :=
  sst_goto it
    (Z.of_nat (find_index
                 (fun kv => (cmp (UserKey (K kv)) k >=? 0) && inLower (sLower it) kv)
                 (sKeys it))).

Definition sst_First (it : sstIter) :=
  sst_goto it (Z.of_nat (find_index (inLower (sLower it)) (sKeys it))).

Definition sst_SeekLT (k : bytes) (flags : SeekLTFlags) (it : sstIter) :=
  sst_goto it
    (Z.of_nat (find_index
                 (fun kv => (cmp (UserKey (K kv)) k >=? 0)
                            || negb (inUpper (sUpper it) kv))
                 (sKeys it)) - 1).

Definition sst_Last (it : sstIter) :=
  sst_goto it
    (Z.of_nat (find_index (fun kv => negb (inUpper (sUpper it) kv)) (sKeys it)) - 1).

Definition sst_Next (it : sstIter) :=
  sst_goto it (Z.min (sPos it + 1) (sst_len it)).

Definition sst_Prev (it : sstIter) :=
  sst_goto it (Z.max (sPos it - 1) (-1)).

(** The first pair at or after [k]; it is returned only if it carries the
    prefix sought. *)
Definition sst_SeekPrefixGE (prefix k : bytes) (flags : SeekGEFlags)
  (it : sstIter) : option InternalKV * sstIter :=
  let (kv, it') := sst_SeekGE k flags it in
  match kv with
  | Some x =>
    if cmp (slice_to (UserKey (K x)) (split (UserKey (K x)))) prefix =? 0
    then (Some x, it') else (None, it')
  | None => (None, it')
  end.

(** The first pair after the current one that is at or after [succKey]. *)
Definition sst_NextPrefix (succKey : bytes) (it : sstIter) :=
  let start := Z.to_nat (Z.max (sPos it + 1) 0) in
  sst_goto it
    (Z.of_nat (start + find_index (fun kv => cmp (UserKey (K kv)) succKey >=? 0)
                                  (skipn start (sKeys it)))).

Definition sst_SetBounds (lo up : option bytes) (it : sstIter) : sstIter :=
  {| sKeys := sKeys it; sPos := sPos it; sLower := lo; sUpper := up;
     sErr := sErr it; sCloseErr := sCloseErr it |}.

#[local] Instance sstIterOps : InternalIterator sstIter := {
  iterSeekGE := sst_SeekGE;
  iterSeekPrefixGE := sst_SeekPrefixGE;
  iterSeekLT := sst_SeekLT;
  iterFirst := sst_First;
  iterLast := sst_Last;
  iterNext := sst_Next;
  iterNextPrefix := sst_NextPrefix;
  iterPrev := sst_Prev;
  iterError := sErr;
  iterClose := sCloseErr;
  iterSetBounds := sst_SetBounds
}.

(** What a file holds on disk. *)
Record sstable := mkSstable {
  tPoints : list InternalKV;
  tRangeDels : option rangeDelIter;
  tOpenErr : option error;
  tIterErr : option error;
  tCloseErr : option error
}.

Definition tableStore := list (Z * sstable).

Fixpoint lookupTable (store : tableStore) (num : Z) : option sstable :=
  match store with
  | [] => None
  | (n, t) :: r => if n =? num then Some t else lookupTable r num
  end.

(** Modelled from the spec: the table opener, returning a point iterator
    and, when asked for range deletions, the tombstone iterator of the file
    if it has one. *)
Definition sstNewIters (store : tableStore) : tableNewIters sstIter rangeDelIter :=
  fun f opts kinds =>
    match lookupTable store (FileNum f) with
    | None => ({| point := None; rangeDeletion := None |}, Some "missing table")
    | Some t =>
      match tOpenErr t with
      | Some e => ({| point := None; rangeDeletion := None |}, Some e)
      | None =>
        ({| point := Some {| sKeys := tPoints t; sPos := -1;
                             sLower := LowerBound opts; sUpper := UpperBound opts;
                             sErr := tIterErr t; sCloseErr := tCloseErr t |};
            rangeDeletion :=
              if Z.testbit kinds 1 then tRangeDels t else None |},
         None)
      end
    end.

End SstIter.

(** ** The level iterator over executable sstables *)

(** [base.DefaultComparer]: bytewise order, and the whole key as prefix. *)
Definition DefaultCompare : Compare :=
  fun a b =>
    match String.compare a b with
    | Lt => -1
    | Eq => 0
    | Gt => 1
    end.

Definition DefaultSplit : Split := String.length.

(** A comparer of test keys [prefix@suffix]: the prefix ends before the
    first ["@"]. *)
Fixpoint atSplit (k : bytes) : nat :=
  match k with
  | EmptyString => O
  | String c r => if Ascii.eqb c "@"%char then O else S (atSplit r)
  end.

Module Sst.

Definition T := levelIter sstIter rangeDelIter.
Definition Res := outcome T (option kvPtr).

Section Ops.

Variable invariants_Enabled : bool.
Variable cmp : Compare.
Variable split : Split.
Variable store : tableStore.

Definition seekGE (k : bytes) (flags : SeekGEFlags) : T -> Res :=
  @SeekGE _ _ (sstIterOps cmp split) rangeDelIterOps invariants_Enabled cmp
          (sstNewIters store) k flags.
Definition seekLT (k : bytes) (flags : SeekLTFlags) : T -> Res :=
  @SeekLT _ _ (sstIterOps cmp split) rangeDelIterOps invariants_Enabled cmp
          (sstNewIters store) k flags.
Definition first : T -> Res :=
  @First _ _ (sstIterOps cmp split) rangeDelIterOps invariants_Enabled cmp
         (sstNewIters store).
Definition last : T -> Res :=
  @Last _ _ (sstIterOps cmp split) rangeDelIterOps invariants_Enabled cmp
        (sstNewIters store).
Definition next : T -> Res :=
  @Next _ _ (sstIterOps cmp split) rangeDelIterOps invariants_Enabled cmp
        (sstNewIters store).
Definition nextPrefix (succKey : bytes) : T -> Res :=
  @NextPrefix _ _ (sstIterOps cmp split) rangeDelIterOps invariants_Enabled cmp
              (sstNewIters store) succKey.
Definition prev : T -> Res :=
  @Prev _ _ (sstIterOps cmp split) rangeDelIterOps invariants_Enabled cmp
        (sstNewIters store).
Definition setBounds (lo up : option bytes) : T -> outcome T unit :=
  @SetBounds _ _ (sstIterOps cmp split) rangeDelIterOps cmp lo up.
Definition close : T -> outcome T (option error) :=
  @Close _ _ (sstIterOps cmp split) rangeDelIterOps.

End Ops.

(** A point key [u#seq,SET] and the pair holding [u] itself as value. *)
Definition pointKey (u : bytes) (seq : Z) : InternalKey :=
  {| UserKey := u; Trailer := MakeTrailer seq 1 |}.

Definition kvOf (u : bytes) : InternalKV := {| K := pointKey u 1; V := u |}.

(** The metadata of a file of point keys with bounds [lo] and [hi]. *)
Definition pointFile (num : Z) (lo hi : InternalKey) : fileMetadata :=
  {| FileNum := num; HasPointKeys := true; HasRangeKeys := false;
     SmallestPointKey := lo; LargestPointKey := hi;
     SmallestRangeKey := {| UserKey := ""; Trailer := 0 |};
     LargestRangeKey := {| UserKey := ""; Trailer := 0 |};
     StatsValid := false; Stats := {| NumRangeKeySets := 0 |} |}.

(** A file holding exactly the user keys [lo] and [hi] and those of [mid]
    between them, and its table. *)
Definition fileOf (num : Z) (lo hi : bytes) : fileMetadata :=
  pointFile num (pointKey lo 1) (pointKey hi 1).

Definition tableOf (keys : list bytes) (dels : option rangeDelIter) : sstable :=
  {| tPoints := map kvOf keys; tRangeDels := dels;
     tOpenErr := None; tIterErr := None; tCloseErr := None |}.

(** The result of a call, as the user key returned and whether it is a
    synthetic boundary. *)
Inductive shown :=
| Real (k : bytes)
| Boundary (k : bytes)
| Null
| Stopped (p : panic)
| Diverged.

Definition show (r : Res) : shown :=
  match r with
  | Ok (Some (InnerKV kv)) _ => Real (UserKey (K kv))
  | Ok (Some SyntheticKV) l => Boundary (UserKey (K (syntheticBoundary l)))
  | Ok None _ => Null
  | Panic p => Stopped p
  | OutOfFuel => Diverged
  end.

(** Running a call on the state an earlier call left. *)
Definition andThen {A : Type} (r : outcome T A) (op : T -> Res) : Res :=
  match r with
  | Ok _ l => op l
  | Panic p => Panic p
  | OutOfFuel => OutOfFuel
  end.

End Sst.

(** ** Predicates on states *)

Section StatePredicates.

Context {I F : Type}.

(** Paused at a boundary that stands for the upper bound (resp. the lower
    bound), the bound lying within the current file: the state in which a
    further [Next] (resp. [Prev]) closes the file logically. *)
Definition upperPause (l : levelIter I F) : Prop :=
  exhaustedDir l <> -1 /\ err l = None /\ iter l <> None
  /\ largestBoundary l <> None /\ UpperBound (tableOpts l) <> None.

Definition lowerPause (l : levelIter I F) : Prop :=
  exhaustedDir l <> 1 /\ err l = None /\ iter l <> None
  /\ smallestBoundary l <> None /\ LowerBound (tableOpts l) <> None.

(** The slot as the merging iterator sees it after a write of [v]. *)
Definition slotHolding (l : levelIter I F) (v : option F) : option (option F) :=
  match rangeDelIterPtr l with
  | Some _ => Some v
  | None => None
  end.

End StatePredicates.

(** ** The calls of the interface *)

Inductive call :=
| CallSeekGE (k : bytes) (flags : SeekGEFlags)
| CallSeekPrefixGE (prefix k : bytes) (flags : SeekGEFlags)
| CallSeekLT (k : bytes) (flags : SeekLTFlags)
| CallFirst
| CallLast
| CallNext
| CallNextPrefix (succKey : bytes)
| CallPrev
| CallSetBounds (lo up : option bytes)
| CallClose.

Section Calls.

Context {I F : Type} {HI : InternalIterator I} {HF : FragmentIterator F}.
Variable invariants_Enabled : bool.
Variable cmp : Compare.
Variable split : Split.
Variable newIters : tableNewIters I F.

(** One call on the level iterator; [SetBounds] and [Close] return no key. *)
Definition run (c : call) : M (levelIter I F) (option kvPtr) :=
  match c with
  | CallSeekGE k flags => SeekGE invariants_Enabled cmp newIters k flags
  | CallSeekPrefixGE prefix k flags =>
    SeekPrefixGE invariants_Enabled cmp split newIters prefix k flags
  | CallSeekLT k flags => SeekLT invariants_Enabled cmp newIters k flags
  | CallFirst => First invariants_Enabled cmp newIters
  | CallLast => Last invariants_Enabled cmp newIters
  | CallNext => Next invariants_Enabled cmp newIters
  | CallNextPrefix succKey => NextPrefix invariants_Enabled cmp newIters succKey
  | CallPrev => Prev invariants_Enabled cmp newIters
  | CallSetBounds lo up => SetBounds cmp lo up ;; ret None
  | CallClose => Close ;; ret None
  end.

(** The flags with which a call may enter [findFileGE]: those of the
    caller for the two seeks, none for the restart of [Next], and both at
    once for [NextPrefix]. *)
Definition flagsOf (c : call) : list SeekGEFlags :=
  match c with
  | CallSeekGE _ flags => [flags]
  | CallSeekPrefixGE _ _ flags => [flags]
  | CallNext => [SeekGEFlagsNone]
  | CallNextPrefix _ =>
    [EnableRelativeSeek (EnableTrySeekUsingNext SeekGEFlagsNone)]
  | _ => []
  end.

(** The states a sequence of calls leads to from [l0], and the last result. *)
Inductive reaches (l0 : levelIter I F) : levelIter I F -> Prop :=
| reaches_refl : reaches l0 l0
| reaches_step (c : call) (l l' : levelIter I F) (r : option kvPtr) :
    reaches l0 l -> run c l = Ok r l' -> reaches l0 l'.

(** What every state of a level iterator satisfies: an error is only stored
    with the inner iterator closed, and a private copy of a tombstone
    iterator only exists for a registered slot. *)
Definition closeInv (l : levelIter I F) : Prop :=
  (err l <> None -> iter l = None)
  /\ (rangeDelIterPtr l = None -> rangeDelIterCopy l = None).

(** The state [Close] leaves. *)
Definition closed (l : levelIter I F) : levelIter I F :=
  match Close l with
  | Ok _ l' => l'
  | _ => l
  end.

(** The state [openTable] leaves. *)
Definition opened (l : levelIter I F) : levelIter I F :=
  match openTable newIters l with
  | Ok _ l' => l'
  | _ => l
  end.

(** A predicate on states is [kept] when each elementary update made by the
    methods keeps it; entering [findFileGE] is only required to keep it for
    flags in [okFlags]. *)
Record kept (okFlags : SeekGEFlags -> Prop) (J : levelIter I F -> Prop)
  : Prop := mkKept {
  kept_trace : forall e l,
      (forall k flags, e = EvFindFileGE k flags -> okFlags flags) ->
      J l -> J (set_trace (e :: trace l) l);
  kept_files : forall it l, J l -> J (set_files it l);
  kept_iter : forall it it' l,
      iter l = Some it -> J l -> J (set_iter (Some it') l);
  kept_iterFile : forall f l, iter l = None -> J l -> J (set_iterFile f l);
  kept_combined : forall cs l, J l -> J (set_combinedIterState cs l);
  kept_tableOpts : forall o l, J l -> J (set_tableOpts o l);
  kept_smallestBoundary : forall b l, J l -> J (set_smallestBoundary b l);
  kept_largestBoundary : forall b l, J l -> J (set_largestBoundary b l);
  kept_syntheticBoundary : forall kv l, J l -> J (set_syntheticBoundary kv l);
  kept_exhaustedDir : forall d l, J l -> J (set_exhaustedDir d l);
  kept_err_nil : forall l, J l -> J (set_err None l);
  kept_slot : forall v l,
      rangeDelIterPtr l <> None -> J l -> J (set_rangeDelIterPtr (Some v) l);
  kept_closed : forall l, J l -> J (closed l);
  kept_opened : forall l, iter l = None -> J l -> J (opened l);
  kept_lower : forall b l, J l -> J (set_lower b l);
  kept_upper : forall b l, J l -> J (set_upper b l)
}.

End Calls.

(** ** Closing *)

Section Closing.

Context {I F : Type} {HI : InternalIterator I} {HF : FragmentIterator F}.

(** A level iterator as the enclosing iterator sets it up: [newLevelIter],
    then the two registrations. *)
Definition initial (lo up : option bytes) (fs : list fileMetadata)
  (slot : option (option F)) (state : option combinedIterStateT)
  : levelIter I F :=
  initCombinedIterState state (initRangeDel slot (newLevelIter lo up fs)).

(** What closing the two inner iterators of [l] answers, and the calls it
    makes, most recent first. *)
Definition pointCloseError (l : levelIter I F) : option error :=
  match iter l with
  | Some it => iterClose it
  | None => None
  end.

Definition rangeDelCloseError (l : levelIter I F) : option error :=
  match rangeDelIterCopy l with
  | Some t => fragClose t
  | None => None
  end.

Definition closeEvents (l : levelIter I F) : list (event I F) :=
  match rangeDelIterCopy l with
  | Some t => [EvRangeDelClose t]
  | None => []
  end
  ++ match iter l with
     | Some it => [EvIterClose it]
     | None => []
     end.

End Closing.

(** ** The flags [findFileGE] is entered with *)

Section FindFileGEFlags.

Context {I F : Type}.

(** Every entry of [findFileGE] recorded in the trace of [l] was already in
    the trace [before], or was made with flags in [okFlags]. *)
Definition flagsSince (before : list (event I F)) (okFlags : SeekGEFlags -> Prop)
  (l : levelIter I F) : Prop :=
  forall k flags,
    In (EvFindFileGE k flags) (trace l) ->
    In (EvFindFileGE k flags) before \/ okFlags flags.

End FindFileGEFlags.

(** ** Counting the calls on the cursor *)

Section TraceCounting.

Context {I F : Type}.




End TraceCounting.

(** ** Comparers and ordered levels *)

Section Order.

Variable cmp : Compare.
Variable split : Split.

(** The prefix portion of a user key. *)
Definition prefixOf (k : bytes) : bytes := slice_to k (split k).

(** What Pebble asks of a comparer: [Compare] is a total preorder on user
    keys, and the prefixes of two keys are ordered as the keys are. *)
Record ComparerLaws : Prop := mkComparerLaws {
  cmp_refl : forall a, cmp a a = 0;
  cmp_flip : forall a b, cmp a b < 0 <-> cmp b a > 0;
  cmp_trans : forall a b c, cmp a b <= 0 -> cmp b c <= 0 -> cmp a c <= 0;
  split_monotone :
    forall a b, cmp a b <= 0 -> cmp (prefixOf a) (prefixOf b) <= 0
}.

(** A file has point keys or range keys, and its bounds are in order. *)
Definition wfFile (f : fileMetadata) : Prop :=
  (HasPointKeys f = true \/ HasRangeKeys f = true)
  /\ (HasPointKeys f = true ->
      cmp (UserKey (SmallestPointKey f)) (UserKey (LargestPointKey f)) <= 0)
  /\ (HasRangeKeys f = true ->
      cmp (UserKey (SmallestRangeKey f)) (UserKey (LargestRangeKey f)) <= 0).

(** [f] lies before [g] in a level: [f] ends where [g] starts or before,
    and if the largest point key of [f] has the user key [g] starts with, it
    is an exclusive sentinel, not a point of [f]. *)
Definition fileBefore (f g : fileMetadata) : Prop :=
  cmp (fileLargestUser cmp f) (fileSmallestUser cmp g) <= 0
  /\ (HasPointKeys f = true ->
      cmp (UserKey (LargestPointKey f)) (fileSmallestUser cmp g) = 0 ->
      IsExclusiveSentinel (LargestPointKey f) = true).

(** "Files in a LevelCursor are disjoint and totally ordered". *)
Fixpoint levelSorted (fs : list fileMetadata) : Prop :=
  match fs with
  | [] => True
  | f :: r => Forall (fileBefore f) r /\ levelSorted r
  end.

End Order.

(** ** Triples *)

(** [triple P m Q]: from a state satisfying [P], the computation [m] does
    not fail the assertion of [makeSyntheticBoundary], and if it returns, it
    returns a value and a state satisfying [Q]. *)
Definition triple {S A : Type} (P : S -> Prop) (m : M S A) (Q : A -> S -> Prop)
  : Prop :=
  forall s, P s ->
    match m s with
    | Ok a s' => Q a s'
    | Panic p => p <> AssertSyntheticBoundary
    | OutOfFuel => True
    end.

(** ** Assertions of the triples about the methods *)

Section Assertions.

Context {I F : Type}.
Variable J : levelIter I F -> Prop.

(** What a positioning call promises: [J] again, and a slot holding a
    tombstone iterator whenever the result is the synthetic boundary. *)
Definition answered (r : option kvPtr) (l : levelIter I F) : Prop :=
  J l /\ (r = Some SyntheticKV -> emitSyntheticBoundaries l = true).

(** [J], and a property of the inner iterator that updates elsewhere keep. *)
Definition withIter (phi : option I -> Prop) (l : levelIter I F) : Prop :=
  J l /\ phi (iter l).

(** [J], with a tombstone iterator in the slot. *)
Definition slotLive (l : levelIter I F) : Prop :=
  J l /\ emitSyntheticBoundaries l = true.

Definition isNil (i : option I) : Prop := i = None.
Definition anyIter (i : option I) : Prop := True.

End Assertions.

Ltac branches :=
  repeat match goal with
         | |- triple _ (if ?b then _ else _) _ => destruct b
         end.


(** ** Well-formed levels and the states over them *)

(** The states of a level iterator over executable sstables. *)
Abbreviation SL := (levelIter sstIter rangeDelIter).

Section WellFormed.

Variable cmp : Compare.
Variable fs : list fileMetadata.
Variable store : tableStore.

Definition userOf (kv : InternalKV) : bytes := UserKey (K kv).

(** The pairs of a table are in the order of their user keys. *)
Fixpoint keysSorted (ks : list InternalKV) : Prop :=
  match ks with
  | [] => True
  | kv :: r =>
    Forall (fun kv' => cmp (userOf kv) (userOf kv') <= 0) r /\ keysSorted r
  end.

(** The table of a file: it opens, reads and closes without error, its
    pairs are sorted and lie within the point key bounds of the metadata,
    strictly below the largest one when that is an exclusive sentinel. *)
Definition tableOK (f : fileMetadata) (t : sstable) : Prop :=
  tOpenErr t = None /\ tIterErr t = None /\ tCloseErr t = None
  /\ (forall rd, tRangeDels t = Some rd -> rdCloseErr rd = None)
  /\ keysSorted (tPoints t)
  /\ forall kv, In kv (tPoints t) ->
       cmp (UserKey (SmallestPointKey f)) (userOf kv) <= 0
       /\ cmp (userOf kv) (UserKey (LargestPointKey f)) <= 0
       /\ (IsExclusiveSentinel (LargestPointKey f) = true ->
           cmp (userOf kv) (UserKey (LargestPointKey f)) < 0).

Definition storeOK : Prop :=
  forall f, In f fs -> HasPointKeys f = true ->
    exists t, lookupTable store (FileNum f) = Some t /\ tableOK f t.

(** A level: sorted, of well-formed files with distinct numbers. *)
Definition levelOK : Prop :=
  levelSorted cmp fs /\ Forall (wfFile cmp) fs /\ NoDup (map FileNum fs).

(** The bounds [initTableBounds] computes for a table that overlaps the
    bounds of the iteration. *)
Definition tableBounds (lo up : option bytes) (f : fileMetadata) : IterOptions :=
  {| LowerBound :=
       match lo with
       | Some b =>
         if cmp b (UserKey (SmallestPointKey f)) <=? 0 then None else Some b
       | None => None
       end;
     UpperBound :=
       match up with
       | Some b =>
         if cmp b (UserKey (LargestPointKey f)) >? 0 then None else Some b
       | None => None
       end |}.

Definition overlaps (lo up : option bytes) (f : fileMetadata) : Prop :=
  (forall b, lo = Some b -> cmp (UserKey (LargestPointKey f)) b >= 0)
  /\ (forall b, up = Some b -> cmp (UserKey (SmallestPointKey f)) b < 0).

(** The inner iterator [it] is the one opened on table [t] with [opts]. *)
Definition iterOK (it : sstIter) (t : sstable) (opts : IterOptions) : Prop :=
  sKeys it = tPoints t /\ sLower it = LowerBound opts
  /\ sUpper it = UpperBound opts /\ sErr it = None /\ sCloseErr it = None.

(** The level is the one given, no error is stored, and the tombstone
    iterator held closes without error. *)
Definition Base (l : SL) : Prop :=
  lfiles (files l) = fs
  /\ -1 <= lpos (files l) <= Z.of_nat (List.length fs)
  /\ err l = None
  /\ (forall rd, rangeDelIterCopy l = Some rd -> rdCloseErr rd = None).

(** An open inner iterator is the iterator of the table of [iterFile],
    opened with the bounds computed for it. *)
Definition Loaded (l : SL) : Prop :=
  forall it, iter l = Some it ->
    exists f t,
      iterFile l = Some f /\ In f fs /\ HasPointKeys f = true
      /\ lookupTable store (FileNum f) = Some t
      /\ tableOK f t
      /\ iterOK it t (tableOpts l)
      /\ overlaps (lower l) (upper l) f
      /\ tableOpts l = tableBounds (lower l) (upper l) f.

(** What holds of a state whatever the position of the cursor. *)
Definition Inv0 (l : SL) : Prop := Base l /\ Loaded l.

(** Between two calls [iterFile] is the file under the cursor. *)
Definition Inv (l : SL) : Prop :=
  Inv0 l /\ iterFile l = li_Current (files l).

(** Within a call, after the cursor has moved to [m]. *)
Definition At (m : option fileMetadata) (l : SL) : Prop :=
  Inv0 l /\ li_Current (files l) = m.

(** The result [r] of a forward call is a key of the current file, or a
    boundary of it: it is at or after the smallest point key of the file. *)
Definition Positioned (r : option kvPtr) (l : SL) : Prop :=
  match r with
  | None => True
  | Some p =>
    exists f,
      iterFile l = Some f /\ HasPointKeys f = true
      /\ cmp (UserKey (SmallestPointKey f)) (userOf (deref l p)) <= 0
  end.

End WellFormed.

(** The panics a caller brings about by breaking the contract of a call:
    seeking outside the bounds, [First] or [Last] with a bound set, and the
    fatal bound violations of [verify]; not a nil dereference, and not the
    assertion of [makeSyntheticBoundary]. *)
Definition callerFault (p : panic) : Prop :=
  p <> NilDereference /\ p <> AssertSyntheticBoundary.

(** [total P m Q]: from a state satisfying [P] the computation [m] ends,
    within its fuel, by returning a value and a state satisfying [Q] or by a
    fault of the caller. *)
Definition total {S A : Type} (P : S -> Prop) (m : M S A) (Q : A -> S -> Prop)
  : Prop :=
  forall s, P s ->
    match m s with
    | Ok a s' => Q a s'
    | Panic p => callerFault p
    | OutOfFuel => False
    end.

(** ** States that differ in the trace only *)

Section Sim.

Context {I F : Type}.

(** Two states that differ at most in the cursor over the level, the trace
    and the state of combined iteration. *)
Definition simF (a b : levelIter I F) : Prop :=
  lower a = lower b /\ upper a = upper b /\ tableOpts a = tableOpts b
  /\ smallestBoundary a = smallestBoundary b
  /\ largestBoundary a = largestBoundary b
  /\ syntheticBoundary a = syntheticBoundary b
  /\ iter a = iter b /\ iterFile a = iterFile b
  /\ rangeDelIterPtr a = rangeDelIterPtr b
  /\ rangeDelIterCopy a = rangeDelIterCopy b
  /\ err a = err b /\ exhaustedDir a = exhaustedDir b
  /\ disableInvariants a = disableInvariants b.

(** Two states that differ at most in the trace and in the state of
    combined iteration. *)
Definition sim (a b : levelIter I F) : Prop :=
  simF a b /\ files a = files b.

(** Two outcomes that agree: the same value in similar states, or the same
    panic. *)
Definition simOut {A : Type} (x y : outcome (levelIter I F) A) : Prop :=
  match x, y with
  | Ok a l, Ok b l' => a = b /\ sim l l'
  | Panic p, Panic q => p = q
  | OutOfFuel, OutOfFuel => True
  | _, _ => False
  end.

(** Two computations that agree from similar states. *)
Definition agree {A : Type} (m1 m2 : M (levelIter I F) A) : Prop :=
  forall a b, sim a b -> simOut (m1 a) (m2 b).

(** A computation that neither reads the trace nor the state of combined
    iteration. *)
Definition respects {A : Type} (m : M (levelIter I F) A) : Prop := agree m m.

End Sim.

Section AfterFindFileGE.

Context {I F : Type} {HI : InternalIterator I} {HF : FragmentIterator F}.
Variable invariants_Enabled : bool.
Variable cmp : Compare.
Variable newIters : tableNewIters I F.

(** What [SeekGE] does after [findFileGE]. *)
Definition afterFindFileGE (k : bytes) (flags : SeekGEFlags)
  (m : option fileMetadata) : M (levelIter I F) (option kvPtr) :=
  fl <- (loadFileIndicator <- loadFile cmp newIters m 1 ;;
         if loadFileIndicator =? noFileLoaded then
           modify (set_exhaustedDir 1) ;; ret None
         else
           ret (Some (if loadFileIndicator =? newFileLoaded
                      then DisableTrySeekUsingNext flags else flags))) ;;
  match fl with
  | None => ret None
  | Some flags' =>
    verifyOrSkip invariants_Enabled cmp (iter_call (iterSeekGE k flags'))
      (skipEmptyFileForward invariants_Enabled cmp newIters)
  end.

End AfterFindFileGE.

(** ** The file [findFileGE] stops at *)

Section Good.
Variable cmp : Compare.
Variable fs : list fileMetadata.

(** The file [findFileGE] stops at for the key [k]: it has point keys, its
    largest one is at or after [k], and is not an exclusive sentinel at
    [k]. *)
Definition good (k : bytes) (f : fileMetadata) : bool :=
  HasPointKeys f
  && negb (cmp (UserKey (LargestPointKey f)) k <? 0)
  && negb (IsExclusiveSentinel (LargestPointKey f)
           && (cmp (UserKey (LargestPointKey f)) k =? 0)).

Definition cursorAt (p : Z) : LevelIterator := {| lfiles := fs; lpos := p |}.

Definition fileAt (p : Z) : option fileMetadata := li_at (cursorAt p) p.

(** [g] is the position of the first good file of the level, or the length
    of the level if there is none. *)
Definition firstGood (k : bytes) (g : Z) : Prop :=
  0 <= g <= Z.of_nat (List.length fs)
  /\ (forall j f, 0 <= j < g -> fileAt j = Some f -> good k f = false)
  /\ (forall f, fileAt g = Some f -> good k f = true).

(** Where [SeekGE] of the cursor lands. *)
Definition seekIndex (k : bytes) : Z :=
  Z.of_nat (find_index (fun f => cmp (fileLargestUser cmp f) k >=? 0) fs).

End Good.

Section FoundFrom.

Context {I F : Type}.
Variable cmp : Compare.
Variable fs : list fileMetadata.

(** The outcome of a run of the loop of [findFileGE]: it stops at the
    first good file, having moved only the cursor. *)
Definition foundFrom (k : bytes) (l : levelIter I F)
  (o : outcome (levelIter I F) (option fileMetadata)) : Prop :=
  exists g l',
    o = Ok (fileAt fs g) l' /\ firstGood cmp fs k g
    /\ simF l l' /\ files l' = cursorAt fs g.

End FoundFrom.

(** ** Loading a file forward *)

Section Forward.

Variable cmp : Compare.
Variable fs : list fileMetadata.
Variable store : tableStore.

(** What a call leaves alone: the bounds, the flag of the tests, and a slot
    that is not registered stays so. *)
Definition framed (l l' : SL) : Prop :=
  lower l' = lower l /\ upper l' = upper l
  /\ disableInvariants l' = disableInvariants l
  /\ (rangeDelIterPtr l = None -> rangeDelIterPtr l' = None).

(** A file [loadFile] passes over when it moves forward: it has no point
    keys, or they all lie before the lower bound. *)
Definition skippedForward (lo : option bytes) (f : fileMetadata) : Prop :=
  HasPointKeys f = false
  \/ exists b, lo = Some b /\ cmp (UserKey (LargestPointKey f)) b < 0.

(** Where [loadFile] gives up when it moves forward: past the last file, or
    at a file whose point keys all lie at or after the upper bound. *)
Definition stoppedForward (up : option bytes) (q : Z) : Prop :=
  q = Z.of_nat (List.length fs)
  \/ exists f b,
       fileAt fs q = Some f /\ HasPointKeys f = true /\ up = Some b
       /\ cmp (UserKey (SmallestPointKey f)) b >= 0.

(** The outcome of [loadFile] forward from the file at [p], in a state
    framed by [l0]. *)
Definition loadedFrom (p : Z) (l0 : SL)
  (o : outcome SL loadFileReturnIndicator) : Prop :=
  exists r l' q,
    o = Ok r l' /\ Inv cmp fs store l' /\ files l' = cursorAt fs q
    /\ p <= q <= Z.of_nat (List.length fs) /\ framed l0 l'
    /\ largestBoundary l' = None /\ smallestBoundary l' = None
    /\ (forall j f, p <= j < q -> fileAt fs j = Some f ->
                    skippedForward (lower l0) f)
    /\ ((r = noFileLoaded /\ iter l' = None /\ stoppedForward (upper l0) q)
        \/ (r <> noFileLoaded /\ iter l' <> None)).

(** The state [loadFile] works on once the previous file is closed. *)
Definition closedAt (p : Z) (l0 l : SL) : Prop :=
  Base fs l /\ iter l = None /\ files l = cursorAt fs p /\ framed l0 l
  /\ largestBoundary l = None /\ smallestBoundary l = None.

End Forward.

(** ** What a forward scan yields *)

Section Yield.

Variable cmp : Compare.
Variable split : Split.
Variable fs : list fileMetadata.
Variable store : tableStore.

Definition inBounds (lo up : option bytes) (kv : InternalKV) : bool :=
  inLower cmp lo kv && inUpper cmp up kv.

(** The point keys of a file of the level. *)
Definition fileKeys (f : fileMetadata) : list InternalKV :=
  if HasPointKeys f then
    match lookupTable store (FileNum f) with
    | Some t => tPoints t
    | None => []
    end
  else [].

Definition levelKeys : list InternalKV := flat_map fileKeys fs.

(** [f] has no key within the bounds. *)
Definition emptyWithin (lo up : option bytes) (f : fileMetadata) : Prop :=
  forall kv, In kv (fileKeys f) -> inBounds lo up kv = false.

(** [kv] is the first key of [f] within the bounds. *)
Definition firstWithin (lo up : option bytes) (f : fileMetadata)
  (kv : InternalKV) : Prop :=
  In kv (fileKeys f) /\ inBounds lo up kv = true
  /\ forall kv', In kv' (fileKeys f) -> inBounds lo up kv' = true ->
                 cmp (userOf kv) (userOf kv') <= 0.

(** The result [r] of a scan forward from the file at [p]: the first key
    within the bounds of the first file that has one, or nothing if no file
    has one. *)
Definition yieldsFrom (lo up : option bytes) (p : Z) (r : option kvPtr)
  : Prop :=
  match r with
  | Some (InnerKV kv) =>
    exists q f,
      p <= q /\ fileAt fs q = Some f /\ firstWithin lo up f kv
      /\ forall j f', p <= j < q -> fileAt fs j = Some f' ->
                      emptyWithin lo up f'
  | Some SyntheticKV => False
  | None =>
    forall j f', p <= j -> fileAt fs j = Some f' -> emptyWithin lo up f'
  end.

(** [r] is the smallest key of the level within the bounds, or nothing if
    the level has no key within them. *)
Definition smallestWithin (lo up : option bytes) (r : option kvPtr) : Prop :=
  match r with
  | Some (InnerKV kv) =>
    In kv levelKeys /\ inBounds lo up kv = true
    /\ forall kv', In kv' levelKeys -> inBounds lo up kv' = true ->
                   cmp (userOf kv) (userOf kv') <= 0
  | Some SyntheticKV => False
  | None => forall kv', In kv' levelKeys -> inBounds lo up kv' = false
  end.

(** [r] is a key of a table within the bounds, not a boundary. *)
Definition innerResult (lo up : option bytes) (r : option kvPtr) : Prop :=
  match r with
  | Some (InnerKV kv) => inBounds lo up kv = true
  | Some SyntheticKV => False
  | None => True
  end.

(** What a forward call leaves, from a state framed by [l0]: a well-formed
    state, positioned at the result; and when no slot is registered, the
    result is a key of a table, and after no result the inner iterator is
    closed and the exhaustion is not backward. *)
Definition forwardOK (l0 : SL) (r : option kvPtr) (l' : SL) : Prop :=
  Inv cmp fs store l' /\ framed l0 l' /\ Positioned cmp r l'
  /\ (rangeDelIterPtr l0 = None -> innerResult (lower l0) (upper l0) r)
  /\ (rangeDelIterPtr l0 = None -> r = None ->
      iter l' = None /\ exhaustedDir l' = 1).

(** A positioning call of the inner iterator: it moves to some position. *)
Definition positions (call : sstIter -> option InternalKV * sstIter) : Prop :=
  forall it, exists p, call it = sst_goto cmp it p.

(** A positioning call that, in the table of a file opened with the bounds
    [lo] and [up], lands on the first key within [lo'] and [up]. *)
Definition lands (lo up lo' : option bytes)
  (call : sstIter -> option InternalKV * sstIter) : Prop :=
  forall it f t,
    In f fs -> HasPointKeys f = true ->
    lookupTable store (FileNum f) = Some t -> tableOK cmp f t ->
    iterOK it t (tableBounds cmp lo up f) ->
    match fst (call it) with
    | Some kv => firstWithin lo' up f kv
    | None => emptyWithin lo' up f
    end.

(** The keys of the files after the one at [q] are at or after [lo'] as they
    are at or after [lo]. *)
Definition laterSame (q : Z) (lo lo' : option bytes) : Prop :=
  forall j f kv,
    q < j -> fileAt fs j = Some f -> In kv (fileKeys f) ->
    inLower cmp lo' kv = inLower cmp lo kv.

(** A state with a file loaded at position [q]. *)
Definition loadedAt (q : Z) (l0 l : SL) : Prop :=
  Inv cmp fs store l /\ iter l <> None /\ files l = cursorAt fs q
  /\ framed l0 l.

(** The step of [skipEmptyFileForward] to the next file, before the loop
    goes on with [rest]. *)
Definition advanceForward (rest : M SL (option kvPtr)) : M SL (option kvPtr) :=
  file <- files_Next 979 ;;
  r <- loadFile (HI := sstIterOps cmp split) cmp (sstNewIters store) file 1 ;;
  if r =? noFileLoaded then
    modify (set_exhaustedDir 1) ;; ret None
  else
    kv <- iter_call (sst_First cmp) ;;
    match kv with
    | Some kv => ret (Some (InnerKV kv))
    | None => rest
    end.

(** The outcome of a scan forward that leaves the file at [q]. *)
Definition scannedFrom (q : Z) (l0 : SL)
  (o : outcome SL (option kvPtr)) : Prop :=
  exists r l',
    o = Ok r l' /\ forwardOK l0 r l'
    /\ (rangeDelIterPtr l0 = None ->
        yieldsFrom (lower l0) (upper l0) (q + 1) r).

(** The outcome of a forward call that has loaded the file at [q] and
    positioned the inner iterator with [call]. *)
Definition returned (q : Z) (l0 : SL)
  (call : sstIter -> option InternalKV * sstIter)
  (o : outcome SL (option kvPtr)) : Prop :=
  match o with
  | Ok r l' =>
    forwardOK l0 r l'
    /\ (rangeDelIterPtr l0 = None ->
        forall lo',
          lands (lower l0) (upper l0) lo' call ->
          laterSame q (lower l0) lo' ->
          yieldsFrom lo' (upper l0) q r)
  | Panic _ => rangeDelIterPtr l0 <> None
  | OutOfFuel => False
  end.

End Yield.

(** ** The outcome of a forward call *)

Section ForwardOutcome.

Variable cmp : Compare.
Variable split : Split.
Variable fs : list fileMetadata.
Variable store : tableStore.

(** The lower bound [lo'] leaves out every key [lo] leaves out. *)
Definition stricter (lo lo' : option bytes) : Prop :=
  forall kv, inLower cmp lo' kv = true -> inLower cmp lo kv = true.

(** The outcome of a forward call that loads a file from the position [p]
    on and positions the inner iterator with [call]. *)
Definition returnedFrom (p : Z) (l0 : SL)
  (call : sstIter -> option InternalKV * sstIter)
  (o : outcome SL (option kvPtr)) : Prop :=
  match o with
  | Ok r l' =>
    forwardOK cmp fs store l0 r l'
    /\ (rangeDelIterPtr l0 = None ->
        forall lo',
          lands cmp fs store (lower l0) (upper l0) lo' call ->
          stricter (lower l0) lo' ->
          laterSame cmp fs store p (lower l0) lo' ->
          yieldsFrom cmp fs store lo' (upper l0) p r)
  | Panic _ => rangeDelIterPtr l0 <> None
  | OutOfFuel => False
  end.

(** What every forward call keeps: a well-formed state positioned at the
    result, which is a key of a table when no slot is registered. *)
Definition callOK (l0 : SL) (r : option kvPtr) (l' : SL) : Prop :=
  Inv cmp fs store l' /\ framed l0 l' /\ Positioned cmp r l'
  /\ (rangeDelIterPtr l0 = None -> innerResult cmp (lower l0) (upper l0) r).

(** A call ends within its fuel, and panics only when a slot is
    registered. *)
Definition outcomeOK (l0 : SL) (o : outcome SL (option kvPtr)) : Prop :=
  match o with
  | Ok r l' => callOK l0 r l'
  | Panic _ => rangeDelIterPtr l0 <> None
  | OutOfFuel => False
  end.

End ForwardOutcome.

(** ** The file [findFileLT] stops at *)

Section GoodLT.
Variable cmp : Compare.
Variable fs : list fileMetadata.

(** The file [findFileLT] stops at for the key [k]: it has point keys and
    its smallest one is before [k]. *)
Definition goodLT (k : bytes) (f : fileMetadata) : bool :=
  HasPointKeys f && (cmp (UserKey (SmallestPointKey f)) k <? 0).

(** [g] is the position of the last such file of the level, or [-1] if there
    is none. *)
Definition lastGood (k : bytes) (g : Z) : Prop :=
  -1 <= g < Z.of_nat (List.length fs)
  /\ (forall j f, g < j -> fileAt fs j = Some f -> goodLT k f = false)
  /\ (forall f, fileAt fs g = Some f -> goodLT k f = true).

(** Where [SeekLT] of the cursor lands. *)
Definition seekIndexLT (k : bytes) : Z :=
  Z.of_nat (find_index (fun f => cmp (fileSmallestUser cmp f) k >=? 0) fs) - 1.

End GoodLT.

Section FoundBack.

Context {I F : Type}.
Variable cmp : Compare.
Variable fs : list fileMetadata.

(** The outcome of a run of the loop of [findFileLT]: it stops at the last
    good file, having moved only the cursor. *)
Definition foundBack (k : bytes) (l : levelIter I F)
  (o : outcome (levelIter I F) (option fileMetadata)) : Prop :=
  exists g l',
    o = Ok (fileAt fs g) l' /\ lastGood cmp fs k g
    /\ simF l l' /\ files l' = cursorAt fs g.

End FoundBack.

(** ** Loading a file backward *)

Section Backward.

Variable cmp : Compare.
Variable fs : list fileMetadata.
Variable store : tableStore.

(** A file [loadFile] passes over when it moves backward: it has no point
    keys, or they all lie at or after the upper bound. *)
Definition skippedBackward (up : option bytes) (f : fileMetadata) : Prop :=
  HasPointKeys f = false
  \/ exists b, up = Some b /\ cmp (UserKey (SmallestPointKey f)) b >= 0.

(** Where [loadFile] gives up when it moves backward: before the first
    file, or at a file whose point keys all lie before the lower bound. *)
Definition stoppedBackward (lo : option bytes) (q : Z) : Prop :=
  q = -1
  \/ exists f b,
       fileAt fs q = Some f /\ HasPointKeys f = true /\ lo = Some b
       /\ cmp (UserKey (LargestPointKey f)) b < 0.

(** The outcome of [loadFile] backward from the file at [p], in a state
    framed by [l0]. *)
Definition loadedBack (p : Z) (l0 : SL)
  (o : outcome SL loadFileReturnIndicator) : Prop :=
  exists r l' q,
    o = Ok r l' /\ Inv cmp fs store l' /\ files l' = cursorAt fs q
    /\ -1 <= q <= p /\ framed l0 l'
    /\ largestBoundary l' = None /\ smallestBoundary l' = None
    /\ (forall j f, q < j <= p -> fileAt fs j = Some f ->
                    skippedBackward (upper l0) f)
    /\ ((r = noFileLoaded /\ iter l' = None
         /\ stoppedBackward (lower l0) q)
        \/ (r <> noFileLoaded /\ iter l' <> None)).

End Backward.

(** ** What a backward scan yields *)

Section YieldBack.

Variable cmp : Compare.
Variable split : Split.
Variable fs : list fileMetadata.
Variable store : tableStore.

(** [kv] is the last key of [f] within the bounds. *)
Definition lastWithin (lo up : option bytes) (f : fileMetadata)
  (kv : InternalKV) : Prop :=
  In kv (fileKeys store f) /\ inBounds cmp lo up kv = true
  /\ forall kv', In kv' (fileKeys store f) -> inBounds cmp lo up kv' = true ->
                 cmp (userOf kv') (userOf kv) <= 0.

(** The result [r] of a scan backward from the file at [p]: the last key
    within the bounds of the last file that has one, or nothing if no file
    has one. *)
Definition yieldsBack (lo up : option bytes) (p : Z) (r : option kvPtr)
  : Prop :=
  match r with
  | Some (InnerKV kv) =>
    exists q f,
      q <= p /\ fileAt fs q = Some f /\ lastWithin lo up f kv
      /\ forall j f', q < j <= p -> fileAt fs j = Some f' ->
                      emptyWithin cmp store lo up f'
  | Some SyntheticKV => False
  | None =>
    forall j f', j <= p -> fileAt fs j = Some f' ->
                 emptyWithin cmp store lo up f'
  end.

(** [r] is the largest key of the level within the bounds, or nothing if
    the level has no key within them. *)
Definition largestWithin (lo up : option bytes) (r : option kvPtr) : Prop :=
  match r with
  | Some (InnerKV kv) =>
    In kv (levelKeys fs store) /\ inBounds cmp lo up kv = true
    /\ forall kv', In kv' (levelKeys fs store) ->
                   inBounds cmp lo up kv' = true ->
                   cmp (userOf kv') (userOf kv) <= 0
  | Some SyntheticKV => False
  | None =>
    forall kv', In kv' (levelKeys fs store) -> inBounds cmp lo up kv' = false
  end.

(** What a backward call leaves, from a state framed by [l0]: a well-formed
    state; and when no slot is registered, the result is a key of a table,
    and after no result the inner iterator is closed and the exhaustion is
    backward. *)
Definition backwardOK (l0 : SL) (r : option kvPtr) (l' : SL) : Prop :=
  Inv cmp fs store l' /\ framed l0 l'
  /\ (rangeDelIterPtr l0 = None -> innerResult cmp (lower l0) (upper l0) r)
  /\ (rangeDelIterPtr l0 = None -> r = None ->
      iter l' = None /\ exhaustedDir l' = -1).

(** A positioning call that, in the table of a file opened with the bounds
    [lo] and [up], lands on the last key within [lo] and [up']. *)
Definition landsBack (lo up up' : option bytes)
  (call : sstIter -> option InternalKV * sstIter) : Prop :=
  forall it f t,
    In f fs -> HasPointKeys f = true ->
    lookupTable store (FileNum f) = Some t -> tableOK cmp f t ->
    iterOK it t (tableBounds cmp lo up f) ->
    match fst (call it) with
    | Some kv => lastWithin lo up' f kv
    | None => emptyWithin cmp store lo up' f
    end.

(** The keys of the files before the one at [q] are before [up'] as they
    are before [up]. *)
Definition earlierSame (q : Z) (up up' : option bytes) : Prop :=
  forall j f kv,
    j < q -> fileAt fs j = Some f -> In kv (fileKeys store f) ->
    inUpper cmp up' kv = inUpper cmp up kv.

(** The upper bound [up'] leaves out every key [up] leaves out. *)
Definition stricterUp (up up' : option bytes) : Prop :=
  forall kv, inUpper cmp up' kv = true -> inUpper cmp up kv = true.

(** The step of [skipEmptyFileBackward] to the previous file, before the
    loop goes on with [rest]. *)
Definition retreatBackward (rest : M SL (option kvPtr))
  : M SL (option kvPtr) :=
  file <- files_Prev 1043 ;;
  r <- loadFile (HI := sstIterOps cmp split) cmp (sstNewIters store) file (-1) ;;
  if r =? noFileLoaded then
    modify (set_exhaustedDir (-1)) ;; ret None
  else
    kv <- iter_call (sst_Last cmp) ;;
    match kv with
    | Some kv => ret (Some (InnerKV kv))
    | None => rest
    end.

(** The outcome of a scan backward that leaves the file at [q]. *)
Definition scannedBack (q : Z) (l0 : SL)
  (o : outcome SL (option kvPtr)) : Prop :=
  exists r l',
    o = Ok r l' /\ backwardOK l0 r l'
    /\ (rangeDelIterPtr l0 = None ->
        yieldsBack (lower l0) (upper l0) (q - 1) r).

(** The outcome of a backward call that has loaded the file at [q] and
    positioned the inner iterator with [call]. *)
Definition returnedBack (q : Z) (l0 : SL)
  (call : sstIter -> option InternalKV * sstIter)
  (o : outcome SL (option kvPtr)) : Prop :=
  match o with
  | Ok r l' =>
    backwardOK l0 r l'
    /\ (rangeDelIterPtr l0 = None ->
        forall up',
          landsBack (lower l0) (upper l0) up' call ->
          earlierSame q (upper l0) up' ->
          yieldsBack (lower l0) up' q r)
  | Panic _ => rangeDelIterPtr l0 <> None
  | OutOfFuel => False
  end.

(** The outcome of a backward call that loads a file from the position [p]
    down and positions the inner iterator with [call]. *)
Definition returnedBackFrom (p : Z) (l0 : SL)
  (call : sstIter -> option InternalKV * sstIter)
  (o : outcome SL (option kvPtr)) : Prop :=
  match o with
  | Ok r l' =>
    backwardOK l0 r l'
    /\ (rangeDelIterPtr l0 = None ->
        forall up',
          landsBack (lower l0) (upper l0) up' call ->
          stricterUp (upper l0) up' ->
          earlierSame p (upper l0) up' ->
          yieldsBack (lower l0) up' p r)
  | Panic _ => rangeDelIterPtr l0 <> None
  | OutOfFuel => False
  end.



End YieldBack.

(** ** Example levels *)

Module Examples.

Import Sst.

Definition stateOf {A : Type} (r : outcome T A) (d : T) : T :=
  match r with
  | Ok _ l => l
  | _ => d
  end.

(** A level iterator over [fs], with the slot of the merging iterator
    registered, empty. *)
Definition withSlot (lo up : option bytes) (fs : list fileMetadata) : T :=
  initRangeDel (Some None) (newLevelIter lo up fs).

Definition del (a b : bytes) : option rangeDelIter :=
  Some {| rdSpans := [(a, b)]; rdCloseErr := None |}.

(** One file [a] and no bounds: [Last] then [Prev] exhausts it backward. *)
Definition oneFile : list fileMetadata := [fileOf 1 "a" "a"].
Definition oneStore : tableStore := [(1, tableOf ["a"] None)].
Definition backwardExhausted : T :=
  let s0 := newLevelIter None None oneFile in
  let s1 := stateOf (last true DefaultCompare DefaultSplit oneStore s0) s0 in
  stateOf (prev true DefaultCompare DefaultSplit oneStore s1) s0.

(** One file [a c e] with a tombstone, read under the upper bound [d]: the
    third step of a forward walk pauses at the bound. *)
Definition aceFile : list fileMetadata := [fileOf 1 "a" "e"].
Definition aceStore : tableStore := [(1, tableOf ["a"; "c"; "e"] (del "a" "b"))].
Definition upperPaused : T :=
  let s0 := withSlot None (Some "d") aceFile in
  let s1 := stateOf (seekGE true DefaultCompare DefaultSplit aceStore "a"
                            SeekGEFlagsNone s0) s0 in
  let s2 := stateOf (next true DefaultCompare DefaultSplit aceStore s1) s0 in
  stateOf (next true DefaultCompare DefaultSplit aceStore s2) s0.

(** The same file read backward above the lower bound [b]. *)
Definition lowerPaused : T :=
  let s0 := withSlot (Some "b") None aceFile in
  let s1 := stateOf (seekLT true DefaultCompare DefaultSplit aceStore "z"
                            SeekLTFlagsNone s0) s0 in
  let s2 := stateOf (prev true DefaultCompare DefaultSplit aceStore s1) s0 in
  stateOf (prev true DefaultCompare DefaultSplit aceStore s2) s0.

(** Two files [a c | e g] without tombstones under the upper bound [z],
    which lies beyond both; the state is the one in which a forward walk
    enters [skipEmptyFileForward], the first file just exhausted. *)
Definition twoFiles : list fileMetadata := [fileOf 1 "a" "c"; fileOf 2 "e" "g"].
Definition twoStore : tableStore :=
  [(1, tableOf ["a"; "c"] None); (2, tableOf ["e"; "g"] None)].
Definition firstFileExhausted : T :=
  let s0 := withSlot None (Some "z") twoFiles in
  let s1 := stateOf (seekGE true DefaultCompare DefaultSplit twoStore "a"
                            SeekGEFlagsNone s0) s0 in
  let s2 := stateOf (next true DefaultCompare DefaultSplit twoStore s1) s0 in
  stateOf (@iter_call _ rangeDelIter (sst_Next DefaultCompare) s2) s0.

Definition skipFromFirstFile : Res :=
  skipEmptyFileForward (HI := sstIterOps DefaultCompare DefaultSplit) true
    DefaultCompare (sstNewIters twoStore) firstFileExhausted.

(** Positioned on [c], the last key of the first of two files, and the
    call [NextPrefix d] made there. *)
Definition atC : T :=
  let s0 := newLevelIter None None twoFiles in
  let s1 := stateOf (first true DefaultCompare DefaultSplit twoStore s0) s0 in
  stateOf (next true DefaultCompare DefaultSplit twoStore s1) s0.

Definition nextPrefixFromC : Res :=
  nextPrefix true DefaultCompare DefaultSplit twoStore "d" atC.

(** A file whose two iterators both fail to close, opened by a seek. *)
Definition failingStore : tableStore :=
  [(1, {| tPoints := map kvOf ["a"; "c"; "e"];
          tRangeDels := Some {| rdSpans := [("a", "b")];
                                rdCloseErr := Some "tombstone close failed" |};
          tOpenErr := None; tIterErr := None;
          tCloseErr := Some "point close failed" |})].

Definition failingInitial : T := initial None None aceFile (Some None) None.

Definition failingOpen : T :=
  stateOf (seekGE true DefaultCompare DefaultSplit failingStore "a"
                  SeekGEFlagsNone failingInitial) failingInitial.

(** Eight files of one key each, [k1] to [k8], and a walk to [k2]. *)
Definition eightFiles : list fileMetadata :=
  [fileOf 1 "k1" "k1"; fileOf 2 "k2" "k2"; fileOf 3 "k3" "k3";
   fileOf 4 "k4" "k4"; fileOf 5 "k5" "k5"; fileOf 6 "k6" "k6";
   fileOf 7 "k7" "k7"; fileOf 8 "k8" "k8"].

Definition eightStore : tableStore :=
  [(1, tableOf ["k1"] None); (2, tableOf ["k2"] None); (3, tableOf ["k3"] None);
   (4, tableOf ["k4"] None); (5, tableOf ["k5"] None); (6, tableOf ["k6"] None);
   (7, tableOf ["k7"] None); (8, tableOf ["k8"] None)].

Definition atK2 : T :=
  let s0 := newLevelIter None None eightFiles in
  let s1 := stateOf (first true DefaultCompare DefaultSplit eightStore s0) s0 in
  stateOf (next true DefaultCompare DefaultSplit eightStore s1) s0.





End Examples.

(** ** States of the example levels *)

Module Walks.

Import Sst.

(** The two files [a c | e g], unread: without bounds, under the upper
    bound [a], and above the lower bound [b]. *)
Definition freshTwo : SL := newLevelIter None None Examples.twoFiles.
Definition freshAboveB : SL := newLevelIter (Some "b") None Examples.twoFiles.

(** The cursor moved to the first of the two files, nothing loaded. *)
Definition cursorOnFirst : SL :=
  set_files (cursorAt Examples.twoFiles 0) freshTwo.

(** Positioned on [a] by [First]. *)
Definition onA : SL :=
  Examples.stateOf
    (first true DefaultCompare DefaultSplit Examples.twoStore freshTwo)
    freshTwo.


(** Positioned on [e], the first key of the second file, by [SeekGE]. *)
Definition onE : SL :=
  Examples.stateOf
    (seekGE true DefaultCompare DefaultSplit Examples.twoStore "e"
            SeekGEFlagsNone freshTwo)
    freshTwo.

(** A file with the range keys [f] to [h] besides its points, and an
    iterator whose switch to combined iteration was triggered at [m]. *)
Definition rangeKeyFile : fileMetadata :=
  {| FileNum := 3; HasPointKeys := true; HasRangeKeys := true;
     SmallestPointKey := pointKey "e" 1; LargestPointKey := pointKey "g" 1;
     SmallestRangeKey := pointKey "f" 1; LargestRangeKey := pointKey "h" 1;
     StatsValid := false; Stats := {| NumRangeKeySets := 0 |} |}.

Definition triggeredAtM : SL :=
  initCombinedIterState
    (Some {| initialized := false; triggered := true; key := "m" |}) freshTwo.

(** The cursor moved to the last of the two files, nothing loaded. *)
Definition cursorOnLast : SL :=
  set_files (cursorAt Examples.twoFiles 1) freshTwo.

(** Exhausted forward past [g] by [SeekGE h], without bounds. *)
Definition pastG : SL :=
  Examples.stateOf
    (seekGE true DefaultCompare DefaultSplit Examples.twoStore "h"
            SeekGEFlagsNone freshTwo)
    freshTwo.


(** Positioned on [e] with the switch to combined iteration pending. *)
Definition onEAwaiting : SL :=
  initCombinedIterState
    (Some {| initialized := false; triggered := false; key := "" |})
    onE.


(** Positioned on [e] by [SeekGE d]. *)
Definition seekD : SL :=
  Examples.stateOf
    (seekGE true DefaultCompare DefaultSplit Examples.twoStore "d"
            SeekGEFlagsNone freshTwo)
    freshTwo.

(** The iterator over the first of the two files, at position [p]. *)
Definition innerAC (p : Z) : sstIter :=
  {| sKeys := map kvOf ["a"; "c"]; sPos := p; sLower := None;
     sUpper := None; sErr := None; sCloseErr := None |}.

(** Positioned on [c] by [Next] from [a]. *)
Definition onC : SL :=
  Examples.stateOf
    (next true DefaultCompare DefaultSplit Examples.twoStore onA)
    onA.

End Walks.

(** Sortedness of a level given by its files. *)
Ltac file_before :=
  let H := fresh "H" in
  match goal with
  | |- fileBefore _ _ _ =>
    split; [vm_compute; discriminate
           | intros _ H; vm_compute in H; discriminate]
  end.

Ltac sorted_level :=
  simpl;
  repeat first [ exact Logic.I | apply Forall_nil | apply Forall_cons
               | file_before | apply conj ].

(** * Properties *)

Unset Implicit Arguments.

Section StraightLine.

Context {I F : Type} {HI : InternalIterator I} {HF : FragmentIterator F}.
Variable invariants_Enabled : bool.
Variable cmp : Compare.
Variable split : Split.
Variable newIters : tableNewIters I F.

Local Abbreviation L := (levelIter I F).

Lemma is_some_true {A : Type} (o : option A) : is_some o = true <-> o <> None.
Proof. destruct o; simpl; split; congruence. Qed.

Lemma is_some_false {A : Type} (o : option A) : is_some o = false <-> o = None.
Proof. destruct o; simpl; split; congruence. Qed.

(** C10: with the sticky error set or no inner iterator, [NextPrefix]
    returns nil at once and leaves the state as it is, also after backward
    exhaustion; in that last case [Next] instead restarts the iteration. *)
Theorem NextPrefix_no_reversal (succKey : bytes) (l : L) :
  err l <> None \/ iter l = None ->
  NextPrefix invariants_Enabled cmp newIters succKey l = Ok None l
  /\ (exhaustedDir l = -1 ->
      Next invariants_Enabled cmp newIters l
      = match lower l with
        | Some lo => SeekGE invariants_Enabled cmp newIters lo SeekGEFlagsNone l
        | None => First invariants_Enabled cmp newIters l
        end).
Proof.
  intros Hinert. split.
  - unfold NextPrefix.
    assert (Hg : is_some (err l) || negb (is_some (iter l)) = true).
    { destruct Hinert as [He | Hi].
      - apply is_some_true in He. rewrite He. reflexivity.
      - rewrite Hi. simpl. apply orb_true_r. }
    rewrite Hg. reflexivity.
  - intros Hdir. unfold Next. rewrite Hdir. reflexivity.
Qed.

End StraightLine.

Lemma NextPrefix_no_reversal_witness :
  (err Examples.backwardExhausted <> None \/ iter Examples.backwardExhausted = None)
  /\ exhaustedDir Examples.backwardExhausted = -1
  /\ Sst.nextPrefix true DefaultCompare DefaultSplit Examples.oneStore "b"
       Examples.backwardExhausted
     = Ok None Examples.backwardExhausted
  /\ Sst.show (Sst.next true DefaultCompare DefaultSplit Examples.oneStore
                 Examples.backwardExhausted)
     = Sst.Real "a".
Proof.
  split; [right; reflexivity |].
  split; [reflexivity |].
  split.
  - apply (proj1 (NextPrefix_no_reversal
                    (HI := sstIterOps DefaultCompare DefaultSplit)
                    (HF := rangeDelIterOps) true DefaultCompare
                    (sstNewIters Examples.oneStore) "b"
                    Examples.backwardExhausted (or_intror eq_refl))).
  - vm_compute. reflexivity.
Defined.

Section Pauses.

Context {I F : Type} {HI : InternalIterator I} {HF : FragmentIterator F}.
Variable invariants_Enabled : bool.
Variable cmp : Compare.
Variable newIters : tableNewIters I F.

Local Abbreviation L := (levelIter I F).

(** [maybeTriggerCombinedIteration] writes the combined state only. *)
Lemma maybeTrigger_frame (file : option fileMetadata) (dir : Z) (l : L) :
  let l' := maybeTriggerCombinedIteration cmp file dir l in
  lower l' = lower l /\ upper l' = upper l /\ tableOpts l' = tableOpts l
  /\ smallestBoundary l' = smallestBoundary l
  /\ largestBoundary l' = largestBoundary l
  /\ syntheticBoundary l' = syntheticBoundary l
  /\ iter l' = iter l /\ iterFile l' = iterFile l
  /\ rangeDelIterPtr l' = rangeDelIterPtr l
  /\ rangeDelIterCopy l' = rangeDelIterCopy l
  /\ files l' = files l /\ err l' = err l /\ exhaustedDir l' = exhaustedDir l
  /\ disableInvariants l' = disableInvariants l /\ trace l' = trace l.
Proof.
  unfold maybeTriggerCombinedIteration.
  destruct file as [f |]; [| simpl; tauto].
  destruct (combinedIterState l) as [cs |]; [| simpl; tauto].
  repeat match goal with
         | |- context [if ?b then _ else _] => destruct b
         end; simpl; tauto.
Qed.

Lemma store_rangeDelIter_ptr (v : option F) (l : L) :
  rangeDelIterPtr (store_rangeDelIter v l) = slotHolding l v.
Proof.
  unfold store_rangeDelIter, slotHolding.
  destruct (rangeDelIterPtr l) eqn:E; simpl; congruence.
Qed.

Lemma store_rangeDelIter_frame (v : option F) (l : L) :
  let l' := store_rangeDelIter v l in
  rangeDelIterCopy l' = rangeDelIterCopy l /\ iter l' = iter l
  /\ iterFile l' = iterFile l /\ err l' = err l /\ trace l' = trace l
  /\ files l' = files l /\ tableOpts l' = tableOpts l
  /\ exhaustedDir l' = exhaustedDir l.
Proof.
  unfold store_rangeDelIter.
  destruct (rangeDelIterPtr l); simpl; tauto.
Qed.

(** Loading the file that is already open: the slot gets the private copy
    back and nothing is opened or closed. *)
Lemma loadFile_already (file : option fileMetadata) (dir : Z) (l : L) :
  file_ptr_eqb (iterFile l) file = true -> err l = None -> iter l <> None ->
  exists l2,
    loadFile cmp newIters file dir l = Ok fileAlreadyLoaded l2
    /\ rangeDelIterPtr l2 = slotHolding l (rangeDelIterCopy l)
    /\ rangeDelIterCopy l2 = rangeDelIterCopy l
    /\ trace l2 = trace l /\ iter l2 = iter l /\ files l2 = files l
    /\ iterFile l2 = iterFile l.
Proof.
  intros Hfile Herr Hiter.
  unfold loadFile, bind, modify. simpl.
  rewrite Hfile, Herr. simpl.
  destruct (iter l) as [it |] eqn:Hit; [| congruence]. simpl.
  eexists. split; [reflexivity |].
  pose proof (maybeTrigger_frame file dir
    (store_rangeDelIter
       (rangeDelIterCopy (set_largestBoundary None (set_smallestBoundary None l)))
       (set_largestBoundary None (set_smallestBoundary None l)))) as Hf.
  simpl in Hf.
  destruct Hf as (_ & _ & _ & _ & _ & _ & Hi & Hif & Hp & Hc & Hfl & _ & _ & _ & Ht).
  rewrite Hi, Hif, Hp, Hc, Hfl, Ht.
  rewrite store_rangeDelIter_ptr.
  pose proof (store_rangeDelIter_frame (rangeDelIterCopy l)
    (set_largestBoundary None (set_smallestBoundary None l))) as Hs.
  simpl in Hs.
  destruct Hs as (Hc' & Hi' & Hif' & _ & Ht' & Hfl' & _ & _).
  rewrite Hc', Hi', Hif', Ht', Hfl'. simpl.
  unfold slotHolding. simpl. rewrite Hit. tauto.
Qed.

(** C9: a [Next] at an upper-bound pause (a [Prev] at a lower-bound pause)
    returns nil and empties the slot but keeps the private copy; loading the
    same file again then answers "already loaded", puts the copy back in the
    slot and opens nothing: the trace of calls to the collaborators is the
    one before the pause. *)
Theorem pause_keeps_rangeDelIterCopy (l : L) (file : option fileMetadata)
  (dir : Z) :
  file_ptr_eqb (iterFile l) file = true ->
  (upperPause l ->
   exists l1 l2,
     Next invariants_Enabled cmp newIters l = Ok None l1
     /\ rangeDelIterPtr l1 = slotHolding l None
     /\ rangeDelIterCopy l1 = rangeDelIterCopy l
     /\ loadFile cmp newIters file dir l1 = Ok fileAlreadyLoaded l2
     /\ rangeDelIterPtr l2 = slotHolding l (rangeDelIterCopy l)
     /\ trace l2 = trace l /\ iter l2 = iter l)
  /\ (lowerPause l ->
      exists l1 l2,
        Prev invariants_Enabled cmp newIters l = Ok None l1
        /\ rangeDelIterPtr l1 = slotHolding l None
        /\ rangeDelIterCopy l1 = rangeDelIterCopy l
        /\ loadFile cmp newIters file dir l1 = Ok fileAlreadyLoaded l2
        /\ rangeDelIterPtr l2 = slotHolding l (rangeDelIterCopy l)
        /\ trace l2 = trace l /\ iter l2 = iter l).
Proof.
  intros Hfile. split.
  - intros (Hdir & Herr & Hiter & Hlb & Hub).
    pose (l1 := set_exhaustedDir 1 (store_rangeDelIter None l)).
    pose proof (store_rangeDelIter_frame None l) as Hs. simpl in Hs.
    destruct Hs as (Hc & Hi & Hif & He & Ht & _).
    destruct (loadFile_already file dir l1) as (l2 & Hl & Hp2 & _ & Ht2 & Hi2 & _).
    { simpl. rewrite Hif. exact Hfile. }
    { simpl. rewrite He. exact Herr. }
    { simpl. rewrite Hi. exact Hiter. }
    exists l1, l2. repeat split.
    + unfold Next.
      replace (exhaustedDir l =? -1) with false
        by (symmetry; apply Z.eqb_neq; exact Hdir).
      rewrite Herr.
      apply is_some_true in Hiter, Hlb, Hub.
      rewrite Hiter, Hlb, Hub. reflexivity.
    + simpl. apply store_rangeDelIter_ptr.
    + simpl. exact Hc.
    + exact Hl.
    + rewrite Hp2. unfold slotHolding. simpl.
      rewrite store_rangeDelIter_ptr, Hc. unfold slotHolding.
      destruct (rangeDelIterPtr l); reflexivity.
    + rewrite Ht2. simpl. exact Ht.
    + rewrite Hi2. simpl. exact Hi.
  - intros (Hdir & Herr & Hiter & Hlb & Hub).
    pose (l1 := set_exhaustedDir (-1) (store_rangeDelIter None l)).
    pose proof (store_rangeDelIter_frame None l) as Hs. simpl in Hs.
    destruct Hs as (Hc & Hi & Hif & He & Ht & _).
    destruct (loadFile_already file dir l1) as (l2 & Hl & Hp2 & _ & Ht2 & Hi2 & _).
    { simpl. rewrite Hif. exact Hfile. }
    { simpl. rewrite He. exact Herr. }
    { simpl. rewrite Hi. exact Hiter. }
    exists l1, l2. repeat split.
    + unfold Prev.
      replace (exhaustedDir l =? 1) with false
        by (symmetry; apply Z.eqb_neq; exact Hdir).
      rewrite Herr.
      apply is_some_true in Hiter, Hlb, Hub.
      rewrite Hiter, Hlb, Hub. reflexivity.
    + simpl. apply store_rangeDelIter_ptr.
    + simpl. exact Hc.
    + exact Hl.
    + rewrite Hp2. unfold slotHolding. simpl.
      rewrite store_rangeDelIter_ptr, Hc. unfold slotHolding.
      destruct (rangeDelIterPtr l); reflexivity.
    + rewrite Ht2. simpl. exact Ht.
    + rewrite Hi2. simpl. exact Hi.
Qed.

End Pauses.

Lemma pause_keeps_rangeDelIterCopy_witness :
  upperPause Examples.upperPaused /\ lowerPause Examples.lowerPaused
  /\ (exists l1 l2,
        Sst.next true DefaultCompare DefaultSplit Examples.aceStore
          Examples.upperPaused = Ok None l1
        /\ rangeDelIterPtr l1 = Some None
        /\ loadFile (HI := sstIterOps DefaultCompare DefaultSplit)
             DefaultCompare (sstNewIters Examples.aceStore)
             (iterFile Examples.upperPaused) 1 l1 = Ok fileAlreadyLoaded l2
        /\ rangeDelIterPtr l2 = Some (rangeDelIterCopy Examples.upperPaused)
        /\ trace l2 = trace Examples.upperPaused)
  /\ (exists l1 l2,
        Sst.prev true DefaultCompare DefaultSplit Examples.aceStore
          Examples.lowerPaused = Ok None l1
        /\ rangeDelIterPtr l1 = Some None
        /\ loadFile (HI := sstIterOps DefaultCompare DefaultSplit)
             DefaultCompare (sstNewIters Examples.aceStore)
             (iterFile Examples.lowerPaused) (-1) l1 = Ok fileAlreadyLoaded l2
        /\ rangeDelIterPtr l2 = Some (rangeDelIterCopy Examples.lowerPaused)
        /\ trace l2 = trace Examples.lowerPaused).
Proof.
  assert (Hu : upperPause Examples.upperPaused)
    by (repeat split; vm_compute; discriminate).
  assert (Hl : lowerPause Examples.lowerPaused)
    by (repeat split; vm_compute; discriminate).
  split; [exact Hu |]. split; [exact Hl |]. split.
  - destruct (proj1 (pause_keeps_rangeDelIterCopy
                       (HI := sstIterOps DefaultCompare DefaultSplit)
                       (HF := rangeDelIterOps) true DefaultCompare
                       (sstNewIters Examples.aceStore) Examples.upperPaused
                       (iterFile Examples.upperPaused) 1 eq_refl) Hu)
      as (l1 & l2 & H1 & H2 & _ & H3 & H4 & H5 & _).
    exists l1, l2. repeat split; assumption.
  - destruct (proj2 (pause_keeps_rangeDelIterCopy
                       (HI := sstIterOps DefaultCompare DefaultSplit)
                       (HF := rangeDelIterOps) true DefaultCompare
                       (sstNewIters Examples.aceStore) Examples.lowerPaused
                       (iterFile Examples.lowerPaused) (-1) eq_refl) Hl)
      as (l1 & l2 & H1 & H2 & _ & H3 & H4 & H5 & _).
    exists l1, l2. repeat split; assumption.
Defined.

Section SkipForward.

Context {I F : Type} {HI : InternalIterator I} {HF : FragmentIterator F}.
Variable invariants_Enabled : bool.
Variable cmp : Compare.
Variable newIters : tableNewIters I F.

Local Abbreviation L := (levelIter I F).

Lemma loopFuel_S (l : L) : exists n, loopFuel l = S n.
Proof.
  unfold loopFuel. rewrite Nat.add_comm. simpl. eexists. reflexivity.
Qed.

(** What [initTableBounds] leaves as the upper bound of a table that
    overlaps the bounds: the upper bound of the iteration, unless it lies
    beyond the largest point key of the file. *)
Lemma initTableBounds_UpperBound (f : fileMetadata) (l l' : L) :
  initTableBounds cmp (Some f) l = Ok 0 l' ->
  UpperBound (tableOpts l')
  = match upper l with
    | Some up =>
      if cmp up (UserKey (LargestPointKey f)) >? 0 then None else Some up
    | None => None
    end.
Proof.
  unfold initTableBounds, initTableBounds_upper, set_tableLower, set_tableUpper.
  destruct (lower l) as [lo |]; simpl.
  - destruct (cmp (UserKey (LargestPointKey f)) lo <? 0); [discriminate |].
    destruct (cmp lo (UserKey (SmallestPointKey f)) <=? 0); simpl;
      destruct (upper l) as [up |]; simpl;
      try (intros E; injection E as <-; reflexivity);
      destruct (cmp (UserKey (SmallestPointKey f)) up >=? 0);
      try discriminate;
      destruct (cmp up (UserKey (LargestPointKey f)) >? 0);
      intros E; injection E as <-; reflexivity.
  - destruct (upper l) as [up |]; simpl;
      try (intros E; injection E as <-; reflexivity);
      destruct (cmp (UserKey (SmallestPointKey f)) up >=? 0);
      try discriminate;
      destruct (cmp up (UserKey (LargestPointKey f)) >? 0);
      intros E; injection E as <-; reflexivity.
Qed.

(** C1, as the code has it: [skipEmptyFileForward], entered with the inner
    iterator exhausted without error and a slot registered, looks at the
    upper bound of the current table ([tableOpts.UpperBound], which
    [initTableBounds] sets only when the upper bound of the iteration lies
    within the file).  When that bound is set, the routine marks the
    iterator exhausted forward and returns a synthetic boundary at the bound
    if the slot holds a tombstone iterator, nil if it does not; in both
    cases the cursor, the file and the inner iterator are untouched. *)
Theorem skipEmptyFileForward_at_table_upper_bound
  (l : L) (it : I) (slot : option F) (ub : bytes) :
  iter l = Some it -> iterError it = None ->
  rangeDelIterPtr l = Some slot ->
  UpperBound (tableOpts l) = Some ub ->
  skipEmptyFileForward invariants_Enabled cmp newIters l
  = match slot with
    | Some _ =>
      Ok (Some SyntheticKV)
         (set_largestBoundary (Some SyntheticKV)
            (set_syntheticBoundary
               {| K := MakeRangeDeleteSentinelKey ub; V := "" |}
               (set_exhaustedDir 1 l)))
    | None => Ok None (set_exhaustedDir 1 l)
    end
  /\ forall (f : fileMetadata) (l0 : L),
       initTableBounds cmp (Some f) l0 = Ok 0 l ->
       upper l0 = Some ub
       /\ (cmp ub (UserKey (LargestPointKey f)) >? 0) = false.
Proof.
  intros Hit Herr Hslot Hub. split.
  - unfold skipEmptyFileForward.
    destruct (loopFuel_S l) as [n ->]. simpl.
    unfold bind at 1. unfold iter_Error. rewrite Hit, Herr.
    rewrite Hslot, Hub.
    destruct slot as [t |]; [| reflexivity].
    unfold pauseLargest, bind, makeSyntheticBoundary, emitSyntheticBoundaries.
    simpl. rewrite Hslot. rewrite andb_false_r. reflexivity.
  - intros f l0 Hinit.
    pose proof (initTableBounds_UpperBound f l0 l Hinit) as Hu.
    rewrite Hub in Hu.
    destruct (upper l0) as [up |]; [| discriminate].
    destruct (cmp up (UserKey (LargestPointKey f)) >? 0) eqn:E;
      [discriminate |].
    injection Hu as ->. split; [reflexivity | exact E].
Qed.

End SkipForward.

Lemma skipEmptyFileForward_at_table_upper_bound_witness :
  exists it,
    iter Examples.upperPaused = Some it /\ sErr it = None
    /\ Sst.show
         (skipEmptyFileForward (HI := sstIterOps DefaultCompare DefaultSplit)
            true DefaultCompare (sstNewIters Examples.aceStore)
            Examples.upperPaused)
       = Sst.Boundary "d".
Proof.
  destruct (iter Examples.upperPaused) as [it |] eqn:Hit;
    [| vm_compute in Hit; discriminate].
  exists it. split; [reflexivity |].
  assert (Herr : sErr it = None).
  { vm_compute in Hit. injection Hit as <-. reflexivity. }
  split; [exact Herr |].
  rewrite (proj1 (skipEmptyFileForward_at_table_upper_bound
                    (HI := sstIterOps DefaultCompare DefaultSplit)
                    true DefaultCompare (sstNewIters Examples.aceStore)
                    Examples.upperPaused it
                    (Some {| rdSpans := [("a", "b")]; rdCloseErr := None |})
                    "d" Hit Herr eq_refl eq_refl)).
  reflexivity.
Defined.

(** C1 as the specification words it ("if an upper bound exists") fails:
    here the upper bound [z] exists, the slot is registered and holds no
    tombstone iterator, the first file is exhausted without error, and the
    routine neither returns nil nor stays: it opens the next file and
    returns its first key, and the iterator is not marked exhausted. *)
Lemma skipEmptyFileForward_upper_counterexample :
  upper Examples.firstFileExhausted = Some "z"
  /\ rangeDelIterPtr Examples.firstFileExhausted = Some None
  /\ option_map sErr (iter Examples.firstFileExhausted) = Some None
  /\ Sst.show Examples.skipFromFirstFile = Sst.Real "e"
  /\ exhaustedDir (Examples.stateOf Examples.skipFromFirstFile
                     Examples.firstFileExhausted) = 0
  /\ lpos (files Examples.firstFileExhausted) = 0
  /\ lpos (files (Examples.stateOf Examples.skipFromFirstFile
                    Examples.firstFileExhausted)) = 1.
Proof. vm_compute. repeat split; reflexivity. Qed.

(** ** Rules for triples *)

Section TripleRules.

Context {S : Type}.

Lemma triple_ret {A : Type} {P : S -> Prop} {a : A} {Q : A -> S -> Prop} :
  (forall s, P s -> Q a s) -> triple P (ret a) Q.
Proof. intros HQ s Hs. simpl. auto. Qed.

Lemma triple_bind {A B : Type} {P : S -> Prop} {m : M S A} {k : A -> M S B}
  {R : A -> S -> Prop} {Q : B -> S -> Prop} :
  triple P m R -> (forall a, triple (R a) (k a) Q) -> triple P (bind m k) Q.
Proof.
  intros Hm Hk s Hs. unfold bind. specialize (Hm s Hs).
  destruct (m s) as [a s' | p |]; auto.
  apply Hk. exact Hm.
Qed.

Lemma triple_modify {P : S -> Prop} {f : S -> S} {Q : unit -> S -> Prop} :
  (forall s, P s -> Q tt (f s)) -> triple P (modify f) Q.
Proof. intros HQ s Hs. simpl. auto. Qed.

Lemma triple_gets {A : Type} {P : S -> Prop} {f : S -> A} {Q : A -> S -> Prop} :
  (forall s, P s -> Q (f s) s) -> triple P (gets f) Q.
Proof. intros HQ s Hs. simpl. auto. Qed.

Lemma triple_weaken {A : Type} {P : S -> Prop} (P' : S -> Prop) {m : M S A}
  {Q : A -> S -> Prop} (Q' : A -> S -> Prop) :
  triple P' m Q' -> (forall s, P s -> P' s) ->
  (forall a s, Q' a s -> Q a s) -> triple P m Q.
Proof.
  intros Hm HP HQ s Hs. specialize (Hm s (HP s Hs)).
  destruct (m s); auto.
Qed.

Lemma triple_out_of_fuel {A : Type} {P : S -> Prop} {Q : A -> S -> Prop} :
  triple P (fun _ => OutOfFuel) Q.
Proof. intros s Hs. exact Logic.I. Qed.

Lemma triple_panic {A : Type} {P : S -> Prop} {p : panic} {Q : A -> S -> Prop} :
  p <> AssertSyntheticBoundary -> triple P (fun _ => Panic p) Q.
Proof. intros Hp s Hs. exact Hp. Qed.

End TripleRules.

(** ** What every call keeps *)

Section Traversal.

Context {I F : Type} {HI : InternalIterator I} {HF : FragmentIterator F}.
Variable invariants_Enabled : bool.
Variable cmp : Compare.
Variable split : Split.
Variable newIters : tableNewIters I F.
Variable okFlags : SeekGEFlags -> Prop.
Variable J : levelIter I F -> Prop.
Hypothesis HJ : kept newIters okFlags J.

Local Abbreviation L := (levelIter I F).

Lemma T_log (phi : option I -> Prop) (e : event I F) :
  (forall k flags, e = EvFindFileGE k flags -> okFlags flags) ->
  triple ((withIter J) phi) (log e) (fun _ => (withIter J) phi).
Proof.
  intros He. apply triple_modify. intros l [Hl Hp]. split; [| exact Hp].
  apply (kept_trace HJ); assumption.
Qed.

Lemma T_files_call (phi : option I -> Prop) (line : Z) (c : filesCall)
  (f : LevelIterator -> option fileMetadata * LevelIterator) :
  triple ((withIter J) phi) (files_call line c f) (fun _ => (withIter J) phi).
Proof.
  intros l [Hl Hp]. unfold files_call.
  destruct (f (files l)) as [m it]. split; [| exact Hp].
  apply (kept_trace HJ (set_files it l)); [discriminate |].
  apply (kept_files HJ). exact Hl.
Qed.

Lemma maybeTrigger_cases (file : option fileMetadata) (dir : Z) (l : L) :
  maybeTriggerCombinedIteration cmp file dir l = l
  \/ exists cs,
      maybeTriggerCombinedIteration cmp file dir l = set_combinedIterState cs l.
Proof.
  unfold maybeTriggerCombinedIteration.
  destruct file as [f |]; [| left; reflexivity].
  destruct (combinedIterState l) as [cs |]; [| left; reflexivity].
  repeat match goal with
         | |- context [if ?b then _ else _] => destruct b
         end;
    solve [left; reflexivity | right; eexists; reflexivity].
Qed.

Lemma T_trigger (phi : option I -> Prop) (file : option fileMetadata) (dir : Z) :
  triple ((withIter J) phi) (modify (maybeTriggerCombinedIteration cmp file dir))
         (fun _ => (withIter J) phi).
Proof.
  apply triple_modify. intros l [Hl Hp].
  destruct (maybeTrigger_cases file dir l) as [-> | [cs ->]].
  - split; assumption.
  - split; [apply (kept_combined HJ); exact Hl | exact Hp].
Qed.

Lemma T_iter_call (f : I -> option InternalKV * I) :
  triple J (iter_call f) (fun _ => J).
Proof.
  intros l Hl. unfold iter_call.
  destruct (iter l) as [it |] eqn:Hit; [| discriminate].
  destruct (f it) as [kv it'].
  apply (kept_iter HJ) with (it := it); assumption.
Qed.

Lemma T_iter_Error (P : L -> Prop) :
  triple P (@iter_Error I F HI) (fun _ => P).
Proof.
  intros l Hl. unfold iter_Error.
  destruct (iter l); [exact Hl | discriminate].
Qed.

Lemma T_iterFile_deref (P : L -> Prop) :
  triple P (@iterFile_deref I F) (fun _ => P).
Proof.
  intros l Hl. unfold iterFile_deref.
  destruct (iterFile l); [exact Hl | discriminate].
Qed.


Lemma T_findFileGE_loop (phi : option I -> Prop) (k : bytes) (fuel : nat) :
  forall m nis nus,
    triple ((withIter J) phi) (findFileGE_loop cmp fuel k m nis nus)
           (fun _ => (withIter J) phi).
Proof.
  induction fuel as [| fuel IH]; intros m nis nus; destruct m as [f |]; simpl;
    try (apply triple_ret; auto; fail).
  - apply triple_out_of_fuel.
  - eapply triple_bind.
    { destruct (HasRangeKeys f); [apply T_trigger | apply triple_ret; auto]. }
    intros []. branches;
      try (apply triple_ret; auto; fail);
      (eapply triple_bind; [apply T_files_call | intros m'; apply IH]).
Qed.

Lemma T_findFileGE (phi : option I -> Prop) (k : bytes) (flags : SeekGEFlags) :
  okFlags flags ->
  triple ((withIter J) phi) (findFileGE cmp k flags) (fun _ => (withIter J) phi).
Proof.
  intros Hok. unfold findFileGE. eapply triple_bind.
  { apply T_log. intros k' flags' E. injection E as _ <-. exact Hok. }
  intros [] l Hl. cbv zeta.
  refine (triple_bind _ _ l Hl); [| intros m; apply T_findFileGE_loop].
  destruct (TrySeekUsingNext flags || _).
  - apply triple_gets. auto.
  - apply T_files_call.
Qed.

Lemma T_findFileLT_loop (phi : option I -> Prop) (k : bytes) (fuel : nat) :
  forall m pis,
    triple ((withIter J) phi) (findFileLT_loop cmp fuel k m pis)
           (fun _ => (withIter J) phi).
Proof.
  induction fuel as [| fuel IH]; intros m pis; destruct m as [f |]; simpl;
    try (apply triple_ret; auto; fail).
  - apply triple_out_of_fuel.
  - eapply triple_bind.
    { destruct (HasRangeKeys f); [apply T_trigger | apply triple_ret; auto]. }
    intros []. branches;
      try (apply triple_ret; auto; fail);
      (eapply triple_bind; [apply T_files_call | intros m'; apply IH]).
Qed.

Lemma T_findFileLT (phi : option I -> Prop) (k : bytes) (flags : SeekLTFlags) :
  triple ((withIter J) phi) (findFileLT cmp k flags) (fun _ => (withIter J) phi).
Proof.
  unfold findFileLT. eapply triple_bind; [apply T_log; discriminate |].
  intros [] l Hl. cbv zeta.
  refine (triple_bind _ _ l Hl); [| intros m; apply T_findFileLT_loop].
  destruct (LTRelativeSeek flags && _).
  - apply triple_gets. auto.
  - apply T_files_call.
Qed.


Lemma plain {A : Type} (m : M L A) :
  triple ((withIter J) anyIter) m (fun _ => (withIter J) anyIter) ->
  triple J m (fun _ => J).
Proof.
  intros Hm. apply (triple_weaken ((withIter J) anyIter) (fun _ => (withIter J) anyIter) Hm).
  - intros l Hl. split; [exact Hl | exact Logic.I].
  - intros _ l [Hl _]. exact Hl.
Qed.

Lemma T_initTableBounds (phi : option I -> Prop) (file : option fileMetadata) :
  triple ((withIter J) phi) (initTableBounds cmp file) (fun _ => (withIter J) phi).
Proof.
  intros l [Hl Hp].
  unfold initTableBounds, initTableBounds_upper, set_tableLower, set_tableUpper.
  destruct (lower l), file as [f |]; simpl;
    repeat match goal with
           | |- context [if ?b then _ else _] => destruct b; simpl
           | |- context [match upper l with _ => _ end] => destruct (upper l); simpl
           end;
    try discriminate;
    (split; [repeat apply (kept_tableOpts HJ); exact Hl | exact Hp]).
Qed.

Lemma Close_closed (l : L) : Close l = Ok (err (closed l)) (closed l).
Proof. reflexivity. Qed.

Lemma closed_iter (l : L) : iter (closed l) = None.
Proof.
  unfold closed, Close.
  destruct (iter l) eqn:E1; simpl;
    destruct (rangeDelIterPtr l) eqn:E2; simpl;
    destruct (rangeDelIterCopy l) eqn:E3; simpl; auto.
Qed.

Lemma T_Close : triple J (@Close I F HI HF) (fun _ => (withIter J) isNil).
Proof.
  intros l Hl. rewrite Close_closed. split.
  - apply (kept_closed HJ). exact Hl.
  - apply closed_iter.
Qed.

Lemma openTable_outcome (l : L) :
  match openTable newIters l with
  | Ok _ l' => l' = opened newIters l
  | Panic p => p = NilDereference
  | OutOfFuel => False
  end.
Proof.
  unfold opened. destruct (openTable newIters l) eqn:E; try reflexivity.
  - unfold openTable in E. destruct (iterFile l); [| congruence].
    destruct (newIters _ _ _) as [iters [e |]]; [discriminate |].
    simpl in E. destruct (rangeDelIterPtr l); discriminate.
  - unfold openTable in E. destruct (iterFile l); [| congruence].
    destruct (newIters _ _ _) as [iters [e |]]; [discriminate |].
    simpl in E. destruct (rangeDelIterPtr l); discriminate.
Qed.

Lemma T_openTable :
  triple ((withIter J) isNil) (openTable newIters) (fun _ => J).
Proof.
  intros l [Hl Hn]. pose proof (openTable_outcome l) as Ho.
  destruct (openTable newIters l) as [r l' | p |].
  - subst l'. apply (kept_opened HJ); assumption.
  - subst p. discriminate.
  - exact Logic.I.
Qed.

Lemma T_loadFile_loop (dir : Z) (fuel : nat) :
  forall file,
    triple ((withIter J) isNil) (loadFile_loop cmp newIters fuel file dir)
           (fun _ => J).
Proof.
  induction fuel as [| fuel IH]; intros file.
  - destruct file as [f |]; simpl.
    + apply (triple_bind (R := fun _ _ => True));
        [| intros []; apply triple_out_of_fuel].
      apply triple_modify. intros l Hl. exact Logic.I.
    + apply (triple_bind (R := fun _ => J));
        [| intros []; apply triple_ret; intros l Hl; exact Hl].
      apply triple_modify. intros l [Hl Hn]. apply (kept_iterFile HJ); assumption.
  - destruct file as [f |]; simpl.
    + apply (triple_bind (R := fun _ => (withIter J) isNil)).
      { apply triple_modify. intros l [Hl Hn]. split; [| exact Hn].
        apply (kept_iterFile HJ); assumption. }
      intros []. apply (triple_bind (R := fun _ => (withIter J) isNil));
        [apply T_trigger |].
      intros []. branches.
      * eapply triple_bind; [apply T_files_call | intros m'; apply IH].
      * eapply triple_bind; [apply T_files_call | intros m'; apply IH].
      * eapply triple_bind; [apply T_initTableBounds |].
        intros r. branches;
          try (apply triple_ret; intros l [Hl _]; exact Hl);
          try (eapply triple_bind; [apply T_files_call | intros m'; apply IH]).
        apply T_openTable.
    + apply (triple_bind (R := fun _ => J));
        [| intros []; apply triple_ret; intros l Hl; exact Hl].
      apply triple_modify. intros l [Hl Hn]. apply (kept_iterFile HJ); assumption.
Qed.

Lemma kept_store (v : option F) (l : L) : J l -> J (store_rangeDelIter v l).
Proof.
  intros Hl. unfold store_rangeDelIter.
  destruct (rangeDelIterPtr l) eqn:E; [| exact Hl].
  apply (kept_slot HJ); [congruence | exact Hl].
Qed.

Lemma kept_trigger (file : option fileMetadata) (dir : Z) (l : L) :
  J l -> J (maybeTriggerCombinedIteration cmp file dir l).
Proof.
  intros Hl. destruct (maybeTrigger_cases file dir l) as [-> | [cs ->]].
  - exact Hl.
  - apply (kept_combined HJ). exact Hl.
Qed.

Lemma T_loadFile (file : option fileMetadata) (dir : Z) :
  triple J (loadFile cmp newIters file dir) (fun _ => J).
Proof.
  unfold loadFile. apply (triple_bind (R := fun _ => J)).
  { apply triple_modify. intros l Hl.
    apply (kept_largestBoundary HJ), (kept_smallestBoundary HJ). exact Hl. }
  intros [] l Hl.
  destruct (file_ptr_eqb (iterFile l) file && _); [exact Hl |].
  destruct (file_ptr_eqb (iterFile l) file && _).
  { apply kept_trigger, kept_store. exact Hl. }
  refine (triple_bind T_Close _ l Hl).
  intros [e |].
  - apply triple_ret. intros l' [Hl' _]. exact Hl'.
  - intros l' Hl'. apply T_loadFile_loop. exact Hl'.
Qed.


Lemma T_makeSyntheticBoundary (userKey : bytes) :
  triple (slotLive J) (makeSyntheticBoundary invariants_Enabled userKey)
         (fun p l => (slotLive J) l /\ p = SyntheticKV).
Proof.
  intros l [Hl He]. unfold makeSyntheticBoundary. rewrite He.
  rewrite andb_false_r. split; [split |].
  - apply (kept_syntheticBoundary HJ). exact Hl.
  - exact He.
  - reflexivity.
Qed.

Lemma T_pauseLargest (userKey : bytes) :
  triple (slotLive J) (pauseLargest invariants_Enabled userKey)
         (fun r l => (slotLive J) l /\ r = Some SyntheticKV).
Proof.
  unfold pauseLargest.
  eapply triple_bind; [apply T_makeSyntheticBoundary |].
  intros p l [[Hl He] ->]. simpl. split; [split |].
  - apply (kept_largestBoundary HJ). exact Hl.
  - exact He.
  - reflexivity.
Qed.

Lemma T_pauseSmallest (userKey : bytes) :
  triple (slotLive J) (pauseSmallest invariants_Enabled userKey)
         (fun r l => (slotLive J) l /\ r = Some SyntheticKV).
Proof.
  unfold pauseSmallest.
  eapply triple_bind; [apply T_makeSyntheticBoundary |].
  intros p l [[Hl He] ->]. simpl. split; [split |].
  - apply (kept_smallestBoundary HJ). exact Hl.
  - exact He.
  - reflexivity.
Qed.

Lemma slotLive_answered (r : option kvPtr) (l : L) :
  (slotLive J) l -> (answered J) r l.
Proof. intros [Hl He]. split; [exact Hl | intros _; exact He]. Qed.

Lemma J_answered (r : option kvPtr) (l : L) :
  J l -> r <> Some SyntheticKV -> (answered J) r l.
Proof. intros Hl Hr. split; [exact Hl | intros E; contradiction]. Qed.

Lemma T_verify (kv : option kvPtr) :
  triple ((answered J) kv) (verify invariants_Enabled cmp kv) (answered J).
Proof.
  intros l Hl. unfold verify.
  destruct kv as [p |]; [| exact Hl].
  destruct (invariants_Enabled && _); [| exact Hl].
  destruct (match lower l with Some _ => _ | None => _ end); [discriminate |].
  destruct (match upper l with Some _ => _ | None => _ end); [discriminate |].
  exact Hl.
Qed.

Lemma T_verify_inner (kv : InternalKV) :
  triple J (verify_inner invariants_Enabled cmp kv) (answered J).
Proof.
  unfold verify_inner.
  apply (triple_weaken ((answered J) (Some (InnerKV kv))) (answered J) (T_verify _)).
  - intros l Hl. apply J_answered; [exact Hl | discriminate].
  - auto.
Qed.

Lemma T_exhausted (d : Z) :
  triple J (modify (set_exhaustedDir (I := I) (F := F) d) ;; ret None) (answered J).
Proof.
  apply (triple_bind (R := fun _ => J)).
  - apply triple_modify. intros l Hl. apply (kept_exhaustedDir HJ). exact Hl.
  - intros []. apply triple_ret. intros l Hl.
    apply J_answered; [exact Hl | discriminate].
Qed.

Lemma T_skipEmptyFileForward_loop (fuel : nat) :
  triple J (skipEmptyFileForward_loop invariants_Enabled cmp newIters fuel)
         (answered J).
Proof.
  induction fuel as [| fuel IH]; simpl; [apply triple_out_of_fuel |].
  eapply triple_bind; [apply T_iter_Error |].
  intros [e |].
  { apply triple_ret. intros l Hl. apply J_answered; [exact Hl | discriminate]. }
  intros l Hl.
  assert (Hadv :
    triple J
      (file <- files_Next 979 ;;
       r <- loadFile cmp newIters file 1 ;;
       (if r =? noFileLoaded
        then modify (set_exhaustedDir 1) ;; ret None
        else
          kv <- iter_call iterFirst ;;
          match kv with
          | Some kv0 => ret (Some (InnerKV kv0))
          | None =>
            skipEmptyFileForward_loop invariants_Enabled cmp newIters fuel
          end)) (answered J)).
  { eapply triple_bind; [apply plain, T_files_call |].
    intros file. eapply triple_bind; [apply T_loadFile |].
    intros r. destruct (r =? noFileLoaded); [apply T_exhausted |].
    eapply triple_bind; [apply T_iter_call |].
    intros [kv |]; [| exact IH].
    apply triple_ret. intros l' Hl'. apply J_answered; [exact Hl' | discriminate]. }
  destruct (rangeDelIterPtr l) as [[t |] |] eqn:Hp;
    destruct (UpperBound (tableOpts l)) as [ub |] eqn:Hu;
    try (exact (Hadv l Hl)).
  - refine (triple_weaken _ _ (T_pauseLargest ub) _ _ (set_exhaustedDir 1 l) _).
    + intros l' Hl'. exact Hl'.
    + intros r l' [Hl' _]. apply slotLive_answered. exact Hl'.
    + split; [apply (kept_exhaustedDir HJ); exact Hl |].
      unfold emitSyntheticBoundaries. simpl. rewrite Hp. reflexivity.
  - refine (triple_bind (T_iterFile_deref (slotLive J)) _ l _).
    + intros f.
      apply (triple_weaken _ _ (T_pauseLargest _)); [auto |].
      intros r l' [Hl' _]. apply slotLive_answered. exact Hl'.
    + split; [exact Hl |].
      unfold emitSyntheticBoundaries. rewrite Hp. reflexivity.
  - apply J_answered; [| discriminate].
    apply (kept_exhaustedDir HJ). exact Hl.
Qed.


Lemma T_skipEmptyFileBackward_loop (fuel : nat) :
  triple J (skipEmptyFileBackward_loop invariants_Enabled cmp newIters fuel)
         (answered J).
Proof.
  induction fuel as [| fuel IH]; simpl; [apply triple_out_of_fuel |].
  eapply triple_bind; [apply T_iter_Error |].
  intros [e |].
  { apply triple_ret. intros l Hl. apply J_answered; [exact Hl | discriminate]. }
  intros l Hl.
  assert (Hadv :
    triple J
      (file <- files_Prev 1043 ;;
       r <- loadFile cmp newIters file (-1) ;;
       (if r =? noFileLoaded
        then modify (set_exhaustedDir (-1)) ;; ret None
        else
          kv <- iter_call iterLast ;;
          match kv with
          | Some kv0 => ret (Some (InnerKV kv0))
          | None =>
            skipEmptyFileBackward_loop invariants_Enabled cmp newIters fuel
          end)) (answered J)).
  { eapply triple_bind; [apply plain, T_files_call |].
    intros file. eapply triple_bind; [apply T_loadFile |].
    intros r. destruct (r =? noFileLoaded); [apply T_exhausted |].
    eapply triple_bind; [apply T_iter_call |].
    intros [kv |]; [| exact IH].
    apply triple_ret. intros l' Hl'. apply J_answered; [exact Hl' | discriminate]. }
  destruct (rangeDelIterPtr l) as [[t |] |] eqn:Hp;
    destruct (LowerBound (tableOpts l)) as [lb |] eqn:Hu;
    try (exact (Hadv l Hl)).
  - refine (triple_weaken _ _ (T_pauseSmallest lb) _ _ (set_exhaustedDir (-1) l) _).
    + intros l' Hl'. exact Hl'.
    + intros r l' [Hl' _]. apply slotLive_answered. exact Hl'.
    + split; [apply (kept_exhaustedDir HJ); exact Hl |].
      unfold emitSyntheticBoundaries. simpl. rewrite Hp. reflexivity.
  - refine (triple_bind (T_iterFile_deref (slotLive J)) _ l _).
    + intros f.
      apply (triple_weaken _ _ (T_pauseSmallest _)); [auto |].
      intros r l' [Hl' _]. apply slotLive_answered. exact Hl'.
    + split; [exact Hl |].
      unfold emitSyntheticBoundaries. rewrite Hp. reflexivity.
  - apply J_answered; [| discriminate].
    apply (kept_exhaustedDir HJ). exact Hl.
Qed.

Lemma T_skipEmptyFileForward :
  triple J (skipEmptyFileForward invariants_Enabled cmp newIters) (answered J).
Proof. intros l Hl. apply T_skipEmptyFileForward_loop. exact Hl. Qed.

Lemma T_skipEmptyFileBackward :
  triple J (skipEmptyFileBackward invariants_Enabled cmp newIters) (answered J).
Proof. intros l Hl. apply T_skipEmptyFileBackward_loop. exact Hl. Qed.

Lemma T_verifyOrSkip (call : M L (option InternalKV)) (skip : M L (option kvPtr)) :
  triple J call (fun _ => J) -> triple J skip (answered J) ->
  triple J (verifyOrSkip invariants_Enabled cmp call skip) (answered J).
Proof.
  intros Hc Hs. unfold verifyOrSkip.
  eapply triple_bind; [exact Hc |].
  intros [kv |]; [apply T_verify_inner |].
  eapply triple_bind; [exact Hs |].
  intros r. apply T_verify.
Qed.

Lemma T_forward (call : M L (option InternalKV)) :
  triple J call (fun _ => J) ->
  triple J (verifyOrSkip invariants_Enabled cmp call
              (skipEmptyFileForward invariants_Enabled cmp newIters)) (answered J).
Proof. intros Hc. apply T_verifyOrSkip; [exact Hc | apply T_skipEmptyFileForward]. Qed.

Lemma T_backward (call : M L (option InternalKV)) :
  triple J call (fun _ => J) ->
  triple J (verifyOrSkip invariants_Enabled cmp call
              (skipEmptyFileBackward invariants_Enabled cmp newIters)) (answered J).
Proof. intros Hc. apply T_verifyOrSkip; [exact Hc | apply T_skipEmptyFileBackward]. Qed.

Lemma T_resetPosition : triple J (@resetPosition I F) (fun _ => J).
Proof.
  apply triple_modify. intros l Hl.
  apply (kept_exhaustedDir HJ), (kept_err_nil HJ). exact Hl.
Qed.

Lemma T_nil : triple J (ret (S := L) (@None kvPtr)) (answered J).
Proof.
  apply triple_ret. intros l Hl. apply J_answered; [exact Hl | discriminate].
Qed.

Lemma T_seekFile (k : bytes) (flags : SeekGEFlags) :
  okFlags flags ->
  triple J (seekFile cmp newIters k flags) (fun _ => J).
Proof.
  intros Hok. unfold seekFile.
  eapply triple_bind; [apply T_resetPosition |]. intros [].
  eapply triple_bind; [apply plain, T_findFileGE; exact Hok |]. intros m.
  eapply triple_bind; [apply T_loadFile |]. intros r.
  destruct (r =? noFileLoaded).
  - apply (triple_bind (R := fun _ => J)).
    + apply triple_modify. intros l Hl. apply (kept_exhaustedDir HJ). exact Hl.
    + intros []. apply triple_ret. auto.
  - apply triple_ret. auto.
Qed.

Lemma T_SeekGE (k : bytes) (flags : SeekGEFlags) :
  okFlags flags ->
  triple J (SeekGE invariants_Enabled cmp newIters k flags) (answered J).
Proof.
  intros Hok l Hl. unfold SeekGE.
  destruct (invariants_Enabled && _); [discriminate |].
  refine (triple_bind (T_seekFile k flags Hok) _ l Hl).
  intros [fl |]; [| apply T_nil].
  apply T_forward, T_iter_call.
Qed.

Lemma T_prefixMiss (prefix : bytes) :
  triple J (prefixMiss invariants_Enabled cmp split newIters prefix) (answered J).
Proof.
  unfold prefixMiss.
  eapply triple_bind; [apply T_iter_Error |].
  intros [e |]; [apply T_nil |].
  intros l Hl.
  destruct (emitSyntheticBoundaries l) eqn:He.
  - assert (Hs : (slotLive J) l) by (split; assumption).
    destruct (UpperBound (tableOpts l)) as [ub |].
    + refine (triple_bind (T_pauseLargest ub) _ l Hs).
      intros b. apply (triple_bind (R := fun _ => (answered J) b)).
      * apply triple_modify. intros l' [[Hl' He'] ->]. split.
        -- apply (kept_exhaustedDir HJ). exact Hl'.
        -- intros _. exact He'.
      * intros []. apply T_verify.
    + refine (triple_bind (T_iterFile_deref (slotLive J)) _ l Hs).
      intros f. eapply triple_bind; [apply T_pauseLargest |].
      intros b.
      apply (triple_weaken ((answered J) b) (answered J) (T_verify b)); [| auto].
      intros l' [Hl' _]. apply slotLive_answered. exact Hl'.
  - refine (triple_bind (T_iterFile_deref J) _ l Hl).
    intros f. cbv zeta.
    destruct (cmp prefix _ <? 0); [apply T_exhausted |].
    eapply triple_bind; [apply T_skipEmptyFileForward |].
    intros r. apply T_verify.
Qed.

Lemma T_SeekPrefixGE (prefix k : bytes) (flags : SeekGEFlags) :
  okFlags flags ->
  triple J (SeekPrefixGE invariants_Enabled cmp split newIters prefix k flags)
         (answered J).
Proof.
  intros Hok l Hl. unfold SeekPrefixGE.
  destruct (invariants_Enabled && _); [discriminate |].
  refine (triple_bind (T_seekFile k flags Hok) _ l Hl).
  intros [fl |]; [| apply T_nil].
  eapply triple_bind; [apply T_iter_call |].
  intros [kv |]; [apply T_verify_inner | apply T_prefixMiss].
Qed.

Lemma T_after_load (call : M L (option InternalKV)) (d : Z) (r : Z)
  (skip : M L (option kvPtr)) :
  triple J call (fun _ => J) -> triple J skip (answered J) ->
  triple J (if r =? noFileLoaded
            then modify (set_exhaustedDir d) ;; ret None
            else verifyOrSkip invariants_Enabled cmp call skip) (answered J).
Proof.
  intros Hc Hs. destruct (r =? noFileLoaded);
    [apply T_exhausted | apply T_verifyOrSkip; assumption].
Qed.

Lemma T_SeekLT (k : bytes) (flags : SeekLTFlags) :
  triple J (SeekLT invariants_Enabled cmp newIters k flags) (answered J).
Proof.
  intros l Hl. unfold SeekLT.
  destruct (invariants_Enabled && _); [discriminate |].
  refine (triple_bind T_resetPosition _ l Hl). intros [].
  eapply triple_bind; [apply plain, T_findFileLT |]. intros m.
  eapply triple_bind; [apply T_loadFile |]. intros r.
  apply T_after_load; [apply T_iter_call | apply T_skipEmptyFileBackward].
Qed.

Lemma T_First : triple J (First invariants_Enabled cmp newIters) (answered J).
Proof.
  intros l Hl. unfold First.
  destruct (invariants_Enabled && _); [discriminate |].
  refine (triple_bind T_resetPosition _ l Hl). intros [].
  eapply triple_bind; [apply plain, T_files_call |]. intros m.
  eapply triple_bind; [apply T_loadFile |]. intros r.
  apply T_after_load; [apply T_iter_call | apply T_skipEmptyFileForward].
Qed.

Lemma T_Last : triple J (Last invariants_Enabled cmp newIters) (answered J).
Proof.
  intros l Hl. unfold Last.
  destruct (invariants_Enabled && _); [discriminate |].
  refine (triple_bind T_resetPosition _ l Hl). intros [].
  eapply triple_bind; [apply plain, T_files_call |]. intros m.
  eapply triple_bind; [apply T_loadFile |]. intros r.
  apply T_after_load; [apply T_iter_call | apply T_skipEmptyFileBackward].
Qed.


Lemma T_after_load_neg (call : M L (option InternalKV)) (d : Z) (r : Z)
  (skip : M L (option kvPtr)) :
  triple J call (fun _ => J) -> triple J skip (answered J) ->
  triple J (if negb (r =? noFileLoaded)
            then verifyOrSkip invariants_Enabled cmp call skip
            else modify (set_exhaustedDir d) ;; ret None) (answered J).
Proof.
  intros Hc Hs. destruct (r =? noFileLoaded); simpl;
    [apply T_exhausted | apply T_verifyOrSkip; assumption].
Qed.

Lemma T_Next :
  okFlags SeekGEFlagsNone ->
  triple J (Next invariants_Enabled cmp newIters) (answered J).
Proof.
  intros Hok l Hl. unfold Next.
  destruct (exhaustedDir l =? -1).
  { destruct (lower l); [apply T_SeekGE | apply T_First]; assumption. }
  destruct (is_some (err l) || _).
  { apply J_answered; [exact Hl | discriminate]. }
  destruct (is_some (largestBoundary l)).
  - destruct (is_some (UpperBound (tableOpts l))).
    + apply J_answered; [| discriminate].
      apply (kept_exhaustedDir HJ), kept_store. exact Hl.
    + refine (triple_bind (plain _ (T_files_call _ _ _ _)) _ l Hl). intros m.
      eapply triple_bind; [apply T_loadFile |]. intros r.
      apply T_after_load_neg; [apply T_iter_call | apply T_skipEmptyFileForward].
  - refine (triple_bind (R := fun _ => J) _ _ l Hl).
    + apply triple_modify. intros l' Hl'.
      apply (kept_smallestBoundary HJ). exact Hl'.
    + intros []. apply T_forward, T_iter_call.
Qed.

Lemma T_Prev : triple J (Prev invariants_Enabled cmp newIters) (answered J).
Proof.
  intros l Hl. unfold Prev.
  destruct (exhaustedDir l =? 1).
  { destruct (upper l); [apply T_SeekLT | apply T_Last]; exact Hl. }
  destruct (is_some (err l) || _).
  { apply J_answered; [exact Hl | discriminate]. }
  destruct (is_some (smallestBoundary l)).
  - destruct (is_some (LowerBound (tableOpts l))).
    + apply J_answered; [| discriminate].
      apply (kept_exhaustedDir HJ), kept_store. exact Hl.
    + refine (triple_bind (plain _ (T_files_call _ _ _ _)) _ l Hl). intros m.
      eapply triple_bind; [apply T_loadFile |]. intros r.
      apply T_after_load_neg; [apply T_iter_call | apply T_skipEmptyFileBackward].
  - refine (triple_bind (R := fun _ => J) _ _ l Hl).
    + apply triple_modify. intros l' Hl'.
      apply (kept_largestBoundary HJ). exact Hl'.
    + intros []. apply T_backward, T_iter_call.
Qed.

Lemma T_NextPrefix (succKey : bytes) :
  okFlags (EnableRelativeSeek (EnableTrySeekUsingNext SeekGEFlagsNone)) ->
  triple J (NextPrefix invariants_Enabled cmp newIters succKey) (answered J).
Proof.
  intros Hok l Hl. unfold NextPrefix.
  destruct (is_some (err l) || _).
  { apply J_answered; [exact Hl | discriminate]. }
  cbv zeta.
  match goal with
  | |- context [if is_some (UpperBound _) then _ else ?m l] =>
    assert (Hseek : triple J m (answered J))
  end.
  { eapply triple_bind; [apply plain, T_findFileGE; exact Hok |]. intros m.
    eapply triple_bind; [apply T_loadFile |]. intros r.
    apply T_after_load_neg; [apply T_iter_call | apply T_skipEmptyFileForward]. }
  destruct (is_some (largestBoundary l)).
  - destruct (is_some (UpperBound (tableOpts l))).
    + apply J_answered; [| discriminate]. apply kept_store. exact Hl.
    + exact (Hseek l Hl).
  - refine (triple_bind (R := fun _ => J) _ _ l Hl).
    + apply triple_modify. intros l' Hl'.
      apply (kept_smallestBoundary HJ). exact Hl'.
    + intros []. eapply triple_bind; [apply T_iter_call |].
      intros [kv |]; [apply T_verify_inner |].
      eapply triple_bind; [apply T_iter_Error |].
      intros [e |]; [apply T_nil | exact Hseek].
Qed.

Lemma T_SetBounds (lo up : option bytes) :
  triple J (SetBounds cmp lo up) (fun _ => J).
Proof.
  unfold SetBounds. apply (triple_bind (R := fun _ => J)).
  { apply triple_modify. intros l Hl.
    apply (kept_upper HJ), (kept_lower HJ). exact Hl. }
  intros [] l Hl.
  destruct (iter l) as [it0 |]; [| exact Hl].
  refine (triple_bind (plain _ (T_initTableBounds _ _)) _ l Hl).
  intros r. destruct (negb (r =? 0)).
  - eapply triple_bind; [apply T_Close |].
    intros e. apply triple_ret. intros l' [Hl' _]. exact Hl'.
  - intros l' Hl'. destruct (iter l') as [it |] eqn:Hit; [| discriminate].
    apply (kept_iter HJ) with (it := it); assumption.
Qed.

(** Every call keeps a kept predicate and never fails the assertion of
    [makeSyntheticBoundary]; a synthetic boundary is only returned with a
    tombstone iterator in the slot. *)
Lemma T_run (c : call) :
  Forall okFlags (flagsOf c) ->
  triple J (run invariants_Enabled cmp split newIters c) (answered J).
Proof.
  intros Hok. destruct c; simpl in *.
  - apply T_SeekGE. inversion Hok; assumption.
  - apply T_SeekPrefixGE. inversion Hok; assumption.
  - apply T_SeekLT.
  - apply T_First.
  - apply T_Last.
  - apply T_Next. inversion Hok; assumption.
  - apply T_NextPrefix. inversion Hok; assumption.
  - apply T_Prev.
  - eapply triple_bind; [apply T_SetBounds | intros []; apply T_nil].
  - eapply triple_bind; [apply T_Close |].
    intros e. apply triple_ret. intros l [Hl _].
    apply J_answered; [exact Hl | discriminate].
Qed.

End Traversal.

(** ** Synthetic boundaries and closing *)

Section Guarded.

Context {I F : Type} {HI : InternalIterator I} {HF : FragmentIterator F}.
Variable invariants_Enabled : bool.
Variable cmp : Compare.
Variable split : Split.
Variable newIters : tableNewIters I F.

Local Abbreviation L := (levelIter I F).

Lemma kept_True : kept newIters (fun _ => True) (fun _ : L => True).
Proof. constructor; auto. Qed.

Lemma Forall_True (fl : list SeekGEFlags) : Forall (fun _ => True) fl.
Proof. induction fl; constructor; auto. Qed.

Lemma makeSyntheticBoundary_fails (userKey : bytes) (l : L) :
  makeSyntheticBoundary true userKey l = Panic AssertSyntheticBoundary
  <-> emitSyntheticBoundaries l = false.
Proof.
  unfold makeSyntheticBoundary. simpl.
  destruct (emitSyntheticBoundaries l); simpl; split; congruence.
Qed.

(** C2: no call on the level iterator fails the assertion inside
    [makeSyntheticBoundary], in a build with invariants or without; with
    invariants the constructor fails exactly when the slot is not registered
    or holds no tombstone iterator, so every call site constructs a boundary
    with a slot holding one; and a synthetic boundary is only ever returned
    with a tombstone iterator in the slot. *)
Theorem synthetic_boundary_needs_tombstones (c : call) (l : L) :
  run invariants_Enabled cmp split newIters c l <> Panic AssertSyntheticBoundary
  /\ (forall l',
        run invariants_Enabled cmp split newIters c l = Ok (Some SyntheticKV) l' ->
        exists t, rangeDelIterPtr l' = Some (Some t))
  /\ (forall userKey,
        makeSyntheticBoundary true userKey l = Panic AssertSyntheticBoundary
        <-> emitSyntheticBoundaries l = false).
Proof.
  pose proof (T_run invariants_Enabled cmp split newIters _ _ kept_True c
                     (Forall_True _) l Logic.I) as Hrun.
  split; [| split].
  - intros E. rewrite E in Hrun. apply Hrun. reflexivity.
  - intros l' E. rewrite E in Hrun. destruct Hrun as [_ He].
    specialize (He eq_refl). unfold emitSyntheticBoundaries in He.
    destruct (rangeDelIterPtr l') as [[t |] |]; try discriminate.
    exists t. reflexivity.
  - intros userKey. apply makeSyntheticBoundary_fails.
Qed.

Lemma closeInv_kept :
  kept newIters (fun _ => True) (closeInv (I := I) (F := F)).
Proof.
  constructor; unfold closeInv; simpl; intros; try tauto.
  - (* iter *) split; [| tauto].
    intros He. destruct H0 as [H0 _]. specialize (H0 He). congruence.
  - (* slot *) split; [tauto | discriminate].
  - (* closed *) unfold closed, Close.
    destruct H as [H1 H2].
    destruct (iter l) eqn:E1; simpl;
      destruct (rangeDelIterPtr l) eqn:E2; simpl;
      destruct (rangeDelIterCopy l) eqn:E3; simpl;
      try rewrite E1; try rewrite E2; try rewrite E3;
      split; try tauto; try discriminate; intros; try reflexivity;
      try (apply H2; reflexivity).
  - (* opened *) unfold opened, openTable.
    destruct H0 as [H1 H2].
    destruct (iterFile l); [| split; assumption].
    destruct (newIters _ _ _) as [iters [e |]]; simpl.
    + split; [intros _; exact H | exact H2].
    + destruct (rangeDelIterPtr l) eqn:E2; simpl.
      * split; [congruence | discriminate].
      * rewrite E2. split; [congruence | exact H2].
Qed.

Lemma closeInv_initial (lo up : option bytes) (fs : list fileMetadata)
  (slot : option (option F)) (state : option combinedIterStateT) :
  closeInv (initial (I := I) lo up fs slot state).
Proof. split; simpl; [congruence | reflexivity]. Qed.

Lemma closeInv_reaches (l0 l : L) :
  closeInv l0 -> reaches invariants_Enabled cmp split newIters l0 l -> closeInv l.
Proof.
  intros H0 Hr. induction Hr as [| c l l' r Hr IH Hrun]; [exact H0 |].
  pose proof (T_run invariants_Enabled cmp split newIters _ _ closeInv_kept c
                     (Forall_True _) l IH) as Ht.
  rewrite Hrun in Ht. exact (proj1 Ht).
Qed.

End Guarded.

Section CloseTwice.

Context {I F : Type} {HI : InternalIterator I} {HF : FragmentIterator F}.
Variable invariants_Enabled : bool.
Variable cmp : Compare.
Variable split : Split.
Variable newIters : tableNewIters I F.

Local Abbreviation L := (levelIter I F).

Lemma closed_again (l : L) :
  iter l = None -> rangeDelIterCopy l = None ->
  rangeDelIterPtr l = None \/ rangeDelIterPtr l = Some None ->
  closed l = l.
Proof.
  destruct l as [lo up topts sb lb syn cs it f ptr copy fl e ex dis tr].
  simpl. intros -> -> [-> | ->]; reflexivity.
Qed.

Lemma closed_fields (l : L) :
  closeInv l ->
  err (closed l)
  = firstError (firstError (err l) (pointCloseError l)) (rangeDelCloseError l)
  /\ rangeDelIterCopy (closed l) = None
  /\ rangeDelIterPtr (closed l) = slotHolding l None
  /\ trace (closed l) = (closeEvents l ++ trace l)%list.
Proof.
  intros [Herr Hcopy].
  destruct l as [lo up topts sb lb syn cs it f ptr copy fl e ex dis tr].
  unfold closed, Close, pointCloseError, rangeDelCloseError, closeEvents,
    slotHolding.
  simpl in *.
  destruct it as [it |]; simpl.
  - assert (He : e = None).
    { destruct e; [| reflexivity]. discriminate Herr. discriminate. }
    subst e. simpl.
    destruct ptr as [slot |]; simpl.
    + destruct copy as [t |]; simpl; destruct (iterClose it); simpl;
        repeat split; reflexivity.
    + rewrite (Hcopy eq_refl). simpl. destruct (iterClose it); simpl;
        repeat split; reflexivity.
  - destruct ptr as [slot |]; simpl.
    + destruct copy as [t |]; simpl; destruct e; simpl;
        repeat split; reflexivity.
    + rewrite (Hcopy eq_refl). simpl. destruct e; simpl;
        repeat split; reflexivity.
Qed.

Lemma Close_under_closeInv (l : L) :
  closeInv l ->
  exists l1,
    Close l
    = Ok (firstError (firstError (err l) (pointCloseError l))
                     (rangeDelCloseError l)) l1
    /\ err l1 = firstError (firstError (err l) (pointCloseError l))
                           (rangeDelCloseError l)
    /\ iter l1 = None /\ rangeDelIterCopy l1 = None
    /\ rangeDelIterPtr l1 = slotHolding l None
    /\ trace l1 = (closeEvents l ++ trace l)%list
    /\ Close l1 = Ok (err l1) l1.
Proof.
  intros Hinv.
  destruct (closed_fields l Hinv) as (He & Hc & Hp & Ht).
  exists (closed l).
  pose proof (closed_iter l) as Hi.
  split; [rewrite <- He; reflexivity |].
  split; [exact He |]. split; [exact Hi |]. split; [exact Hc |].
  split; [exact Hp |]. split; [exact Ht |].
  rewrite Close_closed.
  rewrite (closed_again (closed l) Hi Hc); [reflexivity |].
  rewrite Hp. unfold slotHolding.
  destruct (rangeDelIterPtr l); [right | left]; reflexivity.
Qed.

(** C8: in every state a level iterator reaches, [Close] closes the point
    iterator if one is open and the tombstone iterator held in the private
    copy if there is one, each once; it leaves no inner iterator, an empty
    slot and no copy; the error it returns and stores is the first of the
    error already stored, the failure of closing the point iterator and the
    failure of closing the tombstone iterator; and a second [Close] returns
    that same error and changes nothing, so it closes nothing again. *)
Theorem Close_first_error_wins_and_idempotent
  (lo up : option bytes) (fs : list fileMetadata) (slot : option (option F))
  (state : option combinedIterStateT) (l : L) :
  reaches invariants_Enabled cmp split newIters
          (initial lo up fs slot state) l ->
  exists e l1,
    e = firstError (firstError (err l) (pointCloseError l)) (rangeDelCloseError l)
    /\ Close l = Ok e l1
    /\ iter l1 = None /\ rangeDelIterCopy l1 = None
    /\ rangeDelIterPtr l1 = slotHolding l None
    /\ trace l1 = (closeEvents l ++ trace l)%list
    /\ Close l1 = Ok e l1.
Proof.
  intros Hr.
  destruct (Close_under_closeInv l) as (l1 & Hc & He & Hi & Hcp & Hp & Ht & Hc2).
  { apply (closeInv_reaches invariants_Enabled cmp split newIters _ l
             (closeInv_initial lo up fs slot state) Hr). }
  eexists. exists l1. split; [reflexivity |].
  split; [exact Hc |]. repeat (split; [assumption |]).
  rewrite Hc2, He. reflexivity.
Qed.

End CloseTwice.
Lemma Close_first_error_wins_and_idempotent_witness :
  exists l1,
    Sst.close DefaultCompare DefaultSplit Examples.failingOpen
    = Ok (Some "point close failed") l1
    /\ trace l1
       = (closeEvents Examples.failingOpen ++ trace Examples.failingOpen)%list
    /\ Sst.close DefaultCompare DefaultSplit l1
       = Ok (Some "point close failed") l1.
Proof.
  assert (Hr : reaches (HI := sstIterOps DefaultCompare DefaultSplit) true
                 DefaultCompare DefaultSplit
                 (sstNewIters Examples.failingStore)
                 (initial None None Examples.aceFile (Some None) None)
                 Examples.failingOpen).
  { apply (reaches_step (HI := sstIterOps DefaultCompare DefaultSplit)
             (CallSeekGE "a" SeekGEFlagsNone)
             (l := initial None None Examples.aceFile (Some None) None)
             (r := Some (InnerKV (Sst.kvOf "a"))));
      [apply reaches_refl | vm_compute; reflexivity]. }
  destruct (Close_first_error_wins_and_idempotent
              (HI := sstIterOps DefaultCompare DefaultSplit) true
              DefaultCompare DefaultSplit (sstNewIters Examples.failingStore)
              None None Examples.aceFile (Some None) None
              Examples.failingOpen Hr)
    as (e & l1 & He & Hc & _ & _ & _ & Ht & Hc2).
  exists l1. subst e. split; [exact Hc |]. split; [exact Ht | exact Hc2].
Defined.

Section FlagsPassed.

Context {I F : Type} {HI : InternalIterator I} {HF : FragmentIterator F}.
Variable invariants_Enabled : bool.
Variable cmp : Compare.
Variable split : Split.
Variable newIters : tableNewIters I F.

Local Abbreviation L := (levelIter I F).

Lemma flagsSince_kept (before : list (event I F)) (okFlags : SeekGEFlags -> Prop) :
  kept newIters okFlags (flagsSince before okFlags).
Proof.
  constructor; unfold flagsSince; simpl; intros; auto.
  - (* trace *) destruct H1 as [-> | Hin]; [right; eauto | auto].
  - (* closed *) apply H. revert H0. unfold closed, Close.
    destruct (iter l) eqn:E1; simpl;
      destruct (rangeDelIterPtr l) eqn:E2; simpl;
      destruct (rangeDelIterCopy l) eqn:E3; simpl;
      intros Hin; repeat (destruct Hin as [Hin | Hin]; [discriminate |]);
      exact Hin.
  - (* opened *) apply H0. revert H1. unfold opened, openTable.
    destruct (iterFile l); [| auto].
    destruct (newIters _ _ _) as [iters [e |]]; simpl.
    + intros [Hin | Hin]; [discriminate | exact Hin].
    + destruct (rangeDelIterPtr l); simpl;
        intros [Hin | Hin]; try discriminate; exact Hin.
Qed.

(** C5, as the code has it: an entry of [findFileGE] made by a call carries
    the flags the caller gave to [SeekGE] or [SeekPrefixGE], no flag for the
    restart of [Next], and both [TrySeekUsingNext] and [RelativeSeek] for
    [NextPrefix]; so both flags are set together only by [NextPrefix], or
    when the caller of a seek sets both. *)
Theorem findFileGE_flags_by_call (c : call) (l l' : L) (r : option kvPtr) :
  run invariants_Enabled cmp split newIters c l = Ok r l' ->
  forall k flags,
    In (EvFindFileGE k flags) (trace l') ->
    In (EvFindFileGE k flags) (trace l)
    \/ (In flags (flagsOf c)
        /\ (TrySeekUsingNext flags = true -> RelativeSeek flags = true ->
            (exists succKey, c = CallNextPrefix succKey)
            \/ (exists k', c = CallSeekGE k' flags)
            \/ (exists prefix k', c = CallSeekPrefixGE prefix k' flags))).
Proof.
  intros Hrun k flags Hin.
  pose proof (T_run invariants_Enabled cmp split newIters _ _
                (flagsSince_kept (trace l) (fun f => In f (flagsOf c))) c)
    as Ht.
  assert (Hall : Forall (fun f => In f (flagsOf c)) (flagsOf c))
    by (apply Forall_forall; auto).
  specialize (Ht Hall l (fun k f H => or_introl H)).
  rewrite Hrun in Ht. destruct Ht as [Hs _].
  destruct (Hs k flags Hin) as [Hold | Hnew]; [left; exact Hold |].
  right. split; [exact Hnew |].
  intros Ht Hr. destruct c; simpl in Hnew;
    try (destruct Hnew as [<- | []]); try contradiction.
  - right; left; eauto.
  - right; right; eauto.
  - discriminate Ht.
  - left; eauto.
Qed.

End FlagsPassed.

Lemma findFileGE_flags_by_call_witness :
  In (EvFindFileGE "d" (EnableRelativeSeek (EnableTrySeekUsingNext SeekGEFlagsNone)))
     (trace (Examples.stateOf Examples.nextPrefixFromC Examples.atC))
  /\ (In (EvFindFileGE "d"
            (EnableRelativeSeek (EnableTrySeekUsingNext SeekGEFlagsNone)))
         (trace Examples.atC)
      \/ In (EnableRelativeSeek (EnableTrySeekUsingNext SeekGEFlagsNone))
            (flagsOf (CallNextPrefix "d"))).
Proof.
  assert (Hin : In (EvFindFileGE "d"
                      (EnableRelativeSeek (EnableTrySeekUsingNext SeekGEFlagsNone)))
                   (trace (Examples.stateOf Examples.nextPrefixFromC Examples.atC))).
  { vm_compute. tauto. }
  split; [exact Hin |].
  assert (Hrun : run (HI := sstIterOps DefaultCompare DefaultSplit) true
                   DefaultCompare DefaultSplit (sstNewIters Examples.twoStore)
                   (CallNextPrefix "d") Examples.atC
                 = Ok (Some (InnerKV (Sst.kvOf "e")))
                      (Examples.stateOf Examples.nextPrefixFromC Examples.atC))
    by (vm_compute; reflexivity).
  destruct (findFileGE_flags_by_call
              (HI := sstIterOps DefaultCompare DefaultSplit) true
              DefaultCompare DefaultSplit (sstNewIters Examples.twoStore)
              (CallNextPrefix "d") Examples.atC
              (Examples.stateOf Examples.nextPrefixFromC Examples.atC)
              (Some (InnerKV (Sst.kvOf "e"))) Hrun _ _ Hin)
    as [Hold | [Hnew _]]; [left; exact Hold | right; exact Hnew].
Defined.

(** C5 as the specification words it fails: [NextPrefix], stepping off the
    first file, enters [findFileGE] with both flags set. *)
Lemma findFileGE_both_flags_counterexample :
  Sst.show Examples.nextPrefixFromC = Sst.Real "e"
  /\ exists flags,
       In (EvFindFileGE "d" flags)
          (trace (Examples.stateOf Examples.nextPrefixFromC Examples.atC))
       /\ ~ In (EvFindFileGE "d" flags) (trace Examples.atC)
       /\ TrySeekUsingNext flags = true /\ RelativeSeek flags = true.
Proof.
  split; [vm_compute; reflexivity |].
  exists (EnableRelativeSeek (EnableTrySeekUsingNext SeekGEFlagsNone)).
  split; [vm_compute; tauto |].
  split; [| split; reflexivity].
  vm_compute. intros H. repeat (destruct H as [H | H]; [discriminate |]).
  exact H.
Qed.

(** ** The steps of [findFileGE] under [TrySeekUsingNext] *)

Section TrySeekUsingNextSteps.

Context {I F : Type} {HI : InternalIterator I} {HF : FragmentIterator F}.
Variable cmp : Compare.

Local Abbreviation L := (levelIter I F).




Lemma files_call_run (line : Z) (c : filesCall)
  (f : LevelIterator -> option fileMetadata * LevelIterator) (l : L) :
  files_call line c f l
  = Ok (fst (f (files l)))
       (set_trace (EvFiles line c :: trace l) (set_files (snd (f (files l))) l)).
Proof. unfold files_call. destruct (f (files l)); reflexivity. Qed.

(** One turn of the loop of [findFileGE]. *)
Lemma findFileGE_loop_turn (fuel : nat) (k : bytes) (f : fileMetadata)
  (nis : bool) (nus : Z) (l : L) :
  findFileGE_loop cmp (S fuel) k (Some f) nis nus l
  = let l1 := if HasRangeKeys f
              then maybeTriggerCombinedIteration cmp (Some f) 1 l else l in
    if HasRangeKeys f && negb (HasPointKeys f) then
      (m' <- files_Next 358 ;; findFileGE_loop cmp fuel k m' nis nus) l1
    else if (HasRangeKeys f || nis)
            && (cmp (UserKey (LargestPointKey f)) k <? 0) then
      if nis && (nus =? 0) then
        (m' <- files_SeekGE cmp 382 k ;; findFileGE_loop cmp fuel k m' false nus) l1
      else
        (m' <- files_Next 387 ;;
         findFileGE_loop cmp fuel k m' nis
           (if nus >? 0 then nus - 1 else nus)) l1
    else if IsExclusiveSentinel (LargestPointKey f)
            && (cmp (UserKey (LargestPointKey f)) k =? 0) then
      (m' <- files_Next 402 ;; findFileGE_loop cmp fuel k m' nis nus) l1
    else Ok (Some f) l1.
Proof.
  cbn [findFileGE_loop]. unfold bind at 1.
  destruct (HasRangeKeys f), (HasPointKeys f), nis,
    (cmp (UserKey (LargestPointKey f)) k <? 0), (nus =? 0),
    (IsExclusiveSentinel (LargestPointKey f)),
    (cmp (UserKey (LargestPointKey f)) k =? 0); reflexivity.
Qed.






End TrySeekUsingNextSteps.



(** ** The default comparer is lawful *)

Lemma ascii_compare_refl (c : ascii) : Ascii.compare c c = Eq.
Proof. unfold Ascii.compare. apply N.compare_refl. Qed.

Lemma string_compare_refl (s : string) : String.compare s s = Eq.
Proof.
  induction s as [| c s IH]; simpl; [reflexivity |].
  rewrite ascii_compare_refl. exact IH.
Qed.

Lemma ascii_compare_eq (a b : ascii) : Ascii.compare a b = Eq -> a = b.
Proof. apply Ascii.compare_eq_iff. Qed.

Lemma ascii_compare_lt_trans (a b c : ascii) :
  Ascii.compare a b = Lt -> Ascii.compare b c = Lt -> Ascii.compare a c = Lt.
Proof.
  unfold Ascii.compare. rewrite !N.compare_lt_iff. apply N.lt_trans.
Qed.

(** [a <= b] for strings: the comparison is not [Gt]. *)
Lemma string_compare_le_trans (a : string) :
  forall b c,
    String.compare a b <> Gt -> String.compare b c <> Gt ->
    String.compare a c <> Gt.
Proof.
  induction a as [| x a IH]; intros b c Hab Hbc.
  - destruct c; simpl; discriminate.
  - destruct b as [| y b]; [simpl in Hab; congruence |].
    destruct c as [| z c]; [simpl in Hbc; congruence |].
    simpl in *.
    destruct (Ascii.compare x y) eqn:Exy; try congruence;
      destruct (Ascii.compare y z) eqn:Eyz; try congruence.
    + apply ascii_compare_eq in Exy, Eyz. subst.
      rewrite ascii_compare_refl. eapply IH; eassumption.
    + apply ascii_compare_eq in Exy. subst. rewrite Eyz. discriminate.
    + apply ascii_compare_eq in Eyz. subst. rewrite Exy. discriminate.
    + rewrite (ascii_compare_lt_trans _ _ _ Exy Eyz). discriminate.
Qed.

Lemma DefaultCompare_le (a b : bytes) :
  DefaultCompare a b <= 0 <-> String.compare a b <> Gt.
Proof.
  unfold DefaultCompare. destruct (String.compare a b); split; intros;
    try lia; try discriminate; congruence.
Qed.

Lemma substring_all (s : string) : substring 0 (String.length s) s = s.
Proof.
  induction s as [| c s IH]; simpl; [reflexivity |]. rewrite IH. reflexivity.
Qed.

Lemma DefaultComparer_laws : ComparerLaws DefaultCompare DefaultSplit.
Proof.
  constructor.
  - intros a. unfold DefaultCompare. rewrite string_compare_refl. reflexivity.
  - intros a b. unfold DefaultCompare.
    rewrite (String.compare_antisym a b).
    destruct (String.compare b a); simpl; split; lia.
  - intros a b c. rewrite !DefaultCompare_le. apply string_compare_le_trans.
  - intros a b. unfold prefixOf, DefaultSplit, slice_to.
    rewrite !substring_all. auto.
Qed.

(** ** Order lemmas *)

Section OrderLemmas.

Variable cmp : Compare.
Variable split : Split.
Hypothesis laws : ComparerLaws cmp split.

Lemma cmp_ge_le (a b : bytes) : cmp a b >= 0 <-> cmp b a <= 0.
Proof.
  pose proof (cmp_flip laws a b). pose proof (cmp_flip laws b a). lia.
Qed.

Lemma cmp_total (a b : bytes) : cmp a b <= 0 \/ cmp b a <= 0.
Proof. pose proof (cmp_ge_le a b). lia. Qed.

Lemma cmp_lt_le_trans (a b c : bytes) :
  cmp a b < 0 -> cmp b c <= 0 -> cmp a c < 0.
Proof.
  intros Hab Hbc.
  destruct (Z_lt_ge_dec (cmp a c) 0) as [H | H]; [exact H |].
  apply cmp_ge_le in H.
  pose proof (cmp_trans laws _ _ _ Hbc H) as Hba.
  apply cmp_ge_le in Hba. lia.
Qed.

Lemma cmp_le_lt_trans (a b c : bytes) :
  cmp a b <= 0 -> cmp b c < 0 -> cmp a c < 0.
Proof.
  intros Hab Hbc.
  destruct (Z_lt_ge_dec (cmp a c) 0) as [H | H]; [exact H |].
  apply cmp_ge_le in H.
  pose proof (cmp_trans laws _ _ _ H Hab) as Hcb.
  apply cmp_ge_le in Hcb. lia.
Qed.

Lemma LargestPointKey_le_fileLargest (f : fileMetadata) :
  HasPointKeys f = true ->
  cmp (UserKey (LargestPointKey f)) (fileLargestUser cmp f) <= 0.
Proof.
  intros Hp. unfold fileLargestUser. rewrite Hp. simpl.
  destruct (HasRangeKeys f).
  - destruct (cmp _ _ <? 0) eqn:E.
    + apply Z.ltb_lt in E. lia.
    + rewrite (cmp_refl laws). lia.
  - rewrite (cmp_refl laws). lia.
Qed.

Lemma fileSmallest_le_SmallestPointKey (f : fileMetadata) :
  HasPointKeys f = true ->
  cmp (fileSmallestUser cmp f) (UserKey (SmallestPointKey f)) <= 0.
Proof.
  intros Hp. unfold fileSmallestUser. rewrite Hp. simpl.
  destruct (HasRangeKeys f).
  - destruct (cmp _ _ <? 0) eqn:E.
    + apply Z.ltb_lt in E. lia.
    + rewrite (cmp_refl laws). lia.
  - rewrite (cmp_refl laws). lia.
Qed.

Lemma levelSorted_app (a b : list fileMetadata) :
  levelSorted cmp (a ++ b) ->
  levelSorted cmp a /\ levelSorted cmp b
  /\ forall f g, In f a -> In g b -> fileBefore cmp f g.
Proof.
  induction a as [| x a IH]; simpl.
  - intros Hb. split; [exact Logic.I | split; [exact Hb |]]. intros ? ? [].
  - intros [Hx Hab]. apply Forall_app in Hx. destruct Hx as [Hxa Hxb].
    destruct (IH Hab) as (Ha & Hb & Hcross).
    split; [split; assumption | split; [exact Hb |]].
    intros f0 g0 [<- | Hf] Hg.
    + rewrite Forall_forall in Hxb. auto.
    + auto.
Qed.

(** The point keys of a file after [f] in a sorted level are at or after
    the largest point key of [f]. *)
Lemma later_file_keys (f g : fileMetadata) (y : bytes) :
  fileBefore cmp f g -> HasPointKeys f = true -> HasPointKeys g = true ->
  cmp (UserKey (SmallestPointKey g)) y <= 0 ->
  cmp (UserKey (LargestPointKey f)) y <= 0.
Proof.
  intros [Hfg _] Hf Hg Hy.
  eapply (cmp_trans laws); [apply LargestPointKey_le_fileLargest; exact Hf |].
  eapply (cmp_trans laws); [exact Hfg |].
  eapply (cmp_trans laws); [apply fileSmallest_le_SmallestPointKey; exact Hg |].
  exact Hy.
Qed.

End OrderLemmas.

Section PrefixSeek.

Context {I F : Type} {HI : InternalIterator I} {HF : FragmentIterator F}.
Variable invariants_Enabled : bool.
Variable cmp : Compare.
Variable split : Split.
Variable newIters : tableNewIters I F.

Local Abbreviation L := (levelIter I F).


End PrefixSeek.


(** ** Noninterference of the trace and of combined iteration *)

Section Noninterference.

Context {I F : Type} {HI : InternalIterator I} {HF : FragmentIterator F}.
Variable invariants_Enabled : bool.
Variable cmp : Compare.
Variable split : Split.
Variable newIters : tableNewIters I F.

Local Abbreviation L := (levelIter I F).

Ltac sim_cases :=
  repeat match goal with
         | |- context [match ?x with _ => _ end] => destruct x
         end.

Ltac sim_open :=
  let a := fresh "a" in
  let b := fresh "b" in
  let H := fresh "H" in
  intros a b H;
  destruct a as [lo0 up0 topts0 sb0 lb0 syb0 cs0 it0 itf0 ptr0 cpy0 fls0 er0
                 ex0 di0 tr0];
  destruct b as [lo1 up1 topts1 sb1 lb1 syb1 cs1 it1 itf1 ptr1 cpy1 fls1 er1
                 ex1 di1 tr1];
  unfold sim, simF in H; simpl in H;
  decompose [and] H; clear H; subst.

Ltac sim_done :=
  simpl; unfold sim, simF; simpl;
  try solve [ tauto | intuition congruence | repeat split; reflexivity ].

Lemma sim_refl (a : L) : sim a a.
Proof. unfold sim, simF. tauto. Qed.



Lemma sim_trigger (file : option fileMetadata) (dir : Z) (l : L) :
  sim l (maybeTriggerCombinedIteration cmp file dir l).
Proof.
  pose proof (maybeTrigger_frame cmp file dir l) as H. simpl in H.
  unfold sim, simF. intuition congruence.
Qed.

Lemma sim_trace (tr : list (event I F)) (l : L) : sim l (set_trace tr l).
Proof. destruct l. unfold sim, simF. simpl. tauto. Qed.


Lemma agree_bind {A B : Type} (m1 m2 : M L A) (k1 k2 : A -> M L B) :
  agree m1 m2 -> (forall a, agree (k1 a) (k2 a)) ->
  agree (bind m1 k1) (bind m2 k2).
Proof.
  intros Hm Hk x y H. unfold bind. specialize (Hm x y H).
  unfold simOut in Hm.
  destruct (m1 x) as [a l | p |], (m2 y) as [b l' | q |]; try contradiction.
  - destruct Hm as [-> Hs]. apply Hk. exact Hs.
  - simpl. exact Hm.
  - exact Logic.I.
Qed.

Lemma respects_bind {A B : Type} (m : M L A) (k : A -> M L B) :
  respects m -> (forall a, respects (k a)) -> respects (bind m k).
Proof. apply agree_bind. Qed.


Lemma respects_gets {A : Type} (f : L -> A) :
  (forall a b, sim a b -> f a = f b) -> respects (gets f).
Proof. intros Hf x y H. simpl. auto. Qed.

Lemma respects_state {A : Type} (m : L -> M L A) :
  (forall a b, sim a b -> m a = m b) -> (forall a, respects (m a)) ->
  respects (fun l => m l l).
Proof. intros Hm Hr x y H. rewrite (Hm x y H). apply Hr. exact H. Qed.

Lemma respects_log (e f : event I F) :
  forall a b : L, sim a b -> simOut (log e a) (log f b).
Proof. sim_open. sim_done. Qed.













Lemma respects_verify (kv : option kvPtr) :
  respects (verify (I := I) (F := F) invariants_Enabled cmp kv).
Proof.
  sim_open. unfold verify, deref. simpl.
  destruct kv as [p |]; [| sim_done].
  destruct (invariants_Enabled && _); [| sim_done].
  sim_cases; sim_done.
Qed.





Lemma respects_verifyOrSkip (call : M L (option InternalKV))
  (skip : M L (option kvPtr)) :
  respects call -> respects skip ->
  respects (verifyOrSkip invariants_Enabled cmp call skip).
Proof.
  intros Hc Hs. unfold verifyOrSkip, verify_inner.
  apply respects_bind; [exact Hc |].
  intros [kv |]; [apply respects_verify |].
  apply respects_bind; [exact Hs | intros; apply respects_verify].
Qed.


End Noninterference.

(** ** The file found by [findFileGE] *)

Section FindIndex.

Context {A : Type}.
Variable p : A -> bool.

Lemma find_index_le (l : list A) : (find_index p l <= List.length l)%nat.
Proof. induction l as [| x l IH]; simpl; [lia |]. destruct (p x); lia. Qed.

Lemma find_index_before (l : list A) (j : nat) (x : A) :
  (j < find_index p l)%nat -> nth_error l j = Some x -> p x = false.
Proof.
  revert j. induction l as [| y l IH]; simpl; intros j Hj Hx; [lia |].
  destruct (p y) eqn:E; [lia |].
  destruct j as [| j]; simpl in Hx.
  - congruence.
  - apply (IH j); [lia | exact Hx].
Qed.

Lemma find_index_at (l : list A) (x : A) :
  nth_error l (find_index p l) = Some x -> p x = true.
Proof.
  induction l as [| y l IH]; simpl; [discriminate |].
  destruct (p y) eqn:E; simpl; [congruence | exact IH].
Qed.

End FindIndex.

Section Cursor.

Variable cmp : Compare.
Variable split : Split.
Variable fs : list fileMetadata.
Hypothesis laws : ComparerLaws cmp split.
Hypothesis Hsorted : levelSorted cmp fs.
Hypothesis Hwf : Forall (wfFile cmp) fs.

Local Abbreviation n := (Z.of_nat (List.length fs)).

Lemma fileAt_nth (j : Z) :
  0 <= j -> fileAt fs j = nth_error fs (Z.to_nat j).
Proof.
  intros Hj. unfold fileAt, li_at. simpl.
  destruct (j <? 0) eqn:E; [apply Z.ltb_lt in E; lia | reflexivity].
Qed.

Lemma fileAt_In (j : Z) (f : fileMetadata) :
  fileAt fs j = Some f -> In f fs /\ 0 <= j < n.
Proof.
  unfold fileAt, li_at. simpl. destruct (j <? 0) eqn:E; [discriminate |].
  apply Z.ltb_ge in E. intros H. split; [eapply nth_error_In; exact H |].
  assert (Hs : nth_error fs (Z.to_nat j) <> None) by congruence.
  apply nth_error_Some in Hs. lia.
Qed.

Lemma fileAt_Some (j : Z) :
  0 <= j < n -> exists f, fileAt fs j = Some f.
Proof.
  intros Hj. rewrite fileAt_nth by lia.
  destruct (nth_error fs (Z.to_nat j)) as [f |] eqn:E; [eauto |].
  apply nth_error_None in E. lia.
Qed.

Lemma fileAt_None (j : Z) : 0 <= j <= n -> fileAt fs j = None -> j = n.
Proof.
  intros Hj H. destruct (Z.eq_dec j n) as [-> | Hne]; [reflexivity |].
  destruct (fileAt_Some j) as [f Hf]; [lia | congruence].
Qed.

Lemma fileAt_end : fileAt fs n = None.
Proof.
  destruct (fileAt fs n) as [f |] eqn:E; [| reflexivity].
  apply fileAt_In in E. lia.
Qed.

Lemma fileAt_wf (j : Z) (f : fileMetadata) :
  fileAt fs j = Some f -> wfFile cmp f.
Proof.
  intros H. apply fileAt_In in H. rewrite Forall_forall in Hwf.
  apply Hwf, H.
Qed.

Lemma fileAt_before (i j : Z) (f g : fileMetadata) :
  0 <= i < j -> fileAt fs i = Some f -> fileAt fs j = Some g ->
  fileBefore cmp f g.
Proof.
  intros Hij Hf Hg.
  rewrite fileAt_nth in Hf by lia. rewrite fileAt_nth in Hg by lia.
  destruct (nth_error_split _ _ Hf) as (a & b & Hfs & Hlen).
  pose proof Hsorted as Hs. rewrite Hfs in Hs.
  apply (levelSorted_app cmp) in Hs.
  destruct Hs as (_ & Hs & _). simpl in Hs. destruct Hs as [Hall _].
  rewrite Forall_forall in Hall. apply Hall.
  rewrite Hfs in Hg.
  rewrite nth_error_app2 in Hg by lia.
  replace (Z.to_nat j - List.length a)%nat
    with (S (Z.to_nat j - List.length a - 1)) in Hg by lia.
  simpl in Hg. eapply nth_error_In. exact Hg.
Qed.

Lemma firstGood_unique (k : bytes) (g1 g2 : Z) :
  firstGood cmp fs k g1 -> firstGood cmp fs k g2 -> g1 = g2.
Proof.
  intros (R1 & B1 & A1) (R2 & B2 & A2).
  destruct (Z.lt_trichotomy g1 g2) as [H | [H | H]]; [| exact H |].
  - destruct (fileAt_Some g1) as [f Hf]; [lia |].
    pose proof (A1 f Hf). pose proof (B2 g1 f (conj (proj1 R1) H) Hf).
    congruence.
  - destruct (fileAt_Some g2) as [f Hf]; [lia |].
    pose proof (A2 f Hf). pose proof (B1 g2 f (conj (proj1 R2) H) Hf).
    congruence.
Qed.

Lemma li_Next_at (i : Z) :
  -1 <= i < n -> li_Next (cursorAt fs i) = (fileAt fs (i + 1), cursorAt fs (i + 1)).
Proof.
  intros Hi. unfold li_Next, li_move, li_len, fileAt, cursorAt. simpl.
  rewrite Z.min_l by lia. reflexivity.
Qed.

Lemma li_Next_end : li_Next (cursorAt fs n) = (None, cursorAt fs n).
Proof.
  unfold li_Next, li_move, li_len, cursorAt. simpl.
  rewrite Z.min_r by lia. f_equal. apply fileAt_end.
Qed.

Lemma li_First_at : li_First (cursorAt fs (-1)) = (fileAt fs 0, cursorAt fs 0).
Proof. reflexivity. Qed.

Lemma cursor_eta (c : LevelIterator) :
  lfiles c = fs -> c = cursorAt fs (lpos c).
Proof. destruct c. simpl. intros ->. reflexivity. Qed.

Lemma li_SeekGE_at (k : bytes) (i : Z) :
  li_SeekGE cmp k (cursorAt fs i)
  = (fileAt fs (seekIndex cmp fs k), cursorAt fs (seekIndex cmp fs k)).
Proof. reflexivity. Qed.

Lemma seekIndex_range (k : bytes) : 0 <= seekIndex cmp fs k <= n.
Proof.
  unfold seekIndex.
  pose proof (find_index_le (fun f => cmp (fileLargestUser cmp f) k >=? 0) fs).
  lia.
Qed.

Lemma seekIndex_before (k : bytes) (j : Z) (f : fileMetadata) :
  0 <= j < seekIndex cmp fs k -> fileAt fs j = Some f -> good cmp k f = false.
Proof.
  intros Hj Hf. rewrite fileAt_nth in Hf by lia.
  assert (H : (cmp (fileLargestUser cmp f) k >=? 0) = false).
  { apply (find_index_before (fun f => cmp (fileLargestUser cmp f) k >=? 0)
             fs (Z.to_nat j) f); [unfold seekIndex in Hj; lia | exact Hf]. }
  unfold good. destruct (HasPointKeys f) eqn:Hp; [| reflexivity].
  assert (Hlt : cmp (UserKey (LargestPointKey f)) k < 0).
  { eapply (cmp_le_lt_trans cmp split laws).
    - apply (LargestPointKey_le_fileLargest cmp split laws). exact Hp.
    - destruct (Z.geb_spec (cmp (fileLargestUser cmp f) k) 0); [discriminate | lia]. }
  apply Z.ltb_lt in Hlt. rewrite Hlt. reflexivity.
Qed.

Lemma fileLargest_noRangeKeys (f : fileMetadata) :
  HasRangeKeys f = false ->
  fileLargestUser cmp f = UserKey (LargestPointKey f).
Proof.
  intros H. unfold fileLargestUser. rewrite H, andb_false_r. reflexivity.
Qed.

Lemma fileSmallest_noRangeKeys (f : fileMetadata) :
  HasRangeKeys f = false ->
  fileSmallestUser cmp f = UserKey (SmallestPointKey f).
Proof.
  intros H. unfold fileSmallestUser. rewrite H, andb_false_r. reflexivity.
Qed.

(** From where the cursor lands on, the files without range keys end at or
    after the key sought. *)
Lemma seekIndex_after (k : bytes) (j : Z) (f : fileMetadata) :
  seekIndex cmp fs k <= j -> fileAt fs j = Some f -> HasRangeKeys f = false ->
  cmp (UserKey (LargestPointKey f)) k >= 0.
Proof.
  intros Hj Hf Hr.
  pose proof (seekIndex_range k) as Hrange.
  pose proof (fileAt_In _ _ Hf) as [_ Hjn].
  destruct (fileAt_Some (seekIndex cmp fs k)) as [g Hg]; [lia |].
  assert (Hgk : cmp (fileLargestUser cmp g) k >= 0).
  { rewrite fileAt_nth in Hg by lia. unfold seekIndex in Hg.
    rewrite Nat2Z.id in Hg.
    apply (find_index_at (fun f => cmp (fileLargestUser cmp f) k >=? 0)) in Hg.
    destruct (Z.geb_spec (cmp (fileLargestUser cmp g) k) 0); [lia | discriminate]. }
  destruct (Z.eq_dec j (seekIndex cmp fs k)) as [-> | Hne].
  - assert (g = f) by congruence. subst g.
    rewrite (fileLargest_noRangeKeys f Hr) in Hgk. exact Hgk.
  - assert (Hb : fileBefore cmp g f).
    { apply (fileAt_before (seekIndex cmp fs k) j); [lia | exact Hg | exact Hf]. }
    destruct Hb as [Hb _]. rewrite (fileSmallest_noRangeKeys f Hr) in Hb.
    destruct (fileAt_wf _ _ Hf) as (Hk & Hpk & _).
    assert (Hp : HasPointKeys f = true) by (destruct Hk; congruence).
    apply (cmp_ge_le cmp split laws).
    apply (cmp_ge_le cmp split laws) in Hgk.
    eapply (cmp_trans laws); [exact Hgk |].
    eapply (cmp_trans laws); [exact Hb | exact (Hpk Hp)].
Qed.

End Cursor.

Section FindFileGE.

Context {I F : Type} {HI : InternalIterator I} {HF : FragmentIterator F}.
Variable cmp : Compare.
Variable split : Split.
Variable fs : list fileMetadata.
Hypothesis laws : ComparerLaws cmp split.
Hypothesis Hsorted : levelSorted cmp fs.
Hypothesis Hwf : Forall (wfFile cmp) fs.

Local Abbreviation L := (levelIter I F).
Local Abbreviation n := (Z.of_nat (List.length fs)).

Lemma simF_refl (a : L) : simF a a.
Proof. unfold simF. tauto. Qed.

Lemma simF_trans (a b c : L) : simF a b -> simF b c -> simF a c.
Proof. unfold simF. intuition congruence. Qed.

Lemma simF_sym (a b : L) : simF a b -> simF b a.
Proof. unfold simF. intuition congruence. Qed.

Lemma simF_moved (tr : list (event I F)) (c : LevelIterator) (l : L) :
  simF l (set_trace tr (set_files c l)).
Proof. destruct l. unfold simF. simpl. tauto. Qed.

Lemma simF_trigger_if (f : fileMetadata) (l : L) :
  simF l (if HasRangeKeys f
          then maybeTriggerCombinedIteration cmp (Some f) 1 l else l).
Proof.
  destruct (HasRangeKeys f); [| apply simF_refl].
  apply (sim_trigger cmp (Some f) 1 l).
Qed.

Lemma files_trigger_if (f : fileMetadata) (l : L) :
  files (if HasRangeKeys f
         then maybeTriggerCombinedIteration cmp (Some f) 1 l else l)
  = files l.
Proof.
  destruct (HasRangeKeys f); [| reflexivity].
  apply (maybeTrigger_frame cmp (Some f) 1 l).
Qed.

Lemma foundFrom_step (k : bytes) (l l1 : L) o :
  simF l l1 -> foundFrom cmp fs k l1 o -> foundFrom cmp fs k l o.
Proof.
  intros Hs (g & l' & Ho & Hg & Hs' & Hf).
  exists g, l'. split; [exact Ho |]. split; [exact Hg |].
  split; [eapply simF_trans; eassumption | exact Hf].
Qed.

Lemma good_noPoints (k : bytes) (f : fileMetadata) :
  HasPointKeys f = false -> good cmp k f = false.
Proof. unfold good. intros ->. reflexivity. Qed.

Lemma good_below (k : bytes) (f : fileMetadata) :
  (cmp (UserKey (LargestPointKey f)) k <? 0) = true -> good cmp k f = false.
Proof. unfold good. intros ->. destruct (HasPointKeys f); reflexivity. Qed.

Lemma good_sentinel (k : bytes) (f : fileMetadata) :
  IsExclusiveSentinel (LargestPointKey f)
  && (cmp (UserKey (LargestPointKey f)) k =? 0) = true ->
  good cmp k f = false.
Proof.
  unfold good. intros ->.
  destruct (HasPointKeys f), (cmp (UserKey (LargestPointKey f)) k <? 0);
    reflexivity.
Qed.

Lemma good_false_extend (k : bytes) (i : Z) (f : fileMetadata) :
  (forall j f, 0 <= j < i -> fileAt fs j = Some f -> good cmp k f = false) ->
  fileAt fs i = Some f -> good cmp k f = false ->
  forall j f, 0 <= j < i + 1 -> fileAt fs j = Some f -> good cmp k f = false.
Proof.
  intros Hb Hf Hg j f' Hj Hf'.
  destruct (Z.eq_dec j i) as [-> | Hne].
  - congruence.
  - apply (Hb j); [lia | exact Hf'].
Qed.

(** Without [nextInsteadOfSeek], from a position at or after the one the
    cursor sought. *)
Lemma findFileGE_loop_seeks (k : bytes) (fuel : nat) :
  forall (nus i : Z) (l : L),
    files l = cursorAt fs i -> 0 <= i <= n ->
    (forall j f, 0 <= j < i -> fileAt fs j = Some f -> good cmp k f = false) ->
    (forall j f, i <= j -> fileAt fs j = Some f -> HasRangeKeys f = false ->
                 cmp (UserKey (LargestPointKey f)) k >= 0) ->
    n - i < Z.of_nat fuel ->
    foundFrom cmp fs k l (findFileGE_loop cmp fuel k (fileAt fs i) false nus l).
Proof.
  induction fuel as [| fuel IH]; intros nus i l Hfiles Hi Hbefore Hafter Hfuel;
    [lia |].
  destruct (fileAt fs i) as [f |] eqn:Ef.
  - pose proof (fileAt_In fs _ _ Ef) as [_ Hin].
    pose proof (fileAt_wf cmp fs Hwf _ _ Ef) as (Hkinds & _).
    rewrite findFileGE_loop_turn. cbv zeta.
    pose proof (simF_trigger_if f l) as Hs1.
    pose proof (files_trigger_if f l) as Hf1.
    set (l1 := if HasRangeKeys f
               then maybeTriggerCombinedIteration cmp (Some f) 1 l else l) in *.
    rewrite Hfiles in Hf1.
    assert (Hnext : forall line nus',
      good cmp k f = false ->
      foundFrom cmp fs k l
        ((m' <- files_Next line ;; findFileGE_loop cmp fuel k m' false nus') l1)).
    { intros line nus' Hng. unfold bind, files_Next. rewrite files_call_run.
      rewrite Hf1, li_Next_at by lia. simpl fst. simpl snd.
      eapply foundFrom_step;
        [eapply simF_trans; [exact Hs1 | apply simF_moved] |].
      apply IH.
      - reflexivity.
      - lia.
      - eapply good_false_extend; eassumption.
      - intros j f' Hj. apply Hafter. lia.
      - lia. }
    destruct (HasRangeKeys f && negb (HasPointKeys f)) eqn:C1.
    { apply Hnext. apply good_noPoints. apply andb_true_iff in C1.
      destruct C1 as [_ C1]. apply negb_true_iff in C1. exact C1. }
    rewrite orb_false_r.
    destruct (HasRangeKeys f && (cmp (UserKey (LargestPointKey f)) k <? 0))
      eqn:C2.
    { simpl. apply Hnext. apply good_below. apply andb_true_iff in C2.
      apply C2. }
    destruct (IsExclusiveSentinel (LargestPointKey f)
              && (cmp (UserKey (LargestPointKey f)) k =? 0)) eqn:C3.
    { apply Hnext. apply good_sentinel. exact C3. }
    exists i, l1. split; [rewrite Ef; reflexivity |].
    split; [| split; assumption].
    split; [lia |]. split; [exact Hbefore |].
    intros f' Hf'. assert (f' = f) by congruence. subst f'.
    unfold good. rewrite C3.
    destruct (HasRangeKeys f) eqn:Hr; simpl in C1, C2.
    + apply negb_false_iff in C1. rewrite C1, C2. reflexivity.
    + assert (Hp : HasPointKeys f = true) by (destruct Hkinds; congruence).
      rewrite Hp. specialize (Hafter i f (Z.le_refl i) Ef Hr).
      destruct (Z.ltb_spec (cmp (UserKey (LargestPointKey f)) k) 0);
        [lia | reflexivity].
  - assert (i = n) by (apply fileAt_None; assumption). subst i.
    exists n, l. simpl. rewrite Ef.
    split; [reflexivity |]. split; [| split; [apply simF_refl | exact Hfiles]].
    split; [lia |]. split; [exact Hbefore |]. intros f Hf. congruence.
Qed.

(** With [nextInsteadOfSeek], from the current file. *)
Lemma findFileGE_loop_steps (k : bytes) (fuel : nat) :
  forall (nus i : Z) (l : L),
    files l = cursorAt fs i -> 0 <= i <= n ->
    (forall j f, 0 <= j < i -> fileAt fs j = Some f -> good cmp k f = false) ->
    (n - i) + n + 1 < Z.of_nat fuel ->
    foundFrom cmp fs k l (findFileGE_loop cmp fuel k (fileAt fs i) true nus l).
Proof.
  induction fuel as [| fuel IH]; intros nus i l Hfiles Hi Hbefore Hfuel;
    [lia |].
  destruct (fileAt fs i) as [f |] eqn:Ef.
  - pose proof (fileAt_In fs _ _ Ef) as [_ Hin].
    pose proof (fileAt_wf cmp fs Hwf _ _ Ef) as (Hkinds & _).
    rewrite findFileGE_loop_turn. cbv zeta.
    pose proof (simF_trigger_if f l) as Hs1.
    pose proof (files_trigger_if f l) as Hf1.
    set (l1 := if HasRangeKeys f
               then maybeTriggerCombinedIteration cmp (Some f) 1 l else l) in *.
    rewrite Hfiles in Hf1.
    assert (Hnext : forall line nus',
      good cmp k f = false ->
      foundFrom cmp fs k l
        ((m' <- files_Next line ;; findFileGE_loop cmp fuel k m' true nus') l1)).
    { intros line nus' Hng. unfold bind, files_Next. rewrite files_call_run.
      rewrite Hf1, li_Next_at by lia. simpl fst. simpl snd.
      eapply foundFrom_step;
        [eapply simF_trans; [exact Hs1 | apply simF_moved] |].
      apply IH.
      - reflexivity.
      - lia.
      - eapply good_false_extend; eassumption.
      - lia. }
    destruct (HasRangeKeys f && negb (HasPointKeys f)) eqn:C1.
    { apply Hnext. apply good_noPoints. apply andb_true_iff in C1.
      destruct C1 as [_ C1]. apply negb_true_iff in C1. exact C1. }
    rewrite orb_true_r. rewrite andb_true_l. rewrite andb_true_l.
    destruct (cmp (UserKey (LargestPointKey f)) k <? 0) eqn:C2.
    { assert (Hng : good cmp k f = false) by (apply good_below; exact C2).
      destruct (nus =? 0).
      - unfold bind, files_SeekGE. rewrite files_call_run.
        rewrite Hf1, li_SeekGE_at. simpl fst. simpl snd.
        eapply foundFrom_step;
          [eapply simF_trans; [exact Hs1 | apply simF_moved] |].
        pose proof (seekIndex_range cmp fs k).
        apply findFileGE_loop_seeks.
        + reflexivity.
        + assumption.
        + apply (seekIndex_before cmp split fs laws).
        + apply (seekIndex_after cmp split fs laws Hsorted Hwf).
        + lia.
      - apply Hnext. exact Hng. }
    destruct (IsExclusiveSentinel (LargestPointKey f)
              && (cmp (UserKey (LargestPointKey f)) k =? 0)) eqn:C3.
    { apply Hnext. apply good_sentinel. exact C3. }
    exists i, l1. split; [rewrite Ef; reflexivity |].
    split; [| split; assumption].
    split; [lia |]. split; [exact Hbefore |].
    intros f' Hf'. assert (f' = f) by congruence. subst f'.
    unfold good. rewrite C3, C2.
    destruct (HasPointKeys f) eqn:Hp; [reflexivity |].
    destruct Hkinds as [Hk | Hk]; [congruence |].
    rewrite Hk in C1. discriminate.
  - assert (i = n) by (apply fileAt_None; assumption). subst i.
    exists n, l. simpl. rewrite Ef.
    split; [reflexivity |]. split; [| split; [apply simF_refl | exact Hfiles]].
    split; [lia |]. split; [exact Hbefore |]. intros f Hf. congruence.
Qed.

End FindFileGE.

Section FindFileGEFlags.

Context {I F : Type} {HI : InternalIterator I} {HF : FragmentIterator F}.
Variable cmp : Compare.
Variable split : Split.
Variable fs : list fileMetadata.
Hypothesis laws : ComparerLaws cmp split.
Hypothesis Hsorted : levelSorted cmp fs.
Hypothesis Hwf : Forall (wfFile cmp) fs.

Local Abbreviation L := (levelIter I F).
Local Abbreviation n := (Z.of_nat (List.length fs)).

Lemma loopFuel_level (l : L) :
  lfiles (files l) = fs -> Z.of_nat (loopFuel l) = 2 * n + 4.
Proof. unfold loopFuel. intros ->. lia. Qed.

Lemma findFileGE_none (k : bytes) (i : Z) (l : L) :
  files l = cursorAt fs i ->
  foundFrom cmp fs k l (findFileGE cmp k SeekGEFlagsNone l).
Proof.
  intros Hfiles.
  unfold findFileGE, bind, log, modify.
  change (TrySeekUsingNext SeekGEFlagsNone) with false.
  change (RelativeSeek SeekGEFlagsNone) with false.
  cbv beta iota. cbn [orb andb].
  unfold files_SeekGE. rewrite files_call_run.
  set (l0 := set_trace (EvFindFileGE k SeekGEFlagsNone :: trace l) l).
  assert (Hf0 : files l0 = cursorAt fs i) by (destruct l; exact Hfiles).
  rewrite Hf0, li_SeekGE_at. simpl fst. simpl snd.
  pose proof (seekIndex_range cmp fs k).
  match goal with
  | |- foundFrom _ _ _ _ (findFileGE_loop _ _ _ _ _ _ ?s) =>
    apply (foundFrom_step cmp fs k l s)
  end.
  { destruct l. unfold simF. simpl. tauto. }
  apply findFileGE_loop_seeks; try assumption.
  - reflexivity.
  - apply (seekIndex_before cmp split fs laws).
  - apply (seekIndex_after cmp split fs laws Hsorted Hwf).
  - rewrite loopFuel_level by (rewrite Hf0; reflexivity). lia.
Qed.

Lemma findFileGE_trySeekUsingNext (k : bytes) (i : Z) (l : L) :
  files l = cursorAt fs i -> 0 <= i <= n -> iterFile l = fileAt fs i ->
  (forall j f, 0 <= j < i -> fileAt fs j = Some f -> good cmp k f = false) ->
  foundFrom cmp fs k l
    (findFileGE cmp k (EnableTrySeekUsingNext SeekGEFlagsNone) l).
Proof.
  intros Hfiles Hi Hsync Hbefore.
  unfold findFileGE, bind, log, modify.
  change (TrySeekUsingNext (EnableTrySeekUsingNext SeekGEFlagsNone)) with true.
  change (RelativeSeek (EnableTrySeekUsingNext SeekGEFlagsNone)) with false.
  cbv beta iota. cbn [orb andb].
  unfold gets.
  set (l0 := set_trace _ l).
  assert (Hf0 : files l0 = cursorAt fs i) by (destruct l; exact Hfiles).
  assert (Hi0 : iterFile l0 = fileAt fs i) by (destruct l; exact Hsync).
  rewrite Hi0.
  apply (foundFrom_step cmp fs k l l0).
  { destruct l. unfold simF. simpl. tauto. }
  apply (findFileGE_loop_steps cmp split fs laws Hsorted Hwf);
    try assumption.
  rewrite loopFuel_level by (rewrite Hf0; reflexivity). lia.
Qed.

(** With and without [TrySeekUsingNext], [findFileGE] finds the same file
    and leaves similar states. *)
Lemma findFileGE_flags_agree (k : bytes) (i : Z) (l : L) :
  files l = cursorAt fs i -> 0 <= i <= n -> iterFile l = fileAt fs i ->
  (forall j f, 0 <= j < i -> fileAt fs j = Some f -> good cmp k f = false) ->
  exists m l1 l2,
    findFileGE cmp k (EnableTrySeekUsingNext SeekGEFlagsNone) l = Ok m l1
    /\ findFileGE cmp k SeekGEFlagsNone l = Ok m l2
    /\ sim l1 l2.
Proof.
  intros Hfiles Hi Hsync Hbefore.
  destruct (findFileGE_trySeekUsingNext k i l Hfiles Hi Hsync Hbefore)
    as (g1 & l1 & E1 & G1 & S1 & F1).
  destruct (findFileGE_none k i l Hfiles) as (g2 & l2 & E2 & G2 & S2 & F2).
  assert (g2 = g1) by (eapply (firstGood_unique cmp fs); eassumption).
  subst g2. exists (fileAt fs g1), l1, l2.
  split; [exact E1 |]. split; [exact E2 |].
  split; [| congruence].
  eapply simF_trans; [apply simF_sym; exact S1 | exact S2].
Qed.

End FindFileGEFlags.

(** ** [loadFile] forward over a well-formed level *)

Section TriggerShape.

Context {I F : Type}.
Variable cmp : Compare.

(** [maybeTriggerCombinedIteration] writes the state of combined iteration
    only. *)
Lemma maybeTrigger_shape (file : option fileMetadata) (dir : Z)
  (l : levelIter I F) :
  maybeTriggerCombinedIteration cmp file dir l
  = set_combinedIterState
      (combinedIterState (maybeTriggerCombinedIteration cmp file dir l)) l.
Proof.
  destruct l as [lo up topts sb lb syb cst it itf ptr cpy fls er ex di tr].
  unfold maybeTriggerCombinedIteration. simpl.
  destruct file as [f |]; [| reflexivity].
  destruct cst as [cs |]; [| reflexivity].
  repeat match goal with
         | |- context [if ?b then _ else _] => destruct b
         end; reflexivity.
Qed.

End TriggerShape.

Section LoadForward.

Variable cmp : Compare.
Variable split : Split.
Variable fs : list fileMetadata.
Variable store : tableStore.
Hypothesis laws : ComparerLaws cmp split.
Hypothesis Hlevel : levelOK cmp fs.
Hypothesis Hstore : storeOK cmp fs store.

Local Abbreviation n := (Z.of_nat (List.length fs)).
Local Abbreviation HIc := (sstIterOps cmp split).
Local Abbreviation nI := (sstNewIters store).

Lemma level_sorted : levelSorted cmp fs.
Proof. apply Hlevel. Qed.

Lemma level_wf : Forall (wfFile cmp) fs.
Proof. apply Hlevel. Qed.

Lemma level_NoDup : NoDup (map FileNum fs).
Proof. apply Hlevel. Qed.

(** Two files of the level with the same number are the same file. *)
Lemma same_file (f g : fileMetadata) :
  In f fs -> In g fs -> FileNum f = FileNum g -> f = g.
Proof.
  pose proof level_NoDup as Hnd. revert Hnd. clear.
  induction fs as [| x r IH]; simpl; [tauto |].
  intros Hnd Hf Hg He. inversion Hnd as [| ? ? Hx Hr]. subst.
  destruct Hf as [<- | Hf], Hg as [<- | Hg].
  - reflexivity.
  - exfalso. apply Hx. rewrite He. apply in_map. exact Hg.
  - exfalso. apply Hx. rewrite <- He. apply in_map. exact Hf.
  - apply IH; assumption.
Qed.

Lemma file_ptr_eqb_level (f g : fileMetadata) :
  In f fs -> In g fs ->
  file_ptr_eqb (Some f) (Some g) = true -> f = g.
Proof.
  intros Hf Hg H. simpl in H. apply Z.eqb_eq in H.
  apply same_file; assumption.
Qed.

(** What [initTableBounds] answers for a file, and the options it leaves. *)
Lemma initTableBounds_spec (f : fileMetadata) (l : SL) :
  exists r X,
    initTableBounds cmp (Some f) l = Ok r (set_tableOpts X l)
    /\ ((r = -1
         /\ exists b, lower l = Some b
                      /\ cmp (UserKey (LargestPointKey f)) b < 0)
        \/ (r = 1
            /\ exists b, upper l = Some b
                         /\ cmp (UserKey (SmallestPointKey f)) b >= 0)
        \/ (r = 0 /\ overlaps cmp (lower l) (upper l) f
            /\ X = tableBounds cmp (lower l) (upper l) f)).
Proof.
  destruct l as [lo up topts sb lb syb cs it itf ptr cpy fls er ex di tr].
  unfold initTableBounds, initTableBounds_upper, set_tableLower,
    set_tableUpper, overlaps, tableBounds. simpl.
  destruct lo as [lo |], up as [up |]; simpl.
  - destruct (Z.ltb_spec (cmp (UserKey (LargestPointKey f)) lo) 0).
    { eexists _, _. split; [reflexivity |]. left. eauto. }
    destruct (cmp lo (UserKey (SmallestPointKey f)) <=? 0);
      destruct (Z.geb_spec (cmp (UserKey (SmallestPointKey f)) up) 0);
      try (eexists _, _; split; [reflexivity |]; right; left;
           split; [reflexivity |]; exists up; split; [reflexivity | lia]);
      destruct (cmp up (UserKey (LargestPointKey f)) >? 0);
      (eexists _, _; split; [reflexivity |]; right; right;
       split; [reflexivity |]; split; [| reflexivity];
       split; intros b Hb; injection Hb as <-; lia).
  - destruct (Z.ltb_spec (cmp (UserKey (LargestPointKey f)) lo) 0).
    { eexists _, _. split; [reflexivity |]. left. eauto. }
    destruct (cmp lo (UserKey (SmallestPointKey f)) <=? 0);
      (eexists _, _; split; [reflexivity |]; right; right;
       split; [reflexivity |]; split; [| reflexivity];
       split; intros b Hb; [injection Hb as <-; lia | discriminate]).
  - destruct (Z.geb_spec (cmp (UserKey (SmallestPointKey f)) up) 0).
    { eexists _, _. split; [reflexivity |]. right. left.
      split; [reflexivity |]. exists up. split; [reflexivity | lia]. }
    destruct (cmp up (UserKey (LargestPointKey f)) >? 0);
      (eexists _, _; split; [reflexivity |]; right; right;
       split; [reflexivity |]; split; [| reflexivity];
       split; intros b Hb; [discriminate | injection Hb as <-; lia]).
  - eexists _, _. split; [reflexivity |]. right. right.
    split; [reflexivity |]. split; [| reflexivity].
    split; intros b Hb; discriminate.
Qed.

Lemma openTable_spec (f : fileMetadata) (t : sstable) (l : SL) :
  iterFile l = Some f -> lookupTable store (FileNum f) = Some t ->
  tableOK cmp f t ->
  exists l' it,
    openTable nI l = Ok newFileLoaded l'
    /\ iter l' = Some it /\ iterOK it t (tableOpts l)
    /\ files l' = files l /\ err l' = None /\ iterFile l' = Some f
    /\ tableOpts l' = tableOpts l /\ lower l' = lower l /\ upper l' = upper l
    /\ disableInvariants l' = disableInvariants l
    /\ largestBoundary l' = largestBoundary l
    /\ smallestBoundary l' = smallestBoundary l
    /\ (rangeDelIterPtr l = None ->
        rangeDelIterPtr l' = None /\ rangeDelIterCopy l' = rangeDelIterCopy l)
    /\ (rangeDelIterPtr l <> None ->
        forall rd, rangeDelIterCopy l' = Some rd -> rdCloseErr rd = None).
Proof.
  intros Hf Ht (Hopen & Hiter & Hclose & Hrd & _).
  destruct l as [lo up topts sb lb syb cs it itf ptr cpy fls er ex di tr].
  simpl in *. subst itf.
  unfold openTable, sstNewIters. simpl. rewrite Ht, Hopen. simpl.
  destruct ptr as [slot |]; simpl.
  - eexists _, _. split; [reflexivity |]. simpl.
    split; [reflexivity |].
    split; [unfold iterOK; simpl; repeat split; assumption |].
    repeat (split; [first [reflexivity | assumption] |]).
    split; [intros H; discriminate H |]. intros _ rd.
    change (Z.testbit (Z.lor iterPointKeys iterRangeDeletions) 1) with true.
    simpl. apply Hrd.
  - eexists _, _. split; [reflexivity |]. simpl.
    split; [reflexivity |].
    split; [unfold iterOK; simpl; repeat split; assumption |].
    repeat (split; [first [reflexivity | assumption] |]).
    split; [auto | congruence].
Qed.

Lemma loadedFrom_extend (p : Z) (l0 : SL) (f : fileMetadata) o :
  fileAt fs p = Some f -> skippedForward cmp (lower l0) f ->
  loadedFrom cmp fs store (p + 1) l0 o -> loadedFrom cmp fs store p l0 o.
Proof.
  intros Hf Hs (r & l' & q & Ho & Hinv & Hfiles & Hq & Hfr & Hlb & Hsb
                & Hskip & Hend).
  exists r, l', q. repeat (split; [first [assumption | lia] |]).
  split; [| exact Hend].
  intros j f' Hj Hf'. destruct (Z.eq_dec j p) as [-> | Hne].
  - congruence.
  - apply (Hskip j); [lia | exact Hf'].
Qed.

Ltac fields :=
  unfold closedAt, Base, framed in *; simpl in *;
  repeat match goal with
         | H : _ /\ _ |- _ => destruct H
         end;
  repeat split; simpl;
  try first [ assumption | reflexivity | congruence | lia | tauto ].

Lemma loadFile_loop_forward (l0 : SL) (fuel : nat) :
  forall (p : Z) (l : SL),
    closedAt fs p l0 l -> 0 <= p <= n -> n - p < Z.of_nat fuel ->
    loadedFrom cmp fs store p l0
      (loadFile_loop cmp nI fuel (fileAt fs p) 1 l).
Proof.
  induction fuel as [| fuel IH]; intros p l Hpre Hp Hfuel; [lia |].
  cbn [loadFile_loop]. unfold bind at 1. unfold modify at 1.
  destruct (fileAt fs p) as [f |] eqn:Ef.
  - pose proof (fileAt_In fs _ _ Ef) as [Hin Hpn].
    unfold bind at 1. unfold modify at 1.
    rewrite maybeTrigger_shape.
    set (cs' := combinedIterState _).
    set (l1 := set_combinedIterState cs' (set_iterFile (Some f) l)).
    assert (Hnext : forall line,
      skippedForward cmp (lower l0) f ->
      forall l2 : SL, closedAt fs p l0 l2 ->
      loadedFrom cmp fs store p l0
        ((file' <- files_Next line ;;
          loadFile_loop cmp nI fuel file' 1) l2)).
    { intros line Hskip l2 H2. unfold bind, files_Next.
      rewrite files_call_run.
      assert (Hf2 : files l2 = cursorAt fs p) by apply H2.
      rewrite Hf2, li_Next_at by lia. simpl fst. simpl snd.
      apply (loadedFrom_extend p l0 f); [exact Ef | exact Hskip |].
      apply IH; [| lia | lia].
      clear - H2 Hpn. fields. }
    assert (H1 : closedAt fs p l0 l1) by (clear - Hpre; subst l1; fields).
    destruct (HasPointKeys f) eqn:Hpk.
    2:{ change (negb false) with true. cbn [andb].
        change (1 =? 1) with true. cbv iota.
        apply Hnext; [left; exact Hpk | exact H1]. }
    change (negb true) with false. cbn [andb]. cbv iota.
    unfold bind at 1.
    destruct (initTableBounds_spec f l1) as (r & X & -> & Hr).
    assert (H2 : closedAt fs p l0 (set_tableOpts X l1))
      by (clear - H1; fields).
    assert (Hlo : lower l1 = lower l0) by (clear - H1; fields).
    assert (Hup : upper l1 = upper l0) by (clear - H1; fields).
    rewrite Hlo, Hup in Hr.
    destruct Hr as [[-> Hb] | [[-> Hb] | (-> & Hov & ->)]].
    + change (-1 =? -1) with true. change (1 <? 0) with false. cbv iota.
      apply Hnext; [right; exact Hb | exact H2].
    + change (1 =? -1) with false. change (1 =? 1) with true.
      change (1 >? 0) with true. cbv iota.
      exists noFileLoaded, (set_tableOpts X l1), p. unfold ret.
      split; [reflexivity |].
      split.
      { split.
        - split; [clear - H2; fields |]. intros it Hit.
          assert (Hn : iter (set_tableOpts X l1) = None) by apply H2.
          congruence.
        - assert (Hf2 : files (set_tableOpts X l1) = cursorAt fs p)
            by apply H2.
          rewrite Hf2. simpl. exact (eq_sym Ef). }
      split; [apply H2 |]. split; [lia |]. split; [apply H2 |].
      split; [apply H2 |]. split; [apply H2 |].
      split; [intros j f' Hj; lia |].
      left. split; [reflexivity |]. split; [apply H2 |].
      right. destruct Hb as (b & Hb1 & Hb2). exists f, b. auto.
    + change (0 =? -1) with false. change (0 =? 1) with false. cbv iota.
      destruct (Hstore f Hin Hpk) as (t & Ht & Htok).
      set (l2 := set_tableOpts (tableBounds cmp (lower l0) (upper l0) f) l1)
        in *.
      destruct (openTable_spec f t l2 eq_refl Ht Htok)
        as (l' & it & -> & Hit & Hok & Hfl & He & Hif & Hto & Hl & Hu & Hd
            & Hlb & Hsb & Hp0 & Hp1).
      exists newFileLoaded, l', p. split; [reflexivity |].
      assert (Hf2 : files l2 = cursorAt fs p) by apply H2.
      split.
      { split.
        - split.
          + unfold Base. rewrite Hfl, Hf2, He. simpl.
            split; [reflexivity |]. split; [lia |]. split; [reflexivity |].
            destruct (rangeDelIterPtr l2) eqn:Eptr.
            * apply Hp1. discriminate.
            * destruct (Hp0 eq_refl) as [_ ->]. apply H2.
          + intros it' Hit'. rewrite Hit in Hit'. injection Hit' as <-.
            exists f, t. rewrite Hif, Hto, Hl, Hu.
            split; [reflexivity |]. split; [exact Hin |].
            split; [exact Hpk |]. split; [exact Ht |]. split; [exact Htok |].
            split; [exact Hok |].
            assert (Hl2 : lower l2 = lower l0) by (clear - H2; fields).
            assert (Hu2 : upper l2 = upper l0) by (clear - H2; fields).
            rewrite Hl2, Hu2. split; [exact Hov | reflexivity].
        - rewrite Hif, Hfl, Hf2. simpl. exact (eq_sym Ef). }
      split; [congruence |]. split; [lia |].
      split.
      { unfold framed. rewrite Hl, Hu, Hd.
        destruct H2 as (_ & _ & _ & (Ha & Hb & Hc & Hd2) & _).
        split; [exact Ha |]. split; [exact Hb |]. split; [exact Hc |].
        intros H0. apply Hp0. apply Hd2. exact H0. }
      split; [rewrite Hlb; apply H2 |]. split; [rewrite Hsb; apply H2 |].
      split; [intros j f' Hj; lia |].
      right. split; [discriminate | congruence].
  - assert (p = n) by (apply fileAt_None; [lia | exact Ef]). subst p.
    unfold ret.
    exists noFileLoaded, (set_iterFile None l), n.
    split; [reflexivity |].
    assert (H1 : closedAt fs n l0 (set_iterFile None l))
      by (clear - Hpre; fields).
    split.
    { split.
      - split; [clear - H1; fields |]. intros it Hit.
        assert (Hn : iter (set_iterFile None l) = None) by apply H1.
        congruence.
      - assert (Hf2 : files (set_iterFile None l) = cursorAt fs n)
          by apply H1.
        rewrite Hf2. simpl. exact (eq_sym Ef). }
    split; [apply H1 |]. split; [lia |]. split; [apply H1 |].
    split; [apply H1 |]. split; [apply H1 |].
    split; [intros j f' Hj; lia |].
    left. split; [reflexivity |]. split; [apply H1 |]. left. reflexivity.
Qed.

(** The state [Close] leaves from a well-formed state. *)
Lemma closed_inv (l : SL) :
  Inv0 cmp fs store l ->
  Base fs (closed (HI := HIc) l) /\ iter (closed (HI := HIc) l) = None
  /\ files (closed (HI := HIc) l) = files l
  /\ framed l (closed (HI := HIc) l)
  /\ largestBoundary (closed (HI := HIc) l) = largestBoundary l
  /\ smallestBoundary (closed (HI := HIc) l) = smallestBoundary l
  /\ exhaustedDir (closed (HI := HIc) l) = exhaustedDir l.
Proof.
  intros [(Hfs & Hpos & Herr & Hcopy) Hload].
  destruct l as [lo up topts sb lb syb cs it itf ptr cpy fls er ex di tr].
  unfold Loaded in Hload. simpl in *. subst er.
  assert (Hit : forall i, it = Some i -> sCloseErr i = None).
  { intros i Hi. destruct (Hload i Hi) as (f & t & _ & _ & _ & _ & _ & Hok & _).
    apply Hok. }
  unfold closed, Close, Base, framed. simpl.
  destruct it as [i |]; simpl.
  - rewrite (Hit i eq_refl).
    destruct ptr as [slot |], cpy as [rd |]; simpl;
      try rewrite (Hcopy rd eq_refl); simpl;
      repeat split; auto; try discriminate; try congruence; try lia.
  - destruct ptr as [slot |], cpy as [rd |]; simpl;
      try rewrite (Hcopy rd eq_refl); simpl;
      repeat split; auto; try discriminate; try congruence; try lia.
Qed.

Lemma framed_refl (l : SL) : framed l l.
Proof. unfold framed. tauto. Qed.

Lemma framed_trans (a b c : SL) : framed a b -> framed b c -> framed a c.
Proof. unfold framed. intuition congruence. Qed.

Lemma loadedFrom_framed (p : Z) (l0 l1 : SL) o :
  framed l0 l1 -> lower l1 = lower l0 -> upper l1 = upper l0 ->
  loadedFrom cmp fs store p l1 o -> loadedFrom cmp fs store p l0 o.
Proof.
  intros Hfr Hlo Hup (r & l' & q & Ho & Hinv & Hfiles & Hq & Hfr' & Hlb & Hsb
                      & Hskip & Hend).
  exists r, l', q. rewrite <- Hlo, <- Hup.
  repeat (split; [first [assumption | lia
                        | eapply framed_trans; eassumption] |]).
  exact Hend.
Qed.

Lemma sync_at (p : Z) (l : SL) :
  files l = cursorAt fs p -> iterFile l = fileAt fs p ->
  iterFile l = li_Current (files l).
Proof. intros -> ->. reflexivity. Qed.

Lemma loadFile_forward (p : Z) (l : SL) :
  Inv0 cmp fs store l -> files l = cursorAt fs p -> 0 <= p <= n ->
  loadedFrom cmp fs store p l
    (loadFile (HI := HIc) cmp nI (fileAt fs p) 1 l).
Proof.
  intros Hinv Hfiles Hp.
  unfold loadFile. unfold bind at 1. unfold modify at 1.
  set (l1 := set_largestBoundary None (set_smallestBoundary None l)).
  assert (Hinv1 : Inv0 cmp fs store l1).
  { clear - Hinv. destruct Hinv as [Hb Hl]. split; [fields |].
    exact Hl. }
  assert (Hfr1 : framed l l1) by (unfold framed; simpl; tauto).
  assert (Hf1 : files l1 = cursorAt fs p) by exact Hfiles.
  apply (loadedFrom_framed p l l1 _ Hfr1 eq_refl eq_refl).
  assert (He : err l1 = None) by apply Hinv1.
  rewrite He, andb_false_r.
  destruct (file_ptr_eqb (iterFile l1) (fileAt fs p)
            && match iter l1 with Some _ => true | None => false end) eqn:C.
  - apply andb_true_iff in C. destruct C as [Cf Ci].
    destruct (iter l1) as [it |] eqn:Eit; [| discriminate].
    destruct Hinv1 as [Hbase Hload].
    destruct (Hload it Eit) as (f & t & Hif & Hin & Hpk & Ht & Htok & Hok
                                & Hov & Hto).
    rewrite Hif in Cf.
    destruct (fileAt fs p) as [g |] eqn:Eg; [| discriminate].
    pose proof (fileAt_In fs _ _ Eg) as [Hg _].
    assert (f = g) by (apply file_ptr_eqb_level; assumption). subst g.
    rewrite maybeTrigger_shape. set (cs' := combinedIterState _).
    exists fileAlreadyLoaded,
      (set_combinedIterState cs'
         (store_rangeDelIter (rangeDelIterCopy l1) l1)), p.
    split; [reflexivity |].
    assert (Hshape :
      forall (P : SL -> Prop),
        (forall v, P (set_combinedIterState cs'
                        (set_rangeDelIterPtr v l1))) ->
        P (set_combinedIterState cs' l1) ->
        P (set_combinedIterState cs'
             (store_rangeDelIter (rangeDelIterCopy l1) l1))).
    { intros P H1 H2. unfold store_rangeDelIter.
      destruct (rangeDelIterPtr l1); [apply H1 | exact H2]. }
    split.
    { apply Hshape.
      - intros v. split; [split |].
        + clear - Hbase. fields.
        + intros it' Hit'. exists f, t. simpl in *.
          assert (it' = it) by congruence. subst it'.
          repeat (split; [assumption |]). assumption.
        + apply (sync_at p); [exact Hfiles | rewrite Eg; exact Hif].
      - split; [split |].
        + clear - Hbase. fields.
        + intros it' Hit'. exists f, t. simpl in *.
          assert (it' = it) by congruence. subst it'.
          repeat (split; [assumption |]). assumption.
        + apply (sync_at p); [exact Hfiles | rewrite Eg; exact Hif]. }
    split; [apply Hshape; intros; exact Hfiles |].
    split; [lia |].
    split.
    { unfold framed, store_rangeDelIter.
      destruct (rangeDelIterPtr l1) eqn:Ep; simpl; rewrite ?Ep;
        repeat split; auto; congruence. }
    split; [apply Hshape; intros; reflexivity |].
    split; [apply Hshape; intros; reflexivity |].
    split; [intros j f' Hj; lia |].
    right. split; [discriminate |].
    apply Hshape; intros; change (iter l1 <> None); rewrite Eit;
      discriminate.
  - unfold bind. rewrite Close_closed.
    destruct (closed_inv l1 Hinv1) as (Hb & Hi & Hf & Hfr & Hlb & Hsb & _).
    assert (Hec : err (closed (HI := HIc) l1) = None) by apply Hb.
    rewrite Hec.
    apply (loadedFrom_framed p l1 (closed (HI := HIc) l1) _ Hfr);
      [apply Hfr | apply Hfr |].
    apply loadFile_loop_forward; [| lia |].
    + unfold closedAt. split; [exact Hb |]. split; [exact Hi |].
      split; [congruence |]. split; [apply framed_refl |].
      split; [rewrite Hlb | rewrite Hsb]; reflexivity.
    + rewrite (loopFuel_level fs) by (rewrite Hf, Hf1; reflexivity). lia.
Qed.

End LoadForward.

(** ** Scanning forward over a well-formed level *)

Section SortedKeys.

Variable cmp : Compare.
Variable split : Split.
Hypothesis laws : ComparerLaws cmp split.

Lemma first_match (P : InternalKV -> bool) (ks : list InternalKV) :
  keysSorted cmp ks ->
  match nth_error ks (find_index P ks) with
  | Some kv =>
    P kv = true /\ In kv ks
    /\ forall kv', In kv' ks -> P kv' = true ->
                   cmp (userOf kv) (userOf kv') <= 0
  | None => forall kv', In kv' ks -> P kv' = false
  end.
Proof.
  induction ks as [| x r IH]; simpl.
  - intros _ kv' [].
  - intros [Hx Hr]. destruct (P x) eqn:Px; simpl.
    + split; [exact Px |]. split; [left; reflexivity |].
      intros kv' [<- | Hin] _.
      * rewrite (cmp_refl laws). lia.
      * rewrite Forall_forall in Hx. apply Hx, Hin.
    + specialize (IH Hr).
      destruct (nth_error r (find_index P r)) as [kv |].
      * destruct IH as (Pk & Hin & Hmin).
        split; [exact Pk |]. split; [right; exact Hin |].
        intros kv' [<- | Hin'] Pk'; [congruence | auto].
      * intros kv' [<- | Hin']; [exact Px | auto].
Qed.

(** Within the table of a file, the bounds computed for the table select
    the keys the bounds of the iteration do. *)
Lemma tableBounds_select (lo up : option bytes) (f : fileMetadata)
  (t : sstable) (kv : InternalKV) :
  tableOK cmp f t -> In kv (tPoints t) ->
  inLower cmp (LowerBound (tableBounds cmp lo up f)) kv = inLower cmp lo kv
  /\ inUpper cmp (UpperBound (tableBounds cmp lo up f)) kv = inUpper cmp up kv.
Proof.
  intros (_ & _ & _ & _ & _ & Hb) Hin.
  destruct (Hb kv Hin) as (Hs & Hl & _). unfold userOf in *.
  unfold tableBounds, inLower, inUpper. simpl. split.
  - destruct lo as [b |]; [| reflexivity].
    destruct (Z.leb_spec (cmp b (UserKey (SmallestPointKey f))) 0) as [H | H];
      [| reflexivity].
    symmetry. apply Z.geb_le.
    pose proof (cmp_trans laws _ _ _ H Hs) as Hk.
    apply (cmp_ge_le cmp split laws) in Hk. lia.
  - destruct up as [b |]; [| reflexivity].
    destruct (Z.gtb_spec (cmp b (UserKey (LargestPointKey f))) 0) as [H | H];
      [| reflexivity].
    symmetry. apply Z.ltb_lt.
    eapply (cmp_le_lt_trans cmp split laws); [exact Hl |].
    apply (cmp_flip laws). lia.
Qed.

Lemma find_index_ext {A : Type} (P Q : A -> bool) (l : list A) :
  (forall x, In x l -> P x = Q x) -> find_index P l = find_index Q l.
Proof.
  induction l as [| x r IH]; simpl; [reflexivity |].
  intros H. rewrite (H x (or_introl eq_refl)).
  destruct (Q x); [reflexivity |]. f_equal. apply IH. auto.
Qed.

Lemma sst_goto_ok (it : sstIter) (t : sstable) (opts : IterOptions) (p : Z) :
  iterOK it t opts ->
  sst_goto cmp it p = (sst_at cmp it p, sst_move it p)
  /\ iterOK (sst_move it p) t opts.
Proof.
  intros (Hk & Hl & Hu & He & Hc). unfold sst_goto. rewrite He.
  split; [reflexivity |]. unfold iterOK. simpl. auto.
Qed.

Lemma sst_at_Some (it : sstIter) (p : Z) (kv : InternalKV) :
  sst_at cmp it p = Some kv ->
  In kv (sKeys it) /\ inLower cmp (sLower it) kv = true
  /\ inUpper cmp (sUpper it) kv = true.
Proof.
  unfold sst_at. destruct (p <? 0); [discriminate |].
  destruct (nth_error (sKeys it) (Z.to_nat p)) as [x |] eqn:E; [| discriminate].
  destruct (inLower cmp (sLower it) x && inUpper cmp (sUpper it) x) eqn:B;
    [| discriminate].
  intros H. injection H as <-. apply andb_true_iff in B.
  split; [eapply nth_error_In; exact E | exact B].
Qed.

End SortedKeys.

Section YieldLemmas.

Variable cmp : Compare.
Variable split : Split.
Variable fs : list fileMetadata.
Variable store : tableStore.
Hypothesis laws : ComparerLaws cmp split.
Hypothesis Hlevel : levelOK cmp fs.
Hypothesis Hstore : storeOK cmp fs store.

Local Abbreviation n := (Z.of_nat (List.length fs)).

Lemma wf_of (f : fileMetadata) : In f fs -> wfFile cmp f.
Proof.
  intros H. destruct Hlevel as (_ & Hwf & _). rewrite Forall_forall in Hwf.
  apply Hwf, H.
Qed.

Lemma fileKeys_table (f : fileMetadata) (t : sstable) :
  HasPointKeys f = true -> lookupTable store (FileNum f) = Some t ->
  fileKeys store f = tPoints t.
Proof. intros Hp Ht. unfold fileKeys. rewrite Hp, Ht. reflexivity. Qed.

(** The keys of a file of the level lie within its point key bounds. *)
Lemma fileKeys_bounds (f : fileMetadata) (kv : InternalKV) :
  In f fs -> In kv (fileKeys store f) ->
  HasPointKeys f = true
  /\ cmp (UserKey (SmallestPointKey f)) (userOf kv) <= 0
  /\ cmp (userOf kv) (UserKey (LargestPointKey f)) <= 0
  /\ (IsExclusiveSentinel (LargestPointKey f) = true ->
      cmp (userOf kv) (UserKey (LargestPointKey f)) < 0).
Proof.
  intros Hf Hkv. unfold fileKeys in Hkv.
  destruct (HasPointKeys f) eqn:Hp; [| destruct Hkv].
  destruct (Hstore f Hf Hp) as (t & Ht & Htok). rewrite Ht in Hkv.
  split; [reflexivity |]. apply Htok. exact Hkv.
Qed.

(** The keys of a file come before those of the files after it. *)
Lemma fileKeys_ordered (i j : Z) (f g : fileMetadata) (a b : InternalKV) :
  0 <= i < j -> fileAt fs i = Some f -> fileAt fs j = Some g ->
  In a (fileKeys store f) -> In b (fileKeys store g) ->
  cmp (userOf a) (userOf b) <= 0.
Proof.
  intros Hij Hf Hg Ha Hb.
  pose proof (fileAt_In fs _ _ Hf) as [Hif _].
  pose proof (fileAt_In fs _ _ Hg) as [Hig _].
  destruct (fileKeys_bounds f a Hif Ha) as (Hpf & _ & Hal & _).
  destruct (fileKeys_bounds g b Hig Hb) as (Hpg & Hbs & _ & _).
  eapply (cmp_trans laws); [exact Hal |].
  apply (later_file_keys cmp split laws f g); try assumption.
  apply (fileAt_before cmp fs (proj1 Hlevel) i j); assumption.
Qed.

Lemma skipped_empty (lo up : option bytes) (f : fileMetadata) :
  In f fs -> skippedForward cmp lo f -> emptyWithin cmp store lo up f.
Proof.
  intros Hf [Hp | (b & -> & Hb)] kv Hkv.
  - unfold fileKeys in Hkv. rewrite Hp in Hkv. destruct Hkv.
  - destruct (fileKeys_bounds f kv Hf Hkv) as (_ & _ & Hl & _).
    unfold inBounds, inLower. fold (userOf kv).
    assert (H : cmp (userOf kv) b < 0)
      by (eapply (cmp_le_lt_trans cmp split laws); eassumption).
    destruct (Z.geb_spec (cmp (userOf kv) b) 0); [lia | reflexivity].
Qed.

Lemma stopped_empty (lo up : option bytes) (q j : Z) (f : fileMetadata) :
  stoppedForward cmp fs up q -> 0 <= q <= j -> fileAt fs j = Some f ->
  emptyWithin cmp store lo up f.
Proof.
  intros [-> | (g & b & Hg & Hpg & -> & Hb)] Hj Hf kv Hkv.
  - apply fileAt_In in Hf. lia.
  - pose proof (fileAt_In fs _ _ Hf) as [Hif _].
    pose proof (fileAt_In fs _ _ Hg) as [Hig _].
    destruct (fileKeys_bounds f kv Hif Hkv) as (Hpf & Hs & _ & _).
    assert (Hge : cmp (UserKey (SmallestPointKey g)) (userOf kv) <= 0).
    { destruct (Z.eq_dec j q) as [-> | Hne].
      - assert (g = f) by congruence. subst g. exact Hs.
      - destruct (wf_of g Hig) as (_ & Hwf & _).
        eapply (cmp_trans laws); [exact (Hwf Hpg) |].
        apply (later_file_keys cmp split laws g f); try assumption.
        apply (fileAt_before cmp fs (proj1 Hlevel) q j);
          [lia | assumption | assumption]. }
    unfold inBounds, inUpper. fold (userOf kv).
    apply (cmp_ge_le cmp split laws) in Hb.
    pose proof (cmp_trans laws _ _ _ Hb Hge) as Hk.
    apply (cmp_ge_le cmp split laws) in Hk.
    destruct (Z.ltb_spec (cmp (userOf kv) b) 0); [lia |].
    apply andb_false_r.
Qed.

Lemma sst_find_spec (P : InternalKV -> bool) (lo up lo' : option bytes)
  (f : fileMetadata) (t : sstable) (it : sstIter) :
  HasPointKeys f = true -> lookupTable store (FileNum f) = Some t ->
  tableOK cmp f t -> iterOK it t (tableBounds cmp lo up f) ->
  (forall kv, In kv (tPoints t) -> P kv = inLower cmp lo' kv) ->
  (forall kv, In kv (tPoints t) -> inLower cmp lo' kv = true ->
              inLower cmp lo kv = true) ->
  match fst (sst_goto cmp it (Z.of_nat (find_index P (sKeys it)))) with
  | Some kv => firstWithin cmp store lo' up f kv
  | None => emptyWithin cmp store lo' up f
  end.
Proof.
  intros Hp Ht Htok Hok HP Hlo'.
  set (idx := find_index P (sKeys it)).
  destruct (sst_goto_ok cmp it t _ (Z.of_nat idx) Hok) as [-> _].
  simpl fst.
  unfold firstWithin, emptyWithin. rewrite (fileKeys_table f t Hp Ht).
  destruct Hok as (Hk & Hl & Hu & _).
  assert (Hsorted : keysSorted cmp (sKeys it)) by (rewrite Hk; apply Htok).
  pose proof (first_match cmp split laws P (sKeys it) Hsorted) as Hfm.
  fold idx in Hfm.
  assert (Hup : forall kv, In kv (tPoints t) ->
            inUpper cmp (sUpper it) kv = inUpper cmp up kv).
  { intros kv Hkv. rewrite Hu.
    apply (tableBounds_select cmp split laws lo up f t kv Htok Hkv). }
  assert (Hlow : forall kv, In kv (tPoints t) -> P kv = true ->
            inLower cmp (sLower it) kv = true).
  { intros kv Hkv Pk. rewrite Hl.
    destruct (tableBounds_select cmp split laws lo up f t kv Htok Hkv)
      as [-> _].
    apply Hlo'; [exact Hkv |]. rewrite <- HP; assumption. }
  assert (Hsel : forall kv, In kv (tPoints t) ->
            inBounds cmp lo' up kv = P kv && inUpper cmp (sUpper it) kv).
  { intros kv Hkv. unfold inBounds. rewrite (HP kv Hkv), (Hup kv Hkv).
    reflexivity. }
  unfold sst_at.
  destruct (Z.ltb_spec (Z.of_nat idx) 0) as [Hneg | _]; [lia |].
  rewrite Nat2Z.id. rewrite Hk in *.
  destruct (nth_error (tPoints t) idx) as [x |] eqn:Ex.
  - destruct Hfm as (Px & Hin & Hmin).
    rewrite (Hlow x Hin Px). simpl andb.
    destruct (inUpper cmp (sUpper it) x) eqn:B.
    + split; [exact Hin |].
      split; [rewrite (Hsel x Hin), Px, B; reflexivity |].
      intros kv' Hin' Hb'. apply Hmin; [exact Hin' |].
      rewrite (Hsel kv' Hin') in Hb'. apply andb_true_iff in Hb'. apply Hb'.
    + intros kv Hkv. rewrite (Hsel kv Hkv).
      destruct (P kv) eqn:Pk; [| reflexivity]. simpl.
      specialize (Hmin kv Hkv Pk).
      unfold inUpper in *. destruct (sUpper it) as [b |]; [| discriminate].
      fold (userOf x) in B. fold (userOf kv).
      apply Z.ltb_ge in B. apply Z.ltb_ge.
      destruct (Z_lt_ge_dec (cmp (userOf kv) b) 0) as [Hlt | Hge]; [| lia].
      pose proof (cmp_le_lt_trans cmp split laws _ _ _ Hmin Hlt). lia.
  - intros kv Hkv. rewrite (Hsel kv Hkv), (Hfm kv Hkv). reflexivity.
Qed.

(** [First] of the inner iterator lands on the first key within the
    bounds. *)
Lemma lands_First (lo up : option bytes) :
  lands cmp fs store lo up lo (sst_First cmp).
Proof.
  intros it f t Hin Hp Ht Htok Hok. unfold sst_First.
  apply (sst_find_spec (inLower cmp (sLower it)) lo up lo f t it);
    try assumption.
  - intros kv Hkv. destruct Hok as (_ & -> & _).
    apply (tableBounds_select cmp split laws lo up f t kv Htok Hkv).
  - auto.
Qed.

(** [SeekGE] of the inner iterator, for a key at or after the lower bound,
    lands on the first key at or after the key sought. *)
Lemma lands_SeekGE (lo up : option bytes) (k : bytes) (flags : SeekGEFlags) :
  (forall b, lo = Some b -> cmp k b >= 0) ->
  lands cmp fs store lo up (Some k) (sst_SeekGE cmp k flags).
Proof.
  intros Hk it f t Hin Hp Ht Htok Hok. unfold sst_SeekGE.
  assert (Hlo : forall kv, inLower cmp (Some k) kv = true ->
                           inLower cmp lo kv = true).
  { intros kv Hkv. destruct lo as [b |]; [| reflexivity]. simpl in *.
    apply Z.geb_le in Hkv. apply Z.geb_le.
    specialize (Hk b eq_refl).
    apply (cmp_ge_le cmp split laws) in Hk.
    assert (Hkv' : cmp k (UserKey (K kv)) <= 0)
      by (apply (cmp_ge_le cmp split laws); lia).
    pose proof (cmp_trans laws _ _ _ Hk Hkv') as H.
    apply (cmp_ge_le cmp split laws) in H. lia. }
  apply (sst_find_spec _ lo up (Some k) f t it); try assumption.
  - intros kv Hkv. simpl.
    destruct (cmp (UserKey (K kv)) k >=? 0) eqn:E; [| reflexivity].
    simpl. destruct Hok as (_ & -> & _).
    destruct (tableBounds_select cmp split laws lo up f t kv Htok Hkv)
      as [-> _].
    apply Hlo. exact E.
  - intros kv _. apply Hlo.
Qed.

(** What any positioning call of the inner iterator returns. *)
Lemma positions_spec (call : sstIter -> option InternalKV * sstIter)
  (lo up : option bytes) (f : fileMetadata) (t : sstable) (it : sstIter) :
  positions cmp call -> tableOK cmp f t ->
  iterOK it t (tableBounds cmp lo up f) ->
  exists r it',
    call it = (r, it')
    /\ iterOK it' t (tableBounds cmp lo up f)
    /\ forall kv, r = Some kv ->
         In kv (tPoints t) /\ inBounds cmp lo up kv = true.
Proof.
  intros Hc Htok Hok. destruct (Hc it) as [p ->].
  destruct (sst_goto_ok cmp it t _ p Hok) as [-> Hok'].
  eexists _, _. split; [reflexivity |]. split; [exact Hok' |].
  intros kv Hkv. apply sst_at_Some in Hkv.
  destruct Hkv as (Hin & Hl & Hu).
  destruct Hok as (Hk & Hlo & Hup & _). rewrite Hk in Hin.
  split; [exact Hin |]. unfold inBounds.
  destruct (tableBounds_select cmp split laws lo up f t kv Htok Hin)
    as [<- <-].
  rewrite <- Hlo, <- Hup, Hl, Hu. reflexivity.
Qed.

Lemma yieldsFrom_extend (lo up : option bytes) (p q : Z) (r : option kvPtr) :
  p <= q ->
  (forall j f, p <= j < q -> fileAt fs j = Some f ->
               emptyWithin cmp store lo up f) ->
  yieldsFrom cmp fs store lo up q r -> yieldsFrom cmp fs store lo up p r.
Proof.
  intros Hpq Hempty. destruct r as [[kv |] |]; simpl.
  - intros (q' & f & Hq & Hf & Hfirst & Hbetween).
    exists q', f. split; [lia |]. split; [exact Hf |].
    split; [exact Hfirst |]. intros j f' Hj Hf'.
    destruct (Z_lt_ge_dec j q); [apply (Hempty j) | apply (Hbetween j)];
      (lia || assumption).
  - tauto.
  - intros Hall j f' Hj Hf'.
    destruct (Z_lt_ge_dec j q); [apply (Hempty j) | apply (Hall j)];
      (lia || assumption).
Qed.

Lemma yieldsFrom_lower (lo lo' up : option bytes) (p : Z)
  (r : option kvPtr) :
  (forall j f kv, p <= j -> fileAt fs j = Some f ->
                  In kv (fileKeys store f) ->
                  inLower cmp lo' kv = inLower cmp lo kv) ->
  yieldsFrom cmp fs store lo up p r -> yieldsFrom cmp fs store lo' up p r.
Proof.
  intros Hsame.
  assert (Hb : forall j f kv, p <= j -> fileAt fs j = Some f ->
            In kv (fileKeys store f) ->
            inBounds cmp lo' up kv = inBounds cmp lo up kv).
  { intros j f kv Hj Hf Hkv. unfold inBounds.
    rewrite (Hsame j f kv Hj Hf Hkv). reflexivity. }
  destruct r as [[kv |] |]; simpl; [| tauto |].
  - intros (q & f & Hq & Hf & (Hin & Hbnd & Hmin) & Hbefore).
    exists q, f. split; [exact Hq |]. split; [exact Hf |].
    split.
    + split; [exact Hin |].
      split; [rewrite (Hb q f kv Hq Hf Hin); exact Hbnd |].
      intros kv' Hin' Hb'. apply Hmin; [exact Hin' |].
      rewrite <- (Hb q f kv' Hq Hf Hin'). exact Hb'.
    + intros j f' Hj Hf' kv' Hkv'.
      rewrite (Hb j f' kv' (proj1 Hj) Hf' Hkv').
      apply (Hbefore j f' Hj Hf' kv' Hkv').
  - intros Hall j f' Hj Hf' kv' Hkv'.
    rewrite (Hb j f' kv' Hj Hf' Hkv'). apply (Hall j f' Hj Hf' kv' Hkv').
Qed.

Lemma yieldsFrom_inner (lo up : option bytes) (p : Z) (r : option kvPtr) :
  yieldsFrom cmp fs store lo up p r -> innerResult cmp lo up r.
Proof.
  destruct r as [[kv |] |]; simpl; [| tauto | tauto].
  intros (q & f & _ & _ & (_ & Hb & _) & _). exact Hb.
Qed.

Lemma levelKeys_file (kv : InternalKV) :
  In kv (levelKeys fs store) <->
  exists j f, 0 <= j /\ fileAt fs j = Some f /\ In kv (fileKeys store f).
Proof.
  unfold levelKeys. rewrite in_flat_map. split.
  - intros (f & Hf & Hkv). destruct (In_nth_error _ _ Hf) as [i Hi].
    exists (Z.of_nat i), f. split; [lia |].
    rewrite fileAt_nth by lia. rewrite Nat2Z.id. auto.
  - intros (j & f & Hj & Hf & Hkv). exists f.
    split; [apply (fileAt_In fs j f Hf) | exact Hkv].
Qed.

(** A scan of the whole level yields its smallest key within the bounds. *)
Lemma yieldsFrom_smallest (lo up : option bytes) (r : option kvPtr) :
  yieldsFrom cmp fs store lo up 0 r -> smallestWithin cmp fs store lo up r.
Proof.
  destruct r as [[kv |] |]; simpl; [| tauto |].
  - intros (q & f & Hq & Hf & (Hin & Hb & Hmin) & Hbefore).
    split; [apply levelKeys_file; eauto |]. split; [exact Hb |].
    intros kv' Hin' Hb'. apply levelKeys_file in Hin'.
    destruct Hin' as (j & f' & Hj & Hf' & Hkv').
    destruct (Z.lt_trichotomy j q) as [Hlt | [-> | Hgt]].
    + rewrite (Hbefore j f' (conj Hj Hlt) Hf' kv' Hkv') in Hb'. discriminate.
    + assert (f' = f) by congruence. subst f'. apply Hmin; assumption.
    + apply (fileKeys_ordered q j f f'); (lia || assumption).
  - intros Hall kv' Hin'. apply levelKeys_file in Hin'.
    destruct Hin' as (j & f' & Hj & Hf' & Hkv').
    apply (Hall j f' Hj Hf' kv' Hkv').
Qed.

End YieldLemmas.

Section SkipForward.

Variable invariants_Enabled : bool.
Variable cmp : Compare.
Variable split : Split.
Variable fs : list fileMetadata.
Variable store : tableStore.
Hypothesis laws : ComparerLaws cmp split.
Hypothesis Hlevel : levelOK cmp fs.
Hypothesis Hstore : storeOK cmp fs store.

Local Abbreviation n := (Z.of_nat (List.length fs)).
Local Abbreviation HIc := (sstIterOps cmp split).
Local Abbreviation nI := (sstNewIters store).
Local Abbreviation skip :=
  (skipEmptyFileForward (HI := HIc) invariants_Enabled cmp nI).

Lemma Inv_same (l l' : SL) :
  files l' = files l -> err l' = err l ->
  rangeDelIterCopy l' = rangeDelIterCopy l -> iter l' = iter l ->
  iterFile l' = iterFile l -> tableOpts l' = tableOpts l ->
  lower l' = lower l -> upper l' = upper l ->
  Inv cmp fs store l -> Inv cmp fs store l'.
Proof.
  unfold Inv, Inv0, Base, Loaded.
  intros H1 H2 H3 H4 H5 H6 H7 H8. rewrite H1, H2, H3, H4, H5, H6, H7, H8.
  tauto.
Qed.

Lemma framed_same (l0 l l' : SL) :
  lower l' = lower l -> upper l' = upper l ->
  disableInvariants l' = disableInvariants l ->
  (rangeDelIterPtr l = None -> rangeDelIterPtr l' = None) ->
  framed l0 l -> framed l0 l'.
Proof.
  unfold framed. intros H1 H2 H3 H4 (A & B & C & D).
  rewrite H1, H2, H3. repeat split; auto.
Qed.

(** The file loaded at [q], its table and the inner iterator. *)
Lemma loadedAt_file (q : Z) (l0 l : SL) :
  loadedAt cmp fs store q l0 l ->
  exists it f t,
    iter l = Some it /\ iterFile l = Some f /\ fileAt fs q = Some f
    /\ In f fs /\ HasPointKeys f = true
    /\ lookupTable store (FileNum f) = Some t /\ tableOK cmp f t
    /\ iterOK it t (tableBounds cmp (lower l0) (upper l0) f)
    /\ overlaps cmp (lower l0) (upper l0) f
    /\ tableOpts l = tableBounds cmp (lower l0) (upper l0) f
    /\ 0 <= q < n.
Proof.
  intros ([[Hbase Hload] Hsync] & Hit & Hfiles & (Hlo & Hup & _)).
  destruct (iter l) as [it |] eqn:Eit; [| congruence].
  destruct (Hload it Eit) as (f & t & Hif & Hin & Hp & Ht & Htok & Hok
                              & Hov & Hto).
  rewrite Hlo, Hup in *. rewrite Hto in Hok.
  assert (Hq : fileAt fs q = Some f).
  { rewrite <- Hif, Hsync, Hfiles. reflexivity. }
  exists it, f, t. repeat (split; [assumption || reflexivity |]).
  apply (fileAt_In fs q f Hq).
Qed.

Lemma iter_call_forward (call : sstIter -> option InternalKV * sstIter)
  (q : Z) (l0 l : SL) :
  positions cmp call -> loadedAt cmp fs store q l0 l ->
  exists r it' f,
    iter_call call l = Ok r (set_iter (Some it') l)
    /\ loadedAt cmp fs store q l0 (set_iter (Some it') l)
    /\ fileAt fs q = Some f
    /\ (forall kv, r = Some kv ->
          In kv (fileKeys store f)
          /\ inBounds cmp (lower l0) (upper l0) kv = true)
    /\ (forall lo',
          lands cmp fs store (lower l0) (upper l0) lo' call ->
          match r with
          | Some kv => firstWithin cmp store lo' (upper l0) f kv
          | None => emptyWithin cmp store lo' (upper l0) f
          end).
Proof.
  intros Hc Hl.
  destruct (loadedAt_file q l0 l Hl)
    as (it & f & t & Eit & Hif & Hq & Hin & Hp & Ht & Htok & Hok & Hov & Hto
        & Hqn).
  destruct (positions_spec cmp split laws call
              (lower l0) (upper l0) f t it Hc Htok Hok)
    as (r & it' & Ecall & Hok' & Hr).
  exists r, it', f. unfold iter_call. rewrite Eit, Ecall.
  split; [reflexivity |].
  destruct Hl as ([[Hbase Hload] Hsync] & Hit & Hfiles & Hfr).
  split.
  { split; [split; [split |] |].
    - exact Hbase.
    - intros it2 Hit2. simpl in Hit2. injection Hit2 as <-.
      exists f, t. simpl. destruct Hfr as (Hlo & Hup & _).
      rewrite Hlo, Hup, Hto.
      repeat (split; [assumption || reflexivity |]). reflexivity.
    - exact Hsync.
    - split; [simpl; discriminate |]. split; [exact Hfiles | exact Hfr]. }
  split; [exact Hq |]. split.
  - intros kv Hkv. destruct (Hr kv Hkv) as [Hk Hb].
    rewrite (fileKeys_table store f t Hp Ht). auto.
  - intros lo' Hfl. specialize (Hfl it f t Hin Hp Ht Htok Hok).
    rewrite Ecall in Hfl. exact Hfl.
Qed.

Lemma pauseLargest_run (uk : bytes) (l : SL) :
  emitSyntheticBoundaries l = true ->
  pauseLargest invariants_Enabled uk l
  = Ok (Some SyntheticKV)
       (set_largestBoundary (Some SyntheticKV)
          (set_syntheticBoundary
             {| K := MakeRangeDeleteSentinelKey uk; V := "" |} l)).
Proof.
  intros He. unfold pauseLargest, makeSyntheticBoundary, bind, modify, ret.
  rewrite He. simpl. rewrite andb_false_r. reflexivity.
Qed.

Lemma verify_inside (r : option kvPtr) (l : SL) :
  innerResult cmp (lower l) (upper l) r ->
  verify invariants_Enabled cmp r l = Ok r l.
Proof.
  unfold verify. destruct r as [[kv |] |]; simpl; [| tauto | reflexivity].
  unfold inBounds, inLower, inUpper. intros H. apply andb_true_iff in H.
  destruct H as [H1 H2].
  destruct (invariants_Enabled && negb (disableInvariants l));
    [| reflexivity].
  destruct (lower l) as [lo |], (upper l) as [up |]; simpl;
    repeat match goal with
           | H : (_ >=? 0) = true |- _ => apply Z.geb_le in H
           | H : (_ <? 0) = true |- _ => apply Z.ltb_lt in H
           end;
    repeat match goal with
           | |- context [?a <? 0] =>
             destruct (Z.ltb_spec a 0); [lia |]
           | |- context [?a >? 0] =>
             destruct (Z.gtb_spec a 0); [lia |]
           end; simpl; reflexivity.
Qed.

Lemma verify_any (r : option kvPtr) (l : SL) :
  verify invariants_Enabled cmp r l = Ok r l
  \/ exists p, verify invariants_Enabled cmp r l = Panic p.
Proof.
  unfold verify. destruct r as [p |]; [| left; reflexivity].
  repeat match goal with
         | |- context [if ?b then _ else _] => destruct b
         end; eauto.
Qed.

Lemma skipEmptyFileForward_loop_turn (fuel : nat) (l : SL) :
  skipEmptyFileForward_loop (HI := HIc) invariants_Enabled cmp nI (S fuel) l
  = match iter l with
    | None => Panic NilDereference
    | Some it =>
      match sErr it with
      | Some _ => Ok None l
      | None =>
        match rangeDelIterPtr l, UpperBound (tableOpts l) with
        | Some slot, Some ub =>
          match slot with
          | Some _ => pauseLargest invariants_Enabled ub (set_exhaustedDir 1 l)
          | None => Ok None (set_exhaustedDir 1 l)
          end
        | Some (Some _), None =>
          (f <- iterFile_deref ;;
           pauseLargest invariants_Enabled (UserKey (LargestPointKey f))) l
        | _, _ =>
          advanceForward cmp split store
            (skipEmptyFileForward_loop (HI := HIc) invariants_Enabled cmp nI
               fuel) l
        end
      end
    end.
Proof.
  cbn [skipEmptyFileForward_loop]. unfold bind at 1. unfold iter_Error.
  destruct (iter l) as [it |]; [| reflexivity].
  change (iterError it) with (sErr it).
  destruct (sErr it); reflexivity.
Qed.

Lemma positioned_inner (q : Z) (l0 l : SL) (f : fileMetadata)
  (kv : InternalKV) :
  loadedAt cmp fs store q l0 l -> fileAt fs q = Some f -> In kv (fileKeys store f) ->
  Positioned cmp (Some (InnerKV kv)) l.
Proof.
  intros Hl Hq Hkv.
  destruct (loadedAt_file q l0 l Hl)
    as (it & f' & t & Eit & Hif & Hq' & Hin & Hp & _).
  assert (f' = f) by congruence. subst f'.
  exists f. split; [exact Hif |]. split; [exact Hp |]. simpl.
  apply (fileKeys_bounds cmp fs store Hstore f kv Hin Hkv).
Qed.

Lemma tableBounds_upper (lo up : option bytes) (f : fileMetadata)
  (ub : bytes) :
  UpperBound (tableBounds cmp lo up f) = Some ub -> up = Some ub.
Proof.
  unfold tableBounds. simpl. destruct up as [b |]; [| discriminate].
  destruct (cmp b (UserKey (LargestPointKey f)) >? 0); congruence.
Qed.

Lemma positions_First : positions cmp (sst_First cmp).
Proof. intros it. eexists. reflexivity. Qed.

Lemma advanceForward_scanned (rest : M SL (option kvPtr)) (q : Z)
  (l0 l : SL) :
  loadedAt cmp fs store q l0 l ->
  (forall q' l', q < q' -> loadedAt cmp fs store q' l0 l' -> scannedFrom cmp fs store q' l0 (rest l')) ->
  scannedFrom cmp fs store q l0 (advanceForward cmp split store rest l).
Proof.
  intros Hl Hrest.
  destruct (loadedAt_file q l0 l Hl)
    as (it & f & t & Eit & Hif & Hq & Hin & Hp & Ht & Htok & Hok & Hov & Hto
        & Hqn).
  destruct Hl as ([[Hbase Hload] Hsync] & Hit & Hfiles & Hfr).
  unfold advanceForward. unfold bind at 1. unfold files_Next.
  rewrite files_call_run, Hfiles, li_Next_at by lia. simpl fst. simpl snd.
  set (l1 := set_trace _ _).
  assert (Hinv1 : Inv0 cmp fs store l1).
  { split; [| exact Hload]. destruct Hbase as (B1 & B2 & B3 & B4).
    unfold Base. simpl. repeat split; auto; lia. }
  assert (Hfr1 : framed l0 l1)
    by (apply (framed_same l0 l l1); auto).
  pose proof (loadFile_forward cmp split fs store Hlevel Hstore (q + 1) l1
                Hinv1 eq_refl ltac:(lia)) as Hload1.
  apply (loadedFrom_framed cmp fs store (q + 1) l0 l1 _ Hfr1) in Hload1;
    [| apply Hfr1 | apply Hfr1].
  destruct Hload1 as (r & l2 & q2 & Eo & Hinv2 & Hfiles2 & Hq2 & Hfr2 & Hlb
                      & Hsb & Hskip & Hend).
  unfold bind at 1. rewrite Eo.
  assert (Hempty : forall j f', q + 1 <= j < q2 -> fileAt fs j = Some f' ->
            emptyWithin cmp store (lower l0) (upper l0) f').
  { intros j f' Hj Hf'.
    apply (skipped_empty cmp split fs store laws Hstore);
      [apply (fileAt_In fs j f' Hf') | apply (Hskip j f' Hj Hf')]. }
  destruct Hend as [(-> & Hnone & Hstop) | (Hr & Hsome)].
  - change (noFileLoaded =? noFileLoaded) with true. cbv iota.
    exists None, (set_exhaustedDir 1 l2). split; [reflexivity |].
    split.
    + split; [apply (Inv_same l2); auto |].
      split; [apply (framed_same l0 l2); auto; apply Hfr2 |].
      split; [exact Logic.I |]. split; [intros _; exact Logic.I |].
      intros _ _. split; [exact Hnone | reflexivity].
    + intros _ j f' Hj Hf'. destruct (Z_lt_ge_dec j q2).
      * apply (Hempty j); [lia | exact Hf'].
      * apply (stopped_empty cmp split fs store laws Hlevel Hstore
                 (lower l0) (upper l0) q2 j f' Hstop); [lia | exact Hf'].
  - assert (E : (r =? noFileLoaded) = false) by (apply Z.eqb_neq; exact Hr).
    rewrite E.
    assert (Hl2 : loadedAt cmp fs store q2 l0 l2) by (repeat split; try apply Hinv2; auto;
                                         apply Hfr2).
    destruct (iter_call_forward (sst_First cmp) q2 l0 l2 positions_First Hl2)
      as (kv & it' & f2 & Ecall & Hl3 & Hq2f & Hkv & Hfirst).
    specialize (Hfirst _ (lands_First cmp split fs store laws
                            (lower l0) (upper l0))).
    unfold bind at 1. rewrite Ecall.
    destruct kv as [kv |].
    + exists (Some (InnerKV kv)), (set_iter (Some it') l2).
      split; [reflexivity |]. destruct (Hkv kv eq_refl) as [Hk Hb].
      split.
      * split; [apply Hl3 |]. split; [apply Hl3 |].
        split; [apply (positioned_inner q2 l0 _ f2 kv Hl3 Hq2f Hk) |].
        split; [intros _; exact Hb | intros _ H; discriminate H].
      * intros _. exists q2, f2. split; [lia |]. split; [exact Hq2f |].
        split; [exact Hfirst | exact Hempty].
    + destruct (Hrest q2 _ ltac:(lia) Hl3) as (r' & l' & Er & Hok' & Hy).
      exists r', l'. split; [exact Er |]. split; [exact Hok' |].
      intros Hnone.
      apply (yieldsFrom_extend cmp fs store _ _ (q + 1) q2); [lia | |].
      * exact Hempty.
      * apply (yieldsFrom_extend cmp fs store _ _ q2 (q2 + 1)); [lia | |].
        -- intros j f' Hj Hf'. assert (j = q2) by lia. subst j.
           assert (f' = f2) by congruence. subst f'. exact Hfirst.
        -- apply Hy. exact Hnone.
Qed.

Lemma skipEmptyFileForward_loop_scanned (l0 : SL) (fuel : nat) :
  forall (q : Z) (l : SL),
    loadedAt cmp fs store q l0 l -> n - q < Z.of_nat fuel ->
    scannedFrom cmp fs store q l0
      (skipEmptyFileForward_loop (HI := HIc) invariants_Enabled cmp nI fuel l).
Proof.
  induction fuel as [| fuel IH]; intros q l Hl Hfuel.
  { destruct (loadedAt_file q l0 l Hl) as (? & ? & ? & H). lia. }
  destruct (loadedAt_file q l0 l Hl)
    as (it & f & t & Eit & Hif & Hq & Hin & Hp & Ht & Htok & Hok & Hov & Hto
        & Hqn).
  rewrite skipEmptyFileForward_loop_turn, Eit.
  assert (He : sErr it = None) by apply Hok. rewrite He.
  assert (Hadv :
    scannedFrom cmp fs store q l0
      (advanceForward cmp split store
         (skipEmptyFileForward_loop (HI := HIc) invariants_Enabled cmp nI fuel)
         l)).
  { apply advanceForward_scanned; [exact Hl |].
    intros q' l' Hq' Hl'. apply IH; [exact Hl' | lia]. }
  destruct Hl as (Hinv & Hit & Hfiles & Hfr).
  assert (Hreg : forall slot, rangeDelIterPtr l = Some slot ->
                              rangeDelIterPtr l0 <> None).
  { intros slot Hs H0. apply Hfr in H0. congruence. }
  assert (Hpause : forall uk l1,
    emitSyntheticBoundaries l1 = true ->
    iterFile l1 = Some f -> Inv cmp fs store l1 -> framed l0 l1 ->
    rangeDelIterPtr l0 <> None ->
    cmp (UserKey (SmallestPointKey f)) uk <= 0 ->
    scannedFrom cmp fs store q l0 (pauseLargest invariants_Enabled uk l1)).
  { intros uk l1 Hem Hf1 Hinv1 Hfr1 Hr Huk.
    rewrite (pauseLargest_run uk l1 Hem).
    eexists _, _. split; [reflexivity |]. split; [| intros; contradiction].
    split; [apply (Inv_same l1); auto |].
    split; [apply (framed_same l0 l1); auto |].
    split; [| split; intros; contradiction].
    exists f. split; [exact Hf1 |]. split; [exact Hp | exact Huk]. }
  destruct (rangeDelIterPtr l) as [[rd |] |] eqn:Eptr;
    destruct (UpperBound (tableOpts l)) as [ub |] eqn:Eub;
    try exact Hadv.
  - apply Hpause.
    + unfold emitSyntheticBoundaries. simpl. rewrite Eptr. reflexivity.
    + exact Hif.
    + apply (Inv_same l); auto.
    + apply (framed_same l0 l); auto.
    + apply (Hreg _ eq_refl).
    + rewrite Hto in Eub. apply tableBounds_upper in Eub.
      destruct Hov as [_ Hov]. specialize (Hov ub Eub). lia.
  - unfold bind, iterFile_deref. rewrite Hif.
    apply Hpause.
    + unfold emitSyntheticBoundaries. rewrite Eptr. reflexivity.
    + exact Hif.
    + exact Hinv.
    + exact Hfr.
    + apply (Hreg _ eq_refl).
    + apply (wf_of cmp fs Hlevel f Hin). exact Hp.
  - exists None, (set_exhaustedDir 1 l). split; [reflexivity |].
    split; [| intros H0; elim (Hreg _ eq_refl H0)].
    split; [apply (Inv_same l); auto |].
    split; [apply (framed_same l0 l); auto |].
    split; [exact Logic.I |]. split; [intros _; exact Logic.I |].
    intros H0. elim (Hreg _ eq_refl H0).
Qed.

Lemma skipEmptyFileForward_scanned (q : Z) (l0 l : SL) :
  loadedAt cmp fs store q l0 l -> scannedFrom cmp fs store q l0 (skip l).
Proof.
  intros Hl. unfold skipEmptyFileForward.
  apply skipEmptyFileForward_loop_scanned; [exact Hl |].
  destruct (loadedAt_file q l0 l Hl) as (? & ? & ? & H).
  destruct Hl as (Hinv & _ & Hfiles & _).
  rewrite (loopFuel_level fs) by (rewrite Hfiles; reflexivity). lia.
Qed.

Lemma verify_returned (q : Z) (l0 : SL)
  (call : sstIter -> option InternalKV * sstIter) (r : option kvPtr)
  (l : SL) :
  forwardOK cmp fs store l0 r l ->
  (rangeDelIterPtr l0 = None ->
   forall lo',
     lands cmp fs store (lower l0) (upper l0) lo' call ->
     laterSame cmp fs store q (lower l0) lo' ->
     yieldsFrom cmp fs store lo' (upper l0) q r) ->
  returned cmp fs store q l0 call (verify invariants_Enabled cmp r l).
Proof.
  intros Hok Hy.
  destruct (rangeDelIterPtr l0) as [slot |] eqn:Eptr.
  - destruct (verify_any r l) as [-> | [p ->]]; simpl.
    + rewrite Eptr. split; [exact Hok | exact Hy].
    + rewrite Eptr. discriminate.
  - rewrite verify_inside.
    + simpl. rewrite Eptr. split; [exact Hok | exact Hy].
    + destruct Hok as (_ & (Hlo & Hup & _) & _ & Hin & _).
      rewrite Hlo, Hup. apply Hin. exact Eptr.
Qed.

Lemma verifyOrSkip_forward (call : sstIter -> option InternalKV * sstIter)
  (q : Z) (l0 l : SL) :
  positions cmp call -> loadedAt cmp fs store q l0 l ->
  returned cmp fs store q l0 call
    (verifyOrSkip invariants_Enabled cmp (iter_call call) skip l).
Proof.
  intros Hc Hl.
  destruct (iter_call_forward call q l0 l Hc Hl)
    as (kv & it' & f & Ecall & Hl1 & Hq & Hkv & Hfirst).
  unfold verifyOrSkip. unfold bind at 1. rewrite Ecall.
  destruct kv as [kv |].
  - destruct (Hkv kv eq_refl) as [Hk Hb]. unfold verify_inner.
    apply verify_returned.
    + split; [apply Hl1 |]. split; [apply Hl1 |].
      split; [apply (positioned_inner q l0 _ f kv Hl1 Hq Hk) |].
      split; [intros _; exact Hb | intros _ H; discriminate H].
    + intros _ lo' Hfl _. exists q, f. split; [lia |]. split; [exact Hq |].
      split; [exact (Hfirst lo' Hfl) |]. intros j f' Hj. lia.
  - destruct (skipEmptyFileForward_scanned q l0 _ Hl1)
      as (r & l' & Er & Hok & Hy).
    unfold bind. rewrite Er. apply verify_returned; [exact Hok |].
    intros Hnone lo' Hfl Hlater.
    apply (yieldsFrom_extend cmp fs store _ _ q (q + 1)); [lia | |].
    + intros j f' Hj Hf'. assert (j = q) by lia. subst j.
      assert (f' = f) by congruence. subst f'. exact (Hfirst lo' Hfl).
    + apply (yieldsFrom_lower cmp fs store (lower l0) lo' (upper l0) (q + 1));
        [| apply Hy; exact Hnone].
      intros j f' kv Hj. apply Hlater. lia.
Qed.

End SkipForward.

(** ** [First], [SeekGE] and [Next] over a well-formed level *)

Section SeekGEShape.

Context {I F : Type} {HI : InternalIterator I} {HF : FragmentIterator F}.
Variable invariants_Enabled : bool.
Variable cmp : Compare.
Variable newIters : tableNewIters I F.

(** [SeekGE] is its assertion, [findFileGE] from the reset state, and what
    follows. *)
Lemma SeekGE_unfold (k : bytes) (flags : SeekGEFlags) (l : levelIter I F) :
  SeekGE invariants_Enabled cmp newIters k flags l
  = if invariants_Enabled && below cmp k (lower l)
    then Panic AssertSeekGELowerBound
    else
      match findFileGE cmp k flags (set_exhaustedDir 0 (set_err None l)) with
      | Ok m l2 => afterFindFileGE invariants_Enabled cmp newIters k flags m l2
      | Panic p => Panic p
      | OutOfFuel => OutOfFuel
      end.
Proof.
  unfold SeekGE, seekFile, afterFindFileGE, resetPosition.
  destruct (invariants_Enabled && below cmp k (lower l)); [reflexivity |].
  unfold bind at 1 2 3. unfold modify at 1.
  destruct (findFileGE cmp k flags (set_exhaustedDir 0 (set_err None l)))
    as [m l2 | p |]; reflexivity.
Qed.

End SeekGEShape.

Section ForwardCalls.

Variable invariants_Enabled : bool.
Variable cmp : Compare.
Variable split : Split.
Variable fs : list fileMetadata.
Variable store : tableStore.
Hypothesis laws : ComparerLaws cmp split.
Hypothesis Hlevel : levelOK cmp fs.
Hypothesis Hstore : storeOK cmp fs store.

Local Abbreviation n := (Z.of_nat (List.length fs)).
Local Abbreviation HIc := (sstIterOps cmp split).
Local Abbreviation nI := (sstNewIters store).
Local Abbreviation skip :=
  (skipEmptyFileForward (HI := HIc) invariants_Enabled cmp nI).

Lemma emptyWithin_stricter (lo lo' up : option bytes) (f : fileMetadata) :
  stricter cmp lo lo' -> emptyWithin cmp store lo up f ->
  emptyWithin cmp store lo' up f.
Proof.
  intros Hs He kv Hkv. specialize (He kv Hkv). unfold inBounds in *.
  destruct (inLower cmp lo' kv) eqn:E; [| reflexivity].
  rewrite (Hs kv E) in He. exact He.
Qed.

Lemma stricter_refl (lo : option bytes) : stricter cmp lo lo.
Proof. intros kv H. exact H. Qed.

Lemma laterSame_refl (p : Z) (lo : option bytes) :
  laterSame cmp fs store p lo lo.
Proof. intros j f kv _ _ _. reflexivity. Qed.

Lemma forwardOK_callOK (l0 : SL) (r : option kvPtr) (l' : SL) :
  forwardOK cmp fs store l0 r l' -> callOK cmp fs store l0 r l'.
Proof.
  intros (A & B & C & D & _).
  split; [exact A | split; [exact B | split; [exact C | exact D]]].
Qed.

Lemma returnedFrom_outcomeOK (p : Z) (l0 : SL) call o :
  returnedFrom cmp fs store p l0 call o -> outcomeOK cmp fs store l0 o.
Proof.
  destruct o as [r l' | q |]; simpl; [| tauto | tauto].
  intros [H _]. apply forwardOK_callOK. exact H.
Qed.

Lemma returned_from (p q : Z) (l0 : SL) call o :
  p <= q ->
  (forall j f, p <= j < q -> fileAt fs j = Some f ->
               skippedForward cmp (lower l0) f) ->
  returned cmp fs store q l0 call o -> returnedFrom cmp fs store p l0 call o.
Proof.
  intros Hpq Hskip. destruct o as [r l' | x |]; simpl; [| tauto | tauto].
  intros [Hok Hy]. split; [exact Hok |].
  intros Hnone lo' Hl Hs Hsame.
  apply (yieldsFrom_extend cmp fs store _ _ p q); [exact Hpq | |].
  - intros j f Hj Hf. apply (emptyWithin_stricter (lower l0)); [exact Hs |].
    apply (skipped_empty cmp split fs store laws Hstore);
      [apply (fileAt_In fs j f Hf) | apply (Hskip j f Hj Hf)].
  - apply Hy; [exact Hnone | exact Hl |].
    intros j f kv Hj. apply Hsame. lia.
Qed.

(** What follows [loadFile] in a forward call. *)
Lemma after_loadFile (call : sstIter -> option InternalKV * sstIter)
  (p : Z) (l0 l1 : SL) :
  positions cmp call -> Inv0 cmp fs store l1 -> files l1 = cursorAt fs p ->
  0 <= p <= n -> framed l0 l1 ->
  exists r l2,
    loadFile (HI := HIc) cmp nI (fileAt fs p) 1 l1 = Ok r l2
    /\ ((r = noFileLoaded
         /\ returnedFrom cmp fs store p l0 call
              (Ok None (set_exhaustedDir 1 l2)))
        \/ (r <> noFileLoaded
            /\ returnedFrom cmp fs store p l0 call
                 (verifyOrSkip invariants_Enabled cmp (iter_call call) skip
                    l2))).
Proof.
  intros Hc Hinv Hfiles Hp Hfr.
  pose proof (loadFile_forward cmp split fs store Hlevel Hstore p l1
                Hinv Hfiles Hp) as Hload.
  apply (loadedFrom_framed cmp fs store p l0 l1 _ Hfr) in Hload;
    [| apply Hfr | apply Hfr].
  destruct Hload as (r & l2 & q & Eo & Hinv2 & Hfiles2 & Hq & Hfr2 & Hlb
                     & Hsb & Hskip & Hend).
  exists r, l2. split; [exact Eo |].
  destruct Hend as [(-> & Hnone & Hstop) | (Hr & Hsome)].
  - left. split; [reflexivity |]. simpl. split.
    + split; [apply (Inv_same cmp fs store l2); auto |].
      split; [apply (framed_same l0 l2); auto; apply Hfr2 |].
      split; [exact Logic.I |]. split; [intros _; exact Logic.I |].
      intros _ _. split; [exact Hnone | reflexivity].
    + intros _ lo' _ Hs _ j f Hj Hf.
      apply (emptyWithin_stricter (lower l0)); [exact Hs |].
      destruct (Z_lt_ge_dec j q).
      * apply (skipped_empty cmp split fs store laws Hstore);
          [apply (fileAt_In fs j f Hf) | apply (Hskip j f); [lia | exact Hf]].
      * apply (stopped_empty cmp split fs store laws Hlevel Hstore
                 (lower l0) (upper l0) q j f Hstop); [lia | exact Hf].
  - right. split; [exact Hr |].
    apply (returned_from p q); [lia | exact Hskip |].
    apply (verifyOrSkip_forward invariants_Enabled cmp split fs store laws
             Hlevel Hstore call q l0 l2 Hc).
    repeat split; try apply Hinv2; auto; apply Hfr2.
Qed.

Lemma Inv0_cursor (l : SL) :
  Inv0 cmp fs store l ->
  files l = cursorAt fs (lpos (files l)) /\ -1 <= lpos (files l) <= n.
Proof.
  intros [(Hfs & Hpos & _) _]. split; [| exact Hpos].
  apply cursor_eta. exact Hfs.
Qed.

(** Moving the cursor of a well-formed state within the level. *)
Lemma Inv0_moved (tr : list (event sstIter rangeDelIter)) (p : Z) (l : SL) :
  Inv0 cmp fs store l -> -1 <= p <= n ->
  Inv0 cmp fs store (set_trace tr (set_files (cursorAt fs p) l)).
Proof.
  intros [(B1 & B2 & B3 & B4) Hload] Hp. split; [| exact Hload].
  unfold Base. simpl. repeat split; auto; lia.
Qed.

Lemma Inv0_reset (l : SL) :
  Inv0 cmp fs store l ->
  Inv0 cmp fs store (set_exhaustedDir 0 (set_err None l)).
Proof.
  intros [(B1 & B2 & B3 & B4) Hload]. split; [| exact Hload].
  unfold Base. simpl. auto.
Qed.

Lemma positions_SeekGE (k : bytes) (flags : SeekGEFlags) :
  positions cmp (sst_SeekGE cmp k flags).
Proof. intros it. eexists. reflexivity. Qed.

Lemma positions_Next : positions cmp (sst_Next cmp).
Proof. intros it. eexists. reflexivity. Qed.

(** [First] on a well-formed state. *)
Lemma First_returned (l : SL) :
  Inv0 cmp fs store l -> invariants_Enabled && is_some (lower l) = false ->
  returnedFrom cmp fs store 0 l (sst_First cmp)
    (First (HI := HIc) invariants_Enabled cmp nI l).
Proof.
  intros Hinv Hassert. unfold First. rewrite Hassert.
  unfold bind at 1. unfold resetPosition, modify.
  set (lr := set_exhaustedDir 0 (set_err None l)).
  destruct (Inv0_cursor lr (Inv0_reset l Hinv)) as [Hcur Hpos].
  unfold bind at 1. unfold files_First. rewrite files_call_run, Hcur.
  change (li_First (cursorAt fs (lpos (files lr))))
    with (fileAt fs 0, cursorAt fs 0).
  simpl fst. simpl snd.
  set (l1 := set_trace _ _).
  assert (Hinv1 : Inv0 cmp fs store l1).
  { apply (Inv0_moved _ 0 _ (Inv0_reset l Hinv)). lia. }
  assert (Hfr1 : framed l l1) by (unfold framed; simpl; tauto).
  destruct (after_loadFile (sst_First cmp) 0 l l1
              (positions_First cmp) Hinv1 eq_refl ltac:(lia) Hfr1)
    as (r & l2 & Eo & [(-> & Hret) | (Hr & Hret)]).
  - unfold bind at 1. rewrite Eo.
    change (noFileLoaded =? noFileLoaded) with true. cbv iota.
    exact Hret.
  - unfold bind at 1. rewrite Eo.
    assert (E : (r =? noFileLoaded) = false) by (apply Z.eqb_neq; exact Hr).
    rewrite E. exact Hret.
Qed.

Lemma Inv0_simF (a b : SL) :
  simF a b -> lfiles (files b) = fs -> -1 <= lpos (files b) <= n ->
  Inv0 cmp fs store a -> Inv0 cmp fs store b.
Proof.
  unfold simF, Inv0, Base, Loaded.
  intros (H1 & H2 & H3 & H4 & H5 & H6 & H7 & H8 & H9 & H10 & H11 & H12 & H13)
    Hf Hp [(B1 & B2 & B3 & B4) Hl].
  rewrite <- H1, <- H2, <- H3, <- H7, <- H8, <- H10, <- H11.
  repeat split; auto; lia.
Qed.

Lemma framed_simF (a b : SL) : simF a b -> framed a b.
Proof.
  unfold simF, framed.
  intros (H1 & H2 & H3 & H4 & H5 & H6 & H7 & H8 & H9 & H10 & H11 & H12 & H13).
  rewrite <- H1, <- H2, <- H9, <- H13. tauto.
Qed.

Lemma stricter_key (lo : option bytes) (k : bytes) :
  (forall b, lo = Some b -> cmp k b >= 0) -> stricter cmp lo (Some k).
Proof.
  intros Hk kv Hkv. destruct lo as [b |]; [| reflexivity]. simpl in *.
  apply Z.geb_le in Hkv. apply Z.geb_le.
  specialize (Hk b eq_refl).
  apply (cmp_ge_le cmp split laws) in Hk.
  assert (Hkv' : cmp k (UserKey (K kv)) <= 0)
    by (apply (cmp_ge_le cmp split laws); lia).
  pose proof (cmp_trans laws _ _ _ Hk Hkv') as H.
  apply (cmp_ge_le cmp split laws) in H. lia.
Qed.

(** A file that is not good for [k] has no key at or after [k]. *)
Lemma notGood_empty (k : bytes) (up : option bytes) (f : fileMetadata) :
  In f fs -> good cmp k f = false -> emptyWithin cmp store (Some k) up f.
Proof.
  intros Hin Hg kv Hkv.
  destruct (fileKeys_bounds cmp fs store Hstore f kv Hin Hkv)
    as (Hp & _ & Hl & Hsent).
  unfold good in Hg. rewrite Hp in Hg. simpl in Hg.
  unfold inBounds, inLower. fold (userOf kv).
  assert (Hlt : cmp (userOf kv) k < 0).
  { destruct (Z.ltb_spec (cmp (UserKey (LargestPointKey f)) k) 0)
      as [Hlt | Hge].
    - eapply (cmp_le_lt_trans cmp split laws); eassumption.
    - simpl in Hg. apply negb_false_iff in Hg.
      apply andb_true_iff in Hg. destruct Hg as [Hs He].
      apply Z.eqb_eq in He.
      eapply (cmp_lt_le_trans cmp split laws); [exact (Hsent Hs) | lia]. }
  destruct (Z.geb_spec (cmp (userOf kv) k) 0); [lia | reflexivity].
Qed.

(** After a good file for [k], every key is at or after [k]. *)
Lemma laterSame_good (k : bytes) (lo : option bytes) (g : Z) :
  firstGood cmp fs k g -> stricter cmp lo (Some k) ->
  laterSame cmp fs store g lo (Some k).
Proof.
  intros (Hg & _ & Hgood) Hs j f kv Hj Hf Hkv.
  pose proof (fileAt_In fs j f Hf) as [Hin Hjn].
  destruct (fileAt_Some fs g) as [fg Hfg]; [lia |].
  pose proof (fileAt_In fs g fg Hfg) as [Hing _].
  specialize (Hgood fg Hfg). unfold good in Hgood.
  apply andb_true_iff in Hgood. destruct Hgood as [Hgood _].
  apply andb_true_iff in Hgood. destruct Hgood as [Hpg Hge].
  apply negb_true_iff in Hge. apply Z.ltb_ge in Hge.
  destruct (fileKeys_bounds cmp fs store Hstore f kv Hin Hkv)
    as (Hp & Hsk & _ & _).
  assert (Hk : inLower cmp (Some k) kv = true).
  { simpl. fold (userOf kv). apply Z.geb_le.
    assert (H1 : cmp (UserKey (LargestPointKey fg)) (userOf kv) <= 0).
    { apply (later_file_keys cmp split laws fg f); try assumption.
      apply (fileAt_before cmp fs (proj1 Hlevel) g j); (lia || assumption). }
    destruct (Z_lt_ge_dec (cmp (userOf kv) k) 0) as [Hlt | Hok]; [| lia].
    pose proof (cmp_le_lt_trans cmp split laws _ _ _ H1 Hlt). lia. }
  rewrite Hk. symmetry. apply Hs. exact Hk.
Qed.

(** [SeekGE] without flags on a well-formed state, for a key at or after the
    lower bound. *)
Lemma SeekGE_returned (k : bytes) (l : SL) :
  Inv0 cmp fs store l -> (forall b, lower l = Some b -> cmp k b >= 0) ->
  exists g,
    firstGood cmp fs k g
    /\ returnedFrom cmp fs store g l (sst_SeekGE cmp k SeekGEFlagsNone)
         (SeekGE (HI := HIc) invariants_Enabled cmp nI k SeekGEFlagsNone l).
Proof.
  intros Hinv Hk. rewrite SeekGE_unfold.
  assert (Hbelow : below cmp k (lower l) = false).
  { unfold below. destruct (lower l) as [b |]; [| reflexivity].
    specialize (Hk b eq_refl).
    destruct (Z.ltb_spec (cmp k b) 0); [lia | reflexivity]. }
  rewrite Hbelow, andb_false_r.
  set (lr := set_exhaustedDir 0 (set_err None l)).
  destruct (Inv0_cursor lr (Inv0_reset l Hinv)) as [Hcur Hpos].
  destruct (findFileGE_none cmp split fs laws (proj1 Hlevel)
              (proj1 (proj2 Hlevel)) k _ lr Hcur)
    as (g & l2 & E & Hg & Hsim & Hf2).
  rewrite E. exists g. split; [exact Hg |].
  assert (Hgr : 0 <= g <= n) by apply Hg.
  assert (Hinv2 : Inv0 cmp fs store l2).
  { apply (Inv0_simF lr l2 Hsim); [rewrite Hf2; reflexivity
                                   | rewrite Hf2; simpl; lia
                                   | apply Inv0_reset; exact Hinv]. }
  assert (Hfr2 : framed l l2).
  { apply (framed_trans l lr l2); [unfold framed; simpl; tauto |].
    apply framed_simF. exact Hsim. }
  destruct (after_loadFile (sst_SeekGE cmp k SeekGEFlagsNone) g l l2
              (positions_SeekGE k _) Hinv2 Hf2 Hgr Hfr2)
    as (r & l3 & Eo & [(-> & Hret) | (Hr & Hret)]).
  - unfold afterFindFileGE, bind. rewrite Eo.
    change (noFileLoaded =? noFileLoaded) with true. cbv iota.
    exact Hret.
  - unfold afterFindFileGE, bind. rewrite Eo.
    assert (Er : (r =? noFileLoaded) = false) by (apply Z.eqb_neq; exact Hr).
    rewrite Er. exact Hret.
Qed.

Lemma First_outcome (l : SL) :
  Inv0 cmp fs store l -> invariants_Enabled && is_some (lower l) = false ->
  match First (HI := HIc) invariants_Enabled cmp nI l with
  | Ok r l' =>
    forwardOK cmp fs store l r l'
    /\ (rangeDelIterPtr l = None ->
        smallestWithin cmp fs store (lower l) (upper l) r)
  | Panic _ => rangeDelIterPtr l <> None
  | OutOfFuel => False
  end.
Proof.
  intros Hinv Hassert. pose proof (First_returned l Hinv Hassert) as H.
  destruct (First invariants_Enabled cmp nI l) as [r l' | p |];
    simpl in H; [| exact H | exact H].
  destruct H as [Hok Hy]. split; [exact Hok |]. intros Hnone.
  apply (yieldsFrom_smallest cmp split fs store laws Hlevel Hstore).
  apply (Hy Hnone (lower l)).
  - apply (lands_First cmp split fs store laws).
  - apply stricter_refl.
  - apply laterSame_refl.
Qed.

Lemma SeekGE_outcome (k : bytes) (l : SL) :
  Inv0 cmp fs store l -> (forall b, lower l = Some b -> cmp k b >= 0) ->
  match SeekGE (HI := HIc) invariants_Enabled cmp nI k SeekGEFlagsNone l with
  | Ok r l' =>
    forwardOK cmp fs store l r l'
    /\ (rangeDelIterPtr l = None ->
        smallestWithin cmp fs store (Some k) (upper l) r)
  | Panic _ => rangeDelIterPtr l <> None
  | OutOfFuel => False
  end.
Proof.
  intros Hinv Hk. destruct (SeekGE_returned k l Hinv Hk) as (g & Hg & H).
  destruct (SeekGE invariants_Enabled cmp nI k SeekGEFlagsNone l)
    as [r l' | p |]; simpl in H; [| exact H | exact H].
  destruct H as [Hok Hy]. split; [exact Hok |]. intros Hnone.
  apply (yieldsFrom_smallest cmp split fs store laws Hlevel Hstore).
  apply (yieldsFrom_extend cmp fs store _ _ 0 g); [apply Hg | |].
  - intros j f Hj Hf. apply notGood_empty.
    + apply (fileAt_In fs j f Hf).
    + destruct Hg as (_ & Hbefore & _). apply (Hbefore j f Hj Hf).
  - apply (Hy Hnone (Some k)).
    + apply (lands_SeekGE cmp split fs store laws). exact Hk.
    + apply stricter_key. exact Hk.
    + apply laterSame_good; [exact Hg | apply stricter_key; exact Hk].
Qed.

Lemma Inv_Inv0 (l : SL) : Inv cmp fs store l -> Inv0 cmp fs store l.
Proof. intros [H _]. exact H. Qed.

(** [Next] on a well-formed state. *)
Lemma Next_outcomeOK (l : SL) :
  Inv cmp fs store l ->
  outcomeOK cmp fs store l (Next (HI := HIc) invariants_Enabled cmp nI l).
Proof.
  intros Hinv. pose proof (Inv_Inv0 l Hinv) as Hinv0. unfold Next.
  destruct (exhaustedDir l =? -1).
  { destruct (lower l) as [lo |] eqn:Elo.
    - assert (Hk : forall b, lower l = Some b -> cmp lo b >= 0).
      { intros b Hb. rewrite Elo in Hb. injection Hb as <-.
        rewrite (cmp_refl laws). lia. }
      pose proof (SeekGE_outcome lo l Hinv0 Hk) as H.
      destruct (SeekGE invariants_Enabled cmp nI lo SeekGEFlagsNone l)
        as [r l' | p |]; simpl; [| exact H | exact H].
      apply forwardOK_callOK. apply H.
    - assert (Ha : invariants_Enabled && is_some (lower l) = false)
        by (rewrite Elo; apply andb_false_r).
      pose proof (First_outcome l Hinv0 Ha) as H.
      destruct (First invariants_Enabled cmp nI l)
        as [r l' | p |]; simpl; [| exact H | exact H].
      apply forwardOK_callOK. apply H. }
  assert (He : err l = None) by apply Hinv0. rewrite He. simpl orb.
  destruct (iter l) as [it |] eqn:Eit; simpl negb; cbv iota.
  2:{ simpl. split; [exact Hinv |]. split; [apply framed_refl |].
      split; [exact Logic.I | intros _; exact Logic.I]. }
  destruct (Inv0_cursor l Hinv0) as [Hcur Hpos].
  assert (Hl : loadedAt cmp fs store (lpos (files l)) l l).
  { split; [exact Hinv |]. split; [congruence |].
    split; [exact Hcur | apply framed_refl]. }
  destruct (loadedAt_file cmp fs store _ l l Hl)
    as (it' & f & t & _ & Hif & Hq & Hin & Hp & Ht & Htok & Hok & Hov & Hto
        & Hqn).
  destruct (is_some (largestBoundary l)).
  - destruct (is_some (UpperBound (tableOpts l))).
    + simpl. split.
      * apply (Inv_same cmp fs store l); auto;
          unfold store_rangeDelIter; destruct (rangeDelIterPtr l);
          reflexivity.
      * split.
        { unfold framed, store_rangeDelIter.
          destruct (rangeDelIterPtr l) eqn:Ep; simpl; rewrite ?Ep;
            repeat split; auto; congruence. }
        split; [exact Logic.I | intros _; exact Logic.I].
    + unfold bind at 1. unfold files_Next. rewrite files_call_run.
      rewrite Hcur at 1 2. rewrite li_Next_at by lia.
      simpl fst. simpl snd.
      set (l1 := set_trace _ _).
      assert (Hinv1 : Inv0 cmp fs store l1)
        by (apply (Inv0_moved _ _ _ Hinv0); lia).
      assert (Hfr1 : framed l l1) by (unfold framed; simpl; tauto).
      destruct (after_loadFile (sst_First cmp) (lpos (files l) + 1) l l1
                  (positions_First cmp) Hinv1 eq_refl ltac:(lia) Hfr1)
        as (r & l2 & Eo & [(-> & Hret) | (Hr & Hret)]).
      * unfold bind at 1. rewrite Eo.
        change (negb (noFileLoaded =? noFileLoaded)) with false. cbv iota.
        apply (returnedFrom_outcomeOK _ _ _ _ Hret).
      * unfold bind at 1. rewrite Eo.
        assert (E : (r =? noFileLoaded) = false)
          by (apply Z.eqb_neq; exact Hr).
        rewrite E. simpl negb. cbv iota.
        apply (returnedFrom_outcomeOK _ _ _ _ Hret).
  - unfold bind at 1. unfold modify at 1.
    assert (Hl2 : loadedAt cmp fs store (lpos (files l)) l
                    (set_smallestBoundary None l)).
    { destruct Hl as (A & B & C & D).
      split; [apply (Inv_same cmp fs store l); auto |].
      split; [exact B |]. split; [exact C | exact D]. }
    pose proof (verifyOrSkip_forward invariants_Enabled cmp split fs store
                  laws Hlevel Hstore (sst_Next cmp) _ l _ positions_Next Hl2)
      as H.
    change (iterNext (InternalIterator := HIc)) with (sst_Next cmp).
    destruct (verifyOrSkip invariants_Enabled cmp (iter_call (sst_Next cmp))
                skip (set_smallestBoundary None l))
      as [r l' | p |]; simpl in H |- *; [| exact H | exact H].
    apply forwardOK_callOK. apply H.
Qed.

End ForwardCalls.

(** ** The example levels are well formed *)

Ltac cmp_fact :=
  let H := fresh "H" in
  vm_compute;
  first [ reflexivity | discriminate | intros H; discriminate H
        | intros H; exact H ].

Lemma newLevelIter_Inv (cmp : Compare) (fs : list fileMetadata)
  (store : tableStore) (lo up : option bytes) :
  Inv cmp fs store (newLevelIter lo up fs).
Proof.
  split; [split |].
  - unfold Base. simpl. repeat split; try lia; try reflexivity.
    intros rd H. discriminate H.
  - intros it H. discriminate H.
  - reflexivity.
Qed.

Lemma twoFiles_levelOK : levelOK DefaultCompare Examples.twoFiles.
Proof.
  split; [sorted_level |]. split.
  - repeat constructor; try cmp_fact.
  - simpl. repeat constructor; simpl; intuition discriminate.
Qed.

Lemma twoStore_storeOK :
  storeOK DefaultCompare Examples.twoFiles Examples.twoStore.
Proof.
  intros f [<- | [<- | []]] _; eexists; (split; [reflexivity |]);
    (split; [reflexivity |]); (split; [reflexivity |]);
    (split; [reflexivity |]); (split; [intros rd H; discriminate H |]);
    (split; [simpl; repeat constructor; cmp_fact |]);
    intros kv [<- | [<- | []]]; repeat split; cmp_fact.
Qed.

(** ** What the forward calls return *)

Section ForwardResults.

Variable invariants_Enabled : bool.
Variable cmp : Compare.
Variable split : Split.
Variable fs : list fileMetadata.
Variable store : tableStore.
Hypothesis laws : ComparerLaws cmp split.
Hypothesis Hlevel : levelOK cmp fs.
Hypothesis Hstore : storeOK cmp fs store.

Local Abbreviation HIc := (sstIterOps cmp split).
Local Abbreviation nI := (sstNewIters store).

(** X1 ([First]): on a well-formed state with no slot registered, over a
    well-formed level whose tables read without error, [First] returns the
    smallest key of the level within the bounds, or nothing if the level has
    no key within them, and leaves a well-formed state. *)
Theorem First_yields_smallest_key (l : SL) :
  Inv0 cmp fs store l ->
  invariants_Enabled && is_some (lower l) = false ->
  rangeDelIterPtr l = None ->
  exists r l',
    First (HI := HIc) invariants_Enabled cmp nI l = Ok r l'
    /\ smallestWithin cmp fs store (lower l) (upper l) r
    /\ Inv cmp fs store l'.
Proof.
  intros Hinv Hassert Hnone.
  pose proof (First_outcome invariants_Enabled cmp split fs store laws Hlevel
                Hstore l Hinv Hassert) as H.
  destruct (First invariants_Enabled cmp nI l) as [r l' | p |].
  - exists r, l'. split; [reflexivity |].
    split; [apply H; exact Hnone | apply H].
  - contradiction.
  - contradiction.
Qed.

(** X2 ([SeekGE]): on a well-formed state with no slot registered,
    [SeekGE] without flags for a key [k] at or after the lower bound returns
    the smallest key of the level at or after [k] and before the upper
    bound, or nothing if there is none. *)
Theorem SeekGE_yields_smallest_key_at_or_after (k : bytes) (l : SL) :
  Inv0 cmp fs store l ->
  (forall b, lower l = Some b -> cmp k b >= 0) ->
  rangeDelIterPtr l = None ->
  exists r l',
    SeekGE (HI := HIc) invariants_Enabled cmp nI k SeekGEFlagsNone l = Ok r l'
    /\ smallestWithin cmp fs store (Some k) (upper l) r
    /\ Inv cmp fs store l'.
Proof.
  intros Hinv Hk Hnone.
  pose proof (SeekGE_outcome invariants_Enabled cmp split fs store laws Hlevel
                Hstore k l Hinv Hk) as H.
  destruct (SeekGE invariants_Enabled cmp nI k SeekGEFlagsNone l)
    as [r l' | p |].
  - exists r, l'. split; [reflexivity |].
    split; [apply H; exact Hnone | apply H].
  - contradiction.
  - contradiction.
Qed.

(** X3 ([Next] after backward exhaustion): with [exhaustedDir = -1], [Next]
    is [SeekGE] at the lower bound if there is one and [First] otherwise;
    with no slot registered it returns the smallest key within the
    bounds. *)
Theorem Next_restarts_forward (l : SL) :
  Inv0 cmp fs store l -> exhaustedDir l = -1 -> rangeDelIterPtr l = None ->
  Next (HI := HIc) invariants_Enabled cmp nI l
  = match lower l with
    | Some lo => SeekGE (HI := HIc) invariants_Enabled cmp nI lo
                   SeekGEFlagsNone l
    | None => First (HI := HIc) invariants_Enabled cmp nI l
    end
  /\ exists r l',
       Next (HI := HIc) invariants_Enabled cmp nI l = Ok r l'
       /\ smallestWithin cmp fs store (lower l) (upper l) r
       /\ Inv cmp fs store l'.
Proof.
  intros Hinv Hdir Hnone.
  assert (E : Next (HI := HIc) invariants_Enabled cmp nI l
              = match lower l with
                | Some lo => SeekGE (HI := HIc) invariants_Enabled cmp nI lo
                               SeekGEFlagsNone l
                | None => First (HI := HIc) invariants_Enabled cmp nI l
                end).
  { unfold Next. rewrite Hdir. reflexivity. }
  split; [exact E |]. rewrite E.
  destruct (lower l) as [lo |] eqn:Elo.
  - assert (Hk : forall b, lower l = Some b -> cmp lo b >= 0).
    { intros b Hb. rewrite Elo in Hb. injection Hb as <-.
      rewrite (cmp_refl laws). lia. }
    pose proof (SeekGE_outcome invariants_Enabled cmp split fs store laws
                  Hlevel Hstore lo l Hinv Hk) as H.
    destruct (SeekGE invariants_Enabled cmp nI lo SeekGEFlagsNone l)
      as [r l' | p |]; [| contradiction | contradiction].
    exists r, l'. split; [reflexivity |].
    split; [apply H; exact Hnone | apply H].
  - assert (Ha : invariants_Enabled && is_some (lower l) = false)
      by (rewrite Elo; apply andb_false_r).
    pose proof (First_outcome invariants_Enabled cmp split fs store laws
                  Hlevel Hstore l Hinv Ha) as H.
    rewrite Elo in H.
    destruct (First invariants_Enabled cmp nI l)
      as [r l' | p |]; [| contradiction | contradiction].
    exists r, l'. split; [reflexivity |].
    split; [apply H; exact Hnone | apply H].
Qed.



End ForwardResults.

Lemma First_yields_smallest_key_witness :
  exists r l',
    First (HI := sstIterOps DefaultCompare DefaultSplit) true DefaultCompare
      (sstNewIters Examples.twoStore) Walks.freshTwo = Ok r l'
    /\ smallestWithin DefaultCompare Examples.twoFiles Examples.twoStore
         None None r
    /\ Inv DefaultCompare Examples.twoFiles Examples.twoStore l'.
Proof.
  apply (First_yields_smallest_key true DefaultCompare DefaultSplit
           Examples.twoFiles Examples.twoStore DefaultComparer_laws
           twoFiles_levelOK twoStore_storeOK Walks.freshTwo).
  - apply newLevelIter_Inv.
  - reflexivity.
  - reflexivity.
Defined.

Lemma SeekGE_yields_smallest_key_at_or_after_witness :
  exists r l',
    SeekGE (HI := sstIterOps DefaultCompare DefaultSplit) true DefaultCompare
      (sstNewIters Examples.twoStore) "d" SeekGEFlagsNone Walks.freshAboveB
    = Ok r l'
    /\ smallestWithin DefaultCompare Examples.twoFiles Examples.twoStore
         (Some "d") None r
    /\ Inv DefaultCompare Examples.twoFiles Examples.twoStore l'.
Proof.
  apply (SeekGE_yields_smallest_key_at_or_after true DefaultCompare
           DefaultSplit Examples.twoFiles Examples.twoStore
           DefaultComparer_laws twoFiles_levelOK twoStore_storeOK "d"
           Walks.freshAboveB).
  - apply newLevelIter_Inv.
  - intros b Hb. injection Hb as <-. vm_compute. discriminate.
  - reflexivity.
Defined.

(** ** States of the walks over the two files *)

Lemma oneFile_levelOK : levelOK DefaultCompare Examples.oneFile.
Proof.
  split; [sorted_level |]. split.
  - repeat constructor; try cmp_fact.
  - simpl. repeat constructor; simpl; intuition discriminate.
Qed.

Lemma oneStore_storeOK :
  storeOK DefaultCompare Examples.oneFile Examples.oneStore.
Proof.
  intros f [<- | []] _; eexists; (split; [reflexivity |]);
    (split; [reflexivity |]); (split; [reflexivity |]);
    (split; [reflexivity |]); (split; [intros rd H; discriminate H |]);
    (split; [simpl; repeat constructor; cmp_fact |]);
    intros kv [<- | []]; repeat split; cmp_fact.
Qed.

Lemma backwardExhausted_Inv0 :
  Inv0 DefaultCompare Examples.oneFile Examples.oneStore
       Examples.backwardExhausted.
Proof.
  split.
  - unfold Base. vm_compute.
    repeat split; try discriminate; intros rd H; discriminate H.
  - intros it H. vm_compute in H. discriminate H.
Qed.

Lemma onA_Inv :
  Inv DefaultCompare Examples.twoFiles Examples.twoStore Walks.onA.
Proof.
  pose proof (First_outcome true DefaultCompare DefaultSplit
                Examples.twoFiles Examples.twoStore DefaultComparer_laws
                twoFiles_levelOK twoStore_storeOK Walks.freshTwo
                (Inv_Inv0 _ _ _ _ (newLevelIter_Inv _ _ _ _ _)) eq_refl) as H.
  unfold Walks.onA, Sst.first.
  destruct (First _ _ _ _) as [r l' | p |]; simpl.
  - apply H.
  - exfalso. apply H. reflexivity.
  - contradiction.
Qed.


Lemma Next_restarts_forward_witness :
  Next (HI := sstIterOps DefaultCompare DefaultSplit) true DefaultCompare
    (sstNewIters Examples.oneStore) Examples.backwardExhausted
  = match lower Examples.backwardExhausted with
    | Some lo =>
      SeekGE (HI := sstIterOps DefaultCompare DefaultSplit) true
        DefaultCompare (sstNewIters Examples.oneStore) lo SeekGEFlagsNone
        Examples.backwardExhausted
    | None =>
      First (HI := sstIterOps DefaultCompare DefaultSplit) true DefaultCompare
        (sstNewIters Examples.oneStore) Examples.backwardExhausted
    end
  /\ exists r l',
       Next (HI := sstIterOps DefaultCompare DefaultSplit) true DefaultCompare
         (sstNewIters Examples.oneStore) Examples.backwardExhausted = Ok r l'
       /\ smallestWithin DefaultCompare Examples.oneFile Examples.oneStore
            (lower Examples.backwardExhausted)
            (upper Examples.backwardExhausted) r
       /\ Inv DefaultCompare Examples.oneFile Examples.oneStore l'.
Proof.
  refine (Next_restarts_forward true DefaultCompare DefaultSplit
            Examples.oneFile Examples.oneStore DefaultComparer_laws
            oneFile_levelOK oneStore_storeOK Examples.backwardExhausted
            backwardExhausted_Inv0 _ _).
  - vm_compute. reflexivity.
  - vm_compute. reflexivity.
Defined.



(** ** The bounds of a table *)

(** X6 ([initTableBounds]): for a file and any bounds, [initTableBounds]
    writes [tableOpts] only and answers -1 exactly when the file ends before
    the lower bound, otherwise +1 exactly when it starts at or after the
    upper bound, and otherwise 0, when the file overlaps the bounds; then
    [tableOpts] holds each bound only if it falls within the file. *)
Theorem initTableBounds_answer (cmp : Compare) (f : fileMetadata) (l : SL) :
  exists r X,
    initTableBounds cmp (Some f) l = Ok r (set_tableOpts X l)
    /\ ((r = -1
         /\ exists b, lower l = Some b
                      /\ cmp (UserKey (LargestPointKey f)) b < 0)
        \/ (r = 1
            /\ (forall b, lower l = Some b ->
                          cmp (UserKey (LargestPointKey f)) b >= 0)
            /\ exists b, upper l = Some b
                         /\ cmp (UserKey (SmallestPointKey f)) b >= 0)
        \/ (r = 0 /\ overlaps cmp (lower l) (upper l) f
            /\ X = tableBounds cmp (lower l) (upper l) f)).
Proof.
  destruct l as [lo up topts sb lb syb cs it itf ptr cpy fls er ex di tr].
  unfold initTableBounds, initTableBounds_upper, set_tableLower,
    set_tableUpper, overlaps, tableBounds. simpl.
  destruct lo as [lo |], up as [up |]; simpl.
  - destruct (Z.ltb_spec (cmp (UserKey (LargestPointKey f)) lo) 0).
    { eexists _, _. split; [reflexivity |]. left. eauto. }
    destruct (cmp lo (UserKey (SmallestPointKey f)) <=? 0);
      destruct (Z.geb_spec (cmp (UserKey (SmallestPointKey f)) up) 0);
      try (eexists _, _; split; [reflexivity |]; right; left;
           split; [reflexivity |];
           split; [intros b Hb; injection Hb as <-; lia |];
           exists up; split; [reflexivity | lia]);
      destruct (cmp up (UserKey (LargestPointKey f)) >? 0);
      (eexists _, _; split; [reflexivity |]; right; right;
       split; [reflexivity |]; split; [| reflexivity];
       split; intros b Hb; injection Hb as <-; lia).
  - destruct (Z.ltb_spec (cmp (UserKey (LargestPointKey f)) lo) 0).
    { eexists _, _. split; [reflexivity |]. left. eauto. }
    destruct (cmp lo (UserKey (SmallestPointKey f)) <=? 0);
      (eexists _, _; split; [reflexivity |]; right; right;
       split; [reflexivity |]; split; [| reflexivity];
       split; intros b Hb; [injection Hb as <-; lia | discriminate]).
  - destruct (Z.geb_spec (cmp (UserKey (SmallestPointKey f)) up) 0).
    { eexists _, _. split; [reflexivity |]. right. left.
      split; [reflexivity |]. split; [intros b Hb; discriminate |].
      exists up. split; [reflexivity | lia]. }
    destruct (cmp up (UserKey (LargestPointKey f)) >? 0);
      (eexists _, _; split; [reflexivity |]; right; right;
       split; [reflexivity |]; split; [| reflexivity];
       split; intros b Hb; [discriminate | injection Hb as <-; lia]).
  - eexists _, _. split; [reflexivity |]. right. right.
    split; [reflexivity |]. split; [| reflexivity].
    split; intros b Hb; discriminate.
Qed.

(** ** The switch to combined iteration *)

Section Trigger.

Context {I F : Type}.
Variable cmp : Compare.
Variable split : Split.
Hypothesis laws : ComparerLaws cmp split.

(** X7 ([maybeTriggerCombinedIteration]): the call writes the state of
    combined iteration only, and nothing when no such state is registered or
    when it is initialized; it never changes [initialized], never resets
    [triggered], and once triggered the recorded key only moves down in a
    forward call and up in a backward one. *)
Theorem maybeTriggerCombinedIteration_key_moves_outward
  (file : option fileMetadata) (dir : Z) (l : levelIter I F) :
  (combinedIterState l = None ->
   maybeTriggerCombinedIteration cmp file dir l = l)
  /\ forall cs,
       combinedIterState l = Some cs ->
       exists cs',
         maybeTriggerCombinedIteration cmp file dir l
         = set_combinedIterState (Some cs') l
         /\ initialized cs' = initialized cs
         /\ (initialized cs = true -> cs' = cs)
         /\ (triggered cs = true ->
             triggered cs' = true
             /\ (dir = 1 -> cmp (key cs') (key cs) <= 0)
             /\ (dir = -1 -> cmp (key cs') (key cs) >= 0)).
Proof.
  destruct l as [lo up topts sb lb syb cst it itf ptr cpy fls er ex di tr].
  unfold maybeTriggerCombinedIteration. simpl. split.
  - intros ->. destruct file; reflexivity.
  - intros cs ->.
    assert (Hsame : exists cs',
               mkLevelIter lo up topts sb lb syb (Some cs) it itf ptr cpy fls
                           er ex di tr
               = mkLevelIter lo up topts sb lb syb (Some cs') it itf ptr cpy
                             fls er ex di tr
               /\ initialized cs' = initialized cs
               /\ (initialized cs = true -> cs' = cs)
               /\ (triggered cs = true ->
                   triggered cs' = true
                   /\ (dir = 1 -> cmp (key cs') (key cs) <= 0)
                   /\ (dir = -1 -> cmp (key cs') (key cs) >= 0))).
    { exists cs. repeat split; try assumption;
        intros _; rewrite (cmp_refl laws); lia. }
    destruct file as [f |]; [| exact Hsame].
    destruct (initialized cs) eqn:Einit.
    { rewrite andb_false_r. simpl. exact Hsame. }
    match goal with
    | |- context [if ?b then _ else _] => destruct b; [| exact Hsame]
    end.
    destruct (Z.eqb_spec dir 1) as [-> | Hd1].
    + destruct (triggered cs) eqn:Etr; simpl.
      * destruct (Z.gtb_spec (cmp (key cs) (UserKey (SmallestRangeKey f))) 0)
          as [Hgt | Hle]; [| exact Hsame].
        eexists. split; [reflexivity |]. simpl.
        split; [reflexivity |]. split; [intros H; discriminate H |].
        intros _. split; [reflexivity |]. split; [| intros H; discriminate H].
        intros _. pose proof (cmp_flip laws (UserKey (SmallestRangeKey f))
                                (key cs)). lia.
      * eexists. split; [reflexivity |]. simpl.
        split; [reflexivity |]. split; [intros H; discriminate H |].
        intros H; discriminate H.
    + destruct (Z.eqb_spec dir (-1)) as [-> | Hd2]; [| exact Hsame].
      destruct (triggered cs) eqn:Etr; simpl.
      * destruct (Z.ltb_spec (cmp (key cs) (UserKey (LargestRangeKey f))) 0)
          as [Hlt | Hge]; [| exact Hsame].
        eexists. split; [reflexivity |]. simpl.
        split; [reflexivity |]. split; [intros H; discriminate H |].
        intros _. split; [reflexivity |]. split; [intros H; discriminate H |].
        intros _. pose proof (cmp_flip laws (key cs)
                                (UserKey (LargestRangeKey f))). lia.
      * eexists. split; [reflexivity |]. simpl.
        split; [reflexivity |]. split; [intros H; discriminate H |].
        intros H; discriminate H.
Qed.

End Trigger.

Lemma maybeTriggerCombinedIteration_key_moves_outward_witness :
  (combinedIterState Walks.triggeredAtM = None ->
   maybeTriggerCombinedIteration DefaultCompare (Some Walks.rangeKeyFile) 1
     Walks.triggeredAtM = Walks.triggeredAtM)
  /\ forall cs,
       combinedIterState Walks.triggeredAtM = Some cs ->
       exists cs',
         maybeTriggerCombinedIteration DefaultCompare
           (Some Walks.rangeKeyFile) 1 Walks.triggeredAtM
         = set_combinedIterState (Some cs') Walks.triggeredAtM
         /\ initialized cs' = initialized cs
         /\ (initialized cs = true -> cs' = cs)
         /\ (triggered cs = true ->
             triggered cs' = true
             /\ (1 = 1 -> DefaultCompare (key cs') (key cs) <= 0)
             /\ (1 = -1 -> DefaultCompare (key cs') (key cs) >= 0)).
Proof.
  exact (maybeTriggerCombinedIteration_key_moves_outward DefaultCompare
           DefaultSplit DefaultComparer_laws (Some Walks.rangeKeyFile) 1
           Walks.triggeredAtM).
Defined.

(** ** The file a seek stops at *)

Section FindFileGEResults.

Context {I F : Type}.
Variable cmp : Compare.
Variable split : Split.
Variable fs : list fileMetadata.
Hypothesis laws : ComparerLaws cmp split.
Hypothesis Hsorted : levelSorted cmp fs.
Hypothesis Hwf : Forall (wfFile cmp) fs.

(** X8 ([findFileGE] without flags): over a sorted level, wherever the
    cursor is, the call returns the first file of the level that has point
    keys and whose largest one is at or after the key, not counting an
    exclusive sentinel at the key, or nothing if there is no such file; it
    leaves the cursor there and writes nothing but the cursor, the trace
    and the state of combined iteration. *)
Theorem findFileGE_returns_first_candidate (k : bytes) (i : Z)
  (l : levelIter I F) :
  files l = cursorAt fs i ->
  exists g l',
    findFileGE cmp k SeekGEFlagsNone l = Ok (fileAt fs g) l'
    /\ firstGood cmp fs k g
    /\ simF l l' /\ files l' = cursorAt fs g.
Proof.
  intros Hfiles.
  exact (findFileGE_none cmp split fs laws Hsorted Hwf k i l Hfiles).
Qed.

(** X9 ([findFileGE] with [TrySeekUsingNext]): when [iterFile] is the file
    under the cursor and no file before it is a candidate for the key,
    stepping from the current file finds the same file as the seek without
    flags and leaves the same state, up to the trace and the state of
    combined iteration. *)
Theorem findFileGE_try_seek_using_next_same_file (k : bytes) (i : Z)
  (l : levelIter I F) :
  files l = cursorAt fs i -> 0 <= i <= Z.of_nat (List.length fs) ->
  iterFile l = fileAt fs i ->
  (forall j f, 0 <= j < i -> fileAt fs j = Some f -> good cmp k f = false) ->
  exists m l1 l2,
    findFileGE cmp k (EnableTrySeekUsingNext SeekGEFlagsNone) l = Ok m l1
    /\ findFileGE cmp k SeekGEFlagsNone l = Ok m l2
    /\ sim l1 l2
    /\ exists g, m = fileAt fs g /\ firstGood cmp fs k g.
Proof.
  intros Hfiles Hi Hsync Hbefore.
  destruct (findFileGE_flags_agree cmp split fs laws Hsorted Hwf k i l
              Hfiles Hi Hsync Hbefore) as (m & l1 & l2 & E1 & E2 & Hsim).
  exists m, l1, l2. split; [exact E1 |]. split; [exact E2 |].
  split; [exact Hsim |].
  destruct (findFileGE_none cmp split fs laws Hsorted Hwf k i l Hfiles)
    as (g & l' & E & Hg & _).
  exists g. split; [congruence | exact Hg].
Qed.

End FindFileGEResults.

Section SeekUsingNext.

Variable invariants_Enabled : bool.
Variable cmp : Compare.
Variable split : Split.
Variable fs : list fileMetadata.
Variable store : tableStore.
Hypothesis laws : ComparerLaws cmp split.
Hypothesis Hlevel : levelOK cmp fs.
Hypothesis Hstore : storeOK cmp fs store.

Local Abbreviation HIc := (sstIterOps cmp split).
Local Abbreviation nI := (sstNewIters store).



End SeekUsingNext.

Lemma eightFiles_levelOK : levelOK DefaultCompare Examples.eightFiles.
Proof.
  split; [sorted_level |]. split.
  - repeat constructor; try cmp_fact.
  - simpl. repeat constructor; simpl; intuition discriminate.
Qed.

Lemma onE_Inv :
  Inv DefaultCompare Examples.twoFiles Examples.twoStore Walks.onE.
Proof.
  assert (Hk : forall b, lower Walks.freshTwo = Some b ->
                         DefaultCompare "e" b >= 0)
    by (intros b H; discriminate H).
  pose proof (SeekGE_outcome true DefaultCompare DefaultSplit
                Examples.twoFiles Examples.twoStore DefaultComparer_laws
                twoFiles_levelOK twoStore_storeOK "e" Walks.freshTwo
                (Inv_Inv0 _ _ _ _ (newLevelIter_Inv _ _ _ _ _)) Hk) as H.
  unfold Walks.onE, Sst.seekGE.
  destruct (SeekGE _ _ _ _ _ _) as [r l' | p |]; simpl.
  - apply H.
  - exfalso. apply H. reflexivity.
  - contradiction.
Qed.

Lemma findFileGE_returns_first_candidate_witness :
  exists g l',
    findFileGE DefaultCompare "d" SeekGEFlagsNone Walks.freshTwo
    = Ok (fileAt Examples.twoFiles g) l'
    /\ firstGood DefaultCompare Examples.twoFiles "d" g
    /\ simF Walks.freshTwo l' /\ files l' = cursorAt Examples.twoFiles g.
Proof.
  exact (findFileGE_returns_first_candidate DefaultCompare DefaultSplit
           Examples.twoFiles DefaultComparer_laws
           (proj1 twoFiles_levelOK) (proj1 (proj2 twoFiles_levelOK))
           "d" (-1) Walks.freshTwo eq_refl).
Defined.

Lemma atK2_cursor : files Examples.atK2 = cursorAt Examples.eightFiles 1.
Proof. vm_compute. reflexivity. Qed.

Lemma atK2_file : iterFile Examples.atK2 = fileAt Examples.eightFiles 1.
Proof. vm_compute. reflexivity. Qed.

Lemma eightFiles_k1_before_k7 (j : Z) (f : fileMetadata) :
  0 <= j < 1 -> fileAt Examples.eightFiles j = Some f ->
  good DefaultCompare "k7" f = false.
Proof.
  intros Hj Hf. assert (j = 0) by lia. subst j.
  vm_compute in Hf. injection Hf as <-. vm_compute. reflexivity.
Qed.

Lemma findFileGE_try_seek_using_next_same_file_witness :
  exists m l1 l2,
    findFileGE DefaultCompare "k7" (EnableTrySeekUsingNext SeekGEFlagsNone)
      Examples.atK2 = Ok m l1
    /\ findFileGE DefaultCompare "k7" SeekGEFlagsNone Examples.atK2 = Ok m l2
    /\ sim l1 l2
    /\ exists g, m = fileAt Examples.eightFiles g
                 /\ firstGood DefaultCompare Examples.eightFiles "k7" g.
Proof.
  refine (findFileGE_try_seek_using_next_same_file DefaultCompare DefaultSplit
            Examples.eightFiles DefaultComparer_laws
            (proj1 eightFiles_levelOK) (proj1 (proj2 eightFiles_levelOK))
            "k7" 1 Examples.atK2 atK2_cursor _ atK2_file
            eightFiles_k1_before_k7).
  vm_compute. split; discriminate.
Defined.




(** ** Loading and skipping files *)

Section LoadAndSkip.

Variable invariants_Enabled : bool.
Variable cmp : Compare.
Variable split : Split.
Variable fs : list fileMetadata.
Variable store : tableStore.
Hypothesis laws : ComparerLaws cmp split.
Hypothesis Hlevel : levelOK cmp fs.
Hypothesis Hstore : storeOK cmp fs store.

Local Abbreviation HIc := (sstIterOps cmp split).
Local Abbreviation nI := (sstNewIters store).

(** X11 ([loadFile] forward): called with the file under the cursor and
    direction +1 on a well-formed state, [loadFile] passes over the files
    without point keys and those wholly before the lower bound; it ends
    with the first other file open, or with no file loaded and the inner
    iterator closed, past the last file or at a file wholly at or after the
    upper bound; it clears both boundary pointers. *)
Theorem loadFile_forward_outcome (p : Z) (l : SL) :
  Inv0 cmp fs store l -> files l = cursorAt fs p ->
  0 <= p <= Z.of_nat (List.length fs) ->
  exists r l' q,
    loadFile (HI := HIc) cmp nI (fileAt fs p) 1 l = Ok r l'
    /\ Inv cmp fs store l' /\ files l' = cursorAt fs q
    /\ p <= q <= Z.of_nat (List.length fs) /\ framed l l'
    /\ largestBoundary l' = None /\ smallestBoundary l' = None
    /\ (forall j f, p <= j < q -> fileAt fs j = Some f ->
                    skippedForward cmp (lower l) f)
    /\ ((r = noFileLoaded /\ iter l' = None
         /\ stoppedForward cmp fs (upper l) q)
        \/ (r <> noFileLoaded /\ iter l' <> None)).
Proof.
  intros Hinv Hfiles Hp.
  exact (loadFile_forward cmp split fs store Hlevel Hstore p l Hinv Hfiles
           Hp).
Qed.

(** X12 ([skipEmptyFileForward]): from a well-formed state with a file
    open, the call ends within the bound on its loop; with no slot
    registered it returns the first key within the bounds of the first later
    file that has one, or nothing if no later file has one. *)
Theorem skipEmptyFileForward_yields_next_key (q : Z) (l : SL) :
  Inv cmp fs store l -> iter l <> None -> files l = cursorAt fs q ->
  exists r l',
    skipEmptyFileForward (HI := HIc) invariants_Enabled cmp nI l = Ok r l'
    /\ forwardOK cmp fs store l r l'
    /\ (rangeDelIterPtr l = None ->
        yieldsFrom cmp fs store (lower l) (upper l) (q + 1) r).
Proof.
  intros Hinv Hiter Hfiles.
  apply (skipEmptyFileForward_scanned invariants_Enabled cmp split fs store
           laws Hlevel Hstore q l l).
  split; [exact Hinv |]. split; [exact Hiter |].
  split; [exact Hfiles | apply framed_refl].
Qed.

(** X13 ([Error] after a forward call): over a level whose tables read
    without error, [Error] is nil in the state a forward call leaves. *)
Theorem Error_nil_after_forward_call (k : bytes) (l l' : SL)
  (r : option kvPtr) :
  Inv cmp fs store l ->
  (invariants_Enabled && is_some (lower l) = false
   /\ First (HI := HIc) invariants_Enabled cmp nI l = Ok r l')
  \/ ((forall b, lower l = Some b -> cmp k b >= 0)
      /\ SeekGE (HI := HIc) invariants_Enabled cmp nI k SeekGEFlagsNone l
         = Ok r l')
  \/ Next (HI := HIc) invariants_Enabled cmp nI l = Ok r l' ->
  Error (HI := HIc) l' = None.
Proof.
  intros Hinv Hcall.
  pose proof (Inv_Inv0 cmp fs store l Hinv) as Hinv0.
  assert (Hinv' : Inv0 cmp fs store l').
  { destruct Hcall as [[Ha E] | [[Hk E] | E]].
    - pose proof (First_outcome invariants_Enabled cmp split fs store laws
                    Hlevel Hstore l Hinv0 Ha) as H.
      rewrite E in H. apply H.
    - pose proof (SeekGE_outcome invariants_Enabled cmp split fs store laws
                    Hlevel Hstore k l Hinv0 Hk) as H.
      rewrite E in H. apply H.
    - pose proof (Next_outcomeOK invariants_Enabled cmp split fs store laws
                    Hlevel Hstore l Hinv) as H.
      rewrite E in H. apply H. }
  destruct Hinv' as [(_ & _ & Herr & _) Hload].
  unfold Error. rewrite Herr. simpl.
  destruct (iter l') as [it |] eqn:Eit; simpl; [| reflexivity].
  destruct (Hload it Eit) as (f & t & _ & _ & _ & _ & _ & Hok & _).
  apply Hok.
Qed.

End LoadAndSkip.

Lemma cursorOnFirst_Inv0 :
  Inv0 DefaultCompare Examples.twoFiles Examples.twoStore Walks.cursorOnFirst.
Proof.
  split.
  - unfold Base. simpl. repeat split; try lia; try reflexivity.
    intros rd H. discriminate H.
  - intros it H. discriminate H.
Qed.

Lemma onA_run :
  First (HI := sstIterOps DefaultCompare DefaultSplit) true DefaultCompare
    (sstNewIters Examples.twoStore) Walks.freshTwo
  = Ok (Some (InnerKV (Sst.kvOf "a"))) Walks.onA.
Proof. vm_compute. reflexivity. Qed.

Lemma onA_open : iter Walks.onA <> None.
Proof. vm_compute. discriminate. Qed.

Lemma onA_cursor : files Walks.onA = cursorAt Examples.twoFiles 0.
Proof. vm_compute. reflexivity. Qed.

Lemma loadFile_forward_outcome_witness :
  exists r l' q,
    loadFile (HI := sstIterOps DefaultCompare DefaultSplit) DefaultCompare
      (sstNewIters Examples.twoStore) (fileAt Examples.twoFiles 0) 1
      Walks.cursorOnFirst = Ok r l'
    /\ Inv DefaultCompare Examples.twoFiles Examples.twoStore l'
    /\ files l' = cursorAt Examples.twoFiles q
    /\ 0 <= q <= Z.of_nat (List.length Examples.twoFiles)
    /\ framed Walks.cursorOnFirst l'
    /\ largestBoundary l' = None /\ smallestBoundary l' = None
    /\ (forall j f, 0 <= j < q -> fileAt Examples.twoFiles j = Some f ->
                    skippedForward DefaultCompare
                      (lower Walks.cursorOnFirst) f)
    /\ ((r = noFileLoaded /\ iter l' = None
         /\ stoppedForward DefaultCompare Examples.twoFiles
              (upper Walks.cursorOnFirst) q)
        \/ (r <> noFileLoaded /\ iter l' <> None)).
Proof.
  refine (loadFile_forward_outcome DefaultCompare DefaultSplit
            Examples.twoFiles Examples.twoStore twoFiles_levelOK
            twoStore_storeOK 0 Walks.cursorOnFirst cursorOnFirst_Inv0
            eq_refl _).
  simpl. lia.
Defined.

Lemma skipEmptyFileForward_yields_next_key_witness :
  exists r l',
    skipEmptyFileForward (HI := sstIterOps DefaultCompare DefaultSplit) true
      DefaultCompare (sstNewIters Examples.twoStore) Walks.onA = Ok r l'
    /\ forwardOK DefaultCompare Examples.twoFiles Examples.twoStore Walks.onA
         r l'
    /\ (rangeDelIterPtr Walks.onA = None ->
        yieldsFrom DefaultCompare Examples.twoFiles Examples.twoStore
          (lower Walks.onA) (upper Walks.onA) (0 + 1) r).
Proof.
  exact (skipEmptyFileForward_yields_next_key true DefaultCompare DefaultSplit
           Examples.twoFiles Examples.twoStore DefaultComparer_laws
           twoFiles_levelOK twoStore_storeOK 0 Walks.onA onA_Inv onA_open
           onA_cursor).
Defined.

Lemma Error_nil_after_forward_call_witness :
  Error (HI := sstIterOps DefaultCompare DefaultSplit) Walks.onA = None.
Proof.
  exact (Error_nil_after_forward_call true DefaultCompare DefaultSplit
           Examples.twoFiles Examples.twoStore DefaultComparer_laws
           twoFiles_levelOK twoStore_storeOK "a" Walks.freshTwo Walks.onA
           (Some (InnerKV (Sst.kvOf "a")))
           (newLevelIter_Inv DefaultCompare Examples.twoFiles
              Examples.twoStore None None)
           (or_introl (conj eq_refl onA_run))).
Defined.

(** ** The check of a returned key *)

(** X14 ([verify]): the check returns its argument in the same state or
    stops with a fatal bound violation; it is the identity when invariants
    are compiled out or disabled, and otherwise it accepts a key of a table
    exactly when the key is at or after the lower bound and at or before the
    upper bound, the upper bound itself included. *)
Theorem verify_accepts_keys_within_bounds (invariants_Enabled : bool)
  (cmp : Compare) (kv : InternalKV) (l : SL) :
  (forall r,
     verify invariants_Enabled cmp r l = Ok r l
     \/ verify invariants_Enabled cmp r l = Panic FatalLowerBoundViolation
     \/ verify invariants_Enabled cmp r l = Panic FatalUpperBoundViolation)
  /\ (invariants_Enabled && negb (disableInvariants l) = false ->
      forall r, verify invariants_Enabled cmp r l = Ok r l)
  /\ (invariants_Enabled && negb (disableInvariants l) = true ->
      (verify invariants_Enabled cmp (Some (InnerKV kv)) l
       = Ok (Some (InnerKV kv)) l
       <-> (forall b, lower l = Some b -> cmp (userOf kv) b >= 0)
           /\ (forall b, upper l = Some b -> cmp (userOf kv) b <= 0))).
Proof.
  split; [| split].
  - intros r. unfold verify. destruct r as [p |]; [| left; reflexivity].
    destruct (invariants_Enabled && negb (disableInvariants l));
      [| left; reflexivity].
    match goal with
    | |- context [if ?b then Panic FatalLowerBoundViolation else _] =>
      destruct b; [right; left; reflexivity |]
    end.
    match goal with
    | |- context [if ?b then Panic FatalUpperBoundViolation else _] =>
      destruct b; [right; right; reflexivity | left; reflexivity]
    end.
  - intros Hoff r. unfold verify. rewrite Hoff.
    destruct r; reflexivity.
  - intros Hon. unfold verify, userOf. rewrite Hon. simpl.
    destruct (lower l) as [lo |], (upper l) as [up |]; simpl.
    + destruct (Z.ltb_spec (cmp (UserKey (K kv)) lo) 0).
      { split; [intros H0; discriminate H0 |].
        intros [Hlo _]. specialize (Hlo lo eq_refl). lia. }
      destruct (Z.gtb_spec (cmp (UserKey (K kv)) up) 0).
      { split; [intros H1; discriminate H1 |].
        intros [_ Hup]. specialize (Hup up eq_refl). lia. }
      split; [| reflexivity]. intros _.
      split; intros b Hb; injection Hb as <-; lia.
    + destruct (Z.ltb_spec (cmp (UserKey (K kv)) lo) 0).
      { split; [intros H0; discriminate H0 |].
        intros [Hlo _]. specialize (Hlo lo eq_refl). lia. }
      split; [| reflexivity]. intros _.
      split; intros b Hb; [injection Hb as <-; lia | discriminate Hb].
    + destruct (Z.gtb_spec (cmp (UserKey (K kv)) up) 0).
      { split; [intros H1; discriminate H1 |].
        intros [_ Hup]. specialize (Hup up eq_refl). lia. }
      split; [| reflexivity]. intros _.
      split; intros b Hb; [discriminate Hb | injection Hb as <-; lia].
    + split; [| reflexivity]. intros _.
      split; intros b Hb; discriminate Hb.
Qed.

(** ** Changing the bounds *)

Section Bounds.

Variable cmp : Compare.
Variable split : Split.
Variable fs : list fileMetadata.
Variable store : tableStore.

Local Abbreviation HIc := (sstIterOps cmp split).

(** X15 ([SetBounds]): on a well-formed state the call returns with the
    new bounds set, the cursor and [iterFile] as they were, and the state
    well formed for the new bounds; an open inner iterator is kept exactly
    when its file overlaps the new bounds, and is then given the bounds
    trimmed to the file; otherwise it is closed. *)
Theorem SetBounds_keeps_or_closes (lo up : option bytes) (l : SL) :
  Inv0 cmp fs store l ->
  exists l',
    SetBounds (HI := HIc) cmp lo up l = Ok tt l'
    /\ lower l' = lo /\ upper l' = up
    /\ files l' = files l /\ iterFile l' = iterFile l
    /\ Inv0 cmp fs store l'
    /\ (iter l = None -> iter l' = None)
    /\ forall it f,
         iter l = Some it -> iterFile l = Some f ->
         (overlaps cmp lo up f ->
          iter l'
          = Some (sst_SetBounds (LowerBound (tableBounds cmp lo up f))
                                (UpperBound (tableBounds cmp lo up f)) it))
         /\ (~ overlaps cmp lo up f -> iter l' = None).
Proof.
  intros [(Hfs & Hpos & Herr & Hcopy) Hload].
  destruct l as [lw uw topts sb lb syb cs it itf ptr cpy fls er ex di tr].
  unfold Loaded in Hload. simpl in *. subst er.
  unfold SetBounds, bind, modify. simpl.
  destruct it as [i |]; simpl.
  2:{ eexists. split; [reflexivity |]. simpl.
      split; [reflexivity |]. split; [reflexivity |].
      split; [reflexivity |]. split; [reflexivity |].
      split; [| split; [reflexivity | intros it f H; discriminate H]].
      split; [unfold Base; simpl; repeat split; auto; try lia;
                try (intros rd0 Hrd0; discriminate Hrd0)
             | intros it H; discriminate H]. }
  destruct (Hload i eq_refl)
    as (f & t & Hitf & Hin & Hpk & Hlk & Htok & Hiok & _ & _).
  subst itf.
  match goal with
  | |- context [initTableBounds cmp (Some f) ?s] =>
    destruct (initTableBounds_spec cmp f s) as (r & X & E & Hcases);
      rewrite E
  end.
  simpl in Hcases.
  assert (Hclose : sCloseErr i = None) by apply Hiok.
  destruct Hcases as [(-> & b & Hb & Hlt) | [(-> & b & Hb & Hge)
                                            | (-> & Hov & ->)]]; simpl.
  - unfold Close. simpl. rewrite Hclose.
    destruct ptr as [slot |], cpy as [rd |]; simpl;
      try rewrite (Hcopy rd eq_refl); simpl;
      (eexists; split; [reflexivity |]; simpl;
       split; [reflexivity |]; split; [reflexivity |];
       split; [reflexivity |]; split; [reflexivity |];
       split;
       [split; [unfold Base; simpl; repeat split; auto; try lia;
                try (intros rd0 Hrd0; discriminate Hrd0)
               | intros it0 H0; discriminate H0]
       | split; [intros H0; discriminate H0 |];
         intros it0 f0 H0 H1; injection H1 as <-;
         split; [| intros _; reflexivity];
         intros Hov; destruct Hov as [Hov _]; specialize (Hov b Hb); lia]).
  - unfold Close. simpl. rewrite Hclose.
    destruct ptr as [slot |], cpy as [rd |]; simpl;
      try rewrite (Hcopy rd eq_refl); simpl;
      (eexists; split; [reflexivity |]; simpl;
       split; [reflexivity |]; split; [reflexivity |];
       split; [reflexivity |]; split; [reflexivity |];
       split;
       [split; [unfold Base; simpl; repeat split; auto; try lia;
                try (intros rd0 Hrd0; discriminate Hrd0)
               | intros it0 H0; discriminate H0]
       | split; [intros H0; discriminate H0 |];
         intros it0 f0 H0 H1; injection H1 as <-;
         split; [| intros _; reflexivity];
         intros Hov; destruct Hov as [_ Hov]; specialize (Hov b Hb); lia]).
  - eexists. split; [reflexivity |]. simpl.
    split; [reflexivity |]. split; [reflexivity |].
    split; [reflexivity |]. split; [reflexivity |].
    split; [| split].
    + split.
      * unfold Base. simpl. repeat split; auto; lia.
      * intros it0 H0. simpl in H0. injection H0 as <-.
        exists f, t. simpl.
        split; [reflexivity |]. split; [exact Hin |].
        split; [exact Hpk |]. split; [exact Hlk |]. split; [exact Htok |].
        split; [| split; [exact Hov | reflexivity]].
        unfold iterOK in *. simpl. repeat split; apply Hiok.
    + intros H0. discriminate H0.
    + intros it0 f0 H0 H1. injection H0 as <-. injection H1 as <-.
      split; [intros _; reflexivity |].
      intros Hno. contradiction.
Qed.

End Bounds.

Lemma SetBounds_keeps_or_closes_witness :
  exists l',
    SetBounds (HI := sstIterOps DefaultCompare DefaultSplit) DefaultCompare
      (Some "b") None Walks.onA = Ok tt l'
    /\ lower l' = Some "b" /\ upper l' = None
    /\ files l' = files Walks.onA /\ iterFile l' = iterFile Walks.onA
    /\ Inv0 DefaultCompare Examples.twoFiles Examples.twoStore l'
    /\ (iter Walks.onA = None -> iter l' = None)
    /\ forall it f,
         iter Walks.onA = Some it -> iterFile Walks.onA = Some f ->
         (overlaps DefaultCompare (Some "b") None f ->
          iter l'
          = Some (sst_SetBounds
                    (LowerBound (tableBounds DefaultCompare (Some "b") None f))
                    (UpperBound (tableBounds DefaultCompare (Some "b") None f))
                    it))
         /\ (~ overlaps DefaultCompare (Some "b") None f -> iter l' = None).
Proof.
  exact (SetBounds_keeps_or_closes DefaultCompare DefaultSplit
           Examples.twoFiles Examples.twoStore (Some "b") None Walks.onA
           (Inv_Inv0 _ _ _ _ onA_Inv)).
Defined.

(** ** The file found by [findFileLT] *)

Section CursorBack.

Variable cmp : Compare.
Variable split : Split.
Variable fs : list fileMetadata.
Hypothesis laws : ComparerLaws cmp split.
Hypothesis Hsorted : levelSorted cmp fs.
Hypothesis Hwf : Forall (wfFile cmp) fs.

Local Abbreviation n := (Z.of_nat (List.length fs)).

Lemma fileAt_negative (j : Z) : j < 0 -> fileAt fs j = None.
Proof.
  intros Hj. unfold fileAt, li_at. simpl.
  destruct (Z.ltb_spec j 0); [reflexivity | lia].
Qed.

Lemma fileAt_None_back (j : Z) : -1 <= j < n -> fileAt fs j = None -> j = -1.
Proof.
  intros Hj H. destruct (Z.eq_dec j (-1)) as [-> | Hne]; [reflexivity |].
  destruct (fileAt_Some fs j) as [f Hf]; [lia | congruence].
Qed.

Lemma li_Prev_at (i : Z) :
  0 <= i -> li_Prev (cursorAt fs i) = (fileAt fs (i - 1), cursorAt fs (i - 1)).
Proof.
  intros Hi. unfold li_Prev, li_move, fileAt, cursorAt. simpl.
  rewrite Z.max_l by lia. reflexivity.
Qed.

Lemma li_Prev_start : li_Prev (cursorAt fs (-1)) = (None, cursorAt fs (-1)).
Proof. reflexivity. Qed.

Lemma li_Last_at (i : Z) :
  li_Last (cursorAt fs i) = (fileAt fs (n - 1), cursorAt fs (n - 1)).
Proof. reflexivity. Qed.

Lemma li_SeekLT_at (k : bytes) (i : Z) :
  li_SeekLT cmp k (cursorAt fs i)
  = (fileAt fs (seekIndexLT cmp fs k), cursorAt fs (seekIndexLT cmp fs k)).
Proof. reflexivity. Qed.

Lemma seekIndexLT_range (k : bytes) : -1 <= seekIndexLT cmp fs k < n.
Proof.
  unfold seekIndexLT.
  pose proof (find_index_le (fun f => cmp (fileSmallestUser cmp f) k >=? 0) fs).
  lia.
Qed.

Lemma lastGood_unique (k : bytes) (g1 g2 : Z) :
  lastGood cmp fs k g1 -> lastGood cmp fs k g2 -> g1 = g2.
Proof.
  intros (R1 & A1 & B1) (R2 & A2 & B2).
  destruct (Z.lt_trichotomy g1 g2) as [H | [H | H]]; [| exact H |].
  - destruct (fileAt_Some fs g2) as [f Hf]; [lia |].
    pose proof (B2 f Hf). pose proof (A1 g2 f H Hf). congruence.
  - destruct (fileAt_Some fs g1) as [f Hf]; [lia |].
    pose proof (B1 f Hf). pose proof (A2 g1 f H Hf). congruence.
Qed.

(** The overall bounds of a well-formed file are in order. *)
Lemma fileSmallest_le_fileLargest (f : fileMetadata) :
  wfFile cmp f -> cmp (fileSmallestUser cmp f) (fileLargestUser cmp f) <= 0.
Proof.
  intros (Hk & Hp & Hr). unfold fileSmallestUser, fileLargestUser.
  destruct (HasPointKeys f) eqn:Ep, (HasRangeKeys f) eqn:Er; simpl.
  - specialize (Hp eq_refl). specialize (Hr eq_refl).
    destruct (Z.ltb_spec (cmp (UserKey (SmallestRangeKey f))
                              (UserKey (SmallestPointKey f))) 0) as [H1 | H1];
      destruct (Z.ltb_spec (cmp (UserKey (LargestPointKey f))
                                (UserKey (LargestRangeKey f))) 0) as [H2 | H2].
    + exact Hr.
    + eapply (cmp_trans laws); [| exact Hp]. lia.
    + eapply (cmp_trans laws); [| exact Hr].
      apply (cmp_ge_le cmp split laws). lia.
    + exact Hp.
  - exact (Hp eq_refl).
  - exact (Hr eq_refl).
  - destruct Hk; discriminate.
Qed.

(** Up to where the cursor lands, the files without range keys start
    before the key sought. *)
Lemma seekIndexLT_before (k : bytes) (j : Z) (f : fileMetadata) :
  j <= seekIndexLT cmp fs k -> fileAt fs j = Some f ->
  HasRangeKeys f = false -> cmp (UserKey (SmallestPointKey f)) k < 0.
Proof.
  intros Hj Hf Hr. pose proof (fileAt_In fs _ _ Hf) as [_ Hjn].
  rewrite fileAt_nth in Hf by lia.
  assert (H : (cmp (fileSmallestUser cmp f) k >=? 0) = false).
  { apply (find_index_before (fun f => cmp (fileSmallestUser cmp f) k >=? 0)
             fs (Z.to_nat j) f); [unfold seekIndexLT in Hj; lia | exact Hf]. }
  rewrite (fileSmallest_noRangeKeys cmp f Hr) in H.
  destruct (Z.geb_spec (cmp (UserKey (SmallestPointKey f)) k) 0);
    [discriminate | lia].
Qed.

(** After it, no file has a point key before the key sought. *)
Lemma seekIndexLT_after (k : bytes) (j : Z) (f : fileMetadata) :
  seekIndexLT cmp fs k < j -> fileAt fs j = Some f -> goodLT cmp k f = false.
Proof.
  intros Hj Hf. unfold goodLT.
  destruct (HasPointKeys f) eqn:Hp; [| reflexivity]. simpl.
  pose proof (seekIndexLT_range k) as Hrange.
  pose proof (fileAt_In fs _ _ Hf) as [_ Hjn].
  set (i := seekIndexLT cmp fs k + 1) in *.
  destruct (fileAt_Some fs i) as [g Hg]; [subst i; lia |].
  assert (Hgk : cmp k (fileSmallestUser cmp g) <= 0).
  { rewrite fileAt_nth in Hg by (subst i; lia).
    replace (Z.to_nat i)
      with (find_index (fun f => cmp (fileSmallestUser cmp f) k >=? 0) fs)
      in Hg by (subst i; unfold seekIndexLT; lia).
    apply (find_index_at (fun f => cmp (fileSmallestUser cmp f) k >=? 0)) in Hg.
    apply (cmp_ge_le cmp split laws).
    destruct (Z.geb_spec (cmp (fileSmallestUser cmp g) k) 0);
      [lia | discriminate]. }
  assert (Hk : cmp k (UserKey (SmallestPointKey f)) <= 0).
  { destruct (Z.eq_dec j i) as [-> | Hne].
    - assert (g = f) by congruence. subst g.
      eapply (cmp_trans laws); [exact Hgk |].
      apply (fileSmallest_le_SmallestPointKey cmp split laws). exact Hp.
    - assert (Hb : fileBefore cmp g f).
      { apply (fileAt_before cmp fs Hsorted i j);
          [subst i; lia | exact Hg | exact Hf]. }
      destruct Hb as [Hb _].
      eapply (cmp_trans laws); [exact Hgk |].
      eapply (cmp_trans laws);
        [apply fileSmallest_le_fileLargest;
         apply (fileAt_wf cmp fs Hwf i g Hg) |].
      eapply (cmp_trans laws); [exact Hb |].
      apply (fileSmallest_le_SmallestPointKey cmp split laws). exact Hp. }
  apply (cmp_ge_le cmp split laws) in Hk.
  destruct (Z.ltb_spec (cmp (UserKey (SmallestPointKey f)) k) 0);
    [lia | reflexivity].
Qed.

End CursorBack.

Section FindFileLT.

Context {I F : Type} {HI : InternalIterator I} {HF : FragmentIterator F}.
Variable cmp : Compare.
Variable split : Split.
Variable fs : list fileMetadata.
Hypothesis laws : ComparerLaws cmp split.
Hypothesis Hsorted : levelSorted cmp fs.
Hypothesis Hwf : Forall (wfFile cmp) fs.

Local Abbreviation L := (levelIter I F).
Local Abbreviation n := (Z.of_nat (List.length fs)).

(** One turn of the loop of [findFileLT]. *)
Lemma findFileLT_loop_turn (fuel : nat) (k : bytes) (f : fileMetadata)
  (pis : bool) (l : L) :
  findFileLT_loop cmp (S fuel) k (Some f) pis l
  = let l1 := if HasRangeKeys f
              then maybeTriggerCombinedIteration cmp (Some f) (-1) l else l in
    if HasRangeKeys f && negb (HasPointKeys f) then
      (m' <- files_Prev 449 ;; findFileLT_loop cmp fuel k m' pis) l1
    else if (HasRangeKeys f || pis)
            && (cmp (UserKey (SmallestPointKey f)) k >=? 0) then
      (m' <- files_Prev 467 ;; findFileLT_loop cmp fuel k m' pis) l1
    else Ok (Some f) l1.
Proof.
  cbn [findFileLT_loop]. unfold bind at 1.
  destruct (HasRangeKeys f), (HasPointKeys f), pis,
    (cmp (UserKey (SmallestPointKey f)) k >=? 0); reflexivity.
Qed.

Lemma simF_trigger_back (f : fileMetadata) (l : L) :
  simF l (if HasRangeKeys f
          then maybeTriggerCombinedIteration cmp (Some f) (-1) l else l).
Proof.
  destruct (HasRangeKeys f); [| apply simF_refl].
  apply (sim_trigger cmp (Some f) (-1) l).
Qed.

Lemma files_trigger_back (f : fileMetadata) (l : L) :
  files (if HasRangeKeys f
         then maybeTriggerCombinedIteration cmp (Some f) (-1) l else l)
  = files l.
Proof.
  destruct (HasRangeKeys f); [| reflexivity].
  apply (maybeTrigger_frame cmp (Some f) (-1) l).
Qed.

Lemma foundBack_step (k : bytes) (l l1 : L) o :
  simF l l1 -> foundBack cmp fs k l1 o -> foundBack cmp fs k l o.
Proof.
  intros Hs (g & l' & Ho & Hg & Hs' & Hf).
  exists g, l'. split; [exact Ho |]. split; [exact Hg |].
  split; [eapply simF_trans; eassumption | exact Hf].
Qed.

Lemma goodLT_false_extend (k : bytes) (i : Z) (f : fileMetadata) :
  (forall j f, i < j -> fileAt fs j = Some f -> goodLT cmp k f = false) ->
  fileAt fs i = Some f -> goodLT cmp k f = false ->
  forall j f, i - 1 < j -> fileAt fs j = Some f -> goodLT cmp k f = false.
Proof.
  intros Hb Hf Hg j f' Hj Hf'.
  destruct (Z.eq_dec j i) as [-> | Hne].
  - congruence.
  - apply (Hb j); [lia | exact Hf'].
Qed.

(** The loop of [findFileLT], from the position the cursor sought or before
    it: with [prevInsteadOfSeek], every file is compared with the key;
    without, the files without range keys are known to start before it. *)
Lemma findFileLT_loop_back (k : bytes) (pis : bool) (fuel : nat) :
  forall (i : Z) (l : L),
    files l = cursorAt fs i -> -1 <= i < n ->
    (forall j f, i < j -> fileAt fs j = Some f -> goodLT cmp k f = false) ->
    (pis = false ->
     forall j f, j <= i -> fileAt fs j = Some f -> HasRangeKeys f = false ->
                 cmp (UserKey (SmallestPointKey f)) k < 0) ->
    i + 1 < Z.of_nat fuel ->
    foundBack cmp fs k l (findFileLT_loop cmp fuel k (fileAt fs i) pis l).
Proof.
  induction fuel as [| fuel IH]; intros i l Hfiles Hi Hafter Hbefore Hfuel;
    [lia |].
  destruct (fileAt fs i) as [f |] eqn:Ef.
  - pose proof (fileAt_In fs _ _ Ef) as [_ Hin].
    pose proof (fileAt_wf cmp fs Hwf _ _ Ef) as (Hkinds & _).
    rewrite findFileLT_loop_turn. cbv zeta.
    pose proof (simF_trigger_back f l) as Hs1.
    pose proof (files_trigger_back f l) as Hf1.
    set (l1 := if HasRangeKeys f
               then maybeTriggerCombinedIteration cmp (Some f) (-1) l else l)
      in *.
    rewrite Hfiles in Hf1.
    assert (Hprev : forall line,
      goodLT cmp k f = false ->
      foundBack cmp fs k l
        ((m' <- files_Prev line ;; findFileLT_loop cmp fuel k m' pis) l1)).
    { intros line Hng. unfold bind, files_Prev. rewrite files_call_run.
      rewrite Hf1, li_Prev_at by lia. simpl fst. simpl snd.
      eapply foundBack_step;
        [eapply simF_trans; [exact Hs1 | apply simF_moved] |].
      apply IH.
      - reflexivity.
      - lia.
      - eapply goodLT_false_extend; eassumption.
      - intros Hpis j f' Hj. apply (Hbefore Hpis). lia.
      - lia. }
    destruct (HasRangeKeys f && negb (HasPointKeys f)) eqn:C1.
    { apply Hprev. unfold goodLT. apply andb_true_iff in C1.
      destruct C1 as [_ C1]. apply negb_true_iff in C1. rewrite C1.
      reflexivity. }
    destruct ((HasRangeKeys f || pis)
              && (cmp (UserKey (SmallestPointKey f)) k >=? 0)) eqn:C2.
    { apply Hprev. unfold goodLT. apply andb_true_iff in C2.
      destruct C2 as [_ C2].
      destruct (Z.geb_spec (cmp (UserKey (SmallestPointKey f)) k) 0);
        [| discriminate].
      destruct (Z.ltb_spec (cmp (UserKey (SmallestPointKey f)) k) 0);
        [lia | apply andb_false_r]. }
    exists i, l1. split; [rewrite Ef; reflexivity |].
    split; [| split; assumption].
    split; [lia |]. split; [exact Hafter |].
    intros f' Hf'. assert (f' = f) by congruence. subst f'.
    unfold goodLT.
    assert (Hp : HasPointKeys f = true).
    { destruct (HasPointKeys f) eqn:Hp; [reflexivity |].
      destruct Hkinds as [Hk | Hk]; [congruence |].
      rewrite Hk in C1. discriminate. }
    rewrite Hp. simpl.
    apply Z.ltb_lt.
    destruct (HasRangeKeys f) eqn:Hr; simpl in C2.
    + destruct (Z.geb_spec (cmp (UserKey (SmallestPointKey f)) k) 0);
        [discriminate | lia].
    + destruct pis; simpl in C2.
      * destruct (Z.geb_spec (cmp (UserKey (SmallestPointKey f)) k) 0);
          [discriminate | lia].
      * apply (Hbefore eq_refl i f (Z.le_refl i) Ef Hr).
  - assert (i = -1) by (apply (fileAt_None_back fs); assumption). subst i.
    exists (-1), l. simpl. rewrite Ef.
    split; [reflexivity |]. split; [| split; [apply simF_refl | exact Hfiles]].
    split; [lia |]. split; [exact Hafter |]. intros f Hf. congruence.
Qed.

Lemma findFileLT_none (k : bytes) (i : Z) (l : L) :
  files l = cursorAt fs i ->
  foundBack cmp fs k l (findFileLT cmp k SeekLTFlagsNone l).
Proof.
  intros Hfiles.
  unfold findFileLT, bind, log, modify.
  change (LTRelativeSeek SeekLTFlagsNone) with false.
  cbv beta iota. cbn [andb].
  unfold files_SeekLT. rewrite files_call_run.
  set (l0 := set_trace (EvFindFileLT k SeekLTFlagsNone :: trace l) l).
  assert (Hf0 : files l0 = cursorAt fs i) by (destruct l; exact Hfiles).
  rewrite Hf0, li_SeekLT_at. simpl fst. simpl snd.
  pose proof (seekIndexLT_range cmp fs k).
  match goal with
  | |- foundBack _ _ _ _ (findFileLT_loop _ _ _ _ _ ?s) =>
    apply (foundBack_step k l s)
  end.
  { destruct l. unfold simF. simpl. tauto. }
  apply findFileLT_loop_back.
  - reflexivity.
  - assumption.
  - apply (seekIndexLT_after cmp split fs laws Hsorted Hwf).
  - intros _. apply (seekIndexLT_before cmp fs).
  - rewrite (loopFuel_level fs) by (rewrite Hf0; reflexivity). lia.
Qed.

(** With any flags: under [RelativeSeek] the search may start from the
    current file, which must then lie at or after the last good file. *)
Lemma findFileLT_flags (k : bytes) (flags : SeekLTFlags) (i : Z) (l : L) :
  files l = cursorAt fs i -> -1 <= i < n -> iterFile l = fileAt fs i ->
  (forall j f, i < j -> fileAt fs j = Some f -> goodLT cmp k f = false) ->
  foundBack cmp fs k l (findFileLT cmp k flags l).
Proof.
  intros Hfiles Hi Hsync Hafter.
  unfold findFileLT. unfold bind at 1. unfold log, modify.
  set (l0 := set_trace (EvFindFileLT k flags :: trace l) l).
  assert (Hf0 : files l0 = cursorAt fs i) by (destruct l; exact Hfiles).
  assert (Hs0 : simF l l0) by (destruct l; unfold simF; simpl; tauto).
  cbv zeta.
  destruct (LTRelativeSeek flags && combinedIterUninitialized l0).
  - unfold bind, gets.
    replace (iterFile l0) with (fileAt fs i)
      by (rewrite <- Hsync; destruct l; reflexivity).
    apply (foundBack_step k l l0 _ Hs0).
    apply findFileLT_loop_back.
    + exact Hf0.
    + exact Hi.
    + exact Hafter.
    + intros H; discriminate H.
    + rewrite (loopFuel_level fs) by (rewrite Hf0; reflexivity). lia.
  - unfold bind, files_SeekLT. rewrite files_call_run.
    rewrite Hf0, li_SeekLT_at. simpl fst. simpl snd.
    pose proof (seekIndexLT_range cmp fs k).
    match goal with
    | |- foundBack _ _ _ _ (findFileLT_loop _ _ _ _ _ ?s) =>
      apply (foundBack_step k l s)
    end.
    { eapply simF_trans; [exact Hs0 | apply simF_moved]. }
    apply findFileLT_loop_back.
    + reflexivity.
    + assumption.
    + apply (seekIndexLT_after cmp split fs laws Hsorted Hwf).
    + intros _. apply (seekIndexLT_before cmp fs).
    + rewrite (loopFuel_level fs) by (rewrite Hf0; reflexivity). lia.
Qed.

End FindFileLT.

(** ** [loadFile] backward over a well-formed level *)

Section LoadBackward.

Variable cmp : Compare.
Variable split : Split.
Variable fs : list fileMetadata.
Variable store : tableStore.
Hypothesis laws : ComparerLaws cmp split.
Hypothesis Hlevel : levelOK cmp fs.
Hypothesis Hstore : storeOK cmp fs store.

Local Abbreviation n := (Z.of_nat (List.length fs)).
Local Abbreviation HIc := (sstIterOps cmp split).
Local Abbreviation nI := (sstNewIters store).

Lemma loadedBack_extend (p : Z) (l0 : SL) (f : fileMetadata) o :
  fileAt fs p = Some f -> skippedBackward cmp (upper l0) f ->
  loadedBack cmp fs store (p - 1) l0 o -> loadedBack cmp fs store p l0 o.
Proof.
  intros Hf Hs (r & l' & q & Ho & Hinv & Hfiles & Hq & Hfr & Hlb & Hsb
                & Hskip & Hend).
  exists r, l', q. repeat (split; [first [assumption | lia] |]).
  split; [| exact Hend].
  intros j f' Hj Hf'. destruct (Z.eq_dec j p) as [-> | Hne].
  - congruence.
  - apply (Hskip j); [lia | exact Hf'].
Qed.

Ltac fields :=
  unfold closedAt, Base, framed in *; simpl in *;
  repeat match goal with
         | H : _ /\ _ |- _ => destruct H
         end;
  repeat split; simpl;
  try first [ assumption | reflexivity | congruence | lia | tauto ].

Lemma loadFile_loop_backward (l0 : SL) (fuel : nat) :
  forall (p : Z) (l : SL),
    closedAt fs p l0 l -> -1 <= p < n -> p + 1 < Z.of_nat fuel ->
    loadedBack cmp fs store p l0
      (loadFile_loop cmp nI fuel (fileAt fs p) (-1) l).
Proof.
  induction fuel as [| fuel IH]; intros p l Hpre Hp Hfuel; [lia |].
  cbn [loadFile_loop]. unfold bind at 1. unfold modify at 1.
  destruct (fileAt fs p) as [f |] eqn:Ef.
  - pose proof (fileAt_In fs _ _ Ef) as [Hin Hpn].
    unfold bind at 1. unfold modify at 1.
    rewrite maybeTrigger_shape.
    set (cs' := combinedIterState _).
    set (l1 := set_combinedIterState cs' (set_iterFile (Some f) l)).
    assert (Hprev : forall line,
      skippedBackward cmp (upper l0) f ->
      forall l2 : SL, closedAt fs p l0 l2 ->
      loadedBack cmp fs store p l0
        ((file' <- files_Prev line ;;
          loadFile_loop cmp nI fuel file' (-1)) l2)).
    { intros line Hskip l2 H2. unfold bind, files_Prev.
      rewrite files_call_run.
      assert (Hf2 : files l2 = cursorAt fs p) by apply H2.
      rewrite Hf2, (li_Prev_at fs) by lia. simpl fst. simpl snd.
      apply (loadedBack_extend p l0 f); [exact Ef | exact Hskip |].
      apply IH; [| lia | lia].
      clear - H2 Hpn. fields. }
    assert (H1 : closedAt fs p l0 l1) by (clear - Hpre; subst l1; fields).
    destruct (HasPointKeys f) eqn:Hpk.
    2:{ change (negb false) with true. cbn [andb].
        change (-1 =? 1) with false. change (-1 =? -1) with true. cbv iota.
        apply Hprev; [left; exact Hpk | exact H1]. }
    change (negb true) with false. cbn [andb]. cbv iota.
    unfold bind at 1.
    destruct (initTableBounds_spec cmp f l1) as (r & X & -> & Hr).
    assert (H2 : closedAt fs p l0 (set_tableOpts X l1))
      by (clear - H1; fields).
    assert (Hlo : lower l1 = lower l0) by (clear - H1; fields).
    assert (Hup : upper l1 = upper l0) by (clear - H1; fields).
    rewrite Hlo, Hup in Hr.
    destruct Hr as [[-> Hb] | [[-> Hb] | (-> & Hov & ->)]].
    + change (-1 =? -1) with true. change (-1 <? 0) with true. cbv iota.
      exists noFileLoaded, (set_tableOpts X l1), p. unfold ret.
      split; [reflexivity |].
      split.
      { split.
        - split; [clear - H2; fields |]. intros it Hit.
          assert (Hn : iter (set_tableOpts X l1) = None) by apply H2.
          congruence.
        - assert (Hf2 : files (set_tableOpts X l1) = cursorAt fs p)
            by apply H2.
          rewrite Hf2. simpl. exact (eq_sym Ef). }
      split; [apply H2 |]. split; [lia |]. split; [apply H2 |].
      split; [apply H2 |]. split; [apply H2 |].
      split; [intros j f' Hj; lia |].
      left. split; [reflexivity |]. split; [apply H2 |].
      right. destruct Hb as (b & Hb1 & Hb2). exists f, b. auto.
    + change (1 =? -1) with false. change (1 =? 1) with true.
      change (-1 >? 0) with false. cbv iota.
      apply Hprev; [right; exact Hb | exact H2].
    + change (0 =? -1) with false. change (0 =? 1) with false. cbv iota.
      destruct (Hstore f Hin Hpk) as (t & Ht & Htok).
      set (l2 := set_tableOpts (tableBounds cmp (lower l0) (upper l0) f) l1)
        in *.
      destruct (openTable_spec cmp store f t l2 eq_refl Ht Htok)
        as (l' & it & -> & Hit & Hok & Hfl & He & Hif & Hto & Hl & Hu & Hd
            & Hlb & Hsb & Hp0 & Hp1).
      exists newFileLoaded, l', p. split; [reflexivity |].
      assert (Hf2 : files l2 = cursorAt fs p) by apply H2.
      split.
      { split.
        - split.
          + unfold Base. rewrite Hfl, Hf2, He. simpl.
            split; [reflexivity |]. split; [lia |]. split; [reflexivity |].
            destruct (rangeDelIterPtr l2) eqn:Eptr.
            * apply Hp1. discriminate.
            * destruct (Hp0 eq_refl) as [_ ->]. apply H2.
          + intros it' Hit'. rewrite Hit in Hit'. injection Hit' as <-.
            exists f, t. rewrite Hif, Hto, Hl, Hu.
            split; [reflexivity |]. split; [exact Hin |].
            split; [exact Hpk |]. split; [exact Ht |]. split; [exact Htok |].
            split; [exact Hok |].
            assert (Hl2 : lower l2 = lower l0) by (clear - H2; fields).
            assert (Hu2 : upper l2 = upper l0) by (clear - H2; fields).
            rewrite Hl2, Hu2. split; [exact Hov | reflexivity].
        - rewrite Hif, Hfl, Hf2. simpl. exact (eq_sym Ef). }
      split; [congruence |]. split; [lia |].
      split.
      { unfold framed. rewrite Hl, Hu, Hd.
        destruct H2 as (_ & _ & _ & (Ha & Hb & Hc & Hd2) & _).
        split; [exact Ha |]. split; [exact Hb |]. split; [exact Hc |].
        intros H0. apply Hp0. apply Hd2. exact H0. }
      split; [rewrite Hlb; apply H2 |]. split; [rewrite Hsb; apply H2 |].
      split; [intros j f' Hj; lia |].
      right. split; [discriminate | congruence].
  - assert (p = -1) by (apply (fileAt_None_back fs); [lia | exact Ef]).
    subst p. unfold ret.
    exists noFileLoaded, (set_iterFile None l), (-1).
    split; [reflexivity |].
    assert (H1 : closedAt fs (-1) l0 (set_iterFile None l))
      by (clear - Hpre; fields).
    split.
    { split.
      - split; [clear - H1; fields |]. intros it Hit.
        assert (Hn : iter (set_iterFile None l) = None) by apply H1.
        congruence.
      - assert (Hf2 : files (set_iterFile None l) = cursorAt fs (-1))
          by apply H1.
        rewrite Hf2. simpl. exact (eq_sym Ef). }
    split; [apply H1 |]. split; [lia |]. split; [apply H1 |].
    split; [apply H1 |]. split; [apply H1 |].
    split; [intros j f' Hj; lia |].
    left. split; [reflexivity |]. split; [apply H1 |]. left. reflexivity.
Qed.

Lemma loadedBack_framed (p : Z) (l0 l1 : SL) o :
  framed l0 l1 -> lower l1 = lower l0 -> upper l1 = upper l0 ->
  loadedBack cmp fs store p l1 o -> loadedBack cmp fs store p l0 o.
Proof.
  intros Hfr Hlo Hup (r & l' & q & Ho & Hinv & Hfiles & Hq & Hfr' & Hlb & Hsb
                      & Hskip & Hend).
  exists r, l', q. rewrite <- Hlo, <- Hup.
  repeat (split; [first [assumption | lia
                        | eapply framed_trans; eassumption] |]).
  exact Hend.
Qed.

Lemma loadFile_backward (p : Z) (l : SL) :
  Inv0 cmp fs store l -> files l = cursorAt fs p -> -1 <= p < n ->
  loadedBack cmp fs store p l
    (loadFile (HI := HIc) cmp nI (fileAt fs p) (-1) l).
Proof.
  intros Hinv Hfiles Hp.
  unfold loadFile. unfold bind at 1. unfold modify at 1.
  set (l1 := set_largestBoundary None (set_smallestBoundary None l)).
  assert (Hinv1 : Inv0 cmp fs store l1).
  { clear - Hinv. destruct Hinv as [Hb Hl]. split; [fields |].
    exact Hl. }
  assert (Hfr1 : framed l l1) by (unfold framed; simpl; tauto).
  assert (Hf1 : files l1 = cursorAt fs p) by exact Hfiles.
  apply (loadedBack_framed p l l1 _ Hfr1 eq_refl eq_refl).
  assert (He : err l1 = None) by apply Hinv1.
  rewrite He, andb_false_r.
  destruct (file_ptr_eqb (iterFile l1) (fileAt fs p)
            && match iter l1 with Some _ => true | None => false end) eqn:C.
  - apply andb_true_iff in C. destruct C as [Cf Ci].
    destruct (iter l1) as [it |] eqn:Eit; [| discriminate].
    destruct Hinv1 as [Hbase Hload].
    destruct (Hload it Eit) as (f & t & Hif & Hin & Hpk & Ht & Htok & Hok
                                & Hov & Hto).
    rewrite Hif in Cf.
    destruct (fileAt fs p) as [g |] eqn:Eg; [| discriminate].
    pose proof (fileAt_In fs _ _ Eg) as [Hg _].
    assert (f = g)
      by (apply (file_ptr_eqb_level cmp fs Hlevel); assumption).
    subst g.
    rewrite maybeTrigger_shape. set (cs' := combinedIterState _).
    exists fileAlreadyLoaded,
      (set_combinedIterState cs'
         (store_rangeDelIter (rangeDelIterCopy l1) l1)), p.
    split; [reflexivity |].
    assert (Hshape :
      forall (P : SL -> Prop),
        (forall v, P (set_combinedIterState cs'
                        (set_rangeDelIterPtr v l1))) ->
        P (set_combinedIterState cs' l1) ->
        P (set_combinedIterState cs'
             (store_rangeDelIter (rangeDelIterCopy l1) l1))).
    { intros P H1 H2. unfold store_rangeDelIter.
      destruct (rangeDelIterPtr l1); [apply H1 | exact H2]. }
    split.
    { apply Hshape.
      - intros v. split; [split |].
        + clear - Hbase. fields.
        + intros it' Hit'. exists f, t. simpl in *.
          assert (it' = it) by congruence. subst it'.
          repeat (split; [assumption |]). assumption.
        + apply (sync_at fs p); [exact Hfiles | rewrite Eg; exact Hif].
      - split; [split |].
        + clear - Hbase. fields.
        + intros it' Hit'. exists f, t. simpl in *.
          assert (it' = it) by congruence. subst it'.
          repeat (split; [assumption |]). assumption.
        + apply (sync_at fs p); [exact Hfiles | rewrite Eg; exact Hif]. }
    split; [apply Hshape; intros; exact Hfiles |].
    split; [lia |].
    split.
    { unfold framed, store_rangeDelIter.
      destruct (rangeDelIterPtr l1) eqn:Ep; simpl; rewrite ?Ep;
        repeat split; auto; congruence. }
    split; [apply Hshape; intros; reflexivity |].
    split; [apply Hshape; intros; reflexivity |].
    split; [intros j f' Hj; lia |].
    right. split; [discriminate |].
    apply Hshape; intros; change (iter l1 <> None); rewrite Eit;
      discriminate.
  - unfold bind. rewrite Close_closed.
    destruct (closed_inv cmp split fs store l1 Hinv1)
      as (Hb & Hi & Hf & Hfr & Hlb & Hsb & _).
    assert (Hec : err (closed (HI := HIc) l1) = None) by apply Hb.
    rewrite Hec.
    apply (loadedBack_framed p l1 (closed (HI := HIc) l1) _ Hfr);
      [apply Hfr | apply Hfr |].
    apply loadFile_loop_backward; [| lia |].
    + unfold closedAt. split; [exact Hb |]. split; [exact Hi |].
      split; [congruence |]. split; [apply framed_refl |].
      split; [rewrite Hlb | rewrite Hsb]; reflexivity.
    + rewrite (loopFuel_level fs) by (rewrite Hf, Hf1; reflexivity). lia.
Qed.

End LoadBackward.

(** ** Scanning backward over a well-formed level *)

Section SortedKeysBack.

Variable cmp : Compare.
Variable split : Split.
Hypothesis laws : ComparerLaws cmp split.

(** In a sorted list, the pair before the first one that satisfies an
    upward-closed predicate is the largest one that does not satisfy it. *)
Lemma last_match (Q : InternalKV -> bool) (ks : list InternalKV) :
  keysSorted cmp ks ->
  (forall a b, In a ks -> In b ks -> Q a = true ->
               cmp (userOf a) (userOf b) <= 0 -> Q b = true) ->
  match find_index Q ks with
  | O => forall kv', In kv' ks -> Q kv' = true
  | S i =>
    exists kv,
      nth_error ks i = Some kv /\ Q kv = false /\ In kv ks
      /\ forall kv', In kv' ks -> Q kv' = false ->
                     cmp (userOf kv') (userOf kv) <= 0
  end.
Proof.
  induction ks as [| x r IH]; simpl.
  - intros _ _ kv' [].
  - intros [Hx Hr] Hmono. rewrite Forall_forall in Hx.
    destruct (Q x) eqn:Px.
    + intros kv' [<- | Hin]; [exact Px |].
      apply (Hmono x kv'); auto.
    + assert (Hmono' : forall a b, In a r -> In b r -> Q a = true ->
                cmp (userOf a) (userOf b) <= 0 -> Q b = true)
        by (intros a b Ha Hb; apply Hmono; right; assumption).
      specialize (IH Hr Hmono').
      destruct (find_index Q r) as [| i].
      * exists x. split; [reflexivity |]. split; [exact Px |].
        split; [left; reflexivity |].
        intros kv' [<- | Hin] Pk.
        -- rewrite (cmp_refl laws). lia.
        -- rewrite (IH kv' Hin) in Pk. discriminate.
      * destruct IH as (kv & Hn & Pk & Hin & Hmax).
        exists kv. split; [exact Hn |]. split; [exact Pk |].
        split; [right; exact Hin |].
        intros kv' [<- | Hin'] Pk'; [apply Hx; exact Hin | auto].
Qed.

Lemma stricterUp_refl (up : option bytes) : stricterUp cmp up up.
Proof. intros kv H. exact H. Qed.

Lemma stricterUp_key (up : option bytes) (k : bytes) :
  (forall b, up = Some b -> cmp k b <= 0) -> stricterUp cmp up (Some k).
Proof.
  intros Hk kv Hkv. destruct up as [b |]; [| reflexivity]. simpl in *.
  apply Z.ltb_lt in Hkv. apply Z.ltb_lt.
  apply (cmp_lt_le_trans cmp split laws _ k); [exact Hkv | auto].
Qed.

(** Leaving the upper bound is upward closed. *)
Lemma inUpper_down (up : option bytes) (a b : InternalKV) :
  inUpper cmp up a = false -> cmp (userOf a) (userOf b) <= 0 ->
  inUpper cmp up b = false.
Proof.
  unfold inUpper, userOf. destruct up as [u |]; [| discriminate].
  intros Ha Hab. apply Z.ltb_ge in Ha. apply Z.ltb_ge.
  destruct (Z_lt_ge_dec (cmp (UserKey (K b)) u) 0) as [Hlt | Hge]; [| lia].
  pose proof (cmp_le_lt_trans cmp split laws _ _ _ Hab Hlt). lia.
Qed.

(** Leaving the lower bound is downward closed. *)
Lemma inLower_up (lo : option bytes) (a b : InternalKV) :
  inLower cmp lo b = false -> cmp (userOf a) (userOf b) <= 0 ->
  inLower cmp lo a = false.
Proof.
  unfold inLower, userOf. destruct lo as [u |]; [| discriminate].
  intros Hb Hab.
  destruct (Z.geb_spec (cmp (UserKey (K b)) u) 0) as [| Hlt];
    [discriminate |].
  pose proof (cmp_le_lt_trans cmp split laws _ _ _ Hab Hlt).
  destruct (Z.geb_spec (cmp (UserKey (K a)) u) 0); [lia | reflexivity].
Qed.

End SortedKeysBack.

Section YieldBackLemmas.

Variable cmp : Compare.
Variable split : Split.
Variable fs : list fileMetadata.
Variable store : tableStore.
Hypothesis laws : ComparerLaws cmp split.
Hypothesis Hlevel : levelOK cmp fs.
Hypothesis Hstore : storeOK cmp fs store.

Local Abbreviation n := (Z.of_nat (List.length fs)).

Lemma skippedBack_empty (lo up : option bytes) (f : fileMetadata) :
  In f fs -> skippedBackward cmp up f -> emptyWithin cmp store lo up f.
Proof.
  intros Hf [Hp | (b & -> & Hb)] kv Hkv.
  - unfold fileKeys in Hkv. rewrite Hp in Hkv. destruct Hkv.
  - destruct (fileKeys_bounds cmp fs store Hstore f kv Hf Hkv)
      as (_ & Hs & _ & _).
    unfold inBounds, inUpper. fold (userOf kv).
    apply (cmp_ge_le cmp split laws) in Hb.
    pose proof (cmp_trans laws _ _ _ Hb Hs) as Hk.
    apply (cmp_ge_le cmp split laws) in Hk.
    destruct (Z.ltb_spec (cmp (userOf kv) b) 0); [lia |].
    apply andb_false_r.
Qed.

Lemma stoppedBack_empty (lo up : option bytes) (q j : Z) (f : fileMetadata) :
  stoppedBackward cmp fs lo q -> j <= q -> fileAt fs j = Some f ->
  emptyWithin cmp store lo up f.
Proof.
  intros [-> | (g & b & Hg & Hpg & -> & Hb)] Hj Hf kv Hkv.
  - apply fileAt_In in Hf. lia.
  - pose proof (fileAt_In fs _ _ Hf) as [Hif Hjn].
    pose proof (fileAt_In fs _ _ Hg) as [Hig _].
    destruct (fileKeys_bounds cmp fs store Hstore f kv Hif Hkv)
      as (Hpf & _ & Hl & _).
    assert (Hle : cmp (userOf kv) (UserKey (LargestPointKey g)) <= 0).
    { destruct (Z.eq_dec j q) as [-> | Hne].
      - assert (g = f) by congruence. subst g. exact Hl.
      - eapply (cmp_trans laws); [exact Hl |].
        apply (later_file_keys cmp split laws f g); try assumption.
        + apply (fileAt_before cmp fs (proj1 Hlevel) j q);
            [lia | assumption | assumption].
        + destruct (wf_of cmp fs Hlevel g Hig) as (_ & Hwf & _).
          exact (Hwf Hpg). }
    unfold inBounds, inLower. fold (userOf kv).
    pose proof (cmp_le_lt_trans cmp split laws _ _ _ Hle Hb) as Hk.
    destruct (Z.geb_spec (cmp (userOf kv) b) 0); [lia | reflexivity].
Qed.

Lemma sst_find_back_spec (Q : InternalKV -> bool) (lo up up' : option bytes)
  (f : fileMetadata) (t : sstable) (it : sstIter) :
  HasPointKeys f = true -> lookupTable store (FileNum f) = Some t ->
  tableOK cmp f t -> iterOK it t (tableBounds cmp lo up f) ->
  (forall kv, In kv (tPoints t) -> Q kv = negb (inUpper cmp up' kv)) ->
  (forall kv, In kv (tPoints t) -> inUpper cmp up' kv = true ->
              inUpper cmp up kv = true) ->
  match fst (sst_goto cmp it (Z.of_nat (find_index Q (sKeys it)) - 1)) with
  | Some kv => lastWithin cmp store lo up' f kv
  | None => emptyWithin cmp store lo up' f
  end.
Proof.
  intros Hp Ht Htok Hok HQ Hup'.
  destruct (sst_goto_ok cmp it t _
              (Z.of_nat (find_index Q (sKeys it)) - 1) Hok) as [-> _].
  simpl fst.
  unfold lastWithin, emptyWithin. rewrite (fileKeys_table store f t Hp Ht).
  destruct Hok as (Hk & Hl & Hu & _).
  assert (Hsorted : keysSorted cmp (sKeys it)) by (rewrite Hk; apply Htok).
  assert (Hmono : forall a b, In a (sKeys it) -> In b (sKeys it) ->
            Q a = true -> cmp (userOf a) (userOf b) <= 0 -> Q b = true).
  { rewrite Hk. intros a b Ha Hb Qa Hab.
    rewrite (HQ a Ha) in Qa. rewrite (HQ b Hb).
    apply negb_true_iff in Qa. apply negb_true_iff.
    apply (inUpper_down cmp split laws up' a b Qa Hab). }
  pose proof (last_match cmp split laws Q (sKeys it) Hsorted Hmono) as Hlm.
  rewrite Hk in *.
  assert (Hsel : forall kv, In kv (tPoints t) ->
            inLower cmp (sLower it) kv = inLower cmp lo kv
            /\ inUpper cmp (sUpper it) kv = inUpper cmp up kv).
  { intros kv Hkv. rewrite Hl, Hu.
    apply (tableBounds_select cmp split laws lo up f t kv Htok Hkv). }
  unfold sst_at. rewrite Hk.
  destruct (find_index Q (tPoints t)) as [| i].
  - simpl. intros kv Hkv. unfold inBounds.
    pose proof (Hlm kv Hkv) as Qk. rewrite (HQ kv Hkv) in Qk.
    apply negb_true_iff in Qk. rewrite Qk. apply andb_false_r.
  - destruct Hlm as (x & Hn & Qx & Hin & Hmax).
    replace (Z.of_nat (S i) - 1) with (Z.of_nat i) by lia.
    destruct (Z.ltb_spec (Z.of_nat i) 0) as [Hneg | _]; [lia |].
    rewrite Nat2Z.id, Hn.
    assert (Ux : inUpper cmp up' x = true).
    { rewrite (HQ x Hin) in Qx. apply negb_false_iff in Qx. exact Qx. }
    destruct (Hsel x Hin) as [-> ->]. rewrite (Hup' x Hin Ux).
    rewrite andb_true_r.
    destruct (inLower cmp lo x) eqn:Lx.
    + split; [exact Hin |].
      split; [unfold inBounds; rewrite Lx, Ux; reflexivity |].
      intros kv' Hin' Hb'. apply Hmax; [exact Hin' |].
      unfold inBounds in Hb'. apply andb_true_iff in Hb'.
      rewrite (HQ kv' Hin'). destruct Hb' as [_ ->]. reflexivity.
    + intros kv Hkv. unfold inBounds.
      destruct (Q kv) eqn:Qk.
      * rewrite (HQ kv Hkv) in Qk. apply negb_true_iff in Qk.
        rewrite Qk. apply andb_false_r.
      * rewrite (inLower_up cmp split laws lo kv x Lx (Hmax kv Hkv Qk)).
        reflexivity.
Qed.

(** [Last] of the inner iterator lands on the last key within the
    bounds. *)
Lemma landsBack_Last (lo up : option bytes) :
  landsBack cmp fs store lo up up (sst_Last cmp).
Proof.
  intros it f t Hin Hp Ht Htok Hok. unfold sst_Last.
  apply (sst_find_back_spec _ lo up up f t it); try assumption.
  - intros kv Hkv. destruct Hok as (_ & _ & -> & _).
    destruct (tableBounds_select cmp split laws lo up f t kv Htok Hkv)
      as [_ ->].
    reflexivity.
  - auto.
Qed.

(** [SeekLT] of the inner iterator, for a key at or before the upper bound,
    lands on the last key before the key sought. *)
Lemma landsBack_SeekLT (lo up : option bytes) (k : bytes)
  (flags : SeekLTFlags) :
  (forall b, up = Some b -> cmp k b <= 0) ->
  landsBack cmp fs store lo up (Some k) (sst_SeekLT cmp k flags).
Proof.
  intros Hk it f t Hin Hp Ht Htok Hok. unfold sst_SeekLT.
  pose proof (stricterUp_key cmp split laws up k Hk) as Hs.
  apply (sst_find_back_spec _ lo up (Some k) f t it); try assumption.
  - intros kv Hkv. simpl.
    destruct (Z.geb_spec (cmp (UserKey (K kv)) k) 0) as [Hge | Hlt].
    + destruct (Z.ltb_spec (cmp (UserKey (K kv)) k) 0); [lia | reflexivity].
    + destruct (Z.ltb_spec (cmp (UserKey (K kv)) k) 0) as [_ |]; [| lia].
      simpl. destruct Hok as (_ & _ & -> & _).
      destruct (tableBounds_select cmp split laws lo up f t kv Htok Hkv)
        as [_ ->].
      rewrite (Hs kv); [reflexivity |]. simpl.
      apply Z.ltb_lt. exact Hlt.
  - intros kv _. apply Hs.
Qed.

Lemma yieldsBack_extend (lo up : option bytes) (p q : Z) (r : option kvPtr) :
  q <= p ->
  (forall j f, q < j <= p -> fileAt fs j = Some f ->
               emptyWithin cmp store lo up f) ->
  yieldsBack cmp fs store lo up q r -> yieldsBack cmp fs store lo up p r.
Proof.
  intros Hpq Hempty. destruct r as [[kv |] |]; simpl.
  - intros (q' & f & Hq & Hf & Hlast & Hbetween).
    exists q', f. split; [lia |]. split; [exact Hf |].
    split; [exact Hlast |]. intros j f' Hj Hf'.
    destruct (Z_le_gt_dec j q); [apply (Hbetween j) | apply (Hempty j)];
      (lia || assumption).
  - tauto.
  - intros Hall j f' Hj Hf'.
    destruct (Z_le_gt_dec j q); [apply (Hall j) | apply (Hempty j)];
      (lia || assumption).
Qed.

Lemma yieldsBack_upper (lo up up' : option bytes) (p : Z)
  (r : option kvPtr) :
  (forall j f kv, j <= p -> fileAt fs j = Some f ->
                  In kv (fileKeys store f) ->
                  inUpper cmp up' kv = inUpper cmp up kv) ->
  yieldsBack cmp fs store lo up p r -> yieldsBack cmp fs store lo up' p r.
Proof.
  intros Hsame.
  assert (Hb : forall j f kv, j <= p -> fileAt fs j = Some f ->
            In kv (fileKeys store f) ->
            inBounds cmp lo up' kv = inBounds cmp lo up kv).
  { intros j f kv Hj Hf Hkv. unfold inBounds.
    rewrite (Hsame j f kv Hj Hf Hkv). reflexivity. }
  destruct r as [[kv |] |]; simpl; [| tauto |].
  - intros (q & f & Hq & Hf & (Hin & Hbnd & Hmax) & Hafter).
    exists q, f. split; [exact Hq |]. split; [exact Hf |].
    split.
    + split; [exact Hin |].
      split; [rewrite (Hb q f kv Hq Hf Hin); exact Hbnd |].
      intros kv' Hin' Hb'. apply Hmax; [exact Hin' |].
      rewrite <- (Hb q f kv' Hq Hf Hin'). exact Hb'.
    + intros j f' Hj Hf' kv' Hkv'.
      rewrite (Hb j f' kv' (proj2 Hj) Hf' Hkv').
      apply (Hafter j f' Hj Hf' kv' Hkv').
  - intros Hall j f' Hj Hf' kv' Hkv'.
    rewrite (Hb j f' kv' Hj Hf' Hkv'). apply (Hall j f' Hj Hf' kv' Hkv').
Qed.

Lemma yieldsBack_inner (lo up : option bytes) (p : Z) (r : option kvPtr) :
  yieldsBack cmp fs store lo up p r -> innerResult cmp lo up r.
Proof.
  destruct r as [[kv |] |]; simpl; [| tauto | tauto].
  intros (q & f & _ & _ & (_ & Hb & _) & _). exact Hb.
Qed.

(** A scan of the whole level yields its largest key within the bounds. *)
Lemma yieldsBack_largest (lo up : option bytes) (p : Z) (r : option kvPtr) :
  n - 1 <= p ->
  yieldsBack cmp fs store lo up p r -> largestWithin cmp fs store lo up r.
Proof.
  intros Hp. destruct r as [[kv |] |]; simpl; [| tauto |].
  - intros (q & f & Hq & Hf & (Hin & Hb & Hmax) & Hafter).
    pose proof (fileAt_In fs q f Hf) as [_ Hqn].
    split.
    { apply (levelKeys_file fs store). exists q, f.
      split; [lia |]. split; [exact Hf | exact Hin]. }
    split; [exact Hb |].
    intros kv' Hin' Hb'. apply (levelKeys_file fs store) in Hin'.
    destruct Hin' as (j & f' & Hj & Hf' & Hkv').
    pose proof (fileAt_In fs j f' Hf') as [_ Hjn].
    destruct (Z.lt_trichotomy j q) as [Hlt | [-> | Hgt]].
    + apply (fileKeys_ordered cmp split fs store laws Hlevel Hstore j q f' f);
        (lia || assumption).
    + assert (f' = f) by congruence. subst f'. apply Hmax; assumption.
    + rewrite (Hafter j f' ltac:(lia) Hf' kv' Hkv') in Hb'. discriminate.
  - intros Hall kv' Hin'. apply (levelKeys_file fs store) in Hin'.
    destruct Hin' as (j & f' & Hj & Hf' & Hkv').
    pose proof (fileAt_In fs j f' Hf') as [_ Hjn].
    apply (Hall j f' ltac:(lia) Hf' kv' Hkv').
Qed.

End YieldBackLemmas.

Section SkipBackward.

Variable invariants_Enabled : bool.
Variable cmp : Compare.
Variable split : Split.
Variable fs : list fileMetadata.
Variable store : tableStore.
Hypothesis laws : ComparerLaws cmp split.
Hypothesis Hlevel : levelOK cmp fs.
Hypothesis Hstore : storeOK cmp fs store.

Local Abbreviation n := (Z.of_nat (List.length fs)).
Local Abbreviation HIc := (sstIterOps cmp split).
Local Abbreviation nI := (sstNewIters store).
Local Abbreviation skipBack :=
  (skipEmptyFileBackward (HI := HIc) invariants_Enabled cmp nI).

Lemma iter_call_backward (call : sstIter -> option InternalKV * sstIter)
  (q : Z) (l0 l : SL) :
  positions cmp call -> loadedAt cmp fs store q l0 l ->
  exists r it' f,
    iter_call call l = Ok r (set_iter (Some it') l)
    /\ loadedAt cmp fs store q l0 (set_iter (Some it') l)
    /\ fileAt fs q = Some f
    /\ (forall kv, r = Some kv ->
          In kv (fileKeys store f)
          /\ inBounds cmp (lower l0) (upper l0) kv = true)
    /\ (forall up',
          landsBack cmp fs store (lower l0) (upper l0) up' call ->
          match r with
          | Some kv => lastWithin cmp store (lower l0) up' f kv
          | None => emptyWithin cmp store (lower l0) up' f
          end).
Proof.
  intros Hc Hl.
  destruct (loadedAt_file cmp fs store q l0 l Hl)
    as (it & f & t & Eit & Hif & Hq & Hin & Hp & Ht & Htok & Hok & Hov & Hto
        & Hqn).
  destruct (positions_spec cmp split laws call
              (lower l0) (upper l0) f t it Hc Htok Hok)
    as (r & it' & Ecall & Hok' & Hr).
  exists r, it', f. unfold iter_call. rewrite Eit, Ecall.
  split; [reflexivity |].
  destruct Hl as ([[Hbase Hload] Hsync] & Hit & Hfiles & Hfr).
  split.
  { split; [split; [split |] |].
    - exact Hbase.
    - intros it2 Hit2. simpl in Hit2. injection Hit2 as <-.
      exists f, t. simpl. destruct Hfr as (Hlo & Hup & _).
      rewrite Hlo, Hup, Hto.
      repeat (split; [assumption || reflexivity |]). reflexivity.
    - exact Hsync.
    - split; [simpl; discriminate |]. split; [exact Hfiles | exact Hfr]. }
  split; [exact Hq |]. split.
  - intros kv Hkv. destruct (Hr kv Hkv) as [Hk Hb].
    rewrite (fileKeys_table store f t Hp Ht). auto.
  - intros up' Hfl. specialize (Hfl it f t Hin Hp Ht Htok Hok).
    rewrite Ecall in Hfl. exact Hfl.
Qed.

Lemma pauseSmallest_run (uk : bytes) (l : SL) :
  emitSyntheticBoundaries l = true ->
  pauseSmallest invariants_Enabled uk l
  = Ok (Some SyntheticKV)
       (set_smallestBoundary (Some SyntheticKV)
          (set_syntheticBoundary
             {| K := MakeRangeDeleteSentinelKey uk; V := "" |} l)).
Proof.
  intros He. unfold pauseSmallest, makeSyntheticBoundary, bind, modify, ret.
  rewrite He. simpl. rewrite andb_false_r. reflexivity.
Qed.

Lemma skipEmptyFileBackward_loop_turn (fuel : nat) (l : SL) :
  skipEmptyFileBackward_loop (HI := HIc) invariants_Enabled cmp nI (S fuel) l
  = match iter l with
    | None => Panic NilDereference
    | Some it =>
      match sErr it with
      | Some _ => Ok None l
      | None =>
        match rangeDelIterPtr l, LowerBound (tableOpts l) with
        | Some slot, Some lb =>
          match slot with
          | Some _ =>
            pauseSmallest invariants_Enabled lb (set_exhaustedDir (-1) l)
          | None => Ok None (set_exhaustedDir (-1) l)
          end
        | Some (Some _), None =>
          (f <- iterFile_deref ;;
           pauseSmallest invariants_Enabled (UserKey (SmallestPointKey f))) l
        | _, _ =>
          retreatBackward cmp split store
            (skipEmptyFileBackward_loop (HI := HIc) invariants_Enabled cmp nI
               fuel) l
        end
      end
    end.
Proof.
  cbn [skipEmptyFileBackward_loop]. unfold bind at 1. unfold iter_Error.
  destruct (iter l) as [it |]; [| reflexivity].
  change (iterError it) with (sErr it).
  destruct (sErr it); reflexivity.
Qed.

Lemma positions_Last : positions cmp (sst_Last cmp).
Proof. intros it. eexists. reflexivity. Qed.

Lemma retreatBackward_scanned (rest : M SL (option kvPtr)) (q : Z)
  (l0 l : SL) :
  loadedAt cmp fs store q l0 l ->
  (forall q' l', q' < q -> loadedAt cmp fs store q' l0 l' ->
                 scannedBack cmp fs store q' l0 (rest l')) ->
  scannedBack cmp fs store q l0 (retreatBackward cmp split store rest l).
Proof.
  intros Hl Hrest.
  destruct (loadedAt_file cmp fs store q l0 l Hl)
    as (it & f & t & Eit & Hif & Hq & Hin & Hp & Ht & Htok & Hok & Hov & Hto
        & Hqn).
  destruct Hl as ([[Hbase Hload] Hsync] & Hit & Hfiles & Hfr).
  unfold retreatBackward. unfold bind at 1. unfold files_Prev.
  rewrite files_call_run, Hfiles, (li_Prev_at fs) by lia.
  simpl fst. simpl snd.
  set (l1 := set_trace _ _).
  assert (Hinv1 : Inv0 cmp fs store l1).
  { split; [| exact Hload]. destruct Hbase as (B1 & B2 & B3 & B4).
    unfold Base. simpl. repeat split; auto; lia. }
  assert (Hfr1 : framed l0 l1)
    by (apply (framed_same l0 l l1); auto).
  pose proof (loadFile_backward cmp split fs store Hlevel Hstore (q - 1) l1
                Hinv1 eq_refl ltac:(lia)) as Hload1.
  apply (loadedBack_framed cmp fs store (q - 1) l0 l1 _ Hfr1) in Hload1;
    [| apply Hfr1 | apply Hfr1].
  destruct Hload1 as (r & l2 & q2 & Eo & Hinv2 & Hfiles2 & Hq2 & Hfr2 & Hlb
                      & Hsb & Hskip & Hend).
  unfold bind at 1. rewrite Eo.
  assert (Hempty : forall j f', q2 < j <= q - 1 -> fileAt fs j = Some f' ->
            emptyWithin cmp store (lower l0) (upper l0) f').
  { intros j f' Hj Hf'.
    apply (skippedBack_empty cmp split fs store laws Hstore);
      [apply (fileAt_In fs j f' Hf') | apply (Hskip j f' Hj Hf')]. }
  destruct Hend as [(-> & Hnone & Hstop) | (Hr & Hsome)].
  - change (noFileLoaded =? noFileLoaded) with true. cbv iota.
    exists None, (set_exhaustedDir (-1) l2). split; [reflexivity |].
    split.
    + split; [apply (Inv_same cmp fs store l2); auto |].
      split; [apply (framed_same l0 l2); auto; apply Hfr2 |].
      split; [intros _; exact Logic.I |].
      intros _ _. split; [exact Hnone | reflexivity].
    + intros _ j f' Hj Hf'. destruct (Z_le_gt_dec j q2).
      * apply (stoppedBack_empty cmp split fs store laws Hlevel Hstore
                 (lower l0) (upper l0) q2 j f' Hstop); [lia | exact Hf'].
      * apply (Hempty j); [lia | exact Hf'].
  - assert (E : (r =? noFileLoaded) = false) by (apply Z.eqb_neq; exact Hr).
    rewrite E.
    assert (Hl2 : loadedAt cmp fs store q2 l0 l2)
      by (repeat split; try apply Hinv2; auto; apply Hfr2).
    destruct (iter_call_backward (sst_Last cmp) q2 l0 l2 positions_Last Hl2)
      as (kv & it' & f2 & Ecall & Hl3 & Hq2f & Hkv & Hlast).
    specialize (Hlast _ (landsBack_Last cmp split fs store laws
                           (lower l0) (upper l0))).
    unfold bind at 1. rewrite Ecall.
    destruct kv as [kv |].
    + exists (Some (InnerKV kv)), (set_iter (Some it') l2).
      split; [reflexivity |]. destruct (Hkv kv eq_refl) as [Hk Hb].
      split.
      * split; [apply Hl3 |]. split; [apply Hl3 |].
        split; [intros _; exact Hb | intros _ H; discriminate H].
      * intros _. exists q2, f2. split; [lia |]. split; [exact Hq2f |].
        split; [exact Hlast | exact Hempty].
    + destruct (Hrest q2 _ ltac:(lia) Hl3) as (r' & l' & Er & Hok' & Hy).
      exists r', l'. split; [exact Er |]. split; [exact Hok' |].
      intros Hnone.
      apply (yieldsBack_extend cmp fs store _ _ (q - 1) q2); [lia | |].
      * exact Hempty.
      * apply (yieldsBack_extend cmp fs store _ _ q2 (q2 - 1)); [lia | |].
        -- intros j f' Hj Hf'. assert (j = q2) by lia. subst j.
           assert (f' = f2) by congruence. subst f'. exact Hlast.
        -- apply Hy. exact Hnone.
Qed.

Lemma skipEmptyFileBackward_loop_scanned (l0 : SL) (fuel : nat) :
  forall (q : Z) (l : SL),
    loadedAt cmp fs store q l0 l -> q + 1 < Z.of_nat fuel ->
    scannedBack cmp fs store q l0
      (skipEmptyFileBackward_loop (HI := HIc) invariants_Enabled cmp nI fuel
         l).
Proof.
  induction fuel as [| fuel IH]; intros q l Hl Hfuel.
  { destruct (loadedAt_file cmp fs store q l0 l Hl) as (? & ? & ? & H). lia. }
  destruct (loadedAt_file cmp fs store q l0 l Hl)
    as (it & f & t & Eit & Hif & Hq & Hin & Hp & Ht & Htok & Hok & Hov & Hto
        & Hqn).
  rewrite skipEmptyFileBackward_loop_turn, Eit.
  assert (He : sErr it = None) by apply Hok. rewrite He.
  assert (Hret :
    scannedBack cmp fs store q l0
      (retreatBackward cmp split store
         (skipEmptyFileBackward_loop (HI := HIc) invariants_Enabled cmp nI
            fuel) l)).
  { apply retreatBackward_scanned; [exact Hl |].
    intros q' l' Hq' Hl'. apply IH; [exact Hl' | lia]. }
  destruct Hl as (Hinv & Hit & Hfiles & Hfr).
  assert (Hreg : forall slot, rangeDelIterPtr l = Some slot ->
                              rangeDelIterPtr l0 <> None).
  { intros slot Hs H0. apply Hfr in H0. congruence. }
  assert (Hpause : forall uk l1,
    emitSyntheticBoundaries l1 = true ->
    Inv cmp fs store l1 -> framed l0 l1 ->
    rangeDelIterPtr l0 <> None ->
    scannedBack cmp fs store q l0 (pauseSmallest invariants_Enabled uk l1)).
  { intros uk l1 Hem Hinv1 Hfr1 Hr.
    rewrite (pauseSmallest_run uk l1 Hem).
    eexists _, _. split; [reflexivity |]. split; [| intros; contradiction].
    split; [apply (Inv_same cmp fs store l1); auto |].
    split; [apply (framed_same l0 l1); auto |].
    split; intros; contradiction. }
  destruct (rangeDelIterPtr l) as [[rd |] |] eqn:Eptr;
    destruct (LowerBound (tableOpts l)) as [lb |] eqn:Elb;
    try exact Hret.
  - apply Hpause.
    + unfold emitSyntheticBoundaries. simpl. rewrite Eptr. reflexivity.
    + apply (Inv_same cmp fs store l); auto.
    + apply (framed_same l0 l); auto.
    + apply (Hreg _ eq_refl).
  - unfold bind, iterFile_deref. rewrite Hif.
    apply Hpause.
    + unfold emitSyntheticBoundaries. rewrite Eptr. reflexivity.
    + exact Hinv.
    + exact Hfr.
    + apply (Hreg _ eq_refl).
  - exists None, (set_exhaustedDir (-1) l). split; [reflexivity |].
    split; [| intros H0; elim (Hreg _ eq_refl H0)].
    split; [apply (Inv_same cmp fs store l); auto |].
    split; [apply (framed_same l0 l); auto |].
    split; intros H0; elim (Hreg _ eq_refl H0).
Qed.

Lemma skipEmptyFileBackward_scanned (q : Z) (l0 l : SL) :
  loadedAt cmp fs store q l0 l -> scannedBack cmp fs store q l0 (skipBack l).
Proof.
  intros Hl. unfold skipEmptyFileBackward.
  apply skipEmptyFileBackward_loop_scanned; [exact Hl |].
  destruct (loadedAt_file cmp fs store q l0 l Hl) as (? & ? & ? & H).
  destruct Hl as (Hinv & _ & Hfiles & _).
  rewrite (loopFuel_level fs) by (rewrite Hfiles; reflexivity). lia.
Qed.

Lemma verify_returnedBack (q : Z) (l0 : SL)
  (call : sstIter -> option InternalKV * sstIter) (r : option kvPtr)
  (l : SL) :
  backwardOK cmp fs store l0 r l ->
  (rangeDelIterPtr l0 = None ->
   forall up',
     landsBack cmp fs store (lower l0) (upper l0) up' call ->
     earlierSame cmp fs store q (upper l0) up' ->
     yieldsBack cmp fs store (lower l0) up' q r) ->
  returnedBack cmp fs store q l0 call (verify invariants_Enabled cmp r l).
Proof.
  intros Hok Hy.
  destruct (rangeDelIterPtr l0) as [slot |] eqn:Eptr.
  - destruct (verify_any invariants_Enabled cmp r l) as [-> | [p ->]]; simpl.
    + rewrite Eptr. split; [exact Hok | exact Hy].
    + rewrite Eptr. discriminate.
  - rewrite verify_inside.
    + simpl. rewrite Eptr. split; [exact Hok | exact Hy].
    + destruct Hok as (_ & (Hlo & Hup & _) & Hin & _).
      rewrite Hlo, Hup. apply Hin. exact Eptr.
Qed.

Lemma verifyOrSkip_backward (call : sstIter -> option InternalKV * sstIter)
  (q : Z) (l0 l : SL) :
  positions cmp call -> loadedAt cmp fs store q l0 l ->
  returnedBack cmp fs store q l0 call
    (verifyOrSkip invariants_Enabled cmp (iter_call call) skipBack l).
Proof.
  intros Hc Hl.
  destruct (iter_call_backward call q l0 l Hc Hl)
    as (kv & it' & f & Ecall & Hl1 & Hq & Hkv & Hlast).
  unfold verifyOrSkip. unfold bind at 1. rewrite Ecall.
  destruct kv as [kv |].
  - destruct (Hkv kv eq_refl) as [Hk Hb]. unfold verify_inner.
    apply verify_returnedBack.
    + split; [apply Hl1 |]. split; [apply Hl1 |].
      split; [intros _; exact Hb | intros _ H; discriminate H].
    + intros _ up' Hfl _. exists q, f. split; [lia |]. split; [exact Hq |].
      split; [exact (Hlast up' Hfl) |]. intros j f' Hj. lia.
  - destruct (skipEmptyFileBackward_scanned q l0 _ Hl1)
      as (r & l' & Er & Hok & Hy).
    unfold bind. rewrite Er. apply verify_returnedBack; [exact Hok |].
    intros Hnone up' Hfl Hearlier.
    apply (yieldsBack_extend cmp fs store _ _ q (q - 1)); [lia | |].
    + intros j f' Hj Hf'. assert (j = q) by lia. subst j.
      assert (f' = f) by congruence. subst f'. exact (Hlast up' Hfl).
    + apply (yieldsBack_upper cmp fs store (lower l0) (upper l0) up' (q - 1));
        [| apply Hy; exact Hnone].
      intros j f' kv Hj. apply Hearlier. lia.
Qed.

End SkipBackward.

(** ** [Last], [SeekLT] and [Prev] over a well-formed level *)

Section BackwardCalls.

Variable invariants_Enabled : bool.
Variable cmp : Compare.
Variable split : Split.
Variable fs : list fileMetadata.
Variable store : tableStore.
Hypothesis laws : ComparerLaws cmp split.
Hypothesis Hlevel : levelOK cmp fs.
Hypothesis Hstore : storeOK cmp fs store.

Local Abbreviation n := (Z.of_nat (List.length fs)).
Local Abbreviation HIc := (sstIterOps cmp split).
Local Abbreviation nI := (sstNewIters store).
Local Abbreviation skipBack :=
  (skipEmptyFileBackward (HI := HIc) invariants_Enabled cmp nI).

Lemma emptyWithin_stricterUp (lo up up' : option bytes) (f : fileMetadata) :
  stricterUp cmp up up' -> emptyWithin cmp store lo up f ->
  emptyWithin cmp store lo up' f.
Proof.
  intros Hs He kv Hkv. specialize (He kv Hkv). unfold inBounds in *.
  destruct (inUpper cmp up' kv) eqn:E; [| apply andb_false_r].
  rewrite (Hs kv E) in He. exact He.
Qed.

Lemma earlierSame_refl (p : Z) (up : option bytes) :
  earlierSame cmp fs store p up up.
Proof. intros j f kv _ _ _. reflexivity. Qed.



Lemma returnedBack_from (p q : Z) (l0 : SL) call o :
  q <= p ->
  (forall j f, q < j <= p -> fileAt fs j = Some f ->
               skippedBackward cmp (upper l0) f) ->
  returnedBack cmp fs store q l0 call o ->
  returnedBackFrom cmp fs store p l0 call o.
Proof.
  intros Hpq Hskip. destruct o as [r l' | x |]; simpl; [| tauto | tauto].
  intros [Hok Hy]. split; [exact Hok |].
  intros Hnone up' Hl Hs Hsame.
  apply (yieldsBack_extend cmp fs store _ _ p q); [exact Hpq | |].
  - intros j f Hj Hf. apply (emptyWithin_stricterUp _ (upper l0)); [exact Hs |].
    apply (skippedBack_empty cmp split fs store laws Hstore);
      [apply (fileAt_In fs j f Hf) | apply (Hskip j f Hj Hf)].
  - apply Hy; [exact Hnone | exact Hl |].
    intros j f kv Hj. apply Hsame. lia.
Qed.

(** What follows [loadFile] in a backward call. *)
Lemma after_loadFile_back (call : sstIter -> option InternalKV * sstIter)
  (p : Z) (l0 l1 : SL) :
  positions cmp call -> Inv0 cmp fs store l1 -> files l1 = cursorAt fs p ->
  -1 <= p < n -> framed l0 l1 ->
  exists r l2,
    loadFile (HI := HIc) cmp nI (fileAt fs p) (-1) l1 = Ok r l2
    /\ ((r = noFileLoaded
         /\ returnedBackFrom cmp fs store p l0 call
              (Ok None (set_exhaustedDir (-1) l2)))
        \/ (r <> noFileLoaded
            /\ returnedBackFrom cmp fs store p l0 call
                 (verifyOrSkip invariants_Enabled cmp (iter_call call)
                    skipBack l2))).
Proof.
  intros Hc Hinv Hfiles Hp Hfr.
  pose proof (loadFile_backward cmp split fs store Hlevel Hstore p l1
                Hinv Hfiles Hp) as Hload.
  apply (loadedBack_framed cmp fs store p l0 l1 _ Hfr) in Hload;
    [| apply Hfr | apply Hfr].
  destruct Hload as (r & l2 & q & Eo & Hinv2 & Hfiles2 & Hq & Hfr2 & Hlb
                     & Hsb & Hskip & Hend).
  exists r, l2. split; [exact Eo |].
  destruct Hend as [(-> & Hnone & Hstop) | (Hr & Hsome)].
  - left. split; [reflexivity |]. simpl. split.
    + split; [apply (Inv_same cmp fs store l2); auto |].
      split; [apply (framed_same l0 l2); auto; apply Hfr2 |].
      split; [intros _; exact Logic.I |].
      intros _ _. split; [exact Hnone | reflexivity].
    + intros _ up' _ Hs _ j f Hj Hf.
      apply (emptyWithin_stricterUp _ (upper l0)); [exact Hs |].
      destruct (Z_le_gt_dec j q).
      * apply (stoppedBack_empty cmp split fs store laws Hlevel Hstore
                 (lower l0) (upper l0) q j f Hstop); [lia | exact Hf].
      * apply (skippedBack_empty cmp split fs store laws Hstore);
          [apply (fileAt_In fs j f Hf) | apply (Hskip j f); [lia | exact Hf]].
  - right. split; [exact Hr |].
    apply (returnedBack_from p q); [lia | exact Hskip |].
    apply (verifyOrSkip_backward invariants_Enabled cmp split fs store laws
             Hlevel Hstore call q l0 l2 Hc).
    repeat split; try apply Hinv2; auto; apply Hfr2.
Qed.

Lemma positions_SeekLT (k : bytes) (flags : SeekLTFlags) :
  positions cmp (sst_SeekLT cmp k flags).
Proof. intros it. eexists. reflexivity. Qed.


(** [Last] on a well-formed state. *)
Lemma Last_returned (l : SL) :
  Inv0 cmp fs store l -> invariants_Enabled && is_some (upper l) = false ->
  returnedBackFrom cmp fs store (n - 1) l (sst_Last cmp)
    (Last (HI := HIc) invariants_Enabled cmp nI l).
Proof.
  intros Hinv Hassert. unfold Last. rewrite Hassert.
  unfold bind at 1. unfold resetPosition, modify.
  set (lr := set_exhaustedDir 0 (set_err None l)).
  destruct (Inv0_cursor cmp fs store lr (Inv0_reset cmp fs store l Hinv))
    as [Hcur Hpos].
  unfold bind at 1. unfold files_Last. rewrite files_call_run, Hcur.
  rewrite (li_Last_at fs).
  simpl fst. simpl snd.
  set (l1 := set_trace _ _).
  assert (Hinv1 : Inv0 cmp fs store l1).
  { apply (Inv0_moved cmp fs store _ (n - 1) _
             (Inv0_reset cmp fs store l Hinv)). lia. }
  assert (Hfr1 : framed l l1) by (unfold framed; simpl; tauto).
  destruct (after_loadFile_back (sst_Last cmp) (n - 1) l l1
              (positions_Last cmp) Hinv1 eq_refl ltac:(lia) Hfr1)
    as (r & l2 & Eo & [(-> & Hret) | (Hr & Hret)]).
  - unfold bind at 1. rewrite Eo.
    change (noFileLoaded =? noFileLoaded) with true. cbv iota.
    exact Hret.
  - unfold bind at 1. rewrite Eo.
    assert (E : (r =? noFileLoaded) = false) by (apply Z.eqb_neq; exact Hr).
    rewrite E. exact Hret.
Qed.

(** A file that is not good for [k] has no key before [k]. *)
Lemma notGoodLT_empty (k : bytes) (lo : option bytes) (f : fileMetadata) :
  In f fs -> goodLT cmp k f = false -> emptyWithin cmp store lo (Some k) f.
Proof.
  intros Hin Hg kv Hkv.
  destruct (fileKeys_bounds cmp fs store Hstore f kv Hin Hkv)
    as (Hp & Hs & _ & _).
  unfold goodLT in Hg. rewrite Hp in Hg. simpl in Hg.
  apply Z.ltb_ge in Hg.
  unfold inBounds, inUpper. fold (userOf kv).
  assert (Hge : cmp k (userOf kv) <= 0).
  { eapply (cmp_trans laws); [| exact Hs].
    apply (cmp_ge_le cmp split laws). lia. }
  apply (cmp_ge_le cmp split laws) in Hge.
  destruct (Z.ltb_spec (cmp (userOf kv) k) 0); [lia | apply andb_false_r].
Qed.

(** Before a good file for [k], every key is before [k]. *)
Lemma earlierSame_good (k : bytes) (up : option bytes) (g : Z) :
  lastGood cmp fs k g -> stricterUp cmp up (Some k) ->
  earlierSame cmp fs store g up (Some k).
Proof.
  intros (Hg & _ & Hgood) Hs j f kv Hj Hf Hkv.
  pose proof (fileAt_In fs j f Hf) as [Hin Hjn].
  destruct (fileAt_Some fs g) as [fg Hfg]; [lia |].
  pose proof (fileAt_In fs g fg Hfg) as [Hing _].
  specialize (Hgood fg Hfg). unfold goodLT in Hgood.
  apply andb_true_iff in Hgood. destruct Hgood as [Hpg Hlt].
  apply Z.ltb_lt in Hlt.
  destruct (fileKeys_bounds cmp fs store Hstore f kv Hin Hkv)
    as (Hp & _ & Hlk & _).
  assert (Hk : inUpper cmp (Some k) kv = true).
  { simpl. fold (userOf kv). apply Z.ltb_lt.
    apply (cmp_le_lt_trans cmp split laws _ (UserKey (SmallestPointKey fg)));
      [| exact Hlt].
    eapply (cmp_trans laws); [exact Hlk |].
    apply (later_file_keys cmp split laws f fg); try assumption.
    - apply (fileAt_before cmp fs (proj1 Hlevel) j g); (lia || assumption).
    - rewrite (cmp_refl laws). lia. }
  rewrite Hk. symmetry. apply Hs. exact Hk.
Qed.

(** [SeekLT] without flags on a well-formed state, for a key at or before
    the upper bound. *)
Lemma SeekLT_returned (k : bytes) (l : SL) :
  Inv0 cmp fs store l -> (forall b, upper l = Some b -> cmp k b <= 0) ->
  exists g,
    lastGood cmp fs k g
    /\ returnedBackFrom cmp fs store g l (sst_SeekLT cmp k SeekLTFlagsNone)
         (SeekLT (HI := HIc) invariants_Enabled cmp nI k SeekLTFlagsNone l).
Proof.
  intros Hinv Hk. unfold SeekLT.
  assert (Habove : above cmp k (upper l) = false).
  { unfold above. destruct (upper l) as [b |]; [| reflexivity].
    specialize (Hk b eq_refl).
    destruct (Z.gtb_spec (cmp k b) 0); [lia | reflexivity]. }
  rewrite Habove, andb_false_r.
  unfold bind at 1. unfold resetPosition, modify.
  set (lr := set_exhaustedDir 0 (set_err None l)).
  destruct (Inv0_cursor cmp fs store lr (Inv0_reset cmp fs store l Hinv))
    as [Hcur Hpos].
  destruct (findFileLT_none cmp split fs laws (proj1 Hlevel)
              (proj1 (proj2 Hlevel)) k _ lr Hcur)
    as (g & l2 & E & Hg & Hsim & Hf2).
  unfold bind at 1. rewrite E. exists g. split; [exact Hg |].
  assert (Hgr : -1 <= g < n) by apply Hg.
  assert (Hinv2 : Inv0 cmp fs store l2).
  { apply (Inv0_simF cmp fs store lr l2 Hsim);
      [rewrite Hf2; reflexivity
      | rewrite Hf2; simpl; lia
      | apply Inv0_reset; exact Hinv]. }
  assert (Hfr2 : framed l l2).
  { apply (framed_trans l lr l2); [unfold framed; simpl; tauto |].
    apply framed_simF. exact Hsim. }
  destruct (after_loadFile_back (sst_SeekLT cmp k SeekLTFlagsNone) g l l2
              (positions_SeekLT k _) Hinv2 Hf2 Hgr Hfr2)
    as (r & l3 & Eo & [(-> & Hret) | (Hr & Hret)]).
  - unfold bind at 1. rewrite Eo.
    change (noFileLoaded =? noFileLoaded) with true. cbv iota.
    exact Hret.
  - unfold bind at 1. rewrite Eo.
    assert (Er : (r =? noFileLoaded) = false) by (apply Z.eqb_neq; exact Hr).
    rewrite Er. exact Hret.
Qed.

Lemma Last_outcome (l : SL) :
  Inv0 cmp fs store l -> invariants_Enabled && is_some (upper l) = false ->
  match Last (HI := HIc) invariants_Enabled cmp nI l with
  | Ok r l' =>
    backwardOK cmp fs store l r l'
    /\ (rangeDelIterPtr l = None ->
        largestWithin cmp fs store (lower l) (upper l) r)
  | Panic _ => rangeDelIterPtr l <> None
  | OutOfFuel => False
  end.
Proof.
  intros Hinv Hassert. pose proof (Last_returned l Hinv Hassert) as H.
  destruct (Last invariants_Enabled cmp nI l) as [r l' | p |];
    simpl in H; [| exact H | exact H].
  destruct H as [Hok Hy]. split; [exact Hok |]. intros Hnone.
  apply (yieldsBack_largest cmp split fs store laws Hlevel Hstore _ _ (n - 1));
    [lia |].
  apply (Hy Hnone (upper l)).
  - apply (landsBack_Last cmp split fs store laws).
  - apply stricterUp_refl.
  - apply earlierSame_refl.
Qed.

Lemma SeekLT_outcome (k : bytes) (l : SL) :
  Inv0 cmp fs store l -> (forall b, upper l = Some b -> cmp k b <= 0) ->
  match SeekLT (HI := HIc) invariants_Enabled cmp nI k SeekLTFlagsNone l with
  | Ok r l' =>
    backwardOK cmp fs store l r l'
    /\ (rangeDelIterPtr l = None ->
        largestWithin cmp fs store (lower l) (Some k) r)
  | Panic _ => rangeDelIterPtr l <> None
  | OutOfFuel => False
  end.
Proof.
  intros Hinv Hk. destruct (SeekLT_returned k l Hinv Hk) as (g & Hg & H).
  destruct (SeekLT invariants_Enabled cmp nI k SeekLTFlagsNone l)
    as [r l' | p |]; simpl in H; [| exact H | exact H].
  destruct H as [Hok Hy]. split; [exact Hok |]. intros Hnone.
  apply (yieldsBack_largest cmp split fs store laws Hlevel Hstore _ _ (n - 1));
    [lia |].
  apply (yieldsBack_extend cmp fs store _ _ (n - 1) g);
    [destruct Hg as (Hg & _); lia | |].
  - intros j f Hj Hf. apply notGoodLT_empty.
    + apply (fileAt_In fs j f Hf).
    + destruct Hg as (_ & Hafter & _). apply (Hafter j f); [lia | exact Hf].
  - apply (Hy Hnone (Some k)).
    + apply (landsBack_SeekLT cmp split fs store laws). exact Hk.
    + apply (stricterUp_key cmp split laws). exact Hk.
    + apply earlierSame_good;
        [exact Hg | apply (stricterUp_key cmp split laws); exact Hk].
Qed.


End BackwardCalls.

(** ** What the backward calls return *)

Section FindFileLTResults.

Context {I F : Type}.
Variable cmp : Compare.
Variable split : Split.
Variable fs : list fileMetadata.
Hypothesis laws : ComparerLaws cmp split.
Hypothesis Hsorted : levelSorted cmp fs.
Hypothesis Hwf : Forall (wfFile cmp) fs.

(** X16 ([findFileLT] without flags): over a sorted level, wherever the
    cursor is, the call returns the last file of the level that has point
    keys and whose smallest one is before the key, or nothing if there is no
    such file; it leaves the cursor there and writes nothing but the cursor,
    the trace and the state of combined iteration. *)
Theorem findFileLT_returns_last_candidate (k : bytes) (i : Z)
  (l : levelIter I F) :
  files l = cursorAt fs i ->
  exists g l',
    findFileLT cmp k SeekLTFlagsNone l = Ok (fileAt fs g) l'
    /\ lastGood cmp fs k g
    /\ simF l l' /\ files l' = cursorAt fs g.
Proof.
  intros Hfiles.
  exact (findFileLT_none cmp split fs laws Hsorted Hwf k i l Hfiles).
Qed.

(** X17 ([findFileLT] with [RelativeSeek]): when [iterFile] is the file
    under the cursor and no file after it is a candidate for the key, the
    call with any flags, which may step back from the current file instead
    of seeking, returns the same file as the call without flags, the last
    candidate of the level, and leaves the same state up to the trace and
    the state of combined iteration. *)
Theorem findFileLT_relative_seek_same_file (k : bytes) (flags : SeekLTFlags)
  (i : Z) (l : levelIter I F) :
  files l = cursorAt fs i -> -1 <= i < Z.of_nat (List.length fs) ->
  iterFile l = fileAt fs i ->
  (forall j f, i < j -> fileAt fs j = Some f -> goodLT cmp k f = false) ->
  exists g l1 l2,
    findFileLT cmp k flags l = Ok (fileAt fs g) l1
    /\ findFileLT cmp k SeekLTFlagsNone l = Ok (fileAt fs g) l2
    /\ lastGood cmp fs k g /\ sim l1 l2.
Proof.
  intros Hfiles Hi Hsync Hafter.
  destruct (findFileLT_flags cmp split fs laws Hsorted Hwf k flags i l
              Hfiles Hi Hsync Hafter) as (g1 & l1 & E1 & G1 & S1 & F1).
  destruct (findFileLT_none cmp split fs laws Hsorted Hwf k i l Hfiles)
    as (g2 & l2 & E2 & G2 & S2 & F2).
  assert (g2 = g1) by (eapply (lastGood_unique cmp fs); eassumption).
  subst g2. exists g1, l1, l2.
  split; [exact E1 |]. split; [exact E2 |]. split; [exact G1 |].
  split; [| congruence].
  eapply simF_trans; [apply simF_sym; exact S1 | exact S2].
Qed.

End FindFileLTResults.

Section BackwardResults.

Variable invariants_Enabled : bool.
Variable cmp : Compare.
Variable split : Split.
Variable fs : list fileMetadata.
Variable store : tableStore.
Hypothesis laws : ComparerLaws cmp split.
Hypothesis Hlevel : levelOK cmp fs.
Hypothesis Hstore : storeOK cmp fs store.

Local Abbreviation HIc := (sstIterOps cmp split).
Local Abbreviation nI := (sstNewIters store).

(** X18 ([loadFile] backward): called with the file under the cursor and
    direction -1 on a well-formed state, [loadFile] passes over the files
    without point keys and those wholly at or after the upper bound; it
    ends with the last other file open, or with no file loaded and the
    inner iterator closed, before the first file or at a file wholly before
    the lower bound; it clears both boundary pointers. *)
Theorem loadFile_backward_outcome (p : Z) (l : SL) :
  Inv0 cmp fs store l -> files l = cursorAt fs p ->
  -1 <= p < Z.of_nat (List.length fs) ->
  exists r l' q,
    loadFile (HI := HIc) cmp nI (fileAt fs p) (-1) l = Ok r l'
    /\ Inv cmp fs store l' /\ files l' = cursorAt fs q
    /\ -1 <= q <= p /\ framed l l'
    /\ largestBoundary l' = None /\ smallestBoundary l' = None
    /\ (forall j f, q < j <= p -> fileAt fs j = Some f ->
                    skippedBackward cmp (upper l) f)
    /\ ((r = noFileLoaded /\ iter l' = None
         /\ stoppedBackward cmp fs (lower l) q)
        \/ (r <> noFileLoaded /\ iter l' <> None)).
Proof.
  intros Hinv Hfiles Hp.
  exact (loadFile_backward cmp split fs store Hlevel Hstore p l Hinv Hfiles
           Hp).
Qed.

(** X19 ([skipEmptyFileBackward]): from a well-formed state with a file
    open, the call ends within the bound on its loop; with no slot
    registered it returns the last key within the bounds of the last
    earlier file that has one, or nothing if no earlier file has one. *)
Theorem skipEmptyFileBackward_yields_previous_key (q : Z) (l : SL) :
  Inv cmp fs store l -> iter l <> None -> files l = cursorAt fs q ->
  exists r l',
    skipEmptyFileBackward (HI := HIc) invariants_Enabled cmp nI l = Ok r l'
    /\ backwardOK cmp fs store l r l'
    /\ (rangeDelIterPtr l = None ->
        yieldsBack cmp fs store (lower l) (upper l) (q - 1) r).
Proof.
  intros Hinv Hiter Hfiles.
  apply (skipEmptyFileBackward_scanned invariants_Enabled cmp split fs store
           laws Hlevel Hstore q l l).
  split; [exact Hinv |]. split; [exact Hiter |].
  split; [exact Hfiles | apply framed_refl].
Qed.

(** X20 ([Last]): on a well-formed state with no slot registered, [Last]
    returns the largest key of the level within the bounds, or nothing if
    the level has no key within them, and leaves a well-formed state. *)
Theorem Last_yields_largest_key (l : SL) :
  Inv0 cmp fs store l ->
  invariants_Enabled && is_some (upper l) = false ->
  rangeDelIterPtr l = None ->
  exists r l',
    Last (HI := HIc) invariants_Enabled cmp nI l = Ok r l'
    /\ largestWithin cmp fs store (lower l) (upper l) r
    /\ Inv cmp fs store l'.
Proof.
  intros Hinv Hassert Hnone.
  pose proof (Last_outcome invariants_Enabled cmp split fs store laws Hlevel
                Hstore l Hinv Hassert) as H.
  destruct (Last invariants_Enabled cmp nI l) as [r l' | p |].
  - exists r, l'. split; [reflexivity |].
    split; [apply H; exact Hnone | apply H].
  - contradiction.
  - contradiction.
Qed.

(** X21 ([SeekLT]): on a well-formed state with no slot registered,
    [SeekLT] without flags for a key [k] at or before the upper bound
    returns the largest key of the level before [k] and at or after the
    lower bound, or nothing if there is none. *)
Theorem SeekLT_yields_largest_key_before (k : bytes) (l : SL) :
  Inv0 cmp fs store l ->
  (forall b, upper l = Some b -> cmp k b <= 0) ->
  rangeDelIterPtr l = None ->
  exists r l',
    SeekLT (HI := HIc) invariants_Enabled cmp nI k SeekLTFlagsNone l = Ok r l'
    /\ largestWithin cmp fs store (lower l) (Some k) r
    /\ Inv cmp fs store l'.
Proof.
  intros Hinv Hk Hnone.
  pose proof (SeekLT_outcome invariants_Enabled cmp split fs store laws Hlevel
                Hstore k l Hinv Hk) as H.
  destruct (SeekLT invariants_Enabled cmp nI k SeekLTFlagsNone l)
    as [r l' | p |].
  - exists r, l'. split; [reflexivity |].
    split; [apply H; exact Hnone | apply H].
  - contradiction.
  - contradiction.
Qed.

(** X22 ([Prev] after forward exhaustion): with [exhaustedDir = +1],
    [Prev] is [SeekLT] at the upper bound if there is one and [Last]
    otherwise; with no slot registered it returns the largest key within
    the bounds. *)
Theorem Prev_restarts_backward (l : SL) :
  Inv0 cmp fs store l -> exhaustedDir l = 1 -> rangeDelIterPtr l = None ->
  Prev (HI := HIc) invariants_Enabled cmp nI l
  = match upper l with
    | Some up => SeekLT (HI := HIc) invariants_Enabled cmp nI up
                   SeekLTFlagsNone l
    | None => Last (HI := HIc) invariants_Enabled cmp nI l
    end
  /\ exists r l',
       Prev (HI := HIc) invariants_Enabled cmp nI l = Ok r l'
       /\ largestWithin cmp fs store (lower l) (upper l) r
       /\ Inv cmp fs store l'.
Proof.
  intros Hinv Hdir Hnone.
  assert (E : Prev (HI := HIc) invariants_Enabled cmp nI l
              = match upper l with
                | Some up => SeekLT (HI := HIc) invariants_Enabled cmp nI up
                               SeekLTFlagsNone l
                | None => Last (HI := HIc) invariants_Enabled cmp nI l
                end).
  { unfold Prev. rewrite Hdir. reflexivity. }
  split; [exact E |]. rewrite E.
  destruct (upper l) as [up |] eqn:Eup.
  - assert (Hk : forall b, upper l = Some b -> cmp up b <= 0).
    { intros b Hb. rewrite Eup in Hb. injection Hb as <-.
      rewrite (cmp_refl laws). lia. }
    pose proof (SeekLT_outcome invariants_Enabled cmp split fs store laws
                  Hlevel Hstore up l Hinv Hk) as H.
    destruct (SeekLT invariants_Enabled cmp nI up SeekLTFlagsNone l)
      as [r l' | p |]; [| contradiction | contradiction].
    exists r, l'. split; [reflexivity |].
    split; [apply H; exact Hnone | apply H].
  - assert (Ha : invariants_Enabled && is_some (upper l) = false)
      by (rewrite Eup; apply andb_false_r).
    pose proof (Last_outcome invariants_Enabled cmp split fs store laws
                  Hlevel Hstore l Hinv Ha) as H.
    rewrite Eup in H.
    destruct (Last invariants_Enabled cmp nI l)
      as [r l' | p |]; [| contradiction | contradiction].
    exists r, l'. split; [reflexivity |].
    split; [apply H; exact Hnone | apply H].
Qed.



End BackwardResults.

(** ** States of the backward walks over the two files *)

Lemma cursorOnLast_Inv0 :
  Inv0 DefaultCompare Examples.twoFiles Examples.twoStore Walks.cursorOnLast.
Proof.
  split.
  - unfold Base. simpl. repeat split; try lia; try reflexivity.
    intros rd H. discriminate H.
  - intros it H. discriminate H.
Qed.

Lemma pastG_Inv :
  Inv DefaultCompare Examples.twoFiles Examples.twoStore Walks.pastG.
Proof.
  assert (Hk : forall b, lower Walks.freshTwo = Some b ->
                         DefaultCompare "h" b >= 0)
    by (intros b H; discriminate H).
  pose proof (SeekGE_outcome true DefaultCompare DefaultSplit
                Examples.twoFiles Examples.twoStore DefaultComparer_laws
                twoFiles_levelOK twoStore_storeOK "h" Walks.freshTwo
                (Inv_Inv0 _ _ _ _ (newLevelIter_Inv _ _ _ _ _)) Hk) as H.
  unfold Walks.pastG, Sst.seekGE.
  destruct (SeekGE _ _ _ _ _ _) as [r l' | p |]; simpl.
  - apply H.
  - exfalso. apply H. reflexivity.
  - contradiction.
Qed.

Lemma pastG_exhausted : exhaustedDir Walks.pastG = 1.
Proof. vm_compute. reflexivity. Qed.

Lemma pastG_no_slot : rangeDelIterPtr Walks.pastG = None.
Proof. vm_compute. reflexivity. Qed.


Lemma onE_open : iter Walks.onE <> None.
Proof. vm_compute. discriminate. Qed.

Lemma onE_cursor : files Walks.onE = cursorAt Examples.twoFiles 1.
Proof. vm_compute. reflexivity. Qed.

Lemma onEAwaiting_cursor :
  files Walks.onEAwaiting = cursorAt Examples.twoFiles 1.
Proof. vm_compute. reflexivity. Qed.

Lemma onEAwaiting_file :
  iterFile Walks.onEAwaiting = fileAt Examples.twoFiles 1.
Proof. vm_compute. reflexivity. Qed.

Lemma twoFiles_none_after_last (j : Z) (f : fileMetadata) :
  1 < j -> fileAt Examples.twoFiles j = Some f ->
  goodLT DefaultCompare "b" f = false.
Proof.
  intros Hj Hf. apply (fileAt_In Examples.twoFiles j f) in Hf.
  simpl in Hf. lia.
Qed.

Lemma findFileLT_returns_last_candidate_witness :
  exists g l',
    findFileLT DefaultCompare "d" SeekLTFlagsNone Walks.freshTwo
    = Ok (fileAt Examples.twoFiles g) l'
    /\ lastGood DefaultCompare Examples.twoFiles "d" g
    /\ simF Walks.freshTwo l' /\ files l' = cursorAt Examples.twoFiles g.
Proof.
  exact (findFileLT_returns_last_candidate DefaultCompare DefaultSplit
           Examples.twoFiles DefaultComparer_laws
           (proj1 twoFiles_levelOK) (proj1 (proj2 twoFiles_levelOK))
           "d" (-1) Walks.freshTwo eq_refl).
Defined.

Lemma findFileLT_relative_seek_same_file_witness :
  exists g l1 l2,
    findFileLT DefaultCompare "b" (Z.setbit SeekLTFlagsNone
                                     seekLTFlagRelativeSeek)
      Walks.onEAwaiting = Ok (fileAt Examples.twoFiles g) l1
    /\ findFileLT DefaultCompare "b" SeekLTFlagsNone Walks.onEAwaiting
       = Ok (fileAt Examples.twoFiles g) l2
    /\ lastGood DefaultCompare Examples.twoFiles "b" g /\ sim l1 l2.
Proof.
  refine (findFileLT_relative_seek_same_file DefaultCompare DefaultSplit
            Examples.twoFiles DefaultComparer_laws
            (proj1 twoFiles_levelOK) (proj1 (proj2 twoFiles_levelOK))
            "b" (Z.setbit SeekLTFlagsNone seekLTFlagRelativeSeek) 1
            Walks.onEAwaiting onEAwaiting_cursor _ onEAwaiting_file
            twoFiles_none_after_last).
  simpl. lia.
Defined.

Lemma loadFile_backward_outcome_witness :
  exists r l' q,
    loadFile (HI := sstIterOps DefaultCompare DefaultSplit) DefaultCompare
      (sstNewIters Examples.twoStore) (fileAt Examples.twoFiles 1) (-1)
      Walks.cursorOnLast = Ok r l'
    /\ Inv DefaultCompare Examples.twoFiles Examples.twoStore l'
    /\ files l' = cursorAt Examples.twoFiles q
    /\ -1 <= q <= 1 /\ framed Walks.cursorOnLast l'
    /\ largestBoundary l' = None /\ smallestBoundary l' = None
    /\ (forall j f, q < j <= 1 -> fileAt Examples.twoFiles j = Some f ->
                    skippedBackward DefaultCompare
                      (upper Walks.cursorOnLast) f)
    /\ ((r = noFileLoaded /\ iter l' = None
         /\ stoppedBackward DefaultCompare Examples.twoFiles
              (lower Walks.cursorOnLast) q)
        \/ (r <> noFileLoaded /\ iter l' <> None)).
Proof.
  refine (loadFile_backward_outcome DefaultCompare DefaultSplit
            Examples.twoFiles Examples.twoStore twoFiles_levelOK
            twoStore_storeOK 1 Walks.cursorOnLast cursorOnLast_Inv0
            eq_refl _).
  simpl. lia.
Defined.

Lemma skipEmptyFileBackward_yields_previous_key_witness :
  exists r l',
    skipEmptyFileBackward (HI := sstIterOps DefaultCompare DefaultSplit) true
      DefaultCompare (sstNewIters Examples.twoStore) Walks.onE = Ok r l'
    /\ backwardOK DefaultCompare Examples.twoFiles Examples.twoStore
         Walks.onE r l'
    /\ (rangeDelIterPtr Walks.onE = None ->
        yieldsBack DefaultCompare Examples.twoFiles Examples.twoStore
          (lower Walks.onE) (upper Walks.onE) (1 - 1) r).
Proof.
  exact (skipEmptyFileBackward_yields_previous_key true DefaultCompare
           DefaultSplit Examples.twoFiles Examples.twoStore
           DefaultComparer_laws twoFiles_levelOK twoStore_storeOK 1
           Walks.onE onE_Inv onE_open onE_cursor).
Defined.

Lemma Last_yields_largest_key_witness :
  exists r l',
    Last (HI := sstIterOps DefaultCompare DefaultSplit) true DefaultCompare
      (sstNewIters Examples.twoStore) Walks.freshTwo = Ok r l'
    /\ largestWithin DefaultCompare Examples.twoFiles Examples.twoStore
         (lower Walks.freshTwo) (upper Walks.freshTwo) r
    /\ Inv DefaultCompare Examples.twoFiles Examples.twoStore l'.
Proof.
  exact (Last_yields_largest_key true DefaultCompare DefaultSplit
           Examples.twoFiles Examples.twoStore DefaultComparer_laws
           twoFiles_levelOK twoStore_storeOK Walks.freshTwo
           (Inv_Inv0 _ _ _ _
              (newLevelIter_Inv DefaultCompare Examples.twoFiles
                 Examples.twoStore None None))
           eq_refl eq_refl).
Defined.

Lemma freshAboveB_below_d (b : bytes) :
  upper Walks.freshAboveB = Some b -> DefaultCompare "d" b <= 0.
Proof. intros H. discriminate H. Qed.

Lemma SeekLT_yields_largest_key_before_witness :
  exists r l',
    SeekLT (HI := sstIterOps DefaultCompare DefaultSplit) true DefaultCompare
      (sstNewIters Examples.twoStore) "d" SeekLTFlagsNone Walks.freshAboveB
    = Ok r l'
    /\ largestWithin DefaultCompare Examples.twoFiles Examples.twoStore
         (lower Walks.freshAboveB) (Some "d") r
    /\ Inv DefaultCompare Examples.twoFiles Examples.twoStore l'.
Proof.
  exact (SeekLT_yields_largest_key_before true DefaultCompare DefaultSplit
           Examples.twoFiles Examples.twoStore DefaultComparer_laws
           twoFiles_levelOK twoStore_storeOK "d" Walks.freshAboveB
           (Inv_Inv0 _ _ _ _
              (newLevelIter_Inv DefaultCompare Examples.twoFiles
                 Examples.twoStore (Some "b") None))
           freshAboveB_below_d eq_refl).
Defined.

Lemma Prev_restarts_backward_witness :
  Prev (HI := sstIterOps DefaultCompare DefaultSplit) true DefaultCompare
    (sstNewIters Examples.twoStore) Walks.pastG
  = match upper Walks.pastG with
    | Some up =>
      SeekLT (HI := sstIterOps DefaultCompare DefaultSplit) true
        DefaultCompare (sstNewIters Examples.twoStore) up SeekLTFlagsNone
        Walks.pastG
    | None =>
      Last (HI := sstIterOps DefaultCompare DefaultSplit) true DefaultCompare
        (sstNewIters Examples.twoStore) Walks.pastG
    end
  /\ exists r l',
       Prev (HI := sstIterOps DefaultCompare DefaultSplit) true DefaultCompare
         (sstNewIters Examples.twoStore) Walks.pastG = Ok r l'
       /\ largestWithin DefaultCompare Examples.twoFiles Examples.twoStore
            (lower Walks.pastG) (upper Walks.pastG) r
       /\ Inv DefaultCompare Examples.twoFiles Examples.twoStore l'.
Proof.
  exact (Prev_restarts_backward true DefaultCompare DefaultSplit
           Examples.twoFiles Examples.twoStore DefaultComparer_laws
           twoFiles_levelOK twoStore_storeOK Walks.pastG
           (Inv_Inv0 _ _ _ _ pastG_Inv) pastG_exhausted pastG_no_slot).
Defined.




(** ** [SeekPrefixGE] over a well-formed level *)

Section PrefixCalls.

Variable invariants_Enabled : bool.
Variable cmp : Compare.
Variable split : Split.
Variable fs : list fileMetadata.
Variable store : tableStore.
Hypothesis laws : ComparerLaws cmp split.
Hypothesis Hlevel : levelOK cmp fs.
Hypothesis Hstore : storeOK cmp fs store.

Local Abbreviation n := (Z.of_nat (List.length fs)).
Local Abbreviation HIc := (sstIterOps cmp split).
Local Abbreviation nI := (sstNewIters store).
Local Abbreviation skip :=
  (skipEmptyFileForward (HI := HIc) invariants_Enabled cmp nI).

(** The opening of a seek without flags either loads no file or leaves a
    well-formed state with a file open. *)
Lemma seekFile_loaded (k : bytes) (l : SL) :
  Inv0 cmp fs store l ->
  match seekFile (HI := HIc) cmp nI k SeekGEFlagsNone l with
  | Ok None _ => True
  | Ok (Some _) l2 => exists q, loadedAt cmp fs store q l l2
  | _ => False
  end.
Proof.
  intros Hinv. unfold seekFile.
  unfold bind at 1. unfold resetPosition, modify.
  set (lr := set_exhaustedDir 0 (set_err None l)).
  destruct (Inv0_cursor cmp fs store lr (Inv0_reset cmp fs store l Hinv))
    as [Hcur Hpos].
  destruct (findFileGE_none cmp split fs laws (proj1 Hlevel)
              (proj1 (proj2 Hlevel)) k _ lr Hcur)
    as (g & l2 & E & Hg & Hsim & Hf2).
  unfold bind at 1. rewrite E.
  assert (Hgr : 0 <= g <= n) by apply Hg.
  assert (Hinv2 : Inv0 cmp fs store l2).
  { apply (Inv0_simF cmp fs store lr l2 Hsim);
      [rewrite Hf2; reflexivity
      | rewrite Hf2; simpl; lia
      | apply Inv0_reset; exact Hinv]. }
  assert (Hfr2 : framed l l2).
  { apply (framed_trans l lr l2); [unfold framed; simpl; tauto |].
    apply framed_simF. exact Hsim. }
  pose proof (loadFile_forward cmp split fs store Hlevel Hstore g l2
                Hinv2 Hf2 Hgr) as Hload.
  apply (loadedFrom_framed cmp fs store g l l2 _ Hfr2) in Hload;
    [| apply Hfr2 | apply Hfr2].
  destruct Hload as (r & l3 & q & Eo & Hinv3 & Hfiles3 & Hq & Hfr3 & Hlb
                     & Hsb & Hskip & Hend).
  unfold bind at 1. rewrite Eo.
  destruct Hend as [(-> & Hnone & Hstop) | (Hr & Hsome)].
  - change (noFileLoaded =? noFileLoaded) with true. cbv iota.
    exact Logic.I.
  - assert (Er : (r =? noFileLoaded) = false) by (apply Z.eqb_neq; exact Hr).
    rewrite Er. simpl. exists q.
    split; [exact Hinv3 |]. split; [exact Hsome |].
    split; [exact Hfiles3 | exact Hfr3].
Qed.

(** X25 ([SeekPrefixGE]): on a well-formed state with no slot registered,
    if [SeekGE] without flags for [k] returns a key whose prefix is the
    prefix sought, then [SeekPrefixGE] for that prefix and [k] returns the
    same key and leaves the same state: the prefix check never hides the
    first key of the prefix. *)
Theorem SeekPrefixGE_finds_prefix_key (prefix k : bytes) (kv : InternalKV)
  (l l1 : SL) :
  Inv0 cmp fs store l -> rangeDelIterPtr l = None ->
  SeekGE (HI := HIc) invariants_Enabled cmp nI k SeekGEFlagsNone l
  = Ok (Some (InnerKV kv)) l1 ->
  cmp (prefixOf split (userOf kv)) prefix = 0 ->
  SeekPrefixGE (HI := HIc) invariants_Enabled cmp split nI prefix k
    SeekGEFlagsNone l
  = Ok (Some (InnerKV kv)) l1.
Proof.
  intros Hinv Hnone Hseek Hpre.
  unfold SeekGE in Hseek. unfold SeekPrefixGE.
  destruct (invariants_Enabled && below cmp k (lower l));
    [discriminate Hseek |].
  unfold bind at 1 in Hseek. unfold bind at 1.
  pose proof (seekFile_loaded k l Hinv) as Hsf.
  destruct (seekFile cmp nI k SeekGEFlagsNone l) as [[fl |] l2 | p |];
    [| discriminate Hseek | contradiction | contradiction].
  destruct Hsf as [q Hl2].
  destruct (loadedAt_file cmp fs store q l l2 Hl2)
    as (it & f & t & Eit & Hif & Hq & Hin & Hp & Ht & Htok & Hok & Hov & Hto
        & Hqn).
  unfold verifyOrSkip in Hseek. unfold bind at 1 in Hseek.
  unfold bind at 1.
  unfold iter_call in Hseek |- *. rewrite Eit in Hseek |- *.
  change (iterSeekGE (InternalIterator := HIc) k fl it)
    with (sst_SeekGE cmp k fl it) in Hseek.
  change (iterSeekPrefixGE (InternalIterator := HIc) prefix k fl it)
    with (sst_SeekPrefixGE cmp split prefix k fl it).
  unfold sst_SeekPrefixGE.
  destruct (sst_SeekGE cmp k fl it) as [r0 it'] eqn:Ecall.
  destruct r0 as [x |].
  - unfold verify_inner in Hseek.
    assert (x = kv).
    { destruct (verify_any invariants_Enabled cmp (Some (InnerKV x))
                  (set_iter (Some it') l2)) as [Ev | [p Ev]];
        rewrite Ev in Hseek; [| discriminate Hseek].
      injection Hseek as Hx _. exact Hx. }
    subst x. unfold userOf, prefixOf in Hpre. rewrite Hpre.
    change (0 =? 0) with true. cbv iota. exact Hseek.
  - assert (Hl3 : loadedAt cmp fs store q l (set_iter (Some it') l2)).
    { destruct (iter_call_forward cmp split fs store laws
                  (sst_SeekGE cmp k fl) q l l2
                  (positions_SeekGE cmp k fl) Hl2)
        as (r' & it2 & f2 & Ec & Hl3 & _).
      unfold iter_call in Ec. rewrite Eit, Ecall in Ec.
      injection Ec as _ Hs. rewrite Hs. exact Hl3. }
    set (l3 := set_iter (Some it') l2) in *.
    destruct (skipEmptyFileForward_scanned invariants_Enabled cmp split fs
                store laws Hlevel Hstore q l l3 Hl3)
      as (r & l' & Er & Hokr & Hy).
    unfold bind at 1 in Hseek. rewrite Er in Hseek.
    assert (Hr : r = Some (InnerKV kv)).
    { destruct (verify_any invariants_Enabled cmp r l') as [Ev | [p Ev]];
        rewrite Ev in Hseek; [| discriminate Hseek].
      injection Hseek as Hx _. exact Hx. }
    subst r.
    destruct (loadedAt_file cmp fs store q l l3 Hl3)
      as (it3 & f3 & t3 & Eit3 & Hif3 & Hq3 & _ & _ & _ & _ & Hok3 & _).
    assert (f3 = f) by congruence. subst f3.
    unfold prefixMiss. unfold bind at 1. unfold iter_Error.
    rewrite Eit3. change (iterError it3) with (sErr it3).
    assert (He3 : sErr it3 = None) by apply Hok3. rewrite He3.
    assert (Hp3 : rangeDelIterPtr l3 = None).
    { destruct Hl3 as (_ & _ & _ & Hfr). apply Hfr. exact Hnone. }
    unfold emitSyntheticBoundaries. rewrite Hp3.
    unfold bind at 1. unfold iterFile_deref. rewrite Hif3.
    destruct (Z.ltb_spec
                (cmp prefix
                   (slice_to (UserKey (LargestPointKey f))
                      (split (UserKey (LargestPointKey f))))) 0)
      as [Hlt | Hge].
    + exfalso.
      specialize (Hy Hnone). simpl in Hy.
      destruct Hy as (q' & f' & Hq' & Hf' & (Hkin & _ & _) & _).
      pose proof (fileAt_In fs q' f' Hf') as [Hin' _].
      destruct (fileKeys_bounds cmp fs store Hstore f' kv Hin' Hkin)
        as (Hp' & Hs' & _ & _).
      assert (Hle : cmp (UserKey (LargestPointKey f)) (userOf kv) <= 0).
      { apply (later_file_keys cmp split laws f f'); try assumption.
        apply (fileAt_before cmp fs (proj1 Hlevel) q q');
          [lia | assumption | assumption]. }
      apply (split_monotone laws) in Hle.
      assert (Hkp : cmp (prefixOf split (userOf kv)) prefix <= 0) by lia.
      pose proof (cmp_trans laws _ _ _ Hle Hkp) as Hcontra.
      fold (prefixOf split (UserKey (LargestPointKey f))) in Hlt.
      apply (cmp_flip laws) in Hlt. lia.
    + unfold bind at 1. rewrite Er. exact Hseek.
Qed.

End PrefixCalls.

Lemma seekD_run :
  SeekGE (HI := sstIterOps DefaultCompare DefaultSplit) true DefaultCompare
    (sstNewIters Examples.twoStore) "d" SeekGEFlagsNone Walks.freshTwo
  = Ok (Some (InnerKV (Sst.kvOf "e"))) Walks.seekD.
Proof. vm_compute. reflexivity. Qed.

Lemma prefix_of_e :
  DefaultCompare (prefixOf DefaultSplit (userOf (Sst.kvOf "e"))) "e" = 0.
Proof. vm_compute. reflexivity. Qed.

Lemma SeekPrefixGE_finds_prefix_key_witness :
  SeekPrefixGE (HI := sstIterOps DefaultCompare DefaultSplit) true
    DefaultCompare DefaultSplit (sstNewIters Examples.twoStore) "e" "d"
    SeekGEFlagsNone Walks.freshTwo
  = Ok (Some (InnerKV (Sst.kvOf "e"))) Walks.seekD.
Proof.
  exact (SeekPrefixGE_finds_prefix_key true DefaultCompare DefaultSplit
           Examples.twoFiles Examples.twoStore DefaultComparer_laws
           twoFiles_levelOK twoStore_storeOK "e" "d" (Sst.kvOf "e")
           Walks.freshTwo Walks.seekD
           (Inv_Inv0 _ _ _ _
              (newLevelIter_Inv DefaultCompare Examples.twoFiles
                 Examples.twoStore None None))
           eq_refl seekD_run prefix_of_e).
Defined.

(** ** A step within a file *)

Section Steps.

Variable invariants_Enabled : bool.
Variable cmp : Compare.
Variable split : Split.
Variable fs : list fileMetadata.
Variable store : tableStore.
Hypothesis laws : ComparerLaws cmp split.
Hypothesis Hlevel : levelOK cmp fs.
Hypothesis Hstore : storeOK cmp fs store.

Local Abbreviation n := (Z.of_nat (List.length fs)).
Local Abbreviation HIc := (sstIterOps cmp split).
Local Abbreviation nI := (sstNewIters store).
Local Abbreviation skip :=
  (skipEmptyFileForward (HI := HIc) invariants_Enabled cmp nI).
Local Abbreviation skipBack :=
  (skipEmptyFileBackward (HI := HIc) invariants_Enabled cmp nI).

(** The pair of the inner iterator at a position, in terms of the keys of
    the file and the bounds of the iteration. *)
Lemma sst_at_file (lo up : option bytes) (f : fileMetadata) (t : sstable)
  (it : sstIter) (p : Z) :
  HasPointKeys f = true -> lookupTable store (FileNum f) = Some t ->
  tableOK cmp f t -> iterOK it t (tableBounds cmp lo up f) -> 0 <= p ->
  sst_at cmp it p
  = match nth_error (fileKeys store f) (Z.to_nat p) with
    | Some x => if inBounds cmp lo up x then Some x else None
    | None => None
    end.
Proof.
  intros Hp Ht Htok (Hk & Hl & Hu & _) Hpos.
  unfold sst_at. rewrite (fileKeys_table store f t Hp Ht), Hk.
  destruct (Z.ltb_spec p 0) as [| _]; [lia |].
  destruct (nth_error (tPoints t) (Z.to_nat p)) as [x |] eqn:Ex;
    [| reflexivity].
  assert (Hin : In x (tPoints t)) by (eapply nth_error_In; exact Ex).
  rewrite Hl, Hu. unfold inBounds.
  destruct (tableBounds_select cmp split laws lo up f t x Htok Hin)
    as [-> ->].
  reflexivity.
Qed.

(** What follows a nil of the inner iterator in [Next]. *)
Lemma skip_verified (q : Z) (l0 l : SL) :
  loadedAt cmp fs store q l0 l -> rangeDelIterPtr l0 = None ->
  exists r l',
    (r <- skip ;; verify invariants_Enabled cmp r) l = Ok r l'
    /\ Inv cmp fs store l'
    /\ yieldsFrom cmp fs store (lower l0) (upper l0) (q + 1) r.
Proof.
  intros Hl Hnone.
  destruct (skipEmptyFileForward_scanned invariants_Enabled cmp split fs
              store laws Hlevel Hstore q l0 l Hl)
    as (r & l' & Er & Hok & Hy).
  exists r, l'. unfold bind. rewrite Er.
  split; [| split; [apply Hok | apply Hy; exact Hnone]].
  apply verify_inside.
  destruct Hok as (_ & (Hlo & Hup & _) & _ & Hin & _).
  rewrite Hlo, Hup. apply Hin. exact Hnone.
Qed.

Lemma skipBack_verified (q : Z) (l0 l : SL) :
  loadedAt cmp fs store q l0 l -> rangeDelIterPtr l0 = None ->
  exists r l',
    (r <- skipBack ;; verify invariants_Enabled cmp r) l = Ok r l'
    /\ Inv cmp fs store l'
    /\ yieldsBack cmp fs store (lower l0) (upper l0) (q - 1) r.
Proof.
  intros Hl Hnone.
  destruct (skipEmptyFileBackward_scanned invariants_Enabled cmp split fs
              store laws Hlevel Hstore q l0 l Hl)
    as (r & l' & Er & Hok & Hy).
  exists r, l'. unfold bind. rewrite Er.
  split; [| split; [apply Hok | apply Hy; exact Hnone]].
  apply verify_inside.
  destruct Hok as (_ & (Hlo & Hup & _) & Hin & _).
  rewrite Hlo, Hup. apply Hin. exact Hnone.
Qed.

(** The inner iterator moved to a position of a loaded file. *)
Lemma loadedAt_moved (q : Z) (l0 l : SL) (it : sstIter) (p : Z) :
  loadedAt cmp fs store q l0 l -> iter l = Some it ->
  loadedAt cmp fs store q l0 (set_iter (Some (sst_move it p)) l).
Proof.
  intros Hl Eit.
  destruct (loadedAt_file cmp fs store q l0 l Hl)
    as (it0 & f & t & Eit0 & Hif & Hq & Hin & Hp & Ht & Htok & Hok & Hov
        & Hto & Hqn).
  assert (it0 = it) by congruence. subst it0.
  destruct Hl as ([[Hbase Hload] Hsync] & Hit & Hfiles & Hfr).
  split; [split; [split |] |].
  - exact Hbase.
  - intros it2 Hit2. simpl in Hit2. injection Hit2 as <-.
    exists f, t. simpl. destruct Hfr as (Hlo & Hup & _).
    rewrite Hlo, Hup, Hto.
    split; [exact Hif |]. split; [exact Hin |]. split; [exact Hp |].
    split; [exact Ht |]. split; [exact Htok |].
    split; [| split; [exact Hov | reflexivity]].
    destruct Hok as (A & B & C & D & E).
    unfold iterOK. simpl. auto.
  - exact Hsync.
  - split; [simpl; discriminate |]. split; [exact Hfiles | exact Hfr].
Qed.

(** A step of [Next] inside the loaded file. *)
Lemma Next_within_file (q : Z) (f : fileMetadata)
  (it : sstIter) (l : SL) :
  Inv cmp fs store l -> rangeDelIterPtr l = None ->
  exhaustedDir l <> -1 -> largestBoundary l = None ->
  iter l = Some it -> files l = cursorAt fs q -> fileAt fs q = Some f ->
  -1 <= sPos it ->
  exists r l',
    Next (HI := HIc) invariants_Enabled cmp nI l = Ok r l'
    /\ Inv cmp fs store l'
    /\ match nth_error (fileKeys store f) (Z.to_nat (sPos it + 1)) with
       | Some x =>
         if inBounds cmp (lower l) (upper l) x then
           r = Some (InnerKV x)
           /\ l' = set_iter (Some (sst_move it (sPos it + 1)))
                     (set_smallestBoundary None l)
         else yieldsFrom cmp fs store (lower l) (upper l) (q + 1) r
       | None => yieldsFrom cmp fs store (lower l) (upper l) (q + 1) r
       end.
Proof.
  intros Hinv Hnone Hdir Hlb Eit Hfiles Hq Hpos.
  pose proof (Inv_Inv0 cmp fs store l Hinv) as Hinv0.
  unfold Next.
  assert (Ed : (exhaustedDir l =? -1) = false) by (apply Z.eqb_neq; exact Hdir).
  rewrite Ed.
  assert (He : err l = None) by apply Hinv0.
  rewrite He, Eit, Hlb. cbn [is_some orb negb].
  unfold bind at 1. unfold modify at 1.
  set (l1 := set_smallestBoundary None l).
  assert (Hl1 : loadedAt cmp fs store q l l1).
  { split; [apply (Inv_same cmp fs store l l1); auto |].
    split; [simpl; rewrite Eit; discriminate |].
    split; [exact Hfiles | unfold framed; simpl; tauto]. }
  destruct (loadedAt_file cmp fs store q l l1 Hl1)
    as (it0 & f0 & t & Eit0 & Hif & Hq0 & Hin & Hp & Ht & Htok & Hok & Hov
        & Hto & Hqn).
  assert (it0 = it) by (simpl in Eit0; congruence). subst it0.
  assert (f0 = f) by congruence. subst f0.
  unfold verifyOrSkip. unfold bind at 1. unfold iter_call.
  change (iter l1) with (iter l). rewrite Eit.
  change (iterNext (InternalIterator := HIc) it) with (sst_Next cmp it).
  unfold sst_Next.
  set (p' := Z.min (sPos it + 1) (sst_len it)).
  destruct (sst_goto_ok cmp it t _ p' Hok) as [-> _].
  assert (Hlen : sst_len it = Z.of_nat (List.length (fileKeys store f))).
  { unfold sst_len. destruct Hok as (Hk & _).
    rewrite Hk, (fileKeys_table store f t Hp Ht). reflexivity. }
  assert (Hp0 : 0 <= p') by (subst p'; unfold sst_len; lia).
  rewrite (sst_at_file (lower l) (upper l) f t it p' Hp Ht Htok Hok Hp0).
  assert (Hl2 : loadedAt cmp fs store q l (set_iter (Some (sst_move it p')) l1))
    by (apply loadedAt_moved; [exact Hl1 | exact Eit]).
  destruct (nth_error (fileKeys store f) (Z.to_nat (sPos it + 1)))
    as [x |] eqn:Ex.
  - assert (Hlt : sPos it + 1 < sst_len it).
    { assert (Hs : nth_error (fileKeys store f) (Z.to_nat (sPos it + 1))
                   <> None) by congruence.
      apply nth_error_Some in Hs. lia. }
    assert (Ep : p' = sPos it + 1) by (subst p'; lia).
    rewrite Ep in *. rewrite Ex.
    destruct (inBounds cmp (lower l) (upper l) x) eqn:Bx.
    + eexists _, _. unfold verify_inner.
      split; [apply verify_inside; simpl; exact Bx |].
      split; [apply Hl2 |]. split; reflexivity.
    + destruct (skip_verified q l _ Hl2 Hnone) as (r & l' & E & Hi & Hy).
      exists r, l'. split; [exact E |]. split; [exact Hi | exact Hy].
  - assert (Hge : sst_len it <= sPos it + 1).
    { apply nth_error_None in Ex. lia. }
    assert (Ep : p' = sst_len it) by (subst p'; lia).
    assert (En : nth_error (fileKeys store f) (Z.to_nat p') = None).
    { apply nth_error_None. lia. }
    rewrite En.
    destruct (skip_verified q l _ Hl2 Hnone) as (r & l' & E & Hi & Hy).
    exists r, l'. split; [exact E |]. split; [exact Hi | exact Hy].
Qed.

(** A step of [Prev] inside the loaded file. *)
Lemma Prev_within_file (q : Z) (f : fileMetadata)
  (it : sstIter) (l : SL) :
  Inv cmp fs store l -> rangeDelIterPtr l = None ->
  exhaustedDir l <> 1 -> smallestBoundary l = None ->
  iter l = Some it -> files l = cursorAt fs q -> fileAt fs q = Some f ->
  exists r l',
    Prev (HI := HIc) invariants_Enabled cmp nI l = Ok r l'
    /\ Inv cmp fs store l'
    /\ if sPos it <=? 0 then
         yieldsBack cmp fs store (lower l) (upper l) (q - 1) r
       else
         match nth_error (fileKeys store f) (Z.to_nat (sPos it - 1)) with
         | Some x =>
           if inBounds cmp (lower l) (upper l) x then
             r = Some (InnerKV x)
             /\ l' = set_iter (Some (sst_move it (sPos it - 1)))
                       (set_largestBoundary None l)
           else yieldsBack cmp fs store (lower l) (upper l) (q - 1) r
         | None => yieldsBack cmp fs store (lower l) (upper l) (q - 1) r
         end.
Proof.
  intros Hinv Hnone Hdir Hsb Eit Hfiles Hq.
  pose proof (Inv_Inv0 cmp fs store l Hinv) as Hinv0.
  unfold Prev.
  assert (Ed : (exhaustedDir l =? 1) = false) by (apply Z.eqb_neq; exact Hdir).
  rewrite Ed.
  assert (He : err l = None) by apply Hinv0.
  rewrite He, Eit, Hsb. cbn [is_some orb negb].
  unfold bind at 1. unfold modify at 1.
  set (l1 := set_largestBoundary None l).
  assert (Hl1 : loadedAt cmp fs store q l l1).
  { split; [apply (Inv_same cmp fs store l l1); auto |].
    split; [simpl; rewrite Eit; discriminate |].
    split; [exact Hfiles | unfold framed; simpl; tauto]. }
  destruct (loadedAt_file cmp fs store q l l1 Hl1)
    as (it0 & f0 & t & Eit0 & Hif & Hq0 & Hin & Hp & Ht & Htok & Hok & Hov
        & Hto & Hqn).
  assert (it0 = it) by (simpl in Eit0; congruence). subst it0.
  assert (f0 = f) by congruence. subst f0.
  unfold verifyOrSkip. unfold bind at 1. unfold iter_call.
  change (iter l1) with (iter l). rewrite Eit.
  change (iterPrev (InternalIterator := HIc) it) with (sst_Prev cmp it).
  unfold sst_Prev.
  set (p' := Z.max (sPos it - 1) (-1)).
  destruct (sst_goto_ok cmp it t _ p' Hok) as [-> _].
  assert (Hl2 : loadedAt cmp fs store q l (set_iter (Some (sst_move it p')) l1))
    by (apply loadedAt_moved; [exact Hl1 | exact Eit]).
  destruct (Z.leb_spec (sPos it) 0) as [Hle | Hgt].
  - assert (En : sst_at cmp it p' = None).
    { unfold sst_at.
      destruct (Z.ltb_spec p' 0) as [| Hge]; [reflexivity |].
      subst p'. lia. }
    rewrite En.
    destruct (skipBack_verified q l _ Hl2 Hnone) as (r & l' & E & Hi & Hy).
    exists r, l'. split; [exact E |]. split; [exact Hi | exact Hy].
  - assert (Ep : p' = sPos it - 1) by (subst p'; lia).
    rewrite Ep in *.
    rewrite (sst_at_file (lower l) (upper l) f t it (sPos it - 1) Hp Ht Htok
               Hok ltac:(lia)).
    destruct (nth_error (fileKeys store f) (Z.to_nat (sPos it - 1)))
      as [x |] eqn:Ex.
    + destruct (inBounds cmp (lower l) (upper l) x) eqn:Bx.
      * eexists _, _. unfold verify_inner.
        split; [apply verify_inside; simpl; exact Bx |].
        split; [apply Hl2 |]. split; reflexivity.
      * destruct (skipBack_verified q l _ Hl2 Hnone)
          as (r & l' & E & Hi & Hy).
        exists r, l'. split; [exact E |]. split; [exact Hi | exact Hy].
    + destruct (skipBack_verified q l _ Hl2 Hnone) as (r & l' & E & Hi & Hy).
      exists r, l'. split; [exact E |]. split; [exact Hi | exact Hy].
Qed.

(** X26 ([Next] within a file): on a well-formed state with no slot
    registered, not exhausted backward and not paused at a boundary, with
    the inner iterator at some position of the current file: if the key at
    the following position of the file lies within the bounds, [Next]
    returns it and moves the inner iterator there, leaving the cursor
    where it is; otherwise it returns the first key within the bounds of
    the first later file that has one, or nothing. *)
Theorem Next_steps_to_following_key (q : Z) (f : fileMetadata)
  (it : sstIter) (l : SL) :
  Inv cmp fs store l -> rangeDelIterPtr l = None ->
  exhaustedDir l <> -1 -> largestBoundary l = None ->
  iter l = Some it -> files l = cursorAt fs q -> fileAt fs q = Some f ->
  -1 <= sPos it ->
  exists r l',
    Next (HI := HIc) invariants_Enabled cmp nI l = Ok r l'
    /\ Inv cmp fs store l'
    /\ match nth_error (fileKeys store f) (Z.to_nat (sPos it + 1)) with
       | Some x =>
         if inBounds cmp (lower l) (upper l) x then
           r = Some (InnerKV x)
           /\ l' = set_iter (Some (sst_move it (sPos it + 1)))
                     (set_smallestBoundary None l)
         else yieldsFrom cmp fs store (lower l) (upper l) (q + 1) r
       | None => yieldsFrom cmp fs store (lower l) (upper l) (q + 1) r
       end.
Proof. exact (Next_within_file q f it l). Qed.

(** X27 ([Prev] within a file): on a well-formed state with no slot
    registered, not exhausted forward and not paused at a boundary, with
    the inner iterator at some position of the current file: if there is a
    key at the preceding position of the file and it lies within the
    bounds, [Prev] returns it and moves the inner iterator there, leaving
    the cursor where it is; otherwise it returns the last key within the
    bounds of the last earlier file that has one, or nothing. *)
Theorem Prev_steps_to_preceding_key (q : Z) (f : fileMetadata)
  (it : sstIter) (l : SL) :
  Inv cmp fs store l -> rangeDelIterPtr l = None ->
  exhaustedDir l <> 1 -> smallestBoundary l = None ->
  iter l = Some it -> files l = cursorAt fs q -> fileAt fs q = Some f ->
  exists r l',
    Prev (HI := HIc) invariants_Enabled cmp nI l = Ok r l'
    /\ Inv cmp fs store l'
    /\ if sPos it <=? 0 then
         yieldsBack cmp fs store (lower l) (upper l) (q - 1) r
       else
         match nth_error (fileKeys store f) (Z.to_nat (sPos it - 1)) with
         | Some x =>
           if inBounds cmp (lower l) (upper l) x then
             r = Some (InnerKV x)
             /\ l' = set_iter (Some (sst_move it (sPos it - 1)))
                       (set_largestBoundary None l)
           else yieldsBack cmp fs store (lower l) (upper l) (q - 1) r
         | None => yieldsBack cmp fs store (lower l) (upper l) (q - 1) r
         end.
Proof. exact (Prev_within_file q f it l). Qed.

(** X28 ([Next] then [Prev]): on a well-formed state with no slot registered,
    not exhausted and not paused at a boundary, whose inner iterator stands
    on a key [x] of the current file that is followed in the file by a key
    [y], both within the bounds: [Next] returns [y], and [Prev] called then
    returns [x] and leaves the iterator in the state it started from. *)
Theorem Next_then_Prev_round_trip (q : Z) (f : fileMetadata) (it : sstIter)
  (l : SL) (x y : InternalKV) :
  Inv cmp fs store l -> rangeDelIterPtr l = None -> exhaustedDir l = 0 ->
  smallestBoundary l = None -> largestBoundary l = None ->
  iter l = Some it -> files l = cursorAt fs q -> fileAt fs q = Some f ->
  0 <= sPos it ->
  nth_error (fileKeys store f) (Z.to_nat (sPos it)) = Some x ->
  nth_error (fileKeys store f) (Z.to_nat (sPos it + 1)) = Some y ->
  inBounds cmp (lower l) (upper l) x = true ->
  inBounds cmp (lower l) (upper l) y = true ->
  exists l1,
    Next (HI := HIc) invariants_Enabled cmp nI l = Ok (Some (InnerKV y)) l1
    /\ Prev (HI := HIc) invariants_Enabled cmp nI l1
       = Ok (Some (InnerKV x)) l.
Proof.
  intros Hinv Hnone Hdir Hsb Hlb Eit Hfiles Hq Hpos Ex Ey Bx By.
  destruct (Next_within_file q f it l Hinv Hnone ltac:(lia) Hlb Eit Hfiles Hq
              ltac:(lia))
    as (r & l1 & E & Hinv1 & H).
  rewrite Ey, By in H. destruct H as [-> ->].
  eexists. split; [exact E |].
  set (l1 := set_iter (Some (sst_move it (sPos it + 1)))
               (set_smallestBoundary None l)) in *.
  destruct (Prev_within_file q f (sst_move it (sPos it + 1)) l1 Hinv1 Hnone
              ltac:(simpl; lia) eq_refl eq_refl Hfiles Hq)
    as (r2 & l2 & E2 & _ & H2).
  change (sPos (sst_move it (sPos it + 1))) with (sPos it + 1) in H2.
  destruct (Z.leb_spec (sPos it + 1) 0) as [| _]; [lia |].
  replace (sPos it + 1 - 1) with (sPos it) in H2 by lia.
  change (lower l1) with (lower l) in H2.
  change (upper l1) with (upper l) in H2.
  rewrite Ex, Bx in H2. destruct H2 as [-> ->].
  rewrite E2. f_equal.
  subst l1.
  destruct l as [lo up topts sb lb syb cs it0 itf ptr cpy fls er ex di tr].
  destruct it as [ks ps slo sup se sce].
  simpl in *. subst. reflexivity.
Qed.

(** X29 ([Prev] then [Next]): on a well-formed state with no slot registered,
    not exhausted and not paused at a boundary, whose inner iterator stands
    on a key [x] of the current file that is preceded in the file by a key
    [y], both within the bounds: [Prev] returns [y], and [Next] called then
    returns [x] and leaves the iterator in the state it started from. *)
Theorem Prev_then_Next_round_trip (q : Z) (f : fileMetadata) (it : sstIter)
  (l : SL) (x y : InternalKV) :
  Inv cmp fs store l -> rangeDelIterPtr l = None -> exhaustedDir l = 0 ->
  smallestBoundary l = None -> largestBoundary l = None ->
  iter l = Some it -> files l = cursorAt fs q -> fileAt fs q = Some f ->
  0 < sPos it ->
  nth_error (fileKeys store f) (Z.to_nat (sPos it)) = Some x ->
  nth_error (fileKeys store f) (Z.to_nat (sPos it - 1)) = Some y ->
  inBounds cmp (lower l) (upper l) x = true ->
  inBounds cmp (lower l) (upper l) y = true ->
  exists l1,
    Prev (HI := HIc) invariants_Enabled cmp nI l = Ok (Some (InnerKV y)) l1
    /\ Next (HI := HIc) invariants_Enabled cmp nI l1
       = Ok (Some (InnerKV x)) l.
Proof.
  intros Hinv Hnone Hdir Hsb Hlb Eit Hfiles Hq Hpos Ex Ey Bx By.
  destruct (Prev_within_file q f it l Hinv Hnone ltac:(lia) Hsb Eit Hfiles Hq)
    as (r & l1 & E & Hinv1 & H).
  destruct (Z.leb_spec (sPos it) 0) as [| _]; [lia |].
  rewrite Ey, By in H. destruct H as [-> ->].
  eexists. split; [exact E |].
  set (l1 := set_iter (Some (sst_move it (sPos it - 1)))
               (set_largestBoundary None l)) in *.
  destruct (Next_within_file q f (sst_move it (sPos it - 1)) l1 Hinv1 Hnone
              ltac:(simpl; lia) eq_refl eq_refl Hfiles Hq
              ltac:(simpl; lia))
    as (r2 & l2 & E2 & _ & H2).
  change (sPos (sst_move it (sPos it - 1))) with (sPos it - 1) in H2.
  replace (sPos it - 1 + 1) with (sPos it) in H2 by lia.
  change (lower l1) with (lower l) in H2.
  change (upper l1) with (upper l) in H2.
  rewrite Ex, Bx in H2. destruct H2 as [-> ->].
  rewrite E2. f_equal.
  subst l1.
  destruct l as [lo up topts sb lb syb cs it0 itf ptr cpy fls er ex di tr].
  destruct it as [ks ps slo sup se sce].
  simpl in *. subst. reflexivity.
Qed.

(** Where [find_index] stops. *)
Lemma find_index_first {A : Type} (P : A -> bool) (ks : list A) (k : nat)
  (x : A) :
  nth_error ks k = Some x -> P x = true ->
  (forall j z, (j < k)%nat -> nth_error ks j = Some z -> P z = false) ->
  find_index P ks = k.
Proof.
  revert k. induction ks as [| y ks IH]; intros k Hk Hx Hb.
  - destruct k; discriminate Hk.
  - simpl. destruct k as [| k].
    + simpl in Hk. injection Hk as ->. rewrite Hx. reflexivity.
    + rewrite (Hb O y) by (simpl; first [lia | reflexivity]).
      f_equal. apply IH; [exact Hk | exact Hx |].
      intros j z Hj Hz. apply (Hb (S j) z); [lia | exact Hz].
Qed.

(** X30 ([NextPrefix] within a file): on a well-formed state that is not
    paused at an upper boundary, if the current file holds, after the
    position of the inner iterator, a key at or after [succKey] that lies
    within the bounds, and every key between the position and it is before
    [succKey], then [NextPrefix] returns that key and moves the inner
    iterator to it, leaving the cursor where it is. *)
Theorem NextPrefix_yields_first_key_at_or_after (succKey : bytes) (q : Z)
  (f : fileMetadata) (it : sstIter) (l : SL) (p : nat) (x : InternalKV) :
  Inv cmp fs store l -> largestBoundary l = None -> iter l = Some it ->
  files l = cursorAt fs q -> fileAt fs q = Some f ->
  sPos it < Z.of_nat p ->
  nth_error (fileKeys store f) p = Some x ->
  cmp (userOf x) succKey >= 0 ->
  (forall j z, sPos it < Z.of_nat j -> (j < p)%nat ->
               nth_error (fileKeys store f) j = Some z ->
               cmp (userOf z) succKey < 0) ->
  inBounds cmp (lower l) (upper l) x = true ->
  NextPrefix (HI := HIc) invariants_Enabled cmp nI succKey l
  = Ok (Some (InnerKV x))
       (set_iter (Some (sst_move it (Z.of_nat p)))
          (set_smallestBoundary None l)).
Proof.
  intros Hinv Hlb Eit Hfiles Hq Hpos Ex Hx Hbefore Bx.
  pose proof (Inv_Inv0 cmp fs store l Hinv) as Hinv0.
  unfold NextPrefix.
  assert (He : err l = None) by apply Hinv0.
  rewrite He, Eit, Hlb. cbn [is_some orb negb].
  unfold bind at 1. unfold modify at 1.
  set (l1 := set_smallestBoundary None l).
  assert (Hl1 : loadedAt cmp fs store q l l1).
  { split; [apply (Inv_same cmp fs store l l1); auto |].
    split; [simpl; rewrite Eit; discriminate |].
    split; [exact Hfiles | unfold framed; simpl; tauto]. }
  destruct (loadedAt_file cmp fs store q l l1 Hl1)
    as (it0 & f0 & t & Eit0 & Hif & Hq0 & Hin & Hp & Ht & Htok & Hok & Hov
        & Hto & Hqn).
  assert (it0 = it) by (simpl in Eit0; congruence). subst it0.
  assert (f0 = f) by congruence. subst f0.
  unfold bind at 1. unfold iter_call.
  change (iter l1) with (iter l). rewrite Eit.
  change (iterNextPrefix (InternalIterator := HIc) succKey it)
    with (sst_NextPrefix cmp succKey it).
  unfold sst_NextPrefix.
  assert (Hk : sKeys it = fileKeys store f).
  { destruct Hok as (Hk & _).
    rewrite Hk, (fileKeys_table store f t Hp Ht). reflexivity. }
  rewrite Hk.
  set (start := Z.to_nat (Z.max (sPos it + 1) 0)).
  assert (Hs : (start <= p)%nat) by (subst start; lia).
  assert (Ei : find_index (fun kv => cmp (UserKey (K kv)) succKey >=? 0)
                 (skipn start (fileKeys store f)) = (p - start)%nat).
  { apply (find_index_first _ _ _ x).
    - rewrite nth_error_skipn. replace (start + (p - start))%nat with p by lia.
      exact Ex.
    - apply Z.geb_le. unfold userOf in Hx. lia.
    - intros j z Hj Hz. rewrite nth_error_skipn in Hz.
      assert (Hlt : cmp (userOf z) succKey < 0).
      { apply (Hbefore (start + j)%nat z); [subst start; lia | lia | exact Hz]. }
      unfold userOf in Hlt.
      destruct (Z.geb_spec (cmp (UserKey (K z)) succKey) 0); [lia | reflexivity]. }
  rewrite Ei. replace (start + (p - start))%nat with p by lia.
  destruct (sst_goto_ok cmp it t _ (Z.of_nat p) Hok) as [-> _].
  rewrite (sst_at_file (lower l) (upper l) f t it (Z.of_nat p) Hp Ht Htok Hok
             ltac:(lia)).
  rewrite Nat2Z.id, Ex, Bx.
  unfold verify_inner. apply verify_inside. simpl. exact Bx.
Qed.

End Steps.

Lemma onA_inner : iter Walks.onA = Some (Walks.innerAC 0).
Proof. vm_compute. reflexivity. Qed.

Lemma onC_run :
  Next (HI := sstIterOps DefaultCompare DefaultSplit) true DefaultCompare
    (sstNewIters Examples.twoStore) Walks.onA
  = Ok (Some (InnerKV (Sst.kvOf "c"))) Walks.onC.
Proof. vm_compute. reflexivity. Qed.

Lemma onC_inner : iter Walks.onC = Some (Walks.innerAC 1).
Proof. vm_compute. reflexivity. Qed.

Lemma onC_cursor : files Walks.onC = cursorAt Examples.twoFiles 0.
Proof. vm_compute. reflexivity. Qed.

Lemma onC_Inv :
  Inv DefaultCompare Examples.twoFiles Examples.twoStore Walks.onC.
Proof.
  pose proof (Next_outcomeOK true DefaultCompare DefaultSplit
                Examples.twoFiles Examples.twoStore DefaultComparer_laws
                twoFiles_levelOK twoStore_storeOK Walks.onA onA_Inv) as H.
  rewrite onC_run in H. apply H.
Qed.

Lemma onA_no_slot : rangeDelIterPtr Walks.onA = None.
Proof. vm_compute. reflexivity. Qed.

Lemma onA_not_backward : exhaustedDir Walks.onA <> -1.
Proof. vm_compute. discriminate. Qed.

Lemma onA_not_paused : largestBoundary Walks.onA = None.
Proof. vm_compute. reflexivity. Qed.

Lemma innerAC_from : -1 <= sPos (Walks.innerAC 0).
Proof. vm_compute. discriminate. Qed.

Lemma onC_no_slot : rangeDelIterPtr Walks.onC = None.
Proof. vm_compute. reflexivity. Qed.

Lemma onC_not_forward : exhaustedDir Walks.onC <> 1.
Proof. vm_compute. discriminate. Qed.

Lemma onC_not_paused : smallestBoundary Walks.onC = None.
Proof. vm_compute. reflexivity. Qed.

Lemma twoFiles_first :
  fileAt Examples.twoFiles 0 = Some (Sst.fileOf 1 "a" "c").
Proof. reflexivity. Qed.

Lemma Next_steps_to_following_key_witness :
  exists r l',
    Next (HI := sstIterOps DefaultCompare DefaultSplit) true DefaultCompare
      (sstNewIters Examples.twoStore) Walks.onA = Ok r l'
    /\ Inv DefaultCompare Examples.twoFiles Examples.twoStore l'
    /\ match nth_error (fileKeys Examples.twoStore (Sst.fileOf 1 "a" "c"))
               (Z.to_nat (sPos (Walks.innerAC 0) + 1)) with
       | Some x =>
         if inBounds DefaultCompare (lower Walks.onA) (upper Walks.onA) x then
           r = Some (InnerKV x)
           /\ l' = set_iter
                     (Some (sst_move (Walks.innerAC 0)
                              (sPos (Walks.innerAC 0) + 1)))
                     (set_smallestBoundary None Walks.onA)
         else yieldsFrom DefaultCompare Examples.twoFiles Examples.twoStore
                (lower Walks.onA) (upper Walks.onA) (0 + 1) r
       | None => yieldsFrom DefaultCompare Examples.twoFiles Examples.twoStore
                   (lower Walks.onA) (upper Walks.onA) (0 + 1) r
       end.
Proof.
  exact (Next_steps_to_following_key true DefaultCompare DefaultSplit
           Examples.twoFiles Examples.twoStore DefaultComparer_laws
           twoFiles_levelOK twoStore_storeOK 0 (Sst.fileOf 1 "a" "c")
           (Walks.innerAC 0) Walks.onA onA_Inv onA_no_slot
           onA_not_backward onA_not_paused onA_inner onA_cursor
           twoFiles_first innerAC_from).
Defined.

Lemma Prev_steps_to_preceding_key_witness :
  exists r l',
    Prev (HI := sstIterOps DefaultCompare DefaultSplit) true DefaultCompare
      (sstNewIters Examples.twoStore) Walks.onC = Ok r l'
    /\ Inv DefaultCompare Examples.twoFiles Examples.twoStore l'
    /\ if sPos (Walks.innerAC 1) <=? 0 then
         yieldsBack DefaultCompare Examples.twoFiles Examples.twoStore
           (lower Walks.onC) (upper Walks.onC) (0 - 1) r
       else
         match nth_error (fileKeys Examples.twoStore (Sst.fileOf 1 "a" "c"))
                 (Z.to_nat (sPos (Walks.innerAC 1) - 1)) with
         | Some x =>
           if inBounds DefaultCompare (lower Walks.onC)
                (upper Walks.onC) x then
             r = Some (InnerKV x)
             /\ l' = set_iter
                       (Some (sst_move (Walks.innerAC 1)
                                (sPos (Walks.innerAC 1) - 1)))
                       (set_largestBoundary None Walks.onC)
           else yieldsBack DefaultCompare Examples.twoFiles Examples.twoStore
                  (lower Walks.onC) (upper Walks.onC) (0 - 1) r
         | None => yieldsBack DefaultCompare Examples.twoFiles
                     Examples.twoStore (lower Walks.onC)
                     (upper Walks.onC) (0 - 1) r
         end.
Proof.
  exact (Prev_steps_to_preceding_key true DefaultCompare DefaultSplit
           Examples.twoFiles Examples.twoStore DefaultComparer_laws
           twoFiles_levelOK twoStore_storeOK 0 (Sst.fileOf 1 "a" "c")
           (Walks.innerAC 1) Walks.onC onC_Inv onC_no_slot
           onC_not_forward onC_not_paused onC_inner onC_cursor
           twoFiles_first).
Defined.

Lemma onA_dir : exhaustedDir Walks.onA = 0.
Proof. vm_compute. reflexivity. Qed.

Lemma onA_no_smallest : smallestBoundary Walks.onA = None.
Proof. vm_compute. reflexivity. Qed.

Lemma onC_dir : exhaustedDir Walks.onC = 0.
Proof. vm_compute. reflexivity. Qed.

Lemma onC_no_largest : largestBoundary Walks.onC = None.
Proof. vm_compute. reflexivity. Qed.

Lemma innerAC_second : 0 < sPos (Walks.innerAC 1).
Proof. reflexivity. Qed.

Lemma innerAC_first : 0 <= sPos (Walks.innerAC 0).
Proof. vm_compute. discriminate. Qed.

Lemma firstFile_key (p : Z) (u : bytes) :
  nth_error (map Sst.kvOf ["a"; "c"]) (Z.to_nat p) = Some (Sst.kvOf u) ->
  nth_error (fileKeys Examples.twoStore (Sst.fileOf 1 "a" "c")) (Z.to_nat p)
  = Some (Sst.kvOf u).
Proof. intros H. exact H. Qed.

Lemma unbounded_inBounds (l : SL) (x : InternalKV) :
  lower l = None -> upper l = None ->
  inBounds DefaultCompare (lower l) (upper l) x = true.
Proof. intros -> ->. reflexivity. Qed.

Lemma onA_unbounded : lower Walks.onA = None /\ upper Walks.onA = None.
Proof. vm_compute. split; reflexivity. Qed.

Lemma onC_unbounded : lower Walks.onC = None /\ upper Walks.onC = None.
Proof. vm_compute. split; reflexivity. Qed.

Lemma Next_then_Prev_round_trip_witness :
  exists l1,
    Next (HI := sstIterOps DefaultCompare DefaultSplit) true DefaultCompare
      (sstNewIters Examples.twoStore) Walks.onA
    = Ok (Some (InnerKV (Sst.kvOf "c"))) l1
    /\ Prev (HI := sstIterOps DefaultCompare DefaultSplit) true
         DefaultCompare (sstNewIters Examples.twoStore) l1
       = Ok (Some (InnerKV (Sst.kvOf "a"))) Walks.onA.
Proof.
  exact (Next_then_Prev_round_trip true DefaultCompare DefaultSplit
           Examples.twoFiles Examples.twoStore DefaultComparer_laws
           twoFiles_levelOK twoStore_storeOK 0 (Sst.fileOf 1 "a" "c")
           (Walks.innerAC 0) Walks.onA (Sst.kvOf "a") (Sst.kvOf "c")
           onA_Inv onA_no_slot onA_dir onA_no_smallest onA_not_paused
           onA_inner onA_cursor twoFiles_first innerAC_first
           (firstFile_key 0 "a" eq_refl) (firstFile_key 1 "c" eq_refl)
           (unbounded_inBounds Walks.onA _ (proj1 onA_unbounded)
              (proj2 onA_unbounded))
           (unbounded_inBounds Walks.onA _ (proj1 onA_unbounded)
              (proj2 onA_unbounded))).
Defined.

Lemma Prev_then_Next_round_trip_witness :
  exists l1,
    Prev (HI := sstIterOps DefaultCompare DefaultSplit) true DefaultCompare
      (sstNewIters Examples.twoStore) Walks.onC
    = Ok (Some (InnerKV (Sst.kvOf "a"))) l1
    /\ Next (HI := sstIterOps DefaultCompare DefaultSplit) true
         DefaultCompare (sstNewIters Examples.twoStore) l1
       = Ok (Some (InnerKV (Sst.kvOf "c"))) Walks.onC.
Proof.
  exact (Prev_then_Next_round_trip true DefaultCompare DefaultSplit
           Examples.twoFiles Examples.twoStore DefaultComparer_laws
           twoFiles_levelOK twoStore_storeOK 0 (Sst.fileOf 1 "a" "c")
           (Walks.innerAC 1) Walks.onC (Sst.kvOf "c") (Sst.kvOf "a")
           onC_Inv onC_no_slot onC_dir onC_not_paused onC_no_largest
           onC_inner onC_cursor twoFiles_first innerAC_second
           (firstFile_key 1 "c" eq_refl) (firstFile_key 0 "a" eq_refl)
           (unbounded_inBounds Walks.onC _ (proj1 onC_unbounded)
              (proj2 onC_unbounded))
           (unbounded_inBounds Walks.onC _ (proj1 onC_unbounded)
              (proj2 onC_unbounded))).
Defined.

Lemma c_after_b : DefaultCompare (userOf (Sst.kvOf "c")) "b" >= 0.
Proof. vm_compute. discriminate. Qed.

Lemma innerAC_before_second : sPos (Walks.innerAC 0) < Z.of_nat 1.
Proof. reflexivity. Qed.

Lemma nothing_between (j : nat) (z : InternalKV) :
  sPos (Walks.innerAC 0) < Z.of_nat j -> (j < 1)%nat ->
  nth_error (fileKeys Examples.twoStore (Sst.fileOf 1 "a" "c")) j = Some z ->
  DefaultCompare (userOf z) "b" < 0.
Proof. simpl. lia. Qed.

Lemma NextPrefix_yields_first_key_at_or_after_witness :
  NextPrefix (HI := sstIterOps DefaultCompare DefaultSplit) true
    DefaultCompare (sstNewIters Examples.twoStore) "b" Walks.onA
  = Ok (Some (InnerKV (Sst.kvOf "c")))
       (set_iter (Some (sst_move (Walks.innerAC 0) (Z.of_nat 1)))
          (set_smallestBoundary None Walks.onA)).
Proof.
  exact (NextPrefix_yields_first_key_at_or_after true DefaultCompare
           DefaultSplit Examples.twoFiles Examples.twoStore
           DefaultComparer_laws "b" 0
           (Sst.fileOf 1 "a" "c") (Walks.innerAC 0) Walks.onA 1%nat
           (Sst.kvOf "c") onA_Inv onA_not_paused onA_inner onA_cursor
           twoFiles_first innerAC_before_second (firstFile_key 1 "c" eq_refl)
           c_after_b nothing_between
           (unbounded_inBounds Walks.onA _ (proj1 onA_unbounded)
              (proj2 onA_unbounded))).
Defined.
